(** * UGC Ad Director Assistant: the generation pipeline, verified

    A shallow embedding of the browser application's orchestration code:

    - [types.ts]              the records exchanged between the stages;
    - [services/geminiService.ts]
                              the service layer ([generateImage],
                              [generateOpeningFrameWithActor], [generateVideo]
                              with its polling loop, [generateSpeech] with
                              [decode] and [getWavHeader], and the thin
                              wrappers around one remote call);
    - [App.tsx]               [handleGenerateAd], the eight-step pipeline with
                              the opening-frame QC retry loop, the
                              [catch]/[finally] handlers and the React state
                              setters;
    - [components/InputForm.tsx]
                              [handleSubmit], the form guard in front of the
                              pipeline.

    The remote model and the browser are a [Host]: a record of operations on
    an abstract world [W].  A computation is a function from the state (world
    and React state) to an outcome, a new state and the list of events it
    emitted, in order.  Every remote call and every React setter is an event,
    so that "is never called", "is called at most three times" and "is
    notified in this order" are properties of a list. *)

From Stdlib Require Import String Ascii List ZArith QArith Lia Bool Arith.
From Stdlib Require Import DecimalString Sorted.
Import ListNotations.

Local Close Scope Q_scope.
Local Open Scope list_scope.
Local Open Scope string_scope.

(* ================================================================== *)
(** * JavaScript values used by the code *)
(* ================================================================== *)

Module JS.

(** A thrown value.  [new Error(msg)] carries a message; a rejection with
    something that is not an [Error] (the [ProgressEvent] that
    [reader.onerror] passes to [reject]) has no [message] property.  A
    thrown value is an object: reading [e.message] of it gives a string or
    [undefined].  A rejection with [undefined] or [null], on which
    [e.message] itself throws, is not a value of this type; no statement
    below says that a run can be rejected in one way only. *)
Record Exn : Type := mkExn { message : option string }.

Definition Error (msg : string) : Exn := mkExn (Some msg).

(** A settled promise. *)
Inductive Settled (X : Type) : Type :=
| Resolved (x : X)
| Rejected (e : Exn).
Arguments Resolved {X} x.
Arguments Rejected {X} e.

(** [String.prototype.includes]. *)
Fixpoint includes (needle hay : string) : bool :=
  String.prefix needle hay
  || match hay with
     | EmptyString => false
     | String _ rest => includes needle rest
     end.

(** [String.prototype.startsWith]. *)
Definition startsWith (p s : string) : bool := String.prefix p s.

(** A string is truthy when it is not empty. *)
Definition truthy (s : string) : bool :=
  match s with EmptyString => false | String _ _ => true end.

(** [`${n}`] for a non-negative integer. *)
Definition numToString (n : nat) : string :=
  NilEmpty.string_of_uint (Nat.to_uint n).

(** A [number] holding a rational: the header arithmetic divides by 8. *)
Definition number := Q.

Definition ofNat (n : nat) : number := inject_Z (Z.of_nat n).

(** Truncation toward zero, then reduction modulo [2^w]: the conversions
    [ToUint8], [ToUint16] and [ToUint32] that [DataView] setters apply. *)
Definition trunc (x : number) : Z := Z.quot (Qnum x) (Zpos (Qden x)).
Definition ToUint (w : Z) (x : number) : Z := (trunc x) mod (2 ^ w).

Definition charCode (c : ascii) : number := ofNat (nat_of_ascii c).

End JS.

Import JS.

(* ================================================================== *)
(** * [ArrayBuffer], [DataView] and [Uint8Array] *)
(* ================================================================== *)

Module Buffer.
Local Open Scope list_scope.

(** A byte is a [Z] in [0, 256). *)
Definition bytes := list Z.

(** [new ArrayBuffer(n)] and [new Uint8Array(n)]: zero filled. *)
Definition alloc (n : nat) : bytes := repeat 0%Z n.

(** One byte written at [off]; [None] is the [RangeError] of a write past
    the end. *)
Fixpoint store (off : nat) (v : Z) (buf : bytes) : option bytes :=
  match buf, off with
  | [], _ => None
  | _ :: rest, O => Some (v :: rest)
  | b :: rest, S k =>
      match store k v rest with
      | Some rest' => Some (b :: rest')
      | None => None
      end
  end.

(** [w] bytes of [v], least significant first. *)
Fixpoint leBytes (w : nat) (v : Z) : list Z :=
  match w with
  | O => []
  | S k => (v mod 256)%Z :: leBytes k (v / 256)%Z
  end.

(** A run of bytes written from [off] on. *)
Fixpoint storeAll (off : nat) (vs : list Z) (buf : bytes) : option bytes :=
  match vs with
  | [] => Some buf
  | v :: rest =>
      match store off v buf with
      | Some buf' => storeAll (S off) rest buf'
      | None => None
      end
  end.

(** [view.setUint8(off, v)], [view.setUint16(off, v, littleEndian)] and
    [view.setUint32(off, v, littleEndian)]. *)
Definition setUint8 (off : nat) (v : number) (buf : bytes) : option bytes :=
  store off (ToUint 8 v) buf.

Definition setUint16 (off : nat) (v : number) (littleEndian : bool)
    (buf : bytes) : option bytes :=
  let bs := leBytes 2 (ToUint 16 v) in
  storeAll off (if littleEndian then bs else rev bs) buf.

Definition setUint32 (off : nat) (v : number) (littleEndian : bool)
    (buf : bytes) : option bytes :=
  let bs := leBytes 4 (ToUint 32 v) in
  storeAll off (if littleEndian then bs else rev bs) buf.

(** The readers a consumer of the container uses. *)
Definition getUint8 (off : nat) (buf : bytes) : option Z := nth_error buf off.

Fixpoint ofLeBytes (bs : list Z) : Z :=
  match bs with
  | [] => 0
  | b :: rest => b + 256 * ofLeBytes rest
  end%Z.

Definition slice (off len : nat) (buf : bytes) : option (list Z) :=
  if (off + len <=? length buf)%nat then Some (firstn len (skipn off buf)) else None.

Definition getUint (w : nat) (off : nat) (littleEndian : bool) (buf : bytes)
    : option Z :=
  match slice off w buf with
  | Some bs => Some (ofLeBytes (if littleEndian then bs else rev bs))
  | None => None
  end.

Definition getUint16 := getUint 2.
Definition getUint32 := getUint 4.

(** [dst.set(src, off)] of a typed array; [None] is its [RangeError]. *)
Definition set (src : bytes) (off : nat) (dst : bytes) : option bytes :=
  if (off + length src <=? length dst)%nat
  then Some (firstn off dst ++ src ++ skipn (off + length src) dst)
  else None.

(** The bytes of an ASCII text, as a consumer compares a magic marker. *)
Definition ascii_bytes (s : string) : list Z :=
  map (fun c => Z.of_nat (nat_of_ascii c)) (list_ascii_of_string s).

End Buffer.

(* ================================================================== *)
(** * [getWavHeader] and the container built by [generateSpeech] *)
(* ================================================================== *)

Module Wav.
Import Buffer.
Local Open Scope list_scope.

Definition andThen {A B} (o : option A) (k : A -> option B) : option B :=
  match o with Some a => k a | None => None end.

Notation "o >>= k" := (andThen o k) (at level 50, left associativity).

(** [getWavHeader(dataLength, sampleRate, numChannels, bitsPerSample)]. *)
Definition getWavHeader (dataLength sampleRate numChannels bitsPerSample : number)
    : option bytes :=
  let buffer := alloc 44 in
  let blockAlign := (numChannels * bitsPerSample / inject_Z 8)%Q in
  let byteRate := (sampleRate * blockAlign)%Q in
  Some buffer
    >>= setUint8 0 (charCode "R") >>= setUint8 1 (charCode "I")
    >>= setUint8 2 (charCode "F") >>= setUint8 3 (charCode "F")
    >>= setUint32 4 (inject_Z 36 + dataLength)%Q true
    >>= setUint8 8 (charCode "W") >>= setUint8 9 (charCode "A")
    >>= setUint8 10 (charCode "V") >>= setUint8 11 (charCode "E")
    >>= setUint8 12 (charCode "f") >>= setUint8 13 (charCode "m")
    >>= setUint8 14 (charCode "t") >>= setUint8 15 (charCode " ")
    >>= setUint32 16 (inject_Z 16) true
    >>= setUint16 20 (inject_Z 1) true
    >>= setUint16 22 numChannels true
    >>= setUint32 24 sampleRate true
    >>= setUint32 28 byteRate true
    >>= setUint16 32 blockAlign true
    >>= setUint16 34 bitsPerSample true
    >>= setUint8 36 (charCode "d") >>= setUint8 37 (charCode "a")
    >>= setUint8 38 (charCode "t") >>= setUint8 39 (charCode "a")
    >>= setUint32 40 dataLength true.

(** The format constants of [generateSpeech]. *)
Definition sampleRate : number := inject_Z 24000.
Definition numChannels : number := inject_Z 1.
Definition bitsPerSample : number := inject_Z 16.

(** The lines of [generateSpeech] between [decode] and the [Blob]: the
    header for [audioBytes.length], then both copied into a fresh array. *)
Definition wavBytes (audioBytes : bytes) : option bytes :=
  getWavHeader (ofNat (length audioBytes)) sampleRate numChannels bitsPerSample
    >>= fun header =>
  set header 0 (alloc (length header + length audioBytes))
    >>= set audioBytes (length header).

End Wav.

(* ================================================================== *)
(** * [types.ts] *)
(* ================================================================== *)

(** A browser [File]: its media type and its content. *)
Record File : Type := mkFile { fileType : string; fileContent : list Z }.

Inductive Platform : Type := TikTok | Reels | YouTubeShorts | Meta.

Definition platformText (p : Platform) : string :=
  match p with
  | TikTok => "TikTok"
  | Reels => "Reels"
  | YouTubeShorts => "YouTube Shorts"
  | Meta => "Meta"
  end.

Inductive AspectRatio : Type := Portrait | Landscape.

Definition aspectRatioText (a : AspectRatio) : string :=
  match a with Portrait => "9:16" | Landscape => "16:9" end.

Module UserInput.
Record t : Type := mk {
  productImage : option File;
  actorImage : option File;
  productDescription : string;
  cta : string;
  platform : Platform;
  aspectRatio : AspectRatio;
  videoLength : Z;
  tone : string;
  generateVoiceover : bool
}.
End UserInput.

Record ImageData : Type := mkImageData { base64 : string; mimeType : string }.

Record AdConcept : Type := mkAdConcept {
  adTitle : string;
  adIdea : string;
  adDescription : string;
  openingFramePrompt : string
}.

Record ImageValidationResult : Type := mkValidation {
  isValid : bool;
  suggestion : string
}.

Module FinalOutput.
Record t : Type := mk {
  ad_title : string;
  ad_idea : string;
  ad_description : string;
  platform : string;
  aspect_ratio : string;
  cta_line : string;
  tone : string;
  opening_frame_prompt : string;
  opening_frame_image_url : string;
  veo_prompt : string;
  veo_video_url : string;
  qc_notes : string;
  ad_copy_variations : list string;
  hashtags : list string;
  voiceover_audio_url : option string
}.
End FinalOutput.

Record ProgressUpdate : Type := mkProgress { step : nat; message : string }.

(* ================================================================== *)
(** * What the remote service and the browser return *)
(* ================================================================== *)

(** One part of a [generateContent] candidate; [inlineData] may be absent. *)
Record Part : Type := mkPart { inlineData : option ImageData }.

(** [result.candidates?.[0]]: its [content?.parts] and its [finishReason]. *)
Record ContentResponse : Type := mkContent {
  parts : option (list Part);
  finishReason : option string
}.

(** A video operation: [done], [error] (with its optional [message]) and
    [response?.generatedVideos?.[0]?.video?.uri]. *)
Record Operation : Type := mkOperation {
  done : bool;
  opError : option (option string);
  videoUri : option string
}.

Record Blob : Type := mkBlob { blobBytes : list Z; blobType : string }.

(** A [fetch] response: [ok], [statusText] and what [blob()] settles to. *)
Record FetchResponse : Type := mkFetch {
  ok : bool;
  statusText : string;
  blob : Settled Blob
}.

Record AdAssets : Type := mkAssets {
  adCopyVariations : list string;
  hashtags : list string
}.

(** The host: the remote model behind [getAiClient()], [window.aistudio],
    [FileReader], [fetch], [atob] and [URL.createObjectURL].  Every operation
    reads and advances an abstract world [W]; a remote operation stands for
    the request that the service function builds from its arguments and for
    the parse of the reply ([result.text], [JSON.parse(result.text)]), so a
    reply that does not parse is a rejection.  [getAiClient()] only builds
    the client object and sends nothing; it has no event of its own. *)
Record Host (W : Type) : Type := mkHost {
  aistudio : W -> bool;
  hasSelectedApiKey : W -> Settled bool * W;
  openSelectKey : W -> Settled unit * W;
  API_KEY : string;
  (** [readAsDataURL] and the payload after the comma of its result. *)
  readAsDataURL : File -> W -> Settled string * W;
  (** What [readAsDataURL(null)] throws. *)
  notABlob : Exn;
  atob : string -> Settled string;
  createObjectURL : Blob -> W -> string * W;
  fetch : string -> W -> Settled FetchResponse * W;
  ai_analyzeImage : ImageData -> W -> Settled string * W;
  ai_generateAdConcept : string -> string -> string -> W -> Settled AdConcept * W;
  ai_generateOpeningFrameWithActor :
    string -> ImageData -> W -> Settled ContentResponse * W;
  ai_generateImages :
    string -> AspectRatio -> W -> Settled (option (list string)) * W;
  ai_validateImage : ImageData -> W -> Settled ImageValidationResult * W;
  ai_generateVideoDirectorPrompt :
    AdConcept -> UserInput.t -> W -> Settled string * W;
  ai_generateVideos :
    string -> ImageData -> AspectRatio -> W -> Settled Operation * W;
  ai_getVideosOperation : Operation -> W -> Settled Operation * W;
  ai_generateAdAssets : string -> string -> string -> W -> Settled AdAssets * W;
  (** [result.candidates?.[0]?.content?.parts?.[0]?.inlineData?.data]. *)
  ai_generateSpeech : string -> W -> Settled (option string) * W
}.

Arguments aistudio {W}.
Arguments hasSelectedApiKey {W}.
Arguments openSelectKey {W}.
Arguments API_KEY {W}.
Arguments readAsDataURL {W}.
Arguments notABlob {W}.
Arguments atob {W}.
Arguments createObjectURL {W}.
Arguments fetch {W}.
Arguments ai_analyzeImage {W}.
Arguments ai_generateAdConcept {W}.
Arguments ai_generateOpeningFrameWithActor {W}.
Arguments ai_generateImages {W}.
Arguments ai_validateImage {W}.
Arguments ai_generateVideoDirectorPrompt {W}.
Arguments ai_generateVideos {W}.
Arguments ai_getVideosOperation {W}.
Arguments ai_generateAdAssets {W}.
Arguments ai_generateSpeech {W}.

(** What a run does that the outside can see, in order. *)
Inductive Event : Type :=
| SetIsLoading (b : bool)
| SetError (e : option string)
| SetResult (r : option FinalOutput.t)
| SetApiKeySelected (b : bool)
| SetProgress (p : ProgressUpdate)
| ConsoleError
| PreventDefault
| Alert (msg : string)
| SetTimeout (ms : Z)
| HasSelectedApiKey (r : Settled bool)
| OpenSelectKey (r : Settled unit)
| ReadAsDataURL (f : File) (r : Settled string)
| CreateObjectURL (b : Blob) (url : string)
| Fetch (url : string) (r : Settled FetchResponse)
| AnalyzeImage (img : ImageData) (r : Settled string)
| GenerateAdConcept (analysis description tone : string) (r : Settled AdConcept)
| GenerateOpeningFrameWithActor (prompt : string) (actor : ImageData)
    (r : Settled ContentResponse)
| GenerateImages (prompt : string) (ar : AspectRatio)
    (r : Settled (option (list string)))
| ValidateImage (img : ImageData) (r : Settled ImageValidationResult)
| GenerateVideoDirectorPrompt (c : AdConcept) (data : UserInput.t)
    (r : Settled string)
| GenerateVideos (prompt : string) (frame : ImageData) (ar : AspectRatio)
    (r : Settled Operation)
| GetVideosOperation (op : Operation) (r : Settled Operation)
| GenerateAdAssets (description cta tone : string) (r : Settled AdAssets)
| GenerateSpeech (text : string) (r : Settled (option string)).

(** The React state of [App]. *)
Record AppState : Type := mkApp {
  isLoading : bool;
  progress : ProgressUpdate;
  error : option string;
  result : option FinalOutput.t;
  apiKeySelected : option bool
}.

Definition idle : ProgressUpdate := mkProgress 0 EmptyString.

(** [useState] initial values. *)
Definition initialApp : AppState := mkApp false idle None None None.

(* ================================================================== *)
(** * Computations *)
(* ================================================================== *)

(** How an [async] function ends: it returns, it throws, or its promise is
    still pending when the polling fuel runs out. *)
Inductive Outcome (A : Type) : Type :=
| Ok (a : A)
| Throw (e : Exn)
| Pending.
Arguments Ok {A} a.
Arguments Throw {A} e.
Arguments Pending {A}.

(** A computation advances the world and emits events.  The React state is
    not threaded: the code only writes it (the callback closes over nothing
    it reads back), so the state after a run is the replay of the setter
    calls, [appAfter] below. *)
Definition M (W A : Type) : Type := W -> Outcome A * W * list Event.

Section Monad.
Context {W : Type}.

Definition ret {A} (a : A) : M W A := fun w => (Ok a, w, []).

Definition throw {A} (e : Exn) : M W A := fun w => (Throw e, w, []).

Definition pending {A} : M W A := fun w => (Pending, w, []).

Definition bind {A B} (m : M W A) (k : A -> M W B) : M W B :=
  fun w =>
    match m w with
    | (Ok a, w1, l1) => let '(o, w2, l2) := k a w1 in (o, w2, (l1 ++ l2)%list)
    | (Throw e, w1, l1) => (Throw e, w1, l1)
    | (Pending, w1, l1) => (Pending, w1, l1)
    end.

(** A call that returns nothing and cannot fail: a React setter,
    [console.error], [alert], a timer. *)
Definition emit (e : Event) : M W unit := fun w => (Ok tt, w, [e]).

(** An awaited host operation: a rejection is thrown at the [await]. *)
Definition await {X} (op : W -> Settled X * W) (ev : Settled X -> Event)
    : M W X :=
  fun w =>
    let '(r, w') := op w in
    (match r with Resolved x => Ok x | Rejected e => Throw e end, w', [ev r]).

(** A host operation that cannot fail. *)
Definition perform {X} (op : W -> X * W) (ev : X -> Event) : M W X :=
  fun w => let '(x, w') := op w in (Ok x, w', [ev x]).

(** A settled value that is already there (a synchronous call that may
    throw). *)
Definition settle {X} (r : Settled X) : M W X :=
  match r with Resolved x => ret x | Rejected e => throw e end.

(** [try { body } catch (e) { handler(e) }]. *)
Definition tryCatch {A} (body : M W A) (handler : Exn -> M W A) : M W A :=
  fun w =>
    match body w with
    | (Throw e, w1, l1) =>
        let '(o, w2, l2) := handler e w1 in (o, w2, (l1 ++ l2)%list)
    | r => r
    end.

(** [try { body } finally { fin }]: [fin] runs after a return and after a
    throw, and the throw goes on afterwards; a pending [body] never gets
    there. *)
Definition tryFinally {A} (body : M W A) (fin : M W unit) : M W A :=
  fun w =>
    match body w with
    | (Pending, w1, l1) => (Pending, w1, l1)
    | (o, w1, l1) =>
        match fin w1 with
        | (Ok _, w2, l2) => (o, w2, (l1 ++ l2)%list)
        | (Throw e, w2, l2) => (Throw e, w2, (l1 ++ l2)%list)
        | (Pending, w2, l2) => (Pending, w2, (l1 ++ l2)%list)
        end
    end.

(** A [for] loop over the values of [i], with [break]. *)
Inductive LoopStep (S : Type) : Type :=
| Continue (s : S)
| Break (s : S).

Fixpoint forEach {S} (range : list nat) (body : nat -> S -> M W (LoopStep S))
    (st : S) : M W S :=
  match range with
  | [] => ret st
  | i :: rest =>
      bind (body i st) (fun r =>
        match r with
        | Break _ st' => ret st'
        | Continue _ st' => forEach rest body st'
        end)
  end.

End Monad.

Arguments Continue {S} s.
Arguments Break {S} s.

Declare Scope js_scope.
Delimit Scope js_scope with js.
Notation "x <- m ;; k" := (bind m (fun x => k))
  (at level 61, m at next level, right associativity) : js_scope.
Notation "' p <- m ;; k" := (bind m (fun x => match x with p => k end))
  (at level 61, p pattern, m at next level, right associativity) : js_scope.
Notation "m ;; k" := (bind m (fun _ => k))
  (at level 61, right associativity) : js_scope.
Local Open Scope js_scope.

(** The three projections of a run. *)
Definition outcome {W A} (r : Outcome A * W * list Event) : Outcome A :=
  fst (fst r).
Definition final {W A} (r : Outcome A * W * list Event) : W :=
  snd (fst r).
Definition events {W A} (r : Outcome A * W * list Event) : list Event :=
  snd r.

(** The React state after the setter calls of [evs]. *)
Definition applyEvent (a : AppState) (e : Event) : AppState :=
  match e with
  | SetIsLoading b => mkApp b (progress a) (error a) (result a) (apiKeySelected a)
  | SetProgress p => mkApp (isLoading a) p (error a) (result a) (apiKeySelected a)
  | SetError e => mkApp (isLoading a) (progress a) e (result a) (apiKeySelected a)
  | SetResult r => mkApp (isLoading a) (progress a) (error a) r (apiKeySelected a)
  | SetApiKeySelected b =>
      mkApp (isLoading a) (progress a) (error a) (result a) (Some b)
  | _ => a
  end.

Definition appAfter (a : AppState) (evs : list Event) : AppState :=
  fold_left applyEvent evs a.

(** [a || d] for an optional string: [undefined] and the empty string are
    falsy. *)
Definition orElse (a : option string) (d : string) : string :=
  match a with
  | Some s => if truthy s then s else d
  | None => d
  end.

(* ================================================================== *)
(** * [services/geminiService.ts] *)
(* ================================================================== *)

Definition POLLING_INTERVAL : Z := 10000.

Section GeminiService.
Context {W : Type} (host : Host W).

Definition analyzeImage (imageData : ImageData) : M W string :=
  await (ai_analyzeImage host imageData) (AnalyzeImage imageData).

Definition generateAdConcept (imageAnalysis productDescription tone : string)
    : M W AdConcept :=
  await (ai_generateAdConcept host imageAnalysis productDescription tone)
        (GenerateAdConcept imageAnalysis productDescription tone).

(** The [for (const part of parts)] loop: the first part that has
    [inlineData]. *)
Fixpoint firstInlineData (ps : list Part) : option ImageData :=
  match ps with
  | [] => None
  | p :: rest =>
      match inlineData p with
      | Some d => Some d
      | None => firstInlineData rest
      end
  end.

Definition generateOpeningFrameWithActor (prompt : string) (actorImage : ImageData)
    : M W ImageData :=
  res <- await (ai_generateOpeningFrameWithActor host prompt actorImage)
               (GenerateOpeningFrameWithActor prompt actorImage) ;;
  match parts res with
  | None =>
      emit ConsoleError ;;
      throw (Error ("Image generation with actor failed. The request may have been blocked due to safety settings (Finish Reason: "
                    ++ orElse (finishReason res) "Not specified"
                    ++ "). Please try using a different actor image."))
  | Some ps =>
      match firstInlineData ps with
      | Some d => ret (mkImageData (base64 d) (mimeType d))
      | None =>
          throw (Error "Image generation with actor failed: No image data found in the response.")
      end
  end.

Definition generateImage (prompt : string) (aspectRatio : AspectRatio)
    : M W string :=
  res <- await (ai_generateImages host prompt aspectRatio)
               (GenerateImages prompt aspectRatio) ;;
  match res with
  | None | Some [] => throw (Error "Image generation failed to produce an image.")
  | Some (imageBytes :: _) => ret imageBytes
  end.

Definition validateImage (imageData : ImageData) : M W ImageValidationResult :=
  await (ai_validateImage host imageData) (ValidateImage imageData).

Definition generateVideoDirectorPrompt (concept : AdConcept) (userInput : UserInput.t)
    : M W string :=
  await (ai_generateVideoDirectorPrompt host concept userInput)
        (GenerateVideoDirectorPrompt concept userInput).

(** [while (!operation.done) { ... }]: one unit of fuel per turn; without
    fuel the promise of [generateVideo] stays pending. *)
Fixpoint pollLoop (fuel : nat) (onProgress : string -> M W unit)
    (operation : Operation) (pollCount : nat) : M W Operation :=
  if done operation then ret operation
  else
    match fuel with
    | O => pending
    | S fuel' =>
        emit (SetTimeout POLLING_INTERVAL) ;;
        onProgress ("Polling for video status (Attempt #"
                    ++ numToString pollCount ++ ")...") ;;
        operation' <- await (ai_getVideosOperation host operation)
                            (GetVideosOperation operation) ;;
        pollLoop fuel' onProgress operation' (S pollCount)
    end.

Definition generateVideo (fuel : nat) (prompt : string) (openingFrame : ImageData)
    (aspectRatio : AspectRatio) (onProgress : string -> M W unit) : M W string :=
  onProgress "Starting video generation with Veo..." ;;
  operation <- await (ai_generateVideos host prompt openingFrame aspectRatio)
                     (GenerateVideos prompt openingFrame aspectRatio) ;;
  onProgress "Video processing initiated. This can take several minutes. Polling for status..." ;;
  operation <- pollLoop fuel onProgress operation 1 ;;
  match opError operation with
  | Some msg =>
      emit ConsoleError ;;
      throw (Error ("Video generation failed: " ++ orElse msg "Unknown error"))
  | None =>
      match videoUri operation with
      | None | Some EmptyString =>
          emit ConsoleError ;;
          throw (Error "Video generation completed, but no video URI was found.")
      | Some downloadLink =>
          onProgress "Video generated successfully! Fetching video data..." ;;
          let url := downloadLink ++ "&key=" ++ API_KEY host in
          videoResponse <- await (fetch host url) (Fetch url) ;;
          if negb (ok videoResponse)
          then throw (Error ("Failed to download video. Status: "
                             ++ statusText videoResponse))
          else
            videoBlob <- settle (blob videoResponse) ;;
            perform (createObjectURL host videoBlob) (CreateObjectURL videoBlob)
      end
  end.

Definition generateAdAssets (productDescription cta tone : string) : M W AdAssets :=
  await (ai_generateAdAssets host productDescription cta tone)
        (GenerateAdAssets productDescription cta tone).

(** [decode]: [atob], then one byte per character code. *)
Definition decode (base64 : string) : M W Buffer.bytes :=
  binaryString <- settle (atob host base64) ;;
  ret (Buffer.ascii_bytes binaryString).

Definition generateSpeech (text : string) : M W string :=
  res <- await (ai_generateSpeech host text) (GenerateSpeech text) ;;
  match res with
  | None | Some EmptyString => throw (Error "TTS generation failed.")
  | Some base64Audio =>
      audioBytes <- decode base64Audio ;;
      match Wav.wavBytes audioBytes with
      | None => throw (Error "RangeError")
      | Some wavBytes =>
          perform (createObjectURL host (mkBlob wavBytes "audio/wav"))
                  (CreateObjectURL (mkBlob wavBytes "audio/wav"))
      end
  end.

End GeminiService.

(* ================================================================== *)
(** * [App.tsx] *)
(* ================================================================== *)

Definition TOTAL_STEPS : nat := 8.

(** The line feed of [`\nActor Analysis: ...`]. *)
Definition LF : string := String (ascii_of_nat 10) EmptyString.

(** The state of the QC loop: the concept whose prompt it amends, the last
    frame it produced and the note it leaves. *)
Record QcState : Type := mkQc {
  concept : AdConcept;
  openingFrameData : option ImageData;
  qcNotes : string
}.

Section App.
Context {W : Type} (host : Host W).

Definition setIsLoading (b : bool) : M W unit := emit (SetIsLoading b).
Definition setProgress (p : ProgressUpdate) : M W unit := emit (SetProgress p).
Definition setError (e : option string) : M W unit := emit (SetError e).
Definition setResult (r : option FinalOutput.t) : M W unit := emit (SetResult r).
Definition setApiKeySelected (b : bool) : M W unit := emit (SetApiKeySelected b).

Definition updateProgress (step : nat) (message : string) : M W unit :=
  setProgress (mkProgress step message).

(** [fileToBase64]; [data.productImage!] hands it [null] when the form
    guard was not passed. *)
Definition fileToBase64 (file : option File) : M W ImageData :=
  match file with
  | None => throw (notABlob host)
  | Some f =>
      payload <- await (readAsDataURL host f) (ReadAsDataURL f) ;;
      ret (mkImageData payload (fileType f))
  end.

(** The API key check in front of the [try]. *)
Definition apiKeyCheck : M W unit :=
  fun w =>
    (if aistudio host w
     then hasKey <- await (hasSelectedApiKey host) HasSelectedApiKey ;;
          if negb hasKey
          then await (openSelectKey host) OpenSelectKey ;;
               setApiKeySelected true
          else ret tt
     else ret tt) w.

(** STAGE 1, first half: both analyses. *)
Definition analyzeImages (data : UserInput.t) : M W (string * option ImageData) :=
  updateProgress 1 "Analyzing images..." ;;
  productImageData <- fileToBase64 (UserInput.productImage data) ;;
  imageAnalysis <- analyzeImage host productImageData ;;
  actorImageData <-
    match UserInput.actorImage data with
    | Some f => d <- fileToBase64 (Some f) ;; ret (Some d)
    | None => ret None
    end ;;
  match actorImageData with
  | Some actor =>
      actorAnalysis <- analyzeImage host actor ;;
      ret (imageAnalysis ++ LF ++ "Actor Analysis: " ++ actorAnalysis,
           actorImageData)
  | None => ret (imageAnalysis, actorImageData)
  end.

Definition amend (c : AdConcept) (suggestion : string) : AdConcept :=
  mkAdConcept (adTitle c) (adIdea c) (adDescription c)
              (openingFramePrompt c ++ ". IMPORTANT FIX: " ++ suggestion).

(** One turn of [for (let i = 1; i <= 3; i++)]. *)
Definition qcAttempt (data : UserInput.t) (actorImageData : option ImageData)
    (i : nat) (st : QcState) : M W (LoopStep QcState) :=
  updateProgress 3 ("Generating opening frame (Attempt " ++ numToString i ++ "/3)...") ;;
  frame <-
    match actorImageData with
    | Some actor =>
        generateOpeningFrameWithActor host (openingFramePrompt (concept st)) actor
    | None =>
        openingFrameB64 <- generateImage host (openingFramePrompt (concept st))
                                         (UserInput.aspectRatio data) ;;
        ret (mkImageData openingFrameB64 "image/jpeg")
    end ;;
  updateProgress 4 ("Validating frame (Attempt " ++ numToString i ++ "/3)...") ;;
  validationResult <- validateImage host frame ;;
  if isValid validationResult
  then ret (Break (mkQc (concept st) (Some frame)
                        (if (1 <? i)%nat
                         then "QC passed on attempt " ++ numToString i ++ "."
                         else qcNotes st)))
  else ret (Continue (mkQc (amend (concept st) (suggestion validationResult))
                           (Some frame)
                           (if (i =? 3)%nat
                            then "QC failed after 3 attempts. Using best available image. Final issue: "
                                 ++ suggestion validationResult
                            else "Attempt " ++ numToString i ++ " failed QC: "
                                 ++ suggestion validationResult
                                 ++ ". Refining prompt."))).

Definition qcLoop (data : UserInput.t) (actorImageData : option ImageData)
    (c : AdConcept) : M W QcState :=
  forEach (seq 1 3) (qcAttempt data actorImageData)
          (mkQc c None "QC passed on first attempt.").

Definition dataUrl (d : ImageData) : string :=
  "data:" ++ mimeType d ++ ";base64," ++ base64 d.

(** The final output: the record literal handed to [setResult]. *)
Definition finalOutput (data : UserInput.t) (c : AdConcept)
    (openingFrameUrl veoPrompt videoUrl qcNotes : string)
    (adAssets : AdAssets) (voiceoverUrl : option string) : FinalOutput.t :=
  FinalOutput.mk
    (adTitle c)
    (adIdea c)
    (adDescription c)
    (platformText (UserInput.platform data))
    (aspectRatioText (UserInput.aspectRatio data))
    (UserInput.cta data)
    (UserInput.tone data)
    (openingFramePrompt c)
    openingFrameUrl
    veoPrompt
    videoUrl
    qcNotes
    (adCopyVariations adAssets)
    (hashtags adAssets)
    voiceoverUrl.

(** The callback handed to [generateVideo]:
    [(message) => updateProgress(6, message)]. *)
Definition onVideoProgress (message : string) : M W unit :=
  updateProgress 6 message.

(** STAGE 2 and the final output. *)
Definition finishAd (fuel : nat) (data : UserInput.t) (qc : QcState) : M W unit :=
  match openingFrameData qc with
  | None => throw (Error "Failed to generate a valid opening frame.")
  | Some frame =>
      let openingFrameUrl := dataUrl frame in
      updateProgress 5 "Writing video script..." ;;
      veoPrompt <- generateVideoDirectorPrompt host (concept qc) data ;;
      updateProgress 6 "Generating video (this may take a few minutes)..." ;;
      videoUrl <- generateVideo host fuel veoPrompt frame (UserInput.aspectRatio data)
                    onVideoProgress ;;
      voiceoverUrl <-
        (if UserInput.generateVoiceover data
         then
           updateProgress 7 "Generating voiceover..." ;;
           u <- generateSpeech host ("Say with a " ++ UserInput.tone data
                                     ++ " tone: " ++ UserInput.cta data) ;;
           ret (Some u)
         else ret None) ;;
      updateProgress 8 "Generating ad assets..." ;;
      adAssets <- generateAdAssets host (UserInput.productDescription data)
                    (UserInput.cta data) (UserInput.tone data) ;;
      setResult (Some (finalOutput data (concept qc) openingFrameUrl veoPrompt
                                   videoUrl (qcNotes qc) adAssets voiceoverUrl))
  end.

(** The body of the [try]. *)
Definition pipeline (fuel : nat) (data : UserInput.t) : M W unit :=
  '(imageAnalysis, actorImageData) <- analyzeImages data ;;
  updateProgress 2 "Generating ad concept..." ;;
  c <- generateAdConcept host imageAnalysis (UserInput.productDescription data)
                         (UserInput.tone data) ;;
  qc <- qcLoop data actorImageData c ;;
  finishAd fuel data qc.

Definition ENTITY_NOT_FOUND : string := "Requested entity was not found".

Definition API_KEY_MESSAGE : string :=
  "API Key not found or invalid. Please select a valid API key and try again.".

(** [e.message?.includes("Requested entity was not found")]. *)
Definition entityNotFound (e : Exn) : bool :=
  match JS.message e with
  | Some m => includes ENTITY_NOT_FOUND m
  | None => false
  end.

(** The [catch] block. *)
Definition onError (e : Exn) : M W unit :=
  emit ConsoleError ;;
  let errorMessage := orElse (JS.message e) "An unknown error occurred." in
  if entityNotFound e
  then setApiKeySelected false ;; setError (Some API_KEY_MESSAGE)
  else setError (Some errorMessage).

(** The [finally] block. *)
Definition onFinally : M W unit :=
  setIsLoading false ;;
  setProgress (mkProgress 0 EmptyString).

(** The [try] statement as a whole. *)
Definition tryPipeline (fuel : nat) (data : UserInput.t) : M W unit :=
  tryFinally (tryCatch (pipeline fuel data) onError) onFinally.

Definition handleGenerateAd (fuel : nat) (data : UserInput.t) : M W unit :=
  setIsLoading true ;;
  setError None ;;
  setResult None ;;
  apiKeyCheck ;;
  tryPipeline fuel data.

End App.

(* ================================================================== *)
(** * [components/InputForm.tsx] *)
(* ================================================================== *)

Section InputForm.
Context {W : Type}.

(** [handleSubmit], with the form's current [formData] and its [onSubmit]
    property. *)
Definition handleSubmit (formData : UserInput.t)
    (onSubmit : UserInput.t -> M W unit) : M W unit :=
  emit PreventDefault ;;
  match UserInput.productImage formData with
  | None => emit (Alert "Please upload a product image.")
  | Some _ => onSubmit formData
  end.

End InputForm.

(* ================================================================== *)
(** * A scripted host *)
(* ================================================================== *)

(** A host whose answers are written down in advance: the QC verdicts and the
    states of the video job are consumed one per call, the file reader and the
    asset call answer what the script says, and every other call succeeds
    with a fixed answer.  The image calls return the prompt as payload, so
    that the frames of different attempts can be told apart. *)
Module Scripted.

Record Script : Type := mkScript {
  verdicts : list ImageValidationResult;
  jobs : list Operation;
  reader : Settled string;
  assets : AdAssets
}.

Definition nextVerdict (w : Script) : Settled ImageValidationResult * Script :=
  match verdicts w with
  | v :: rest => (Resolved v, mkScript rest (jobs w) (reader w) (assets w))
  | [] => (Rejected (Error "no verdict left"), w)
  end.

Definition nextJob (w : Script) : Settled Operation * Script :=
  match jobs w with
  | op :: rest => (Resolved op, mkScript (verdicts w) rest (reader w) (assets w))
  | [] => (Rejected (Error "no job state left"), w)
  end.

Definition host : Host Script := {|
  aistudio := fun _ => false;
  hasSelectedApiKey := fun w => (Resolved true, w);
  openSelectKey := fun w => (Resolved tt, w);
  API_KEY := "k";
  readAsDataURL := fun _ w => (reader w, w);
  notABlob := Error "parameter 1 is not of type 'Blob'.";
  atob := fun s => Resolved s;
  createObjectURL := fun b w => ("blob:" ++ blobType b, w);
  fetch := fun _ w =>
    (Resolved (mkFetch true "OK" (Resolved (mkBlob [] "video/mp4"))), w);
  ai_analyzeImage := fun _ w => (Resolved "a red silk dress", w);
  ai_generateAdConcept := fun _ _ _ w =>
    (Resolved (mkAdConcept "Red" "Idea" "Short" "A model in a red dress"), w);
  ai_generateOpeningFrameWithActor := fun prompt _ w =>
    (Resolved (mkContent
                 (Some [mkPart None; mkPart (Some (mkImageData prompt "image/png"))])
                 None), w);
  ai_generateImages := fun prompt _ w => (Resolved (Some [prompt]), w);
  ai_validateImage := fun _ w => nextVerdict w;
  ai_generateVideoDirectorPrompt := fun _ _ w => (Resolved "One continuous scene", w);
  ai_generateVideos := fun _ _ _ w => nextJob w;
  ai_getVideosOperation := fun _ w => nextJob w;
  ai_generateAdAssets := fun _ _ _ w => (Resolved (assets w), w);
  ai_generateSpeech := fun _ w => (Resolved (Some "RIFF"), w)
|}.

Definition photo : File := mkFile "image/png" [137; 80; 78; 71]%Z.

Definition brief (product actor : option File) (voiceover : bool) : UserInput.t :=
  UserInput.mk product actor "A vibrant red summer dress made of silk."
               "Shop now" TikTok Portrait 8 "cinematic, luxury" voiceover.

Definition running : Operation := mkOperation false None None.
Definition finished : Operation := mkOperation true None (Some "https://v/1?alt=media").

Definition pass : ImageValidationResult := mkValidation true "Looks good".
Definition cutOff : ImageValidationResult := mkValidation false "Feet are cut off".
Definition sixFingers : ImageValidationResult := mkValidation false "Hand has six fingers".
Definition blurry : ImageValidationResult := mkValidation false "Product is blurry".

Definition goodAssets : AdAssets :=
  mkAssets ["Turn heads."; "Silk, but make it summer."; "Your red dress era."]
           ["summerdress"; "silk"; "ootd"; "fashion"; "reddress"].

Definition script (vs : list ImageValidationResult) (js : list Operation) : Script :=
  mkScript vs js (Resolved "iVBORw0KGgo=") goodAssets.

(** A run without actor and voiceover whose first frame fails QC and whose
    second passes, with a video job that is done at the second poll. *)
Definition retryBrief : UserInput.t := brief (Some photo) None false.
Definition retryScript : Script := script [cutOff; pass] [running; running; finished].
Definition retryEvents : list Event :=
  events (handleGenerateAd host 5 retryBrief retryScript).

(** A run with actor and voiceover whose three frames all fail QC. *)
Definition fullBrief : UserInput.t := brief (Some photo) (Some photo) true.
Definition exhaustedScript : Script :=
  script [cutOff; sixFingers; blurry] [finished].
Definition exhaustedEvents : list Event :=
  events (handleGenerateAd host 5 fullBrief exhaustedScript).

(** The same brief with a first frame that passes. *)
Definition passScript : Script := script [pass] [finished].
Definition passEvents : list Event :=
  events (handleGenerateAd host 5 fullBrief passScript).

(** The prompts and the frames of these runs. *)
Definition prompt1 : string := "A model in a red dress".
Definition prompt2 : string := prompt1 ++ ". IMPORTANT FIX: Feet are cut off".
Definition prompt3 : string := prompt2 ++ ". IMPORTANT FIX: Hand has six fingers".
Definition jpeg (p : string) : ImageData := mkImageData p "image/jpeg".
Definition png (p : string) : ImageData := mkImageData p "image/png".

(** A file reader that fails: with an event that has no message, with an
    error whose message is empty, with the failure signature of a missing
    key, and with another error. *)
Definition failing (e : Exn) : Script := mkScript [] [] (Rejected e) goodAssets.
Definition readerEvent : Exn := mkExn None.
Definition emptyError : Exn := Error EmptyString.
Definition keyError : Exn := Error "[404] Requested entity was not found.".
Definition quotaError : Exn := Error "Quota exceeded".

(** A reply of the ad-asset call that fits the response schema (two arrays
    of strings) and not the request. *)
Definition sloppyAssets : AdAssets := mkAssets ["Buy it."] ["#ad"; "#sale"].
Definition sloppyScript : Script :=
  mkScript [pass] [finished] (Resolved "iVBORw0KGgo=") sloppyAssets.

End Scripted.

(* ================================================================== *)
(** * The vocabulary of the properties *)
(* ================================================================== *)

Section ContainerContract.
Import Buffer Wav.
Local Open Scope Z_scope.

(** What a consumer of a canonical 44-byte-header container reads from
    [wav], for [n] bytes of 16-bit mono 24000 Hz samples. *)
Definition canonical_container (audioBytes wav : bytes) : Prop :=
  let n := Z.of_nat (length audioBytes) in
  length wav = (44 + length audioBytes)%nat /\
  slice 0 4 wav = Some (ascii_bytes "RIFF") /\
  getUint32 4 true wav = Some (36 + n) /\
  slice 8 4 wav = Some (ascii_bytes "WAVE") /\
  slice 12 4 wav = Some (ascii_bytes "fmt ") /\
  getUint32 16 true wav = Some 16 /\
  getUint16 20 true wav = Some 1 /\
  getUint16 22 true wav = Some 1 /\
  getUint32 24 true wav = Some 24000 /\
  getUint32 28 true wav = Some 48000 /\
  getUint16 32 true wav = Some 2 /\
  getUint16 34 true wav = Some 16 /\
  slice 36 4 wav = Some (ascii_bytes "data") /\
  getUint32 40 true wav = Some n /\
  skipn 44 wav = audioBytes.

End ContainerContract.

Section RunSpec.
Context {W : Type}.

(** [Spec m P]: every run of [m] ends with an outcome and a list of events
    that [P] relates.  There is no precondition and no partiality: [P]
    speaks of the three outcomes. *)
Definition Spec {A} (m : M W A) (P : Outcome A -> list Event -> Prop) : Prop :=
  forall w, P (outcome (m w)) (events (m w)).

(** [Only q m]: every event of every run of [m] is in the class [q]. *)
Definition Only (q : Event -> bool) {A} (m : M W A) : Prop :=
  Spec m (fun _ l => forallb q l = true).

End RunSpec.

(** The kinds of event that the properties below tell apart. *)
Inductive Kind : Type :=
| KProgress (n : nat)   (* a progress update, with its step *)
| KReport               (* [setError], [setResult], [setApiKeySelected] *)
| KGeneration           (* a frame generation call *)
| KValidation           (* a frame validation call *)
| KConcept              (* the concept call *)
| KAssets               (* the ad-asset call *)
| KOther.

Definition kind (e : Event) : Kind :=
  match e with
  | SetProgress p => KProgress (step p)
  | SetError _ | SetResult _ | SetApiKeySelected _ => KReport
  | GenerateImages _ _ _ | GenerateOpeningFrameWithActor _ _ _ => KGeneration
  | ValidateImage _ _ => KValidation
  | GenerateAdConcept _ _ _ _ => KConcept
  | GenerateAdAssets _ _ _ _ => KAssets
  | _ => KOther
  end.

(** A call to the host: the remote model, the file reader, the network, the
    key dialog. *)
Definition isHostCall (e : Event) : bool :=
  match e with
  | HasSelectedApiKey _ | OpenSelectKey _ | ReadAsDataURL _ _
  | CreateObjectURL _ _ | Fetch _ _ | AnalyzeImage _ _
  | GenerateAdConcept _ _ _ _ | GenerateOpeningFrameWithActor _ _ _
  | GenerateImages _ _ _ | ValidateImage _ _
  | GenerateVideoDirectorPrompt _ _ _ | GenerateVideos _ _ _ _
  | GetVideosOperation _ _ | GenerateAdAssets _ _ _ _ | GenerateSpeech _ _ => true
  | _ => false
  end.

Definition isProgress (e : Event) : bool :=
  match e with SetProgress _ => true | _ => false end.

(** The progress updates, in order. *)
Definition progressUpdates (evs : list Event) : list ProgressUpdate :=
  flat_map (fun e => match e with SetProgress p => [p] | _ => [] end) evs.

Definition progressSteps (evs : list Event) : list nat :=
  map step (progressUpdates evs).

Definition progressMessages (evs : list Event) : list string :=
  map message (progressUpdates evs).

(** The validated frames with their verdicts, in order. *)
Definition validations (evs : list Event)
    : list (ImageData * Settled ImageValidationResult) :=
  flat_map (fun e => match e with ValidateImage f r => [(f, r)] | _ => [] end) evs.

(** The prompts handed to frame generation, in order. *)
Definition framePrompts (evs : list Event) : list string :=
  flat_map (fun e => match e with
                     | GenerateImages p _ _
                     | GenerateOpeningFrameWithActor p _ _ => [p]
                     | _ => []
                     end) evs.

(** The frame calls of a run, generation and validation alike, in order. *)
Inductive FrameCall : Type :=
| Generated (prompt : string)
| Validated (frame : ImageData) (r : Settled ImageValidationResult).

Definition frameCalls (evs : list Event) : list FrameCall :=
  flat_map (fun e => match e with
                     | GenerateImages p _ _
                     | GenerateOpeningFrameWithActor p _ _ => [Generated p]
                     | ValidateImage f r => [Validated f r]
                     | _ => []
                     end) evs.

(** The replies of the concept call and of the ad-asset call. *)
Definition concepts (evs : list Event) : list (Settled AdConcept) :=
  flat_map (fun e => match e with GenerateAdConcept _ _ _ r => [r] | _ => [] end) evs.

Definition assetReplies (evs : list Event) : list (Settled AdAssets) :=
  flat_map (fun e => match e with GenerateAdAssets _ _ _ r => [r] | _ => [] end) evs.

(** The reports, in order. *)
Definition reports (evs : list Event) : list Event :=
  filter (fun e => match kind e with KReport => true | _ => false end) evs.

(** Event classes: what a part of the pipeline may emit. *)
Definition other (e : Event) : bool :=
  match kind e with KOther => true | _ => false end.

(** [other], or a progress update for step [n]. *)
Definition atStep (n : nat) (e : Event) : bool :=
  match kind e with
  | KOther => true
  | KProgress m => (m =? n)%nat
  | _ => false
  end.

(** [other], or a progress update for a step from [lo] to [hi]. *)
Definition between (lo hi : nat) (e : Event) : bool :=
  match kind e with
  | KOther => true
  | KProgress m => ((lo <=? m) && (m <=? hi))%nat
  | _ => false
  end.

(** What the QC loop may emit. *)
Definition inLoop (e : Event) : bool :=
  match kind e with
  | KOther | KGeneration | KValidation => true
  | KProgress m => ((3 <=? m) && (m <=? 4))%nat
  | _ => false
  end.

(** What the API key check may emit. *)
Definition inKeyCheck (e : Event) : bool :=
  match e with
  | HasSelectedApiKey _ | OpenSelectKey _ | SetApiKeySelected true => true
  | _ => false
  end.

(** The arguments of [setResult] and of [setError], in order. *)
Definition results (evs : list Event) : list (option FinalOutput.t) :=
  flat_map (fun e => match e with SetResult r => [r] | _ => [] end) evs.

Definition errors (evs : list Event) : list (option string) :=
  flat_map (fun e => match e with SetError r => [r] | _ => [] end) evs.

(** The two progress messages of attempt [i]. *)
Definition generatingMessage (i : nat) : string :=
  "Generating opening frame (Attempt " ++ numToString i ++ "/3)...".

Definition validatingMessage (i : nat) : string :=
  "Validating frame (Attempt " ++ numToString i ++ "/3)...".

Definition QC_PASSED_FIRST : string := "QC passed on first attempt.".

Definition QC_FAILED : string :=
  "QC failed after 3 attempts. Using best available image. Final issue: ".

Definition IMPORTANT_FIX : string := ". IMPORTANT FIX: ".

(** What one frame generation with prompt [p] emits: the remote call of
    either service, and [console.error] after a reply without parts. *)
Inductive Generation (p : string) : list Event -> Prop :=
| GenerationImages ar r :
    Generation p [GenerateImages p ar r]
| GenerationActor actor r :
    Generation p [GenerateOpeningFrameWithActor p actor r]
| GenerationActorNoParts actor r :
    Generation p [GenerateOpeningFrameWithActor p actor r; ConsoleError].

(** The four ways one attempt can go. *)
Inductive AttemptRun (i : nat) (st : QcState)
    : Outcome (LoopStep QcState) -> list Event -> Prop :=
| AttemptNoFrame e g :
    Generation (openingFramePrompt (concept st)) g ->
    AttemptRun i st (Throw e)
      (SetProgress (mkProgress 3 (generatingMessage i)) :: g)%list
| AttemptNoVerdict frame e g :
    Generation (openingFramePrompt (concept st)) g ->
    AttemptRun i st (Throw e)
      (SetProgress (mkProgress 3 (generatingMessage i)) :: g
       ++ [SetProgress (mkProgress 4 (validatingMessage i));
           ValidateImage frame (Rejected e)])%list
| AttemptValid frame v g :
    Generation (openingFramePrompt (concept st)) g ->
    isValid v = true ->
    AttemptRun i st
      (Ok (Break (mkQc (concept st) (Some frame)
                       (if (1 <? i)%nat
                        then "QC passed on attempt " ++ numToString i ++ "."
                        else qcNotes st))))
      (SetProgress (mkProgress 3 (generatingMessage i)) :: g
       ++ [SetProgress (mkProgress 4 (validatingMessage i));
           ValidateImage frame (Resolved v)])%list
| AttemptInvalid frame v g :
    Generation (openingFramePrompt (concept st)) g ->
    isValid v = false ->
    AttemptRun i st
      (Ok (Continue (mkQc (amend (concept st) (suggestion v)) (Some frame)
                          (if (i =? 3)%nat
                           then QC_FAILED ++ suggestion v
                           else "Attempt " ++ numToString i ++ " failed QC: "
                                ++ suggestion v ++ ". Refining prompt."))))
      (SetProgress (mkProgress 3 (generatingMessage i)) :: g
       ++ [SetProgress (mkProgress 4 (validatingMessage i));
           ValidateImage frame (Resolved v)])%list.

(** The runs of a loop whose turns run as [B] says. *)
Inductive LoopRun {S : Type}
    (B : nat -> S -> Outcome (LoopStep S) -> list Event -> Prop)
    : list nat -> S -> Outcome S -> list Event -> Prop :=
| LoopEnd st :
    LoopRun B [] st (Ok st) []
| LoopBreak i rest st st' l :
    B i st (Ok (Break st')) l ->
    LoopRun B (i :: rest) st (Ok st') l
| LoopContinue i rest st st' l1 o l2 :
    B i st (Ok (Continue st')) l1 ->
    LoopRun B rest st' o l2 ->
    LoopRun B (i :: rest) st o (l1 ++ l2)%list
| LoopThrow i rest st e l :
    B i st (Throw e) l ->
    LoopRun B (i :: rest) st (Throw e) l
| LoopPending i rest st l :
    B i st Pending l ->
    LoopRun B (i :: rest) st Pending l.

(** Events of STAGE 2 in front of the ad-asset step: no frame, concept or
    asset call, no report, and progress steps that climb from [lo] to at
    most 8. *)
Definition Body (lo : nat) (b : list Event) : Prop :=
  forallb (between lo 8) b = true /\ Sorted le (lo :: progressSteps b).

Definition ASSETS_STEP : ProgressUpdate := mkProgress 8 "Generating ad assets...".

Definition SCRIPT_STEP : ProgressUpdate := mkProgress 5 "Writing video script...".

(** How STAGE 2 ends: it stopped before the ad-asset step, the ad-asset call
    was rejected, or the output was set. *)
Inductive Tail (data : UserInput.t) (qc : QcState) (frame : ImageData)
    : Outcome unit -> list Event -> Prop :=
| TailNone o :
    o <> Ok tt -> Tail data qc frame o []
| TailRejected e :
    Tail data qc frame (Throw e)
      [SetProgress ASSETS_STEP;
       GenerateAdAssets (UserInput.productDescription data) (UserInput.cta data)
                        (UserInput.tone data) (Rejected e)]
| TailDone veoPrompt videoUrl voiceoverUrl adAssets :
    Tail data qc frame (Ok tt)
      [SetProgress ASSETS_STEP;
       GenerateAdAssets (UserInput.productDescription data) (UserInput.cta data)
                        (UserInput.tone data) (Resolved adAssets);
       SetResult (Some (finalOutput data (concept qc) (dataUrl frame) veoPrompt
                                    videoUrl (qcNotes qc) adAssets voiceoverUrl))].

Definition Rest (data : UserInput.t) (qc : QcState) (frame : ImageData)
    (lo : nat) (o : Outcome unit) (l : list Event) : Prop :=
  exists b t, l = (b ++ t)%list /\ Body lo b /\ Tail data qc frame o t.

(** The runs of [finishAd]. *)
Inductive FinishRun (data : UserInput.t) (qc : QcState)
    : Outcome unit -> list Event -> Prop :=
| FinishNoFrame :
    openingFrameData qc = None ->
    FinishRun data qc (Throw (Error "Failed to generate a valid opening frame.")) []
| FinishNoScript frame e :
    openingFrameData qc = Some frame ->
    FinishRun data qc (Throw e)
      [SetProgress SCRIPT_STEP;
       GenerateVideoDirectorPrompt (concept qc) data (Rejected e)]
| FinishScript frame veoPrompt o l :
    openingFrameData qc = Some frame ->
    Rest data qc frame 6 o l ->
    FinishRun data qc o
      (SetProgress SCRIPT_STEP
       :: GenerateVideoDirectorPrompt (concept qc) data (Resolved veoPrompt) :: l).

(** What follows a loop that ended with [ol]. *)
Definition AfterLoop (data : UserInput.t) (ol : Outcome QcState)
    (o : Outcome unit) (s : list Event) : Prop :=
  match ol with
  | Ok qc => FinishRun data qc o s
  | Throw e => o = Throw e /\ s = []
  | Pending => o = Pending /\ s = []
  end.

Definition CONCEPT_STEP : ProgressUpdate := mkProgress 2 "Generating ad concept...".

(** The runs of [pipeline]: it stops in the analyses, or at the concept call,
    or it runs the loop and what follows. *)
Inductive PipelineRun (data : UserInput.t) : Outcome unit -> list Event -> Prop :=
| RunNoAnalysis o a :
    forallb (atStep 1) a = true -> progressSteps a = [1] ->
    o <> Ok tt ->
    PipelineRun data o a
| RunNoConcept a analysis e :
    forallb (atStep 1) a = true -> progressSteps a = [1] ->
    PipelineRun data (Throw e)
      (a ++ [SetProgress CONCEPT_STEP;
             GenerateAdConcept analysis (UserInput.productDescription data)
                               (UserInput.tone data) (Rejected e)])%list
| RunLoop a analysis c ol l o s :
    forallb (atStep 1) a = true -> progressSteps a = [1] ->
    LoopRun AttemptRun [1; 2; 3] (mkQc c None QC_PASSED_FIRST) ol l ->
    forallb inLoop l = true ->
    AfterLoop data ol o s ->
    PipelineRun data o
      (a ++ [SetProgress CONCEPT_STEP;
             GenerateAdConcept analysis (UserInput.productDescription data)
                               (UserInput.tone data) (Resolved c)]
         ++ l ++ s)%list.

(** The message that the [catch] block surfaces for [e], and what it emits. *)
Definition surfaced (e : Exn) : string :=
  if entityNotFound e
  then API_KEY_MESSAGE
  else orElse (JS.message e) "An unknown error occurred.".

Definition caught (e : Exn) : list Event :=
  ConsoleError
  :: (if entityNotFound e then [SetApiKeySelected false] else [])
  ++ [SetError (Some (surfaced e))].

Definition RESET : list Event := [SetIsLoading false; SetProgress idle].

(** The runs of the [try] statement. *)
Inductive TryRun (data : UserInput.t) : Outcome unit -> list Event -> Prop :=
| TryDone p :
    PipelineRun data (Ok tt) p -> TryRun data (Ok tt) (p ++ RESET)%list
| TryCaught e p :
    PipelineRun data (Throw e) p ->
    TryRun data (Ok tt) (p ++ caught e ++ RESET)%list
| TryPending p :
    PipelineRun data Pending p -> TryRun data Pending p.

(** The runs of [handleGenerateAd]. *)
Inductive HandleRun (data : UserInput.t) : Outcome unit -> list Event -> Prop :=
| HandleNoKey o k :
    forallb inKeyCheck k = true -> o <> Ok tt ->
    HandleRun data o ([SetIsLoading true; SetError None; SetResult None] ++ k)%list
| HandleTry o k t :
    forallb inKeyCheck k = true -> TryRun data o t ->
    HandleRun data o ([SetIsLoading true; SetError None; SetResult None] ++ k ++ t)%list.

(** A part of a run that shows nothing to the observers of the loop, of the
    concept and asset calls, and of the outcome. *)
Definition quiet (l : list Event) : Prop :=
  frameCalls l = [] /\ framePrompts l = [] /\ validations l = []
  /\ concepts l = [] /\ assetReplies l = [] /\ reports l = [].

(** What a run whose [pipeline] ended with [po] shows of its loop [l] and
    of its STAGE 2 [s]. *)
Definition Shows (data : UserInput.t) (po : Outcome unit) (evs l s : list Event)
    : Prop :=
  frameCalls evs = frameCalls l /\ framePrompts evs = framePrompts l
  /\ validations evs = validations l /\ assetReplies evs = assetReplies s
  /\ (forall e, In e s -> In e evs)
  /\ ((l = [] /\ s = [] /\ po <> Ok tt /\ forall c, concepts evs <> [Resolved c])
      \/ exists c ol,
           concepts evs = [Resolved c]
           /\ LoopRun AttemptRun [1; 2; 3] (mkQc c None QC_PASSED_FIRST) ol l
           /\ AfterLoop data ol po s).

(** How the outcome of the [try] statement and the errors it sets follow
    from the outcome [po] of [pipeline]. *)
Definition Settles (po o : Outcome unit) (errs : list (option string)) : Prop :=
  match po with
  | Ok _ => o = Ok tt /\ errs = []
  | Throw e => o = Ok tt /\ errs = [Some (surfaced e)]
  | Pending => o = Pending /\ errs = []
  end.

(** The note and the frame of an output delivered after three failed
    attempts, the third with verdict [v3] on frame [f3]. *)
Definition bestEffort (f3 : ImageData) (v3 : ImageValidationResult)
    (out : FinalOutput.t) : Prop :=
  FinalOutput.qc_notes out = QC_FAILED ++ suggestion v3
  /\ includes "3" (FinalOutput.qc_notes out) = true
  /\ includes (suggestion v3) (FinalOutput.qc_notes out) = true
  /\ FinalOutput.opening_frame_image_url out
     = "data:" ++ mimeType f3 ++ ";base64," ++ base64 f3.

(** A reply of the ad-asset call that follows the request: three copy
    variations, five hashtags, none with a leading [#]. *)
Definition wellFormedAssets (a : AdAssets) : Prop :=
  length (adCopyVariations a) = 3
  /\ length (hashtags a) = 5
  /\ Forall (fun h => startsWith "#" h = false) (hashtags a).

(** Two consecutive steps: the second is not smaller, or it is the step back
    from validating (4) to generating (3) of a QC retry. *)
Definition stepOk (a b : nat) : Prop := a <= b \/ (a = 4 /\ b = 3).

(** Steps from [lo] to 8 in which every two consecutive ones are [stepOk]. *)
Definition Climb (lo : nat) (l : list nat) : Prop :=
  Sorted stepOk l /\ Forall (fun n => lo <= n <= 8) l.

(** The claim as the spec words it: no step is smaller than an earlier one. *)
Definition nonDecreasing (l : list nat) : Prop :=
  forall i j a b, i < j -> nth_error l i = Some a -> nth_error l j = Some b -> a <= b.

Definition pollingMessage (k : nat) : string :=
  "Polling for video status (Attempt #" ++ numToString k ++ ")...".

(** One turn of the polling loop: the 10-second timer, the progress message
    with the counter, the poll. *)
Definition pollTick (k : nat) (op : Operation) (r : Settled Operation) : list Event :=
  [SetTimeout 10000;
   SetProgress (mkProgress 6 (pollingMessage k));
   GetVideosOperation op r].

(** The runs of the polling loop that starts at counter [k] with the job state
    [op]: it ends at once when the job is done; otherwise it ticks, and goes
    on with the next counter and the state that the poll returned. *)
Inductive PollRun : nat -> Operation -> Outcome Operation -> list Event -> Prop :=
| PollDone k op :
    done op = true -> PollRun k op (Ok op) []
| PollOutOfFuel k op :
    done op = false -> PollRun k op Pending []
| PollRejected k op e :
    done op = false -> PollRun k op (Throw e) (pollTick k op (Rejected e))
| PollAgain k op op' o l :
    done op = false -> PollRun (S k) op' o l ->
    PollRun k op o (pollTick k op (Resolved op') ++ l)%list.

(** The messages of [generateVideo] around the polling. *)
Definition VIDEO_STARTING : string := "Starting video generation with Veo...".

Definition VIDEO_INITIATED : string :=
  "Video processing initiated. This can take several minutes. Polling for status...".

Definition VIDEO_DONE : string := "Video generated successfully! Fetching video data...".

(** A job state that the download can start from: no error, and a URI that
    is not empty. *)
Definition usable (op : Operation) : Prop :=
  opError op = None /\ exists c uri, videoUri op = Some (String c uri).

(** A host on which STAGE 2 can only succeed, from every world: the script
    call, the submission of the video job, every poll and the ad-asset call
    are answered; a job that is reported done has no error and has a URI;
    the download is answered with an [ok] response that has a blob; the
    speech call is answered with a payload that is not empty and that
    [atob] decodes. *)
Record Stage2Succeeds {W : Type} (host : Host W) : Prop := mkStage2 {
  script_answered : forall c d w,
    exists p w', ai_generateVideoDirectorPrompt host c d w = (Resolved p, w');
  job_answered : forall p f ar w,
    exists op w', ai_generateVideos host p f ar w = (Resolved op, w')
                  /\ (done op = true -> usable op);
  poll_answered : forall op w,
    exists op' w', ai_getVideosOperation host op w = (Resolved op', w')
                   /\ (done op' = true -> usable op');
  download_answered : forall url w,
    exists resp w' b, fetch host url w = (Resolved resp, w')
                      /\ ok resp = true /\ blob resp = Resolved b;
  speech_answered : forall t w,
    exists b64 w' bin, ai_generateSpeech host t w = (Resolved (Some b64), w')
                       /\ b64 <> EmptyString /\ atob host b64 = Resolved bin;
  assets_answered : forall d c t w,
    exists a w', ai_generateAdAssets host d c t w = (Resolved a, w')
}.

(** What a run that has reached the script step comes to, on such a host:
    it is still waiting for the video job, or it has returned and has set an
    output. *)
Definition Delivers (o : Outcome unit) (l : list Event) : Prop :=
  In (SetProgress SCRIPT_STEP) l ->
  o = Pending \/ (o = Ok tt /\ exists out, In (SetResult (Some out)) l).

(* ================================================================== *)
(** * More observers *)
(* ================================================================== *)

(** The timers that a run sets, and its polls of the video job with their
    replies. *)
Definition timers (evs : list Event) : list Z :=
  flat_map (fun e => match e with SetTimeout ms => [ms] | _ => [] end) evs.

Definition polls (evs : list Event) : list (Operation * Settled Operation) :=
  flat_map (fun e => match e with GetVideosOperation op r => [(op, r)] | _ => [] end) evs.

(** Every reply about the video job, from the submission and from the
    polls; the downloads; the object URLs. *)
Definition jobReplies (evs : list Event) : list (Settled Operation) :=
  flat_map (fun e => match e with
                     | GenerateVideos _ _ _ r | GetVideosOperation _ r => [r]
                     | _ => []
                     end) evs.

Definition fetches (evs : list Event) : list (string * Settled FetchResponse) :=
  flat_map (fun e => match e with Fetch url r => [(url, r)] | _ => [] end) evs.

Definition objectUrls (evs : list Event) : list (Blob * string) :=
  flat_map (fun e => match e with CreateObjectURL b u => [(b, u)] | _ => [] end) evs.

Definition VIDEO_FAILED (msg : option string) : Exn :=
  Error ("Video generation failed: " ++ orElse msg "Unknown error").

Definition VIDEO_NO_URI : Exn :=
  Error "Video generation completed, but no video URI was found.".

Definition DOWNLOAD_FAILED (statusText : string) : Exn :=
  Error ("Failed to download video. Status: " ++ statusText).

(** How [generateVideo] ends, by the last reply about the job [fin] and by
    what the download [dl] (the only [fetch], if there is one) returned. *)
Definition VideoVerdict {W} (host : Host W) (fin : Settled Operation)
    (o : Outcome string) (evs : list Event) : Prop :=
  match fin with
  | Rejected e => o = Throw e /\ fetches evs = [] /\ objectUrls evs = []
  | Resolved op =>
      if negb (done op) then o = Pending /\ fetches evs = [] /\ objectUrls evs = []
      else
        match opError op, videoUri op with
        | Some msg, _ =>
            o = Throw (VIDEO_FAILED msg) /\ fetches evs = [] /\ objectUrls evs = []
        | None, None | None, Some EmptyString =>
            o = Throw VIDEO_NO_URI /\ fetches evs = [] /\ objectUrls evs = []
        | None, Some uri =>
            exists dl,
              fetches evs = [(uri ++ "&key=" ++ API_KEY host, dl)]
              /\ match dl with
                 | Rejected e => o = Throw e /\ objectUrls evs = []
                 | Resolved resp =>
                     if negb (ok resp)
                     then o = Throw (DOWNLOAD_FAILED (statusText resp))
                          /\ objectUrls evs = []
                     else match blob resp with
                          | Rejected e => o = Throw e /\ objectUrls evs = []
                          | Resolved b => exists url, o = Ok url /\ objectUrls evs = [(b, url)]
                          end
                 end
        end
  end.

Definition isSubmission (e : Event) : bool :=
  match e with GenerateVideos _ _ _ _ => true | _ => false end.

(** The verdicts of failed attempts as the validation calls show them, and a
    prompt with the fixes of some suggestions appended. *)
Definition verdicts (fails : list (ImageData * ImageValidationResult))
    : list (ImageData * Settled ImageValidationResult) :=
  map (fun p => (fst p, Resolved (snd p))) fails.

Definition amended (p : string) (suggestions : list string) : string :=
  fold_left (fun p s => (p ++ IMPORTANT_FIX ++ s)%string) suggestions p.

(** What [App] renders, as its JSX conditions read the state: the key
    banner ([apiKeySelected === false]), the progress bar ([isLoading]), the
    error box ([error], a string that is not empty) and the results
    ([result && !isLoading]). *)
Definition showsKeyBanner (a : AppState) : bool :=
  match apiKeySelected a with Some false => true | _ => false end.

Definition showsProgressBar (a : AppState) : bool := isLoading a.

Definition showsError (a : AppState) : bool :=
  match error a with Some msg => truthy msg | None => false end.

Definition showsResults (a : AppState) : bool :=
  match result a with Some _ => negb (isLoading a) | None => false end.

(* ================================================================== *)
(** * The rest of [App.tsx] and [components/ProgressBar.tsx] *)
(* ================================================================== *)

Section AppShell.
Context {W : Type} (host : Host W).

(** [checkApiKey], the effect that [App] runs once when it mounts. *)
Definition checkApiKey : M W unit :=
  fun w =>
    (if aistudio host w
     then hasKey <- await (hasSelectedApiKey host) HasSelectedApiKey ;;
          setApiKeySelected hasKey
     else setApiKeySelected true) w.

(** [handleSelectKey], the button of the key banner. *)
Definition handleSelectKey : M W unit :=
  fun w =>
    (if aistudio host w
     then await (openSelectKey host) OpenSelectKey ;;
          setApiKeySelected true
     else ret tt) w.

End AppShell.

(** [ProgressBar]: the width of the bar, in percent.  The quotient is exact
    for the steps of [App], 0 to 8 of 8: an eighth and its product by 100
    are binary fractions. *)
Definition percentage (progress : ProgressUpdate) (totalSteps : nat) : number :=
  (ofNat (step progress) / ofNat totalSteps * inject_Z 100)%Q.

(* ================================================================== *)
(** * Monitors *)
(* ================================================================== *)

(** A monitor reads the events of a run one by one: [step s e] is its next
    state, or [None] when [e] must not happen in state [s].  [feed s l] is
    the state after all of [l], when the monitor accepts it. *)
Section Monitors.
Context {W St : Type}.
Variable step : St -> Event -> option St.

Fixpoint feed (s : St) (l : list Event) : option St :=
  match l with
  | [] => Some s
  | e :: rest =>
      match step s e with
      | Some s' => feed s' rest
      | None => None
      end
  end.

(** [Triple I m J]: from a monitor state in [I], the monitor accepts every
    run of [m], and ends in a state that [J] relates to the outcome. *)
Definition Triple {A} (I : St -> Prop) (m : M W A) (J : Outcome A -> St -> Prop)
    : Prop :=
  forall w s, I s ->
    exists s', feed s (events (m w)) = Some s' /\ J (outcome (m w)) s'.

End Monitors.

(** ** Failing fast *)

(** A host call that came back rejected. *)
Definition isRejected (e : Event) : bool :=
  match e with
  | HasSelectedApiKey (Rejected _) | OpenSelectKey (Rejected _)
  | ReadAsDataURL _ (Rejected _) | Fetch _ (Rejected _)
  | AnalyzeImage _ (Rejected _) | GenerateAdConcept _ _ _ (Rejected _)
  | GenerateOpeningFrameWithActor _ _ (Rejected _) | GenerateImages _ _ (Rejected _)
  | ValidateImage _ (Rejected _) | GenerateVideoDirectorPrompt _ _ (Rejected _)
  | GenerateVideos _ _ _ (Rejected _) | GetVideosOperation _ (Rejected _)
  | GenerateAdAssets _ _ _ (Rejected _) | GenerateSpeech _ (Rejected _) => true
  | _ => false
  end.

(** What a pipeline that goes on does: a host call, or the delivery of a
    result. *)
Definition proceeds (e : Event) : bool :=
  isHostCall e || match e with SetResult (Some _) => true | _ => false end.

(** The fail-fast monitor: its state tells whether a host call was rejected;
    after that, it accepts no event that [proceeds]. *)
Definition failFast (failed : bool) (e : Event) : option bool :=
  if proceeds e
  then if failed then None else Some (isRejected e)
  else Some failed.

(** [FailsFast m]: on a run without a rejection so far, [m] is accepted by
    the monitor, and when it returns no call was rejected. *)
Definition FailsFast {W A} (m : M W A) : Prop :=
  Triple failFast (fun failed => failed = false) m
         (fun o failed => match o with Ok _ => failed = false | _ => True end).

(** [Silent m]: no event of [m] [proceeds]. *)
Definition Silent {W A} (m : M W A) : Prop :=
  Only (fun e => negb (proceeds e)) m.

(** ** The step that is shown *)

(** The progress step that is shown while the pipeline makes a call: reading
    and analysing the images under step 1, the concept under 2, the frame
    generation under 3 and its validation under 4, the script under 5, the
    video job with its timers, polls and download under 6, the speech under
    7, the ad assets and the delivery of the result under 8.  An object URL is
    created for the video (6) or for the voiceover (7).  The key check, the
    setters and the log are not tied to a step. *)
Definition fits (shown : nat) (e : Event) : bool :=
  match e with
  | ReadAsDataURL _ _ | AnalyzeImage _ _ => (shown =? 1)%nat
  | GenerateAdConcept _ _ _ _ => (shown =? 2)%nat
  | GenerateImages _ _ _ | GenerateOpeningFrameWithActor _ _ _ => (shown =? 3)%nat
  | ValidateImage _ _ => (shown =? 4)%nat
  | GenerateVideoDirectorPrompt _ _ _ => (shown =? 5)%nat
  | GenerateVideos _ _ _ _ | GetVideosOperation _ _ | Fetch _ _ | SetTimeout _ =>
      (shown =? 6)%nat
  | GenerateSpeech _ _ => (shown =? 7)%nat
  | CreateObjectURL _ _ => ((shown =? 6) || (shown =? 7))%nat
  | GenerateAdAssets _ _ _ _ | SetResult (Some _) => (shown =? 8)%nat
  | _ => true
  end.

(** The monitor of the progress state: it follows the step that is shown and
    accepts an event that [fits] it. *)
Definition announce (shown : nat) (e : Event) : option nat :=
  match e with
  | SetProgress p => Some (step p)
  | _ => if fits shown e then Some shown else None
  end.

(** [Announced n m n']: started while step [n] is shown, [m] is accepted by
    the monitor, and step [n'] is shown when it returns. *)
Definition Announced {W A} (n : nat) (m : M W A) (n' : nat) : Prop :=
  Triple announce (fun shown => shown = n) m
         (fun o shown => match o with Ok _ => shown = n' | _ => True end).

(** [Unannounced m]: [m] is accepted whatever step is shown. *)
Definition Unannounced {W A} (m : M W A) : Prop :=
  Triple announce (fun _ => True) m (fun _ _ => True).

(** ** The call budget *)

(** The host calls that a run pays for, by kind.  The polls of the video
    job and their timers are left out: their number is up to the job. *)
Inductive Call : Type :=
| KeyQuestion | KeyDialog | FileRead | Analysis | Concept | Frame | Validation
| Script | VideoJob | Download | ObjectUrl | Speech | Assets.

Definition callOf (e : Event) : option Call :=
  match e with
  | HasSelectedApiKey _ => Some KeyQuestion
  | OpenSelectKey _ => Some KeyDialog
  | ReadAsDataURL _ _ => Some FileRead
  | AnalyzeImage _ _ => Some Analysis
  | GenerateAdConcept _ _ _ _ => Some Concept
  | GenerateImages _ _ _ | GenerateOpeningFrameWithActor _ _ _ => Some Frame
  | ValidateImage _ _ => Some Validation
  | GenerateVideoDirectorPrompt _ _ _ => Some Script
  | GenerateVideos _ _ _ _ => Some VideoJob
  | Fetch _ _ => Some Download
  | CreateObjectURL _ _ => Some ObjectUrl
  | GenerateSpeech _ _ => Some Speech
  | GenerateAdAssets _ _ _ _ => Some Assets
  | _ => None
  end.

Definition sameCall (c c' : Call) : bool :=
  match c, c' with
  | KeyQuestion, KeyQuestion | KeyDialog, KeyDialog | FileRead, FileRead
  | Analysis, Analysis | Concept, Concept | Frame, Frame
  | Validation, Validation | Script, Script | VideoJob, VideoJob
  | Download, Download | ObjectUrl, ObjectUrl | Speech, Speech
  | Assets, Assets => true
  | _, _ => false
  end.

Definition isCall (c : Call) (e : Event) : bool :=
  match callOf e with Some c' => sameCall c' c | None => false end.

(** How many calls of each kind one run may make. *)
Definition quota (c : Call) : nat :=
  match c with
  | FileRead | Analysis | ObjectUrl => 2
  | Frame | Validation => 3
  | _ => 1
  end.

(** The price of an event under a price list, and the monitor that adds up
    what a run spends. *)
Definition cost (price : Call -> nat) (e : Event) : nat :=
  match callOf e with Some c => price c | None => 0 end.

Definition charge (price : Call -> nat) (spent : nat) (e : Event) : option nat :=
  Some (spent + cost price e).

(** [Costs price a m b]: when at most [a] was spent before [m], at most
    [b] is spent after it, however [m] ends. *)
Definition Costs {W A} (price : Call -> nat) (a : nat) (m : M W A) (b : nat) : Prop :=
  Triple (charge price) (fun spent => spent <= a) m (fun _ spent => spent <= b).

(** The bill of a pipeline, and of a run, that makes every call its quota
    allows. *)
Definition pipelineBill (price : Call -> nat) : nat :=
  2 * price FileRead + 2 * price Analysis + price Concept + 3 * price Frame
  + 3 * price Validation + price Script + price VideoJob + price Download
  + 2 * price ObjectUrl + price Speech + price Assets.

Definition bill (price : Call -> nat) : nat :=
  price KeyQuestion + price KeyDialog + pipelineBill price.

(** What a list of events costs. *)
Definition spent (price : Call -> nat) (l : list Event) : nat :=
  list_sum (map (cost price) l).

(** The price list that counts the calls of kind [c]. *)
Definition countOf (c : Call) (c' : Call) : nat := if sameCall c' c then 1 else 0.

(** ** What a run may do, by the brief *)

(** What a run may do, by the brief: it never alerts; its timers are the
    polling interval; it notifies steps up to 8, and step 7 only for a
    brief with voiceover; it calls the speech service only for such a
    brief; it generates frames with the actor service when the brief has an
    actor image and with the plain image service when it has none. *)
Definition allowedBy (data : UserInput.t) (e : Event) : bool :=
  match e with
  | PreventDefault | Alert _ => false
  | SetTimeout ms => (ms =? POLLING_INTERVAL)%Z
  | SetProgress p =>
      if (step p =? 7)%nat then UserInput.generateVoiceover data
      else (step p <=? 8)%nat
  | GenerateSpeech _ _ => UserInput.generateVoiceover data
  | GenerateOpeningFrameWithActor _ _ _ =>
      match UserInput.actorImage data with Some _ => true | None => false end
  | GenerateImages _ _ _ =>
      match UserInput.actorImage data with Some _ => false | None => true end
  | _ => true
  end.

(** An event that does not grant the key: anything but
    [setApiKeySelected(true)]. *)
Definition grantsNoKey (e : Event) : bool :=
  match e with SetApiKeySelected true => false | _ => true end.

(* ================================================================== *)
(** * [components/ModelCreator.tsx] and its two service functions *)
(* ================================================================== *)

(** Strings are read as sequences of code units below 256, which is what
    data URLs, media types and base64 payloads are made of. *)
Module Text.

Definition COMMA : ascii := ",".
Definition COLON : ascii := ":".
Definition SEMICOLON : ascii := ";".
Definition QUOTE : string := String (ascii_of_nat 34) EmptyString.

(** [s.split(sep)] for a separator of one character: never empty. *)
Fixpoint split (sep : ascii) (s : string) : list string :=
  match s with
  | EmptyString => [EmptyString]
  | String c rest =>
      if Ascii.eqb c sep then EmptyString :: split sep rest
      else match split sep rest with
           | h :: t => String c h :: t
           | [] => [String c EmptyString]
           end
  end.

(** The line terminators that [.] does not match: LF and CR. *)
Definition isLineTerminator (c : ascii) : bool :=
  (nat_of_ascii c =? 10)%nat || (nat_of_ascii c =? 13)%nat.

(** What [/(.*?);/] matches at the start of [s]: the shortest run of
    characters other than line terminators that a semicolon follows. *)
Fixpoint lazyUntilSemicolon (s : string) : option string :=
  match s with
  | EmptyString => None
  | String c rest =>
      if Ascii.eqb c SEMICOLON then Some EmptyString
      else if isLineTerminator c then None
      else match lazyUntilSemicolon rest with
           | Some group => Some (String c group)
           | None => None
           end
  end.

(** [s.match(/:(.*?);/)?.[1]]: the group of the leftmost match. *)
Fixpoint matchMediaType (s : string) : option string :=
  match s with
  | EmptyString => None
  | String c rest =>
      if Ascii.eqb c COLON
      then match lazyUntilSemicolon rest with
           | Some group => Some group
           | None => matchMediaType rest
           end
      else matchMediaType rest
  end.

(** The white space that [trim] removes, among the code units below 256. *)
Definition isWhiteSpace (c : ascii) : bool :=
  let n := nat_of_ascii c in
  ((9 <=? n) && (n <=? 13) || (n =? 32) || (n =? 160))%nat.

(** [!s.trim()]: there is nothing but white space in [s]. *)
Fixpoint isBlank (s : string) : bool :=
  match s with
  | EmptyString => true
  | String c rest => isWhiteSpace c && isBlank rest
  end.

(** A string without a comma; a media type without a comma, a semicolon
    or a line terminator. *)
Definition noComma (s : string) : bool :=
  forallb (fun c => negb (Ascii.eqb c COMMA)) (list_ascii_of_string s).

Definition plainType (s : string) : bool :=
  forallb (fun c => negb (Ascii.eqb c COMMA) && negb (Ascii.eqb c SEMICOLON)
                    && negb (isLineTerminator c))
          (list_ascii_of_string s).

End Text.

Module Studio.
Import Text.

(** What [dataUrlToImageData] returns: an [ImageData] whose [base64] is
    [undefined] when the URL has no comma. *)
Record BaseImage : Type := mkBaseImage {
  baseData : option string;
  baseMimeType : string
}.

Definition dataUrlToImageData (dataUrl : string) : BaseImage :=
  let parts := split COMMA dataUrl in
  let mimeType := orElse (matchMediaType (hd EmptyString parts)) "image/png" in
  let base64 := nth_error parts 1 in
  mkBaseImage base64 mimeType.

(** The data URL that the service functions build for a payload:
    [`data:${mediaType};base64,${payload}`]. *)
Definition dataUrlOf (mediaType payload : string) : string :=
  "data:" ++ mediaType ++ ";base64," ++ payload.

(** The result of a generation: [{ imageUrl, prompt }]. *)
Record Generated : Type := mkGenerated { imageUrl : string; prompt : string }.

(** The state of the component, as a handler reads it: a handler is a
    closure of one render and reads the values of that render. *)
Record State : Type := mkState {
  fashionPhoto : option File;
  headshot : option File;
  isLoading : bool;
  isEditing : bool;
  error : option string;
  result : option Generated;
  editPrompt : string;
  promptHistory : list string
}.

(** What a handler asks React for: a new value of one part of the state,
    or, where the source hands a function to the setter, what that function
    does to the value that is current when React applies it:
    [setResult(prev => ({...prev!, imageUrl: newImageUrl}))] and
    [setPromptHistory(prev => [...prev, editPrompt])]. *)
Inductive Update : Type :=
| SetIsLoading (b : bool)
| SetIsEditing (b : bool)
| SetError (e : option string)
| SetResult (r : option Generated)
| PatchImageUrl (newImageUrl : string)
| SetPromptHistory (h : list string)
| AppendToHistory (editPrompt : string)
| SetEditPrompt (s : string).

(** The updates of one run of a handler: those it asks for at once, before
    its first [await], and those it asks for once what it awaits has
    settled (the rest of the [try] block or the [catch] block, then the
    [finally] block).  Between the two, other handlers may run and the
    state may change; no state after a handler is computed here. *)
Record Updates : Type := mkUpdates {
  atOnce : list Update;
  onSettle : list Update
}.

(** The host of the component: the file reader and the three remote calls
    of [generateModelImage] and [editModelImage] (the analysis of the
    fashion photo, which answers [result.text]; the generation from a
    prompt and a headshot; the edit of an image by a prompt). *)
Record Server (W : Type) : Type := mkServer {
  readAsDataURL : File -> W -> Settled string * W;
  ai_describeOutfit : ImageData -> W -> Settled string * W;
  ai_generateModel : string -> ImageData -> W -> Settled ContentResponse * W;
  ai_editModel : BaseImage -> string -> W -> Settled ContentResponse * W
}.
Arguments readAsDataURL {W}.
Arguments ai_describeOutfit {W}.
Arguments ai_generateModel {W}.
Arguments ai_editModel {W}.

(** What the component does that the outside can see. *)
Inductive Call : Type :=
| PreventDefault
| Alert (msg : string)
| ConsoleError
| ReadAsDataURL (f : File) (r : Settled string)
| DescribeOutfit (photo : ImageData) (r : Settled string)
| GenerateModel (generationPrompt : string) (headshot : ImageData)
    (r : Settled ContentResponse)
| EditModel (baseImage : BaseImage) (editPrompt : string)
    (r : Settled ContentResponse).

(** An asynchronous task: it settles, advances the world and makes calls. *)
Definition Task (W A : Type) : Type := W -> Settled A * W * list Call.

Section Tasks.
Context {W : Type}.

Definition resolve {A} (a : A) : Task W A := fun w => (Resolved a, w, []).

Definition reject {A} (e : Exn) : Task W A := fun w => (Rejected e, w, []).

Definition log : Task W unit := fun w => (Resolved tt, w, [ConsoleError]).

Definition call {X} (op : W -> Settled X * W) (c : Settled X -> Call) : Task W X :=
  fun w => let '(r, w') := op w in (r, w', [c r]).

Definition andThen {A B} (m : Task W A) (k : A -> Task W B) : Task W B :=
  fun w =>
    match m w with
    | (Resolved a, w1, l1) => let '(r, w2, l2) := k a w1 in (r, w2, (l1 ++ l2)%list)
    | (Rejected e, w1, l1) => (Rejected e, w1, l1)
    end.

End Tasks.

Notation "x <~ m ;; k" := (andThen m (fun x => k))
  (at level 61, m at next level, right associativity) : js_scope.

Section Component.
Context {W : Type} (server : Server W).

Definition fileToBase64 (file : File) : Task W ImageData :=
  payload <~ call (readAsDataURL server file) (ReadAsDataURL file) ;;
  resolve (mkImageData payload (fileType file)).

(** The prompt that [generateModelImage] builds from the description. *)
Definition generationPrompt (description : string) : string :=
  "Create a new, full-body, photorealistic image featuring the person from the provided headshot. The person should wear the outfit, and be in the pose and environment described here: "
  ++ QUOTE ++ description ++ QUOTE
  ++ ". Ensure the final image is a high-quality, realistic photograph where the person's head and body look natural together.".

Definition blocked (what finishReason retry : string) : Exn :=
  Error (what ++ " failed. The request may have been blocked due to safety settings (Finish Reason: "
         ++ finishReason ++ "). Please try " ++ retry ++ ".").

Definition generateModelImage (fashionPhoto headshot : ImageData) : Task W Generated :=
  description <~ call (ai_describeOutfit server fashionPhoto)
                      (DescribeOutfit fashionPhoto) ;;
  res <~ call (ai_generateModel server (generationPrompt description) headshot)
              (GenerateModel (generationPrompt description) headshot) ;;
  match parts res with
  | None =>
      _ <~ log ;;
      reject (blocked "Model image generation"
                      (orElse (finishReason res) "Not specified")
                      "using different fashion or headshot images")
  | Some ps =>
      match firstInlineData ps with
      | Some d =>
          resolve (mkGenerated (dataUrlOf "image/png" (base64 d))
                               (generationPrompt description))
      | None =>
          reject (Error "Model image generation failed: No image data found in the response.")
      end
  end.

Definition editModelImage (baseImage : BaseImage) (prompt : string) : Task W string :=
  res <~ call (ai_editModel server baseImage prompt) (EditModel baseImage prompt) ;;
  match parts res with
  | None =>
      _ <~ log ;;
      reject (blocked "Model image editing"
                      (orElse (finishReason res) "Not specified")
                      "a different edit prompt or image")
  | Some ps =>
      match firstInlineData ps with
      | Some d => resolve (dataUrlOf (mimeType d) (base64 d))
      | None =>
          reject (Error "Model image editing failed: No image data found in the response.")
      end
  end.

(** [handleSubmit], run from the state [st] of the render it belongs to:
    its updates, the world, and its calls. *)
Definition handleSubmit (st : State) (w : W) : Updates * W * list Call :=
  match fashionPhoto st, headshot st with
  | Some photo, Some face =>
      let '(r, w', calls) :=
        (fashionPhotoData <~ fileToBase64 photo ;;
         headshotData <~ fileToBase64 face ;;
         generateModelImage fashionPhotoData headshotData) w in
      (mkUpdates
         [SetIsLoading true; SetError None; SetResult None; SetPromptHistory []]
         (match r with
          | Resolved generationResult =>
              [SetResult (Some generationResult);
               SetPromptHistory [prompt generationResult]]
          | Rejected e =>
              [SetError (Some (orElse (JS.message e) "Failed to generate model image."))]
          end ++ [SetIsLoading false])%list,
       w', (PreventDefault :: calls)%list)
  | _, _ =>
      (mkUpdates [] [], w,
       [PreventDefault; Alert "Please upload both a fashion photo and a headshot."])
  end.

(** [handleEditSubmit], likewise. *)
Definition handleEditSubmit (st : State) (w : W) : Updates * W * list Call :=
  match isBlank (editPrompt st), result st with
  | false, Some shown =>
      let baseImageData := dataUrlToImageData (imageUrl shown) in
      let '(r, w', calls) := editModelImage baseImageData (editPrompt st) w in
      (mkUpdates
         [SetIsEditing true; SetError None]
         (match r with
          | Resolved newImageUrl =>
              [PatchImageUrl newImageUrl; AppendToHistory (editPrompt st);
               SetEditPrompt EmptyString]
          | Rejected e =>
              [SetError (Some (orElse (JS.message e) "Failed to edit model image."))]
          end ++ [SetIsEditing false])%list,
       w', (PreventDefault :: calls)%list)
  | _, _ => (mkUpdates [] [], w, [PreventDefault])
  end.

End Component.

(** The host calls among the calls of a handler. *)
Definition remote (c : Call) : bool :=
  match c with
  | ReadAsDataURL _ _ | DescribeOutfit _ _ | GenerateModel _ _ _ | EditModel _ _ _ => true
  | _ => false
  end.

(** A host call that came back rejected. *)
Definition failed (c : Call) : bool :=
  match c with
  | ReadAsDataURL _ (Rejected _) | DescribeOutfit _ (Rejected _)
  | GenerateModel _ _ (Rejected _) | EditModel _ _ (Rejected _) => true
  | _ => false
  end.

End Studio.

(* ================================================================== *)
(** * More scripted hosts *)
(* ================================================================== *)

(** The scripted host inside AI Studio: [key] is the answer of
    [hasSelectedApiKey] and [dialog] the answer of [openSelectKey]. *)
Definition inStudio (key : Settled bool) (dialog : Settled unit)
    : Host Scripted.Script := {|
  aistudio := fun _ => true;
  hasSelectedApiKey := fun w => (key, w);
  openSelectKey := fun w => (dialog, w);
  API_KEY := API_KEY Scripted.host;
  readAsDataURL := readAsDataURL Scripted.host;
  notABlob := notABlob Scripted.host;
  atob := atob Scripted.host;
  createObjectURL := createObjectURL Scripted.host;
  fetch := fetch Scripted.host;
  ai_analyzeImage := ai_analyzeImage Scripted.host;
  ai_generateAdConcept := ai_generateAdConcept Scripted.host;
  ai_generateOpeningFrameWithActor := ai_generateOpeningFrameWithActor Scripted.host;
  ai_generateImages := ai_generateImages Scripted.host;
  ai_validateImage := ai_validateImage Scripted.host;
  ai_generateVideoDirectorPrompt := ai_generateVideoDirectorPrompt Scripted.host;
  ai_generateVideos := ai_generateVideos Scripted.host;
  ai_getVideosOperation := ai_getVideosOperation Scripted.host;
  ai_generateAdAssets := ai_generateAdAssets Scripted.host;
  ai_generateSpeech := ai_generateSpeech Scripted.host
|}.

(** The scripted host with a video service that never fails: the job is
    accepted as running and every poll reports it finished. *)
Definition steady : Host Scripted.Script := {|
  aistudio := aistudio Scripted.host;
  hasSelectedApiKey := hasSelectedApiKey Scripted.host;
  openSelectKey := openSelectKey Scripted.host;
  API_KEY := API_KEY Scripted.host;
  readAsDataURL := readAsDataURL Scripted.host;
  notABlob := notABlob Scripted.host;
  atob := atob Scripted.host;
  createObjectURL := createObjectURL Scripted.host;
  fetch := fetch Scripted.host;
  ai_analyzeImage := ai_analyzeImage Scripted.host;
  ai_generateAdConcept := ai_generateAdConcept Scripted.host;
  ai_generateOpeningFrameWithActor := ai_generateOpeningFrameWithActor Scripted.host;
  ai_generateImages := ai_generateImages Scripted.host;
  ai_validateImage := ai_validateImage Scripted.host;
  ai_generateVideoDirectorPrompt := ai_generateVideoDirectorPrompt Scripted.host;
  ai_generateVideos := fun _ _ _ w => (Resolved Scripted.running, w);
  ai_getVideosOperation := fun _ w => (Resolved Scripted.finished, w);
  ai_generateAdAssets := ai_generateAdAssets Scripted.host;
  ai_generateSpeech := ai_generateSpeech Scripted.host
|}.

(** A page on which the key banner is shown. *)
Definition keyMissing : AppState := mkApp false idle None None (Some false).

(** A scripted server for [ModelCreator]: the world is the reply of the
    edit call; the file reader answers a fixed payload, the description and
    the generated image are fixed. *)
Module StudioScript.
Import Studio.

Definition portrait : ContentResponse :=
  mkContent (Some [mkPart None; mkPart (Some (mkImageData "AAAA" "image/webp"))]) None.

Definition retouched : ContentResponse :=
  mkContent (Some [mkPart (Some (mkImageData "BBBB" "image/jpeg"))]) None.

Definition server : Server (Settled ContentResponse) := {|
  readAsDataURL := fun _ w => (Resolved "iVBORw0KGgo=", w);
  ai_describeOutfit := fun _ w => (Resolved "a red silk dress", w);
  ai_generateModel := fun _ _ w => (Resolved portrait, w);
  ai_editModel := fun _ _ w => (w, w)
|}.

Definition look : File := mkFile "image/png" [137; 80; 78; 71]%Z.
Definition face : File := mkFile "image/jpeg" [255; 216; 255]%Z.

(** The component with both files chosen, and after a generation with an
    edit prompt typed in. *)
Definition ready : State :=
  mkState (Some look) (Some face) false false None None EmptyString [].

Definition generated : Generated :=
  mkGenerated (dataUrlOf "image/png" "AAAA") (generationPrompt "a red silk dress").

Definition editing : State :=
  mkState (Some look) (Some face) false true None (Some generated)
          "make the dress blue" [generationPrompt "a red silk dress"].

End StudioScript.

(* ================================================================== *)
(** * Where the parts of a run come from *)
(* ================================================================== *)

Section Provenance.
Context {W : Type}.

(** [Yields m P]: the events of a run of [m] that returns [a] satisfy
    [P a]. *)
Definition Yields {A} (m : M W A) (P : A -> list Event -> Prop) : Prop :=
  Spec m (fun o l => forall a, o = Ok a -> P a l).

(** [Traces trig m F]: when a run of [m] has an event [e] of the kind
    [trig], [F e] holds of the events of the run. *)
Definition Traces (trig : Event -> bool) {A} (m : M W A)
    (F : Event -> list Event -> Prop) : Prop :=
  Spec m (fun _ l => forall e, In e l -> trig e = true -> F e l).

(** A fact about the events of a run that goes on holding when events are
    added in front of them and behind them. *)
Definition Lasting (F : Event -> list Event -> Prop) : Prop :=
  forall e l1 l2 l3, F e l2 -> F e (l1 ++ l2 ++ l3)%list.

End Provenance.

(** The kinds of event whose origin is traced: the delivery of an output,
    the concept call, and a validation. *)
Definition delivers (e : Event) : bool :=
  match e with SetResult (Some _) => true | _ => false end.

Definition isConceptCall (e : Event) : bool :=
  match e with GenerateAdConcept _ _ _ _ => true | _ => false end.

Definition isValidation (e : Event) : bool :=
  match e with ValidateImage _ _ => true | _ => false end.

(** The text that [handleGenerateAd] hands to [generateSpeech]. *)
Definition speechText (data : UserInput.t) : string :=
  "Say with a " ++ UserInput.tone data ++ " tone: " ++ UserInput.cta data.

(** The events [es] occur among [l], in this order. *)
Fixpoint inOrder (es l : list Event) : Prop :=
  match es with
  | [] => True
  | e :: rest => exists l1 l2, l = (l1 ++ e :: l2)%list /\ inOrder rest l2
  end.

(** The voiceover of an output and the events [voice] that made it: for a
    brief with voiceover, a speech call for the tone and the call to
    action, answered with a payload that [atob] decodes, and then the
    object URL of the [audio/wav] blob that holds the container of the
    decoded bytes; for a brief without, no voiceover and no event. *)
Definition Voiced {W} (host : Host W) (data : UserInput.t) (out : FinalOutput.t)
    (voice : list Event) : Prop :=
  if UserInput.generateVoiceover data
  then exists b64 bin wav url,
         FinalOutput.voiceover_audio_url out = Some url
         /\ atob host b64 = Resolved bin
         /\ Wav.wavBytes (Buffer.ascii_bytes bin) = Some wav
         /\ voice = [GenerateSpeech (speechText data) (Resolved (Some b64));
                     CreateObjectURL (mkBlob wav "audio/wav") url]
  else FinalOutput.voiceover_audio_url out = None /\ voice = [].

(** What STAGE 2 made the output [out] from, for the concept [c] and the
    frame [frame] that the loop left.  The output shows the frame as the
    data URL of its media type and payload, and the prompt of [c].  In this
    order, the run has: the script call for [c], whose answer is the script
    of the output; the submission of the video job with that script and
    that frame; the download, with the key, of the URI of a job reply that
    reported done; the object URL of the blob of that download, which is the
    video URL of the output; and then what made the voiceover. *)
Definition Filmed {W} (host : Host W) (data : UserInput.t) (c : AdConcept)
    (frame : ImageData) (out : FinalOutput.t) (l : list Event) : Prop :=
  exists (job fin : Operation) (link : string) (resp : FetchResponse) (video : Blob)
         (voice : list Event),
    FinalOutput.opening_frame_image_url out
    = "data:" ++ mimeType frame ++ ";base64," ++ base64 frame
    /\ FinalOutput.opening_frame_prompt out = openingFramePrompt c
    /\ In (Resolved fin) (jobReplies l)
    /\ done fin = true
    /\ videoUri fin = Some link
    /\ blob resp = Resolved video
    /\ Voiced host data out voice
    /\ inOrder ([GenerateVideoDirectorPrompt c data (Resolved (FinalOutput.veo_prompt out));
                 GenerateVideos (FinalOutput.veo_prompt out) frame
                   (UserInput.aspectRatio data) (Resolved job);
                 Fetch (link ++ "&key=" ++ API_KEY host) (Resolved resp);
                 CreateObjectURL video (FinalOutput.veo_video_url out)] ++ voice)%list l.

(** What the output [out] of a run with the events [l] was made from: a
    frame that a validation of the run has answered for, and after that
    validation what STAGE 2 made of it. *)
Definition MadeFrom {W} (host : Host W) (data : UserInput.t) (out : FinalOutput.t)
    (l : list Event) : Prop :=
  exists (c : AdConcept) (frame : ImageData) (v : ImageValidationResult)
         (l1 l2 : list Event),
    l = (l1 ++ l2)%list
    /\ In (ValidateImage frame (Resolved v)) l1
    /\ Filmed host data c frame out l2.

(** What the analysis handed to the concept call was made from: the answer
    of the analysis of the product image as the file reader returned it,
    and for a brief with an actor image the answer of the analysis of that
    image, appended under its heading. *)
Definition FromAnalyses (data : UserInput.t) (analysis : string) (l : list Event)
    : Prop :=
  exists product payload seen,
    UserInput.productImage data = Some product
    /\ In (ReadAsDataURL product (Resolved payload)) l
    /\ In (AnalyzeImage (mkImageData payload (fileType product)) (Resolved seen)) l
    /\ match UserInput.actorImage data with
       | None => analysis = seen
       | Some actor =>
           exists payload' seen',
             In (ReadAsDataURL actor (Resolved payload')) l
             /\ In (AnalyzeImage (mkImageData payload' (fileType actor))
                      (Resolved seen')) l
             /\ analysis = seen ++ LF ++ "Actor Analysis: " ++ seen'
       end.

(** The actor image as the analyses hand it on: none for a brief without
    an actor image, and otherwise what the file reader returned for it. *)
Definition ActorOf (data : UserInput.t) (actorImageData : option ImageData)
    (l : list Event) : Prop :=
  match UserInput.actorImage data with
  | None => actorImageData = None
  | Some file =>
      exists payload,
        actorImageData = Some (mkImageData payload (fileType file))
        /\ In (ReadAsDataURL file (Resolved payload)) l
  end.

(** Where a validated frame comes from: without an actor image it is the
    first image of a reply of the image service, as [image/jpeg]; with one
    it is the first inline part of a reply of the actor service. *)
Definition FrameOf (ar : AspectRatio) (actorImageData : option ImageData)
    (frame : ImageData) (l : list Event) : Prop :=
  match actorImageData with
  | None =>
      exists prompt rest,
        In (GenerateImages prompt ar (Resolved (Some (base64 frame :: rest)))) l
        /\ mimeType frame = "image/jpeg"
  | Some actor =>
      exists prompt res ps,
        In (GenerateOpeningFrameWithActor prompt actor (Resolved res)) l
        /\ parts res = Some ps
        /\ firstInlineData ps = Some frame
  end.

(** The same for a run, whose actor image is the one of the brief as the
    file reader returned it. *)
Definition FrameFrom (data : UserInput.t) (frame : ImageData) (l : list Event)
    : Prop :=
  exists actorImageData,
    ActorOf data actorImageData l
    /\ FrameOf (UserInput.aspectRatio data) actorImageData frame l.

(** What [handleGenerateAd] emits around [pipeline]: the setters in front
    of the [try], the key check, the [catch] and the [finally] block. *)
Definition aroundPipeline (e : Event) : bool :=
  match e with
  | SetIsLoading _ | SetError _ | SetResult None | SetApiKeySelected _
  | SetProgress _ | ConsoleError | HasSelectedApiKey _ | OpenSelectKey _ => true
  | _ => false
  end.

(* ================================================================== *)
(** * The audio container *)
(* ================================================================== *)

Section WavFacts.
Import Buffer Wav.
Local Open Scope list_scope.
Local Open Scope Z_scope.

(** The header as a consumer reads it: the fields in file order. *)
Lemma getWavHeader_layout (d sr nc bps : number) :
  getWavHeader d sr nc bps =
  Some (ascii_bytes "RIFF"
        ++ leBytes 4 (ToUint 32 (inject_Z 36 + d)%Q)
        ++ ascii_bytes "WAVEfmt "
        ++ leBytes 4 (ToUint 32 (inject_Z 16))
        ++ leBytes 2 (ToUint 16 (inject_Z 1))
        ++ leBytes 2 (ToUint 16 nc)
        ++ leBytes 4 (ToUint 32 sr)
        ++ leBytes 4 (ToUint 32 (sr * (nc * bps / inject_Z 8))%Q)
        ++ leBytes 2 (ToUint 16 (nc * bps / inject_Z 8)%Q)
        ++ leBytes 2 (ToUint 16 bps)
        ++ ascii_bytes "data"
        ++ leBytes 4 (ToUint 32 d)).
Proof. reflexivity. Qed.

Lemma ofLeBytes_leBytes (w : nat) (v : Z) :
  ofLeBytes (leBytes w v) = v mod 256 ^ Z.of_nat w.
Proof.
  revert v. induction w as [|w IH]; intros v.
  - simpl. now rewrite Z.mod_1_r.
  - cbn [leBytes ofLeBytes]. rewrite IH, Nat2Z.inj_succ, Z.pow_succ_r by lia.
    rewrite Z.rem_mul_r by lia. reflexivity.
Qed.

Lemma ToUint_small (w z : Z) :
  0 <= z < 2 ^ w -> ToUint w (inject_Z z) = z.
Proof.
  intros H. unfold ToUint, trunc. simpl.
  rewrite Z.quot_1_r. now apply Z.mod_small.
Qed.

Lemma ToUint_plus (w a b : Z) :
  0 <= a + b < 2 ^ w -> ToUint w (inject_Z a + inject_Z b)%Q = a + b.
Proof.
  intros H. unfold ToUint, trunc. simpl.
  rewrite Z.quot_1_r, !Z.mul_1_r. now apply Z.mod_small.
Qed.

Lemma le32 (v : Z) :
  0 <= v < 2 ^ 32 ->
  v mod 256 + 256 * (v / 256 mod 256 + 256 * (v / 256 / 256 mod 256
    + 256 * (v / 256 / 256 / 256 mod 256 + 256 * 0))) = v.
Proof.
  intros H. change (ofLeBytes (leBytes 4 v) = v).
  rewrite ofLeBytes_leBytes. now apply Z.mod_small.
Qed.

Lemma set_at_start (src : bytes) (n : nat) :
  set src 0 (alloc (length src + n)) = Some (src ++ alloc n).
Proof.
  unfold set, alloc. rewrite repeat_length, Nat.add_0_l.
  replace (length src <=? length src + n)%nat with true
    by (symmetry; apply Nat.leb_le; lia).
  rewrite repeat_app, skipn_app, repeat_length, Nat.sub_diag.
  rewrite skipn_all2 by (rewrite repeat_length; lia). reflexivity.
Qed.

Lemma set_at_end (pre src : bytes) :
  set src (length pre) (pre ++ alloc (length src)) = Some (pre ++ src).
Proof.
  unfold set, alloc. rewrite length_app, repeat_length, Nat.leb_refl.
  rewrite firstn_app, Nat.sub_diag, firstn_all, app_nil_r.
  rewrite skipn_all2 by (rewrite length_app, repeat_length; lia).
  now rewrite app_nil_r.
Qed.

(** The container is the header followed by the samples. *)
Lemma wavBytes_concat (audioBytes header : bytes) :
  getWavHeader (ofNat (length audioBytes)) sampleRate numChannels bitsPerSample
    = Some header ->
  wavBytes audioBytes = Some (header ++ audioBytes).
Proof.
  intros H. unfold wavBytes. rewrite H. cbn [andThen].
  rewrite set_at_start. cbn [andThen]. apply set_at_end.
Qed.

Lemma wavBytes_explicit (audioBytes : bytes) :
  let n := Z.of_nat (length audioBytes) in
  wavBytes audioBytes =
  Some ([82; 73; 70; 70] ++ leBytes 4 (ToUint 32 (inject_Z 36 + inject_Z n)%Q)
        ++ [87; 65; 86; 69; 102; 109; 116; 32;
            16; 0; 0; 0;  1; 0;  1; 0;  192; 93; 0; 0;  128; 187; 0; 0;
            2; 0;  16; 0;  100; 97; 116; 97]
        ++ leBytes 4 (ToUint 32 (inject_Z n))
        ++ audioBytes).
Proof.
  intros n. erewrite wavBytes_concat by apply getWavHeader_layout.
  f_equal.
Qed.

End WavFacts.

(** ** The container contract *)

Section WavContract.
Import Buffer Wav.
Local Open Scope Z_scope.

(** C5.  For [N] bytes of samples whose count fits the 32-bit length field
    ([36 + N < 2^32], which every string that [atob] can return satisfies),
    [generateSpeech] builds a container of exactly [44 + N] bytes: the
    little-endian 32-bit value at offset 4 is [36 + N], the one at offset 40
    is [N], the 16-bit value at offset 20 is 1 (PCM), and the markers,
    channel count, sample rate, byte rate, block alignment and bits per
    sample sit at offsets 0, 8, 12, 36, 22, 24, 28, 32 and 34; the samples
    follow unchanged. *)
Theorem wav_container_layout (audioBytes : bytes) :
  36 + Z.of_nat (length audioBytes) < 2 ^ 32 ->
  exists wav, wavBytes audioBytes = Some wav /\ canonical_container audioBytes wav.
Proof.
  intros H. eexists. split; [apply wavBytes_explicit|].
  unfold canonical_container.
  remember (Z.of_nat (length audioBytes)) as n eqn:En.
  assert (Hn : 0 <= n) by lia.
  cbv [getUint32 getUint16 getUint slice Nat.leb Nat.add length firstn skipn
       app leBytes ofLeBytes].
  repeat split; try reflexivity.
  - f_equal. rewrite le32; rewrite ToUint_plus; lia.
  - f_equal. rewrite le32; rewrite ToUint_small; lia.
Qed.

Lemma wav_container_layout_witness :
  exists wav, wavBytes [0; 1; 255; 127] = Some wav
              /\ canonical_container [0; 1; 255; 127] wav.
Proof. apply (wav_container_layout [0; 1; 255; 127]). vm_compute. reflexivity. Defined.

End WavContract.

(* ================================================================== *)
(** * A logic of runs *)
(* ================================================================== *)

Section Runs.
Context {W : Type}.
Local Open Scope list_scope.

Lemma outcome_bind {A B} (m : M W A) (k : A -> M W B) (w : W) :
  outcome (bind m k w) =
  match outcome (m w) with
  | Ok a => outcome (k a (final (m w)))
  | Throw e => Throw e
  | Pending => Pending
  end.
Proof.
  unfold bind, outcome, final. destruct (m w) as [[[a|e|] w1] l1]; simpl; trivial.
  now destruct (k a w1) as [[o w2] l2].
Qed.

Lemma events_bind {A B} (m : M W A) (k : A -> M W B) (w : W) :
  events (bind m k w) =
  events (m w) ++ match outcome (m w) with
                  | Ok a => events (k a (final (m w)))
                  | _ => []
                  end.
Proof.
  unfold bind, outcome, final, events.
  destruct (m w) as [[[a|e|] w1] l1]; simpl; try now rewrite app_nil_r.
  now destruct (k a w1) as [[o w2] l2].
Qed.

Lemma final_bind {A B} (m : M W A) (k : A -> M W B) (w : W) :
  final (bind m k w) =
  match outcome (m w) with
  | Ok a => final (k a (final (m w)))
  | _ => final (m w)
  end.
Proof.
  unfold bind, outcome, final. destruct (m w) as [[[a|e|] w1] l1]; simpl; trivial.
  now destruct (k a w1) as [[o w2] l2].
Qed.

Lemma Spec_conseq {A} (m : M W A) (P Q : Outcome A -> list Event -> Prop) :
  Spec m P -> (forall o l, P o l -> Q o l) -> Spec m Q.
Proof. intros H HPQ w. apply HPQ, H. Qed.

Lemma Spec_ret {A} (a : A) (P : Outcome A -> list Event -> Prop) :
  P (Ok a) [] -> Spec (W:=W) (ret a) P.
Proof. intros H w. exact H. Qed.

Lemma Spec_throw {A} (e : Exn) (P : Outcome A -> list Event -> Prop) :
  P (Throw e) [] -> Spec (W:=W) (throw e) P.
Proof. intros H w. exact H. Qed.

Lemma Spec_pending {A} (P : Outcome A -> list Event -> Prop) :
  P Pending [] -> Spec (W:=W) pending P.
Proof. intros H w. exact H. Qed.

Lemma Spec_emit (e : Event) (P : Outcome unit -> list Event -> Prop) :
  P (Ok tt) [e] -> Spec (W:=W) (emit e) P.
Proof. intros H w. exact H. Qed.

Lemma Spec_await {X} (op : W -> Settled X * W) (ev : Settled X -> Event)
    (P : Outcome X -> list Event -> Prop) :
  (forall x, P (Ok x) [ev (Resolved x)]) ->
  (forall e, P (Throw e) [ev (Rejected e)]) ->
  Spec (await op ev) P.
Proof.
  intros Hx He w. unfold await, outcome, events.
  destruct (op w) as [[x|e] w']; simpl; auto.
Qed.

Lemma Spec_perform {X} (op : W -> X * W) (ev : X -> Event)
    (P : Outcome X -> list Event -> Prop) :
  (forall x, P (Ok x) [ev x]) -> Spec (perform op ev) P.
Proof.
  intros Hx w. unfold perform, outcome, events.
  destruct (op w) as [x w']; simpl; auto.
Qed.

Lemma Spec_settle {X} (r : Settled X) (P : Outcome X -> list Event -> Prop) :
  (forall x, r = Resolved x -> P (Ok x) []) ->
  (forall e, r = Rejected e -> P (Throw e) []) ->
  Spec (W:=W) (settle r) P.
Proof. intros Hx He w. destruct r; simpl; [apply Hx | apply He]; reflexivity. Qed.

Lemma Spec_bind {A B} (m : M W A) (k : A -> M W B)
    (P : Outcome A -> list Event -> Prop)
    (Q : A -> Outcome B -> list Event -> Prop)
    (R : Outcome B -> list Event -> Prop) :
  Spec m P ->
  (forall a, Spec (k a) (Q a)) ->
  (forall e l, P (Throw e) l -> R (Throw e) l) ->
  (forall l, P Pending l -> R Pending l) ->
  (forall a l1 o l2, P (Ok a) l1 -> Q a o l2 -> R o (l1 ++ l2)) ->
  Spec (bind m k) R.
Proof.
  intros Hm Hk Ht Hp Ho w. rewrite outcome_bind, events_bind.
  specialize (Hm w). destruct (outcome (m w)) as [a|e|].
  - apply (Ho a); [exact Hm | apply Hk].
  - rewrite app_nil_r. now apply Ht.
  - rewrite app_nil_r. now apply Hp.
Qed.

(** ** Runs that only emit events of one class *)

Section Only.
Variable q : Event -> bool.

Lemma Only_ret {A} (a : A) : Only (W:=W) q (ret a).
Proof. unfold Only. now apply Spec_ret. Qed.

Lemma Only_throw {A} (e : Exn) : Only q (@throw W A e).
Proof. unfold Only. now apply Spec_throw. Qed.

Lemma Only_pending {A} : Only q (@pending W A).
Proof. unfold Only. now apply Spec_pending. Qed.

Lemma Only_emit (e : Event) : q e = true -> Only (W:=W) q (emit e).
Proof. intros H. unfold Only. apply Spec_emit. simpl. now rewrite H. Qed.

Lemma Only_await {X} (op : W -> Settled X * W) (ev : Settled X -> Event) :
  (forall r, q (ev r) = true) -> Only q (await op ev).
Proof. intros H. unfold Only. apply Spec_await; intros; simpl; now rewrite H. Qed.

Lemma Only_perform {X} (op : W -> X * W) (ev : X -> Event) :
  (forall x, q (ev x) = true) -> Only q (perform op ev).
Proof. intros H. unfold Only. apply Spec_perform; intros; simpl; now rewrite H. Qed.

Lemma Only_settle {X} (r : Settled X) : Only (W:=W) q (settle r).
Proof. unfold Only. now apply Spec_settle. Qed.

Lemma Only_bind {A B} (m : M W A) (k : A -> M W B) :
  Only q m -> (forall a, Only q (k a)) -> Only q (bind m k).
Proof.
  intros Hm Hk. unfold Only in *. eapply Spec_bind; [exact Hm | exact Hk | auto | auto |].
  intros a l1 o l2 H1 H2. rewrite forallb_app, H1, H2. reflexivity.
Qed.

Lemma Only_tryCatch {A} (m : M W A) (h : Exn -> M W A) :
  Only q m -> (forall e, Only q (h e)) -> Only q (tryCatch m h).
Proof.
  intros Hm Hh w. specialize (Hm w). unfold tryCatch, events, outcome in *.
  destruct (m w) as [[[a|e|] w1] l1]; simpl in *; trivial.
  specialize (Hh e w1). unfold events in Hh.
  destruct (h e w1) as [[o w2] l2]. simpl in *.
  rewrite forallb_app, Hm, Hh. reflexivity.
Qed.

Lemma Only_tryFinally {A} (m : M W A) (f : M W unit) :
  Only q m -> Only q f -> Only q (tryFinally m f).
Proof.
  intros Hm Hf w. specialize (Hm w). unfold tryFinally, events, outcome in *.
  destruct (m w) as [[[a|e|] w1] l1]; simpl in *; trivial;
    specialize (Hf w1); unfold events in Hf;
    destruct (f w1) as [[[[]|e'|] w2] l2]; simpl in *;
    rewrite forallb_app, Hm, Hf; reflexivity.
Qed.

Lemma Only_forEach {S} (range : list nat) (body : nat -> S -> M W (LoopStep S)) :
  (forall i st, Only q (body i st)) -> forall st, Only q (forEach range body st).
Proof.
  intros Hb. induction range as [|i rest IH]; intros st; simpl.
  - apply Only_ret.
  - apply Only_bind; [apply Hb|]. intros [st'|st']; [apply IH | apply Only_ret].
Qed.

End Only.

End Runs.

(* ================================================================== *)
(** * What is read off a list of events *)
(* ================================================================== *)

Section Observers.
Local Open Scope list_scope.

Lemma progressUpdates_app (l1 l2 : list Event) :
  progressUpdates (l1 ++ l2) = progressUpdates l1 ++ progressUpdates l2.
Proof. apply flat_map_app. Qed.

Lemma progressSteps_app (l1 l2 : list Event) :
  progressSteps (l1 ++ l2) = progressSteps l1 ++ progressSteps l2.
Proof. unfold progressSteps. now rewrite progressUpdates_app, map_app. Qed.

Lemma progressMessages_app (l1 l2 : list Event) :
  progressMessages (l1 ++ l2) = progressMessages l1 ++ progressMessages l2.
Proof. unfold progressMessages. now rewrite progressUpdates_app, map_app. Qed.

Lemma validations_app (l1 l2 : list Event) :
  validations (l1 ++ l2) = validations l1 ++ validations l2.
Proof. apply flat_map_app. Qed.

Lemma framePrompts_app (l1 l2 : list Event) :
  framePrompts (l1 ++ l2) = framePrompts l1 ++ framePrompts l2.
Proof. apply flat_map_app. Qed.

Lemma frameCalls_app (l1 l2 : list Event) :
  frameCalls (l1 ++ l2) = frameCalls l1 ++ frameCalls l2.
Proof. apply flat_map_app. Qed.

Lemma concepts_app (l1 l2 : list Event) :
  concepts (l1 ++ l2) = concepts l1 ++ concepts l2.
Proof. apply flat_map_app. Qed.

Lemma assetReplies_app (l1 l2 : list Event) :
  assetReplies (l1 ++ l2) = assetReplies l1 ++ assetReplies l2.
Proof. apply flat_map_app. Qed.

Lemma results_app (l1 l2 : list Event) :
  results (l1 ++ l2) = results l1 ++ results l2.
Proof. apply flat_map_app. Qed.

Lemma errors_app (l1 l2 : list Event) :
  errors (l1 ++ l2) = errors l1 ++ errors l2.
Proof. apply flat_map_app. Qed.

Lemma last_cons {X} (x d : X) (l : list X) : last (x :: l) d = last l x.
Proof.
  revert x d. induction l as [|y l IH]; intros x d; [reflexivity|].
  change (last (y :: l) d = last (y :: l) x). now rewrite !IH.
Qed.

(** The React state holds the last value set. *)
Lemma result_appAfter (a : AppState) (l : list Event) :
  result (appAfter a l) = last (results l) (result a).
Proof.
  revert a. induction l as [|e l IH]; intros a; [reflexivity|].
  cbn [appAfter fold_left]. fold (appAfter (applyEvent a e) l). rewrite IH.
  destruct e; try reflexivity. cbn [results flat_map app applyEvent result].
  fold (results l). now rewrite last_cons.
Qed.

Lemma error_appAfter (a : AppState) (l : list Event) :
  error (appAfter a l) = last (errors l) (error a).
Proof.
  revert a. induction l as [|e l IH]; intros a; [reflexivity|].
  cbn [appAfter fold_left]. fold (appAfter (applyEvent a e) l). rewrite IH.
  destruct e; try reflexivity. cbn [errors flat_map app applyEvent error].
  fold (errors l). now rewrite last_cons.
Qed.

Lemma progress_appAfter (a : AppState) (l : list Event) :
  progress (appAfter a l) = last (progressUpdates l) (progress a).
Proof.
  revert a. induction l as [|e l IH]; intros a; [reflexivity|].
  cbn [appAfter fold_left]. fold (appAfter (applyEvent a e) l). rewrite IH.
  destruct e; try reflexivity. cbn [progressUpdates flat_map app applyEvent progress].
  fold (progressUpdates l). now rewrite last_cons.
Qed.

Lemma reports_app (l1 l2 : list Event) :
  reports (l1 ++ l2) = reports l1 ++ reports l2.
Proof. apply filter_app. Qed.

Lemma appAfter_app (a : AppState) (l1 l2 : list Event) :
  appAfter a (l1 ++ l2) = appAfter (appAfter a l1) l2.
Proof. apply fold_left_app. Qed.

(** A list without events of a class shows nothing to its observer. *)
Lemma flat_map_unseen {X} (f : Event -> list X) (q : Event -> bool) (l : list Event) :
  (forall e, q e = true -> f e = []) ->
  forallb q l = true -> flat_map f l = [].
Proof.
  intros Hf. induction l as [|e l IH]; simpl; trivial.
  intros H. apply andb_prop in H as [He Hl]. now rewrite (Hf e He), IH.
Qed.

Lemma filter_unseen (p q : Event -> bool) (l : list Event) :
  (forall e, q e = true -> p e = false) ->
  forallb q l = true -> filter p l = [].
Proof.
  intros Hf. induction l as [|e l IH]; simpl; trivial.
  intros H. apply andb_prop in H as [He Hl]. now rewrite (Hf e He), IH.
Qed.

Lemma forallb_weaken (p q : Event -> bool) (l : list Event) :
  (forall e, p e = true -> q e = true) ->
  forallb p l = true -> forallb q l = true.
Proof.
  intros Hpq. rewrite !forallb_forall. auto.
Qed.

(** Without report events the React state keeps its outcome fields. *)
Lemma appAfter_unreported (a : AppState) (l : list Event) :
  reports l = [] ->
  error (appAfter a l) = error a /\ result (appAfter a l) = result a
  /\ apiKeySelected (appAfter a l) = apiKeySelected a.
Proof.
  revert a. induction l as [|e l IH]; intros a H; [now repeat split|].
  unfold reports in H. cbn [filter] in H.
  destruct (kind e) eqn:K; try discriminate H;
    cbn [appAfter fold_left]; fold (appAfter (applyEvent a e) l);
    destruct (IH (applyEvent a e) H) as (-> & -> & ->);
    destruct e; try discriminate K; repeat split.
Qed.

End Observers.

(** What each class hides from each observer. *)
Ltac by_kind :=
  let e := fresh "e" in let H := fresh "H" in
  intros e H; destruct e; try reflexivity; try discriminate H;
  try (match goal with b : bool |- _ => destruct b; try reflexivity; try discriminate H end);
  try (match goal with o : option _ |- _ => destruct o; try reflexivity; try discriminate H end).

Section Unseen.
Local Open Scope list_scope.
Variable l : list Event.

Lemma between_unseen lo hi :
  forallb (between lo hi) l = true ->
  frameCalls l = [] /\ framePrompts l = [] /\ validations l = []
  /\ concepts l = [] /\ assetReplies l = [] /\ reports l = [].
Proof.
  intros H. repeat split;
    first [ eapply flat_map_unseen; [|exact H] | eapply filter_unseen; [|exact H] ];
    by_kind.
Qed.

Lemma atStep_between n : forallb (atStep n) l = true -> forallb (between n n) l = true.
Proof.
  apply forallb_weaken. intros e. unfold atStep, between.
  destruct (kind e); trivial. intros H. apply Nat.eqb_eq in H as ->.
  now rewrite Nat.leb_refl.
Qed.

Lemma other_between lo hi : forallb other l = true -> forallb (between lo hi) l = true.
Proof.
  apply forallb_weaken. intros e. unfold other, between.
  destruct (kind e); trivial; discriminate.
Qed.

Lemma inLoop_unseen :
  forallb inLoop l = true ->
  concepts l = [] /\ assetReplies l = [] /\ reports l = [].
Proof.
  intros H. repeat split;
    first [ eapply flat_map_unseen; [|exact H] | eapply filter_unseen; [|exact H] ];
    by_kind.
Qed.

Lemma inKeyCheck_unseen :
  forallb inKeyCheck l = true ->
  frameCalls l = [] /\ framePrompts l = [] /\ validations l = []
  /\ concepts l = [] /\ assetReplies l = [] /\ progressUpdates l = []
  /\ results l = [] /\ errors l = [].
Proof.
  intros H. repeat split; (eapply flat_map_unseen; [|exact H]); by_kind.
Qed.

Lemma unreported :
  reports l = [] -> results l = [] /\ errors l = [].
Proof.
  unfold reports, results, errors. induction l as [|e l' IH]; simpl; [now split|].
  destruct e; simpl; try discriminate; exact IH.
Qed.

Lemma atStep_steps n :
  forallb (atStep n) l = true -> progressSteps l = repeat n (length (progressSteps l)).
Proof.
  unfold progressSteps, progressUpdates.
  induction l as [|e l' IH]; simpl; trivial.
  intros H. apply andb_prop in H as [He Hl]. specialize (IH Hl).
  destruct e; simpl; trivial.
  unfold atStep in He. simpl in He. apply Nat.eqb_eq in He. now rewrite He, IH at 1.
Qed.

End Unseen.

Create HintDb pipeline.
#[local] Hint Unfold updateProgress setProgress setIsLoading setError setResult
  setApiKeySelected analyzeImage generateAdConcept validateImage
  generateVideoDirectorPrompt generateAdAssets generateImage
  generateOpeningFrameWithActor fileToBase64 decode : pipeline.

(** Goals [Only q m] by the structure of [m]. *)
Ltac classify :=
  repeat first
    [ apply Only_ret | apply Only_throw | apply Only_pending | apply Only_settle
    | apply Only_emit; reflexivity
    | apply Only_await; intros; reflexivity
    | apply Only_perform; intros; reflexivity
    | apply Only_bind; [| intros ?]
    | match goal with
      | |- Only _ (match ?x with _ => _ end) => destruct x
      end
    | progress autounfold with pipeline ].

Section StageClasses.
Context {W : Type} (host : Host W).

Lemma Only_weaken (p q : Event -> bool) {A} (m : M W A) :
  (forall e, p e = true -> q e = true) -> Only p m -> Only q m.
Proof.
  intros Hpq H. eapply Spec_conseq; [exact H|]. intros o l.
  now apply forallb_weaken.
Qed.

Lemma apiKeyCheck_class : Only inKeyCheck (apiKeyCheck host).
Proof.
  intros w. unfold apiKeyCheck. destruct (aistudio host w).
  - revert w. change (Only inKeyCheck
      (hasKey <- await (hasSelectedApiKey host) HasSelectedApiKey ;;
       if negb hasKey
       then await (openSelectKey host) OpenSelectKey ;; setApiKeySelected true
       else ret tt)).
    classify.
  - reflexivity.
Qed.

Lemma Only_pollLoop (q : Event -> bool) (onProgress : string -> M W unit) :
  (forall msg, Only q (onProgress msg)) ->
  (forall e, other e = true -> q e = true) ->
  forall fuel operation pollCount,
    Only q (pollLoop host fuel onProgress operation pollCount).
Proof.
  intros Hp Hq. induction fuel as [|fuel IH]; intros operation pollCount;
    simpl; destruct (done operation); try apply Only_ret; try apply Only_pending.
  apply Only_bind; [now apply Only_emit, Hq|]. intros _.
  apply Only_bind; [apply Hp|]. intros _.
  apply Only_bind; [apply Only_await; intros; now apply Hq|]. intros op'. apply IH.
Qed.

Lemma Only_generateVideo (q : Event -> bool) (onProgress : string -> M W unit)
    fuel prompt frame ar :
  (forall msg, Only q (onProgress msg)) ->
  (forall e, other e = true -> q e = true) ->
  Only q (generateVideo host fuel prompt frame ar onProgress).
Proof.
  intros Hp Hq. unfold generateVideo.
  apply Only_bind; [apply Hp|]. intros _.
  apply Only_bind; [apply Only_await; intros; now apply Hq|]. intros op.
  apply Only_bind; [apply Hp|]. intros _.
  apply Only_bind; [now apply Only_pollLoop|].
  intros op'. destruct (opError op').
  { apply Only_bind; [apply Only_emit; now apply Hq | intros; apply Only_throw]. }
  destruct (videoUri op') as [[|c u]|];
    try (apply Only_bind; [apply Only_emit; now apply Hq | intros; apply Only_throw]).
  apply Only_bind; [apply Hp|]. intros _.
  apply Only_bind; [apply Only_await; intros; now apply Hq|]. intros resp.
  destruct (negb (ok resp)); [apply Only_throw|].
  apply Only_bind; [apply Only_settle|]. intros b.
  apply Only_perform. intros; now apply Hq.
Qed.

Lemma generateSpeech_class text : Only other (generateSpeech host text).
Proof.
  unfold generateSpeech.
  apply Only_bind; [now apply Only_await|].
  intros [[|c b]|]; try apply Only_throw.
  apply Only_bind; [classify|].
  intros audio. destruct (Wav.wavBytes audio); [|apply Only_throw].
  now apply Only_perform.
Qed.

(** The two analyses notify step 1 and nothing else. *)
Lemma analyzeImages_class data : Only (atStep 1) (analyzeImages host data).
Proof. unfold analyzeImages. classify. Qed.

(** The video stage notifies step 6 and nothing else. *)
Lemma generateVideo_class fuel prompt frame ar :
  Only (atStep 6) (generateVideo host fuel prompt frame ar onVideoProgress).
Proof.
  apply Only_generateVideo.
  - intros msg. now apply Only_emit.
  - intros e. unfold other, atStep. now destruct (kind e).
Qed.

(** The QC loop emits frame calls and notifies steps 3 and 4. *)
Lemma qcLoop_class data actor c : Only inLoop (qcLoop host data actor c).
Proof.
  unfold qcLoop. apply Only_forEach. intros i st. unfold qcAttempt. classify.
Qed.

Lemma onFinally_events (w : W) :
  onFinally w = (Ok tt, w, [SetIsLoading false; SetProgress idle]).
Proof. reflexivity. Qed.

End StageClasses.

(* ================================================================== *)
(** * The QC retry loop *)
(* ================================================================== *)

Section QcLoop.
Context {W : Type} (host : Host W).
Variable data : UserInput.t.
Variable actorImageData : option ImageData.
Local Open Scope list_scope.

Lemma Spec_forEach {S} (B : nat -> S -> Outcome (LoopStep S) -> list Event -> Prop)
    (body : nat -> S -> M W (LoopStep S)) :
  (forall i st, Spec (body i st) (B i st)) ->
  forall range st, Spec (forEach range body st) (LoopRun B range st).
Proof.
  intros Hb. induction range as [|i rest IH]; intros st.
  - apply Spec_ret. constructor.
  - simpl. eapply Spec_bind with (P := B i st)
      (Q := fun r o l => match r with
                         | Continue st' => LoopRun B rest st' o l
                         | Break st' => o = Ok st' /\ l = []
                         end).
    + apply Hb.
    + intros [st'|st']; [apply IH | now apply Spec_ret].
    + intros e l H. now apply LoopThrow.
    + intros l H. now apply LoopPending.
    + intros [st'|st'] l1 o l2 H1 H2.
      * now apply LoopContinue with st'.
      * destruct H2 as [-> ->]. rewrite app_nil_r. now apply LoopBreak.
Qed.

(** Either service emits a [Generation] and settles. *)
Lemma frame_generation (p : string) (w : W) :
  let r := (match actorImageData with
            | Some actor => generateOpeningFrameWithActor host p actor
            | None =>
                openingFrameB64 <- generateImage host p (UserInput.aspectRatio data) ;;
                ret (mkImageData openingFrameB64 "image/jpeg")
            end) w in
  Generation p (events r) /\ outcome r <> Pending.
Proof.
  destruct actorImageData as [actor|]; cbv zeta.
  - unfold generateOpeningFrameWithActor, bind, await, emit, throw, ret, outcome, events.
    destruct (ai_generateOpeningFrameWithActor host p actor w) as [[res|e] w1];
      simpl; [|split; [constructor | discriminate]].
    destruct (parts res) as [ps|]; simpl; [|split; [constructor | discriminate]].
    destruct (firstInlineData ps); simpl; split; try constructor; discriminate.
  - unfold generateImage, bind, await, throw, ret, outcome, events.
    destruct (ai_generateImages host p (UserInput.aspectRatio data) w) as [[res|e] w1];
      simpl; [|split; [constructor | discriminate]].
    destruct res as [[|b bs]|]; simpl; split; try constructor; discriminate.
Qed.

Lemma qcAttempt_run (i : nat) (st : QcState) :
  Spec (qcAttempt host data actorImageData i st) (AttemptRun i st).
Proof.
  intros w. pose proof (frame_generation (openingFramePrompt (concept st)) w) as Hgen.
  cbv zeta in Hgen. unfold qcAttempt.
  match type of Hgen with Generation _ (events (?g w)) /\ _ => set (gen := g) in * end.
  cbv [bind updateProgress setProgress emit validateImage await].
  destruct (gen w) as [[[frame|e|] w1] g]; unfold outcome, events in *;
    cbn [fst snd] in *; destruct Hgen as [Hg Hnp]; [| |congruence].
  - destruct (ai_validateImage host frame w1) as [[v|e] w2]; cbn [fst snd app].
    + destruct (isValid v) eqn:Hv; cbn [ret fst snd app].
      * now apply AttemptValid.
      * now apply AttemptInvalid.
    + now apply AttemptNoVerdict.
  - now apply AttemptNoFrame.
Qed.

(** Every run of the loop is a [LoopRun] of attempts 1, 2 and 3. *)
Lemma qcLoop_run (c : AdConcept) :
  Spec (qcLoop host data actorImageData c)
       (LoopRun AttemptRun [1; 2; 3] (mkQc c None QC_PASSED_FIRST)).
Proof. unfold qcLoop. apply Spec_forEach. apply qcAttempt_run. Qed.

End QcLoop.

(** ** What the loop shows to each observer *)

Section QcLoopFacts.
Local Open Scope list_scope.

Lemma Generation_seen (p : string) (g : list Event) :
  Generation p g ->
  frameCalls g = [Generated p] /\ framePrompts g = [p] /\ validations g = []
  /\ progressUpdates g = [] /\ forallb inLoop g = true.
Proof. intros []; repeat split. Qed.

Lemma cons_split {X} (a x : X) (l pre post : list X) :
  a :: l = pre ++ x :: post ->
  (pre = [] /\ a = x /\ l = post)
  \/ (exists pre', pre = a :: pre' /\ l = pre' ++ x :: post).
Proof.
  destruct pre as [|b pre']; simpl; intros H; injection H as -> ->; eauto.
Qed.

(** One attempt, as the observers see it. *)
Lemma AttemptRun_seen (i : nat) (st : QcState) o l :
  AttemptRun i st o l ->
  let p := openingFramePrompt (concept st) in
  framePrompts l = [p] /\
  forallb inLoop l = true /\
  ((frameCalls l = [Generated p] /\ validations l = [] /\ progressSteps l = [3]
    /\ exists e, o = Throw e)
   \/ exists frame r,
        frameCalls l = [Generated p; Validated frame r]
        /\ validations l = [(frame, r)] /\ progressSteps l = [3; 4]
        /\ match r with
           | Rejected e => o = Throw e
           | Resolved v =>
               if isValid v
               then o = Ok (Break (mkQc (concept st) (Some frame)
                              (if (1 <? i)%nat
                               then "QC passed on attempt " ++ numToString i ++ "."
                               else qcNotes st)))
               else o = Ok (Continue
                              (mkQc (amend (concept st) (suggestion v)) (Some frame)
                                 (if (i =? 3)%nat
                                  then QC_FAILED ++ suggestion v
                                  else "Attempt " ++ numToString i ++ " failed QC: "
                                       ++ suggestion v ++ ". Refining prompt.")))
           end).
Proof.
  intros H p. unfold progressSteps.
  destruct H as [e g Hg|frame e g Hg|frame v g Hg Hv|frame v g Hg Hv];
    apply Generation_seen in Hg as (Hc & Hp & Hv' & Hs & Hr);
    cbn [framePrompts frameCalls validations progressUpdates flat_map forallb app];
    fold (framePrompts g) (frameCalls g) (validations g) (progressUpdates g);
    rewrite ?flat_map_app, ?forallb_app;
    fold (framePrompts g) (frameCalls g) (validations g) (progressUpdates g);
    rewrite ?Hc, ?Hp, ?Hv', ?Hs, ?Hr; fold p; (split; [reflexivity|]);
    (split; [reflexivity|]).
  - left. repeat split. now exists e.
  - right. exists frame, (Rejected e). repeat split.
  - right. exists frame, (Resolved v). rewrite Hv. repeat split.
  - right. exists frame, (Resolved v). rewrite Hv. repeat split.
Qed.

Ltac seen H :=
  let Ho := fresh "Ho" in
  apply AttemptRun_seen in H; cbv zeta in H;
  destruct H as (?Hp & ?Hr & [(?Hc & ?Hv & ?Hs & ?e & Ho)
                             |(?frame & [?v|?e] & ?Hc & ?Hv & ?Hs & Ho)]);
  [ | match type of Ho with
      | (if isValid ?x then _ else _) =>
          revert Ho; destruct (isValid x) eqn:?Hvalid; intros Ho
      end | ];
  first [ discriminate Ho | injection Ho as Ho; try subst | idtac ].

(** At most one validation per turn. *)
Lemma loop_validations_bounded range st o l :
  LoopRun AttemptRun range st o l ->
  length (validations l) <= length range.
Proof.
  induction 1 as [st|i rest st st' l H|i rest st st' l1 o l2 H _ IH
                 |i rest st e l H|i rest st l H];
    simpl; try lia; try rewrite validations_app, length_app;
    seen H; rewrite Hv; simpl; lia.
Qed.

(** The same for generations. *)
Lemma loop_generations_bounded range st o l :
  LoopRun AttemptRun range st o l ->
  length (framePrompts l) <= length range.
Proof.
  induction 1 as [st|i rest st st' l H|i rest st st' l1 o l2 H _ IH
                 |i rest st e l H|i rest st l H];
    simpl; try lia; try rewrite framePrompts_app, length_app;
    seen H; rewrite Hp; simpl; lia.
Qed.

(** A valid verdict is the last frame call of the loop. *)
Lemma loop_stops_at_valid range st o l :
  LoopRun AttemptRun range st o l ->
  forall pre f v post,
    frameCalls l = pre ++ Validated f (Resolved v) :: post ->
    isValid v = true -> post = [].
Proof.
  induction 1 as [st|i rest st st' l H|i rest st st' l1 o l2 H _ IH
                 |i rest st e l H|i rest st l H];
    intros pre f v0 post E Hvalid0;
    try rewrite frameCalls_app in E.
  - now destruct pre.
  - seen H. rewrite Hc in E.
    apply cons_split in E as [(_ & E & _)|(pre' & _ & E)]; [discriminate|].
    apply cons_split in E as [(_ & _ & E)|(pre'' & _ & E)]; [now symmetry|].
    now destruct pre''.
  - seen H. rewrite Hc in E. simpl in E.
    apply cons_split in E as [(_ & E & _)|(pre' & _ & E)]; [discriminate|].
    apply cons_split in E as [(_ & E & _)|(pre'' & _ & E)].
    + injection E as <- <-. congruence.
    + now apply (IH pre'' f v0 post).
  - seen H; rewrite Hc in E.
    + apply cons_split in E as [(_ & E & _)|(pre' & _ & E)]; [discriminate|].
      now destruct pre'.
    + apply cons_split in E as [(_ & E & _)|(pre' & _ & E)]; [discriminate|].
      apply cons_split in E as [(_ & E & _)|(pre'' & _ & E)]; [discriminate|].
      now destruct pre''.
  - seen H.
Qed.

(** A turn whose verdict is invalid hands the amended concept, its frame
    and its note to the next turn. *)
Lemma loop_turn_invalid i rest st o l f v vs :
  LoopRun AttemptRun (i :: rest) st o l ->
  validations l = (f, Resolved v) :: vs ->
  isValid v = false ->
  exists l1 l2,
    l = l1 ++ l2 /\ validations l2 = vs /\
    LoopRun AttemptRun rest
      (mkQc (amend (concept st) (suggestion v)) (Some f)
            (if (i =? 3)%nat
             then QC_FAILED ++ suggestion v
             else "Attempt " ++ numToString i ++ " failed QC: "
                  ++ suggestion v ++ ". Refining prompt."))
      o l2.
Proof.
  intros H E Hf.
  inversion H as [|? ? ? ? ? A|? ? ? ? l1 ? l2 A L| ? ? ? ? ? A|? ? ? ? A];
    subst; clear H; try rewrite validations_app in E; seen A;
    rewrite Hv in E; try discriminate E; injection E as E1 E2 E3;
    subst; try congruence.
  exists l1, l2. repeat split. exact L.
Qed.

(** A turn whose verdict is valid ends the loop. *)
Lemma loop_turn_valid i rest st o l f v vs :
  LoopRun AttemptRun (i :: rest) st o l ->
  validations l = (f, Resolved v) :: vs ->
  isValid v = true ->
  vs = [] /\
  o = Ok (mkQc (concept st) (Some f)
               (if (1 <? i)%nat
                then "QC passed on attempt " ++ numToString i ++ "."
                else qcNotes st)).
Proof.
  intros H E Hf.
  inversion H as [|? ? ? ? ? A|? ? ? ? l1 ? l2 A L| ? ? ? ? ? A|? ? ? ? A];
    subst; clear H; try rewrite validations_app in E; seen A;
    rewrite Hv in E; try discriminate E; injection E as E1 E2 E3;
    subst; try congruence.
  split; reflexivity.
Qed.

(** Three invalid verdicts: the loop returns, with the third frame, the
    failure note and the prompt amended three times. *)
Lemma loop_exhausted c o l f1 f2 f3 v1 v2 v3 :
  LoopRun AttemptRun [1; 2; 3] (mkQc c None QC_PASSED_FIRST) o l ->
  validations l = [(f1, Resolved v1); (f2, Resolved v2); (f3, Resolved v3)] ->
  isValid v1 = false -> isValid v2 = false -> isValid v3 = false ->
  o = Ok (mkQc (amend (amend (amend c (suggestion v1)) (suggestion v2))
                      (suggestion v3))
               (Some f3) (QC_FAILED ++ suggestion v3)).
Proof.
  intros H E H1 H2 H3.
  destruct (loop_turn_invalid _ _ _ _ _ _ _ _ H E H1) as (l1 & la & -> & Ea & Ha).
  destruct (loop_turn_invalid _ _ _ _ _ _ _ _ Ha Ea H2) as (l2 & lb & -> & Eb & Hb).
  destruct (loop_turn_invalid _ _ _ _ _ _ _ _ Hb Eb H3) as (l3 & lc & -> & _ & L).
  inversion L; subst. reflexivity.
Qed.

(** A valid first verdict: the loop returns at once, with the first frame,
    the concept it was given and the note it started with. *)
Lemma loop_first_pass c o l f1 v1 rest :
  LoopRun AttemptRun [1; 2; 3] (mkQc c None QC_PASSED_FIRST) o l ->
  validations l = (f1, Resolved v1) :: rest ->
  isValid v1 = true ->
  rest = [] /\ o = Ok (mkQc c (Some f1) QC_PASSED_FIRST).
Proof. intros H E H1. exact (loop_turn_valid _ _ _ _ _ _ _ _ H E H1). Qed.

Lemma prefix_refl (s : string) : String.prefix s s = true.
Proof.
  induction s as [|c s IH]; simpl; trivial.
  destruct (ascii_dec c c); [exact IH | congruence].
Qed.

Lemma prefix_append (s t : string) : String.prefix s (s ++ t) = true.
Proof.
  induction s as [|c s IH]; simpl; [now destruct t|].
  destruct (ascii_dec c c); [exact IH | congruence].
Qed.

Lemma prefix_trans (s t u : string) :
  String.prefix s t = true -> String.prefix t u = true -> String.prefix s u = true.
Proof.
  revert t u. induction s as [|c s IH]; intros [|d t] [|e u]; simpl; trivial;
    try discriminate.
  destruct (ascii_dec c d) as [->|]; [|discriminate].
  destruct (ascii_dec d e) as [->|]; [|discriminate].
  apply IH.
Qed.

(** The prompts of the loop: the first is the prompt the loop was given, a
    later one is its predecessor with the suggestion of the failed verdict
    appended, and the prompt the loop returns extends them all. *)
Lemma loop_prompts range st o l :
  LoopRun AttemptRun range st o l ->
  (forall p, nth_error (framePrompts l) 0 = Some p ->
             p = openingFramePrompt (concept st)) /\
  (forall k p p',
      nth_error (framePrompts l) k = Some p ->
      nth_error (framePrompts l) (S k) = Some p' ->
      exists f v,
        nth_error (validations l) k = Some (f, Resolved v)
        /\ isValid v = false
        /\ p' = (p ++ IMPORTANT_FIX ++ suggestion v)%string) /\
  (forall st', o = Ok st' ->
      String.prefix (openingFramePrompt (concept st))
                    (openingFramePrompt (concept st')) = true
      /\ forall p, In p (framePrompts l) ->
                   String.prefix p (openingFramePrompt (concept st')) = true).
Proof.
  induction 1 as [st|i rest st st' l H|i rest st st' l1 o l2 H L IH
                 |i rest st e l H|i rest st l H].
  - split; [|split].
    + intros p E. discriminate E.
    + intros [|k] p p' E; discriminate E.
    + intros st' E. injection E as <-. split; [apply prefix_refl | intros p []].
  - seen H. rewrite Hp, Hv. split; [|split].
    + intros p E. now injection E as <-.
    + intros [|k] p p' E E'; [discriminate E' | now destruct k].
    + intros st' E. injection E as <-. cbn [concept].
      split; [apply prefix_refl | intros p [<-|[]]; apply prefix_refl].
  - seen H. destruct IH as (IHa & IHb & IHc).
    rewrite framePrompts_app, validations_app, Hp, Hv. cbn [app].
    split; [|split].
    + intros p E. now injection E as <-.
    + intros [|k] p p' E E'; cbn [nth_error] in *.
      * injection E as <-. apply IHa in E'. subst p'.
        exists frame, v. repeat split. exact Hvalid.
      * exact (IHb k p p' E E').
    + intros st' E. destruct (IHc st' E) as [Hpre Hall]. cbn [concept amend openingFramePrompt] in Hpre.
      assert (Hfirst : String.prefix (openingFramePrompt (concept st))
                         (openingFramePrompt (concept st')) = true).
      { eapply prefix_trans; [|exact Hpre]. apply prefix_append. }
      split; [exact Hfirst|]. intros p [<-|Hin]; [exact Hfirst | now apply Hall].
  - split; [|split].
    + seen H; rewrite Hp; intros p E; now injection E as <-.
    + seen H; rewrite Hp; intros [|k] p p' E E';
        solve [discriminate E' | now destruct k].
    + intros st' E. discriminate E.
  - seen H.
Qed.

End QcLoopFacts.

(* ================================================================== *)
(** * The shape of a run *)
(* ================================================================== *)

Section RunShape.
Context {W : Type} (host : Host W).
Local Open Scope list_scope.

Lemma Sorted_repeat_front (n lo k : nat) (l : list nat) :
  n <= lo -> Sorted le (lo :: l) -> Sorted le (n :: repeat n k ++ l).
Proof.
  intros Hn Hs. induction k as [|k IH]; simpl.
  - apply Sorted_inv in Hs as [Hl Hh]. constructor; [exact Hl|].
    destruct Hh; constructor. lia.
  - constructor; [exact IH | constructor; lia].
Qed.

Lemma Body_nil (lo : nat) : Body lo [].
Proof. split; [reflexivity | repeat constructor]. Qed.

Lemma Body_prepend (n lo : nat) (l1 l2 : list Event) :
  forallb (atStep n) l1 = true -> Body lo l2 -> n <= lo -> lo <= 8 ->
  Body n (l1 ++ l2).
Proof.
  intros H1 [H2 Hs] Hn Hlo. split.
  - rewrite forallb_app. apply andb_true_intro. split.
    + revert H1. apply forallb_weaken. intros e. unfold atStep, between.
      destruct (kind e); trivial. intros E. apply Nat.eqb_eq in E as ->.
      rewrite Nat.leb_refl. apply Nat.leb_le. lia.
    + revert H2. apply forallb_weaken. intros e. unfold between.
      destruct (kind e); trivial. intros E. apply andb_prop in E as [E1 E2].
      apply Nat.leb_le in E1. rewrite E2, andb_true_r. apply Nat.leb_le. lia.
  - rewrite progressSteps_app, (atStep_steps _ _ H1).
    now apply Sorted_repeat_front with lo.
Qed.

Lemma Rest_stop data qc frame (n : nat) (o : Outcome unit) (l : list Event) :
  forallb (atStep n) l = true -> n <= 8 -> o <> Ok tt ->
  Rest data qc frame n o l.
Proof.
  intros H Hn Ho. exists l, []. rewrite app_nil_r. repeat split.
  - rewrite <- (app_nil_r l). apply Body_prepend with n; auto using Body_nil.
  - rewrite <- (app_nil_r l). apply Body_prepend with n; auto using Body_nil.
  - now constructor.
Qed.

Lemma Rest_prepend data qc frame (n lo : nat) (o : Outcome unit) (l1 l2 : list Event) :
  forallb (atStep n) l1 = true -> Rest data qc frame lo o l2 ->
  n <= lo -> lo <= 8 ->
  Rest data qc frame n o (l1 ++ l2).
Proof.
  intros H1 (b & t & -> & Hb & Ht) Hn Hlo. exists (l1 ++ b), t.
  rewrite app_assoc. repeat split; trivial.
  - now apply (Body_prepend n lo).
  - now apply (Body_prepend n lo).
Qed.

(** A step of STAGE 2 in front of the rest of it. *)
Lemma Spec_Rest_bind data qc frame (n lo : nat) {A}
    (m : M W A) (k : A -> M W unit) :
  Only (atStep n) m ->
  (forall a, Spec (k a) (Rest data qc frame lo)) ->
  n <= lo -> lo <= 8 ->
  Spec (bind m k) (Rest data qc frame n).
Proof.
  intros Hm Hk Hn Hlo. eapply Spec_bind; [exact Hm | exact Hk | | |].
  - intros e l H. apply Rest_stop; trivial; [lia | discriminate].
  - intros l H. apply Rest_stop; trivial; [lia | discriminate].
  - intros a l1 o l2 H1 H2. now apply Rest_prepend with lo.
Qed.

Lemma assets_run data qc frame veoPrompt videoUrl voiceoverUrl :
  Spec (updateProgress 8 "Generating ad assets..." ;;
        adAssets <- generateAdAssets host (UserInput.productDescription data)
                      (UserInput.cta data) (UserInput.tone data) ;;
        setResult (Some (finalOutput data (concept qc) (dataUrl frame) veoPrompt
                                     videoUrl (qcNotes qc) adAssets voiceoverUrl)))
       (Rest data qc frame 8).
Proof.
  intros w. exists []. cbv [bind updateProgress setProgress emit generateAdAssets await
                            setResult outcome events fst snd app].
  destruct (ai_generateAdAssets host _ _ _ w) as [[a|e] w1]; cbn [fst snd app];
    eexists; (split; [reflexivity|]); (split; [apply Body_nil|]); constructor.
Qed.

(** Every run of [finishAd] is a [FinishRun]. *)
Lemma finishAd_run fuel data qc :
  Spec (finishAd host fuel data qc) (FinishRun data qc).
Proof.
  unfold finishAd. destruct (openingFrameData qc) as [frame|] eqn:Hf.
  2:{ apply Spec_throw. now constructor. }
  cbv zeta.
  eapply Spec_bind with
    (P := fun o l => o = Ok tt /\ l = [SetProgress SCRIPT_STEP])
    (Q := fun _ o l =>
            (exists e, o = Throw e /\
               l = [GenerateVideoDirectorPrompt (concept qc) data (Rejected e)])
            \/ exists veoPrompt l',
                 l = GenerateVideoDirectorPrompt (concept qc) data (Resolved veoPrompt) :: l'
                 /\ Rest data qc frame 6 o l').
  - intros w. split; reflexivity.
  - intros _.
    eapply Spec_bind with
      (P := fun o l => match o with
                       | Ok v => l = [GenerateVideoDirectorPrompt (concept qc) data (Resolved v)]
                       | Throw e => l = [GenerateVideoDirectorPrompt (concept qc) data (Rejected e)]
                       | Pending => False
                       end)
      (Q := fun v o l => Rest data qc frame 6 o l).
    + apply Spec_await; reflexivity.
    + intros veoPrompt.
      apply Spec_Rest_bind with 6; [now apply Only_emit | | lia | lia]. intros _.
      apply Spec_Rest_bind with 7; [apply generateVideo_class | | lia | lia].
      intros videoUrl.
      apply Spec_Rest_bind with 8; [| | lia | lia].
      * destruct (UserInput.generateVoiceover data); [|apply Only_ret].
        apply Only_bind; [now apply Only_emit|]. intros _.
        apply Only_bind; [|intros; apply Only_ret].
        eapply Only_weaken; [|apply generateSpeech_class].
        intros e. unfold other, atStep. now destruct (kind e).
      * intros voiceoverUrl. apply assets_run.
    + intros e l ->. left. now exists e.
    + intros l [].
    + intros v l1 o l2 -> H. right. now exists v, l2.
  - intros e l [H _]. discriminate H.
  - intros l [H _]. discriminate H.
  - intros _ l1 o l2 [_ ->] [(e & -> & ->)|(v & l' & -> & H)]; cbn [app].
    + now apply FinishNoScript with frame.
    + now apply FinishScript with frame.
Qed.

Lemma other_steps (l : list Event) :
  forallb other l = true -> progressSteps l = [].
Proof.
  intros H. unfold progressSteps, progressUpdates.
  erewrite flat_map_unseen; [reflexivity | | exact H]. by_kind.
Qed.

Lemma other_atStep n (l : list Event) :
  forallb other l = true -> forallb (atStep n) l = true.
Proof.
  apply forallb_weaken. intros e. unfold other, atStep. now destruct (kind e).
Qed.

(** The analyses notify step 1 once, first. *)
Lemma analyzeImages_run data :
  Spec (analyzeImages host data)
       (fun _ l => forallb (atStep 1) l = true /\ progressSteps l = [1]).
Proof.
  unfold analyzeImages.
  eapply Spec_bind with
    (P := fun o l => o = Ok tt /\ l = [SetProgress (mkProgress 1 "Analyzing images...")])
    (Q := fun _ _ l => forallb other l = true).
  - intros w. split; reflexivity.
  - intros _. change (Only other
      (productImageData <- fileToBase64 host (UserInput.productImage data) ;;
       imageAnalysis <- analyzeImage host productImageData ;;
       actorImageData <-
         match UserInput.actorImage data with
         | Some f => d <- fileToBase64 host (Some f) ;; ret (Some d)
         | None => ret None
         end ;;
       match actorImageData with
       | Some actor =>
           actorAnalysis <- analyzeImage host actor ;;
           ret ((imageAnalysis ++ LF ++ "Actor Analysis: " ++ actorAnalysis)%string,
                actorImageData)
       | None => ret (imageAnalysis, actorImageData)
       end)).
    classify.
  - intros e l [H _]. discriminate H.
  - intros l [H _]. discriminate H.
  - intros _ l1 o l2 [_ ->] H. cbn [app]. split.
    + cbn [forallb]. now rewrite (other_atStep 1 _ H).
    + change (1 :: progressSteps l2 = [1]). now rewrite (other_steps _ H).
Qed.

(** Every run of [pipeline] is a [PipelineRun]. *)
Lemma pipeline_run fuel data :
  Spec (pipeline host fuel data) (PipelineRun data).
Proof.
  unfold pipeline.
  eapply Spec_bind with
    (Q := fun x o l =>
            (exists e, o = Throw e /\
               l = [SetProgress CONCEPT_STEP;
                    GenerateAdConcept (fst x) (UserInput.productDescription data)
                                      (UserInput.tone data) (Rejected e)])
            \/ exists c ol ll s,
                 l = [SetProgress CONCEPT_STEP;
                      GenerateAdConcept (fst x) (UserInput.productDescription data)
                                        (UserInput.tone data) (Resolved c)] ++ ll ++ s
                 /\ LoopRun AttemptRun [1; 2; 3] (mkQc c None QC_PASSED_FIRST) ol ll
                 /\ forallb inLoop ll = true
                 /\ AfterLoop data ol o s).
  - apply analyzeImages_run.
  - intros [imageAnalysis actorImageData]. cbn [fst].
    eapply Spec_bind with
      (P := fun o l => o = Ok tt /\ l = [SetProgress CONCEPT_STEP])
      (Q := fun _ o l =>
            (exists e, o = Throw e /\
               l = [GenerateAdConcept imageAnalysis (UserInput.productDescription data)
                                      (UserInput.tone data) (Rejected e)])
            \/ exists c ol ll s,
                 l = [GenerateAdConcept imageAnalysis (UserInput.productDescription data)
                                        (UserInput.tone data) (Resolved c)] ++ ll ++ s
                 /\ LoopRun AttemptRun [1; 2; 3] (mkQc c None QC_PASSED_FIRST) ol ll
                 /\ forallb inLoop ll = true
                 /\ AfterLoop data ol o s).
    + intros w. split; reflexivity.
    + intros _.
      eapply Spec_bind with
        (P := fun o l =>
                match o with
                | Ok c => l = [GenerateAdConcept imageAnalysis
                                 (UserInput.productDescription data)
                                 (UserInput.tone data) (Resolved c)]
                | Throw e => l = [GenerateAdConcept imageAnalysis
                                    (UserInput.productDescription data)
                                    (UserInput.tone data) (Rejected e)]
                | Pending => False
                end)
        (Q := fun c o l =>
                exists ol ll s,
                  l = ll ++ s
                  /\ LoopRun AttemptRun [1; 2; 3] (mkQc c None QC_PASSED_FIRST) ol ll
                  /\ forallb inLoop ll = true
                  /\ AfterLoop data ol o s).
      * apply Spec_await; reflexivity.
      * intros c.
        eapply Spec_bind with
          (P := fun ol ll =>
                  LoopRun AttemptRun [1; 2; 3] (mkQc c None QC_PASSED_FIRST) ol ll
                  /\ forallb inLoop ll = true)
          (Q := fun qc o s => FinishRun data qc o s).
        -- intros w. split; [apply qcLoop_run | apply qcLoop_class].
        -- intros qc. apply finishAd_run.
        -- intros e l [H1 H2]. exists (Throw e), l, []. rewrite app_nil_r.
           repeat split; trivial.
        -- intros l [H1 H2]. exists Pending, l, []. rewrite app_nil_r.
           repeat split; trivial.
        -- intros qc l1 o l2 [H1 H2] H3. exists (Ok qc), l1, l2. repeat split; trivial.
      * intros e l ->. left. now exists e.
      * intros l [].
      * intros c l1 o l2 -> (ol & ll & s & -> & H1 & H2 & H3). right.
        now exists c, ol, ll, s.
    + intros e l [H _]. discriminate H.
    + intros l [H _]. discriminate H.
    + intros _ l1 o l2 [_ ->] [(e & -> & ->)|(c & ol & ll & s & -> & H)].
      * left. now exists e.
      * right. now exists c, ol, ll, s.
  - intros e l [H1 H2]. apply RunNoAnalysis; trivial. discriminate.
  - intros l [H1 H2]. apply RunNoAnalysis; trivial. discriminate.
  - intros [imageAnalysis actorImageData] l1 o l2 [H1 H2]
           [(e & -> & ->)|(c & ol & ll & s & -> & H3 & H4 & H5)]; cbn [fst].
    + now apply RunNoConcept.
    + now apply RunLoop with ol.
Qed.

(** Every run of the [try] statement is a [TryRun]. *)
Lemma tryPipeline_run fuel data :
  Spec (tryPipeline host fuel data) (TryRun data).
Proof.
  intros w. pose proof (pipeline_run fuel data w) as H.
  unfold tryPipeline, tryFinally, tryCatch, outcome, events in *.
  destruct (pipeline host fuel data w) as [[[[]|e|] w1] p]; cbn [fst snd] in *.
  - rewrite onFinally_events. now apply TryDone.
  - unfold onError. cbv [bind emit setApiKeySelected setError].
    assert (E : caught e =
                if entityNotFound e
                then [ConsoleError; SetApiKeySelected false; SetError (Some API_KEY_MESSAGE)]
                else [ConsoleError;
                      SetError (Some (orElse (JS.message e) "An unknown error occurred."))]).
    { unfold caught, surfaced. now destruct (entityNotFound e). }
    pose proof (TryCaught data e p H) as T. rewrite E in T.
    destruct (entityNotFound e); cbn [fst snd app] in *;
      rewrite onFinally_events; cbn [fst snd]; rewrite <- app_assoc; exact T.
  - now apply TryPending.
Qed.

(** Every run of [handleGenerateAd] is a [HandleRun]. *)
Lemma handleGenerateAd_run fuel data :
  Spec (handleGenerateAd host fuel data) (HandleRun data).
Proof.
  intros w. unfold handleGenerateAd.
  rewrite !outcome_bind, !events_bind.
  cbn [setIsLoading setError setResult emit outcome events final fst snd].
  pose proof (apiKeyCheck_class host w) as Hk. cbv beta in Hk.
  pose proof (tryPipeline_run fuel data (final (apiKeyCheck host w))) as Ht.
  destruct (outcome (apiKeyCheck host w)) as [[]|e|].
  - apply (HandleTry data _ _ _ Hk Ht).
  - rewrite app_nil_r. apply (HandleNoKey data _ _ Hk). discriminate.
  - rewrite app_nil_r. apply (HandleNoKey data _ _ Hk). discriminate.
Qed.

End RunShape.

(* ================================================================== *)
(** * What the observers see of a run *)
(* ================================================================== *)

Section Anatomy.
Local Open Scope list_scope.

Lemma quiet_app (l1 l2 : list Event) : quiet l1 -> quiet l2 -> quiet (l1 ++ l2).
Proof.
  intros (A1 & A2 & A3 & A4 & A5 & A6) (B1 & B2 & B3 & B4 & B5 & B6).
  unfold quiet.
  rewrite frameCalls_app, framePrompts_app, validations_app, concepts_app,
    assetReplies_app, reports_app, A1, A2, A3, A4, A5, A6, B1, B2, B3, B4, B5, B6.
  repeat split.
Qed.

Lemma quiet_nil : quiet [].
Proof. repeat split. Qed.

Lemma Body_quiet lo b : Body lo b -> quiet b.
Proof. intros [H _]. exact (between_unseen b lo 8 H). Qed.

Lemma analysis_quiet a : forallb (atStep 1) a = true -> quiet a.
Proof. intros H. apply (between_unseen a 1 1), atStep_between, H. Qed.

Lemma reports_absent (l : list Event) (e : Event) :
  reports l = [] -> In e l -> kind e <> KReport.
Proof.
  unfold reports. intros H Hin K.
  assert (Hf : In e (filter (fun e => match kind e with KReport => true | _ => false end) l)).
  { apply filter_In. split; [exact Hin | now rewrite K]. }
  rewrite H in Hf. destruct Hf.
Qed.

(** The end of STAGE 2, as the observers see it: an output only with the
    reply of the ad-asset call that it carries. *)
Lemma Tail_seen data qc frame o t :
  Tail data qc frame o t ->
  frameCalls t = [] /\ framePrompts t = [] /\ validations t = [] /\ concepts t = []
  /\ errors t = []
  /\ ((results t = [] /\ reports t = [] /\ o <> Ok tt
       /\ forall a, ~ In (Resolved a) (assetReplies t))
      \/ exists veoPrompt videoUrl voiceoverUrl adAssets,
           o = Ok tt
           /\ assetReplies t = [Resolved adAssets]
           /\ results t = [Some (finalOutput data (concept qc) (dataUrl frame) veoPrompt
                                   videoUrl (qcNotes qc) adAssets voiceoverUrl)]).
Proof.
  intros [o' Ho|e|veoPrompt videoUrl voiceoverUrl adAssets]; repeat split; trivial.
  - left. repeat split; trivial. intros a [].
  - left. repeat split; try discriminate. intros a [H|[]]. discriminate H.
  - right. now exists veoPrompt, videoUrl, voiceoverUrl, adAssets.
Qed.

Lemma FinishRun_seen data qc o s :
  FinishRun data qc o s ->
  frameCalls s = [] /\ framePrompts s = [] /\ validations s = [] /\ concepts s = []
  /\ errors s = []
  /\ (forall frame, openingFrameData qc = Some frame ->
        In (SetProgress SCRIPT_STEP) s
        /\ exists r, In (GenerateVideoDirectorPrompt (concept qc) data r) s)
  /\ ((results s = [] /\ reports s = [] /\ o <> Ok tt
       /\ forall a, ~ In (Resolved a) (assetReplies s))
      \/ exists frame veoPrompt videoUrl voiceoverUrl adAssets,
           openingFrameData qc = Some frame
           /\ o = Ok tt
           /\ assetReplies s = [Resolved adAssets]
           /\ results s = [Some (finalOutput data (concept qc) (dataUrl frame) veoPrompt
                                   videoUrl (qcNotes qc) adAssets voiceoverUrl)]).
Proof.
  intros [Hf|frame e Hf|frame veoPrompt o' l Hf (b & t & -> & Hb & Ht)].
  - repeat split; trivial; try congruence.
    left. repeat split; try discriminate. intros a [].
  - repeat split; trivial.
    + now left.
    + exists (Rejected e). right. now left.
    + left. repeat split; try discriminate. intros a [].
  - apply Body_quiet in Hb as (B1 & B2 & B3 & B4 & B5 & B6).
    destruct (unreported b B6) as [B7 B8].
    apply Tail_seen in Ht as (T1 & T2 & T3 & T4 & T5 & T).
    cbn [frameCalls framePrompts validations concepts errors flat_map app].
    fold (frameCalls (b ++ t)) (framePrompts (b ++ t)) (validations (b ++ t))
         (concepts (b ++ t)) (errors (b ++ t)).
    rewrite frameCalls_app, framePrompts_app, validations_app, concepts_app, errors_app,
      B1, B2, B3, B4, B8, T1, T2, T3, T4, T5.
    repeat split; trivial.
    + now left.
    + exists (Resolved veoPrompt). right. now left.
    + change (results (SetProgress SCRIPT_STEP
                :: GenerateVideoDirectorPrompt (concept qc) data (Resolved veoPrompt)
                :: b ++ t)) with (results (b ++ t)).
      change (reports (SetProgress SCRIPT_STEP
                :: GenerateVideoDirectorPrompt (concept qc) data (Resolved veoPrompt)
                :: b ++ t)) with (reports (b ++ t)).
      change (assetReplies (SetProgress SCRIPT_STEP
                :: GenerateVideoDirectorPrompt (concept qc) data (Resolved veoPrompt)
                :: b ++ t)) with (assetReplies (b ++ t)).
      rewrite results_app, reports_app, assetReplies_app, B5, B6, B7. cbn [app].
      destruct T as [(R1 & R2 & R3 & R4)|(v & u & vo & a & R1 & R2 & R3)].
      * left. now repeat split.
      * right. exists frame, v, u, vo, a. now repeat split.
Qed.

(** A reply of the ad-asset call within STAGE 2 is the reply of a call made
    with the description, the call to action and the tone of the brief. *)
Lemma FinishRun_assets data qc o s :
  FinishRun data qc o s ->
  forall a, In (Resolved a) (assetReplies s) ->
    In (GenerateAdAssets (UserInput.productDescription data) (UserInput.cta data)
                         (UserInput.tone data) (Resolved a)) s.
Proof.
  intros [Hf|frame e Hf|frame veoPrompt o' l Hf (b & t & -> & Hb & Ht)] a Hin.
  - destruct Hin.
  - destruct Hin.
  - apply Body_quiet in Hb as (_ & _ & _ & _ & B5 & _).
    change (assetReplies (SetProgress SCRIPT_STEP
              :: GenerateVideoDirectorPrompt (concept qc) data (Resolved veoPrompt)
              :: b ++ t)) with (assetReplies (b ++ t)) in Hin.
    rewrite assetReplies_app, B5 in Hin. cbn [app] in Hin.
    right. right. apply in_or_app. right.
    destruct Ht as [o'' Ho|e|v u vo a'].
    + destruct Hin.
    + destruct Hin as [E|[]]. discriminate E.
    + destruct Hin as [E|[]]. injection E as ->. right. now left.
Qed.

Lemma AfterLoop_seen data ol o s :
  AfterLoop data ol o s ->
  frameCalls s = [] /\ framePrompts s = [] /\ validations s = [] /\ concepts s = []
  /\ errors s = [].
Proof.
  destruct ol as [qc|e|]; simpl.
  - intros H. apply FinishRun_seen in H. tauto.
  - intros [_ ->]. now repeat split.
  - intros [_ ->]. now repeat split.
Qed.

Lemma AfterLoop_reports data ol o s :
  AfterLoop data ol o s -> o <> Ok tt -> reports s = [] /\ results s = [].
Proof.
  destruct ol as [qc|e|]; simpl.
  - intros H Ho. apply FinishRun_seen in H as (_ & _ & _ & _ & _ & _ & H).
    destruct H as [(R1 & R2 & _)|(f & v & u & vo & a & _ & E & _)]; [now split | contradiction].
  - intros [_ ->]. now split.
  - intros [_ ->]. now split.
Qed.

Lemma PipelineRun_seen data o p :
  PipelineRun data o p ->
  exists l s, Shows data o p l s /\ results p = results s /\ errors p = []
              /\ (o <> Ok tt -> reports p = []).
Proof.
  intros [o' a Ha Hs Ho|a analysis e Ha Hs|a analysis c ol l o' s Ha Hs Hl Hc Hafter].
  - exists [], []. apply analysis_quiet in Ha as (A1 & A2 & A3 & A4 & A5 & A6).
    destruct (unreported a A6) as [A7 A8].
    unfold Shows. rewrite A1, A2, A3, A4, A5, A7. repeat split; trivial.
    + intros e [].
    + left. repeat split; trivial. discriminate.
  - exists [], []. apply analysis_quiet in Ha as (A1 & A2 & A3 & A4 & A5 & A6).
    destruct (unreported a A6) as [A7 A8].
    unfold Shows.
    rewrite frameCalls_app, framePrompts_app, validations_app, assetReplies_app,
      concepts_app, results_app, reports_app, errors_app, A1, A2, A3, A4, A5, A6, A7, A8.
    repeat split; trivial.
    + intros e' [].
    + left. repeat split; discriminate.
  - exists l, s. apply analysis_quiet in Ha as (A1 & A2 & A3 & A4 & A5 & A6).
    destruct (unreported a A6) as [A7 A8].
    destruct (inLoop_unseen l Hc) as (L1 & L2 & L3).
    destruct (unreported l L3) as [L4 L5].
    destruct (AfterLoop_seen _ _ _ _ Hafter) as (S1 & S2 & S3 & S4 & S5).
    assert (Hin : forall e, In e s ->
              In e (a ++ [SetProgress CONCEPT_STEP;
                          GenerateAdConcept analysis (UserInput.productDescription data)
                            (UserInput.tone data) (Resolved c)] ++ l ++ s))
      by (intros e Hin; rewrite !in_app_iff; tauto).
    unfold Shows.
    rewrite !frameCalls_app, !framePrompts_app, !validations_app, !assetReplies_app,
      !concepts_app, !results_app, !reports_app, !errors_app,
      A1, A2, A3, A4, A5, A6, A7, A8, L1, L2, L3, L4, L5, S1, S2, S3, S4, S5.
    cbn [app frameCalls framePrompts validations assetReplies concepts results reports
         errors flat_map filter kind].
    rewrite !app_nil_r. repeat split; trivial.
    + right. now exists c, ol.
    + intros Ho. now apply (AfterLoop_reports _ _ _ _ Hafter).
Qed.

Lemma caught_seen (e : Exn) :
  frameCalls (caught e ++ RESET) = [] /\ framePrompts (caught e ++ RESET) = []
  /\ validations (caught e ++ RESET) = [] /\ assetReplies (caught e ++ RESET) = []
  /\ concepts (caught e ++ RESET) = [] /\ results (caught e ++ RESET) = []
  /\ errors (caught e ++ RESET) = [Some (surfaced e)].
Proof. unfold caught. destruct (entityNotFound e); repeat split. Qed.

Lemma TryRun_seen data o t :
  TryRun data o t ->
  exists l s po, Shows data po t l s /\ results t = results s
                 /\ Settles po o (errors t).
Proof.
  intros [p H|e p H|p H];
    apply PipelineRun_seen in H as (l & s & Hshow & Hres & Herr & _);
    exists l, s; [exists (Ok tt)|exists (Throw e)|exists Pending].
  - destruct Hshow as (H1 & H2 & H3 & H4 & H5 & H6). unfold Shows.
    rewrite frameCalls_app, framePrompts_app, validations_app, assetReplies_app,
      concepts_app, results_app, errors_app, H1, H2, H3, H4, Hres, Herr.
    cbn [RESET frameCalls framePrompts validations assetReplies concepts results
         errors flat_map].
    rewrite !app_nil_r. repeat split; trivial.
    intros e Hin. apply in_or_app. left. now apply H5.
  - destruct Hshow as (H1 & H2 & H3 & H4 & H5 & H6).
    destruct (caught_seen e) as (C1 & C2 & C3 & C4 & C5 & C6 & C7). unfold Shows.
    rewrite frameCalls_app, framePrompts_app, validations_app, assetReplies_app,
      concepts_app, results_app, errors_app, H1, H2, H3, H4, Hres, Herr,
      C1, C2, C3, C4, C5, C6, C7.
    rewrite !app_nil_r. repeat split; trivial.
    intros e' Hin. apply in_or_app. left. now apply H5.
  - split; [exact Hshow | split; [exact Hres | split; [reflexivity | exact Herr]]].
Qed.

(** The whole run: its frame calls are those of the loop, its concept is
    the one the loop started from, its result is set by STAGE 2 after
    [setResult(null)], and its error by the [catch] block after
    [setError(null)]. *)
Lemma HandleRun_seen data o evs :
  HandleRun data o evs ->
  exists l s po,
    Shows data po evs l s /\ results evs = None :: results s
    /\ (o = Ok tt -> exists errs, errors evs = None :: errs /\ Settles po o errs).
Proof.
  intros [o' k Hk Ho|o' k t Hk Ht].
  - exists [], [], Pending.
    destruct (inKeyCheck_unseen k Hk) as (K1 & K2 & K3 & K4 & K5 & K6 & K7 & K8).
    unfold Shows.
    rewrite frameCalls_app, framePrompts_app, validations_app, assetReplies_app,
      concepts_app, results_app, K1, K2, K3, K4, K5, K7.
    split; [|split; [reflexivity | intros E; contradiction]].
    repeat split; trivial.
    + intros e [].
    + left. repeat split; discriminate.
  - apply TryRun_seen in Ht as (l & s & po & (H1 & H2 & H3 & H4 & H5 & H6) & Hres & Hset).
    exists l, s, po.
    destruct (inKeyCheck_unseen k Hk) as (K1 & K2 & K3 & K4 & K5 & K6 & K7 & K8).
    unfold Shows.
    rewrite !frameCalls_app, !framePrompts_app, !validations_app, !assetReplies_app,
      !concepts_app, !results_app, !errors_app, K1, K2, K3, K4, K5, K7, K8,
      H1, H2, H3, H4, Hres.
    split; [|split; [reflexivity | intros _; exists (errors t); now split]].
    repeat split; trivial.
    intros e Hin. apply in_or_app. right. apply in_or_app. right. now apply H5.
Qed.

End Anatomy.

(* ================================================================== *)
(** * Strings *)
(* ================================================================== *)

Section StringFacts.

Lemma prefix_empty (s : string) : String.prefix EmptyString s = true.
Proof. now destruct s. Qed.

Lemma prefix_append_r (n h t : string) :
  String.prefix n h = true -> String.prefix n (h ++ t) = true.
Proof.
  revert h. induction n as [|c n IH]; intros h H; [apply prefix_empty|].
  destruct h as [|d h]; [discriminate H|]. simpl in *.
  destruct (ascii_dec c d); [now apply IH | discriminate H].
Qed.

Lemma includes_prefix (n h : string) :
  String.prefix n h = true -> includes n h = true.
Proof. intros H. destruct h; simpl in *; now rewrite H. Qed.

Lemma includes_append_r (n h t : string) :
  includes n h = true -> includes n (h ++ t) = true.
Proof.
  induction h as [|c h IH]; intros H.
  - simpl in H. rewrite orb_false_r in H. destruct n; [|discriminate H].
    apply includes_prefix, prefix_empty.
  - cbn [includes] in H. apply orb_prop in H as [H|H].
    + apply includes_prefix. now apply (prefix_append_r n (String c h) t).
    + change (includes n (String c (h ++ t)) = true). cbn [includes].
      rewrite (IH H). apply orb_true_r.
Qed.

Lemma includes_append_l (n p h : string) :
  includes n h = true -> includes n (p ++ h) = true.
Proof.
  intros H. induction p as [|c p IH]; [exact H|].
  change (includes n (String c (p ++ h)) = true). cbn [includes].
  rewrite IH. apply orb_true_r.
Qed.

Lemma includes_refl (s : string) : includes s s = true.
Proof. apply includes_prefix, prefix_refl. Qed.

End StringFacts.

(* ================================================================== *)
(** * The QC loop within a run *)
(* ================================================================== *)

Section QcClaims.
Context {W : Type} (host : Host W).
Variables (fuel : nat) (data : UserInput.t) (w : W).
Local Open Scope list_scope.

Local Abbreviation evs := (events (handleGenerateAd host fuel data w)).

Lemma run_seen :
  exists l s po,
    Shows data po evs l s /\ results evs = None :: results s
    /\ (outcome (handleGenerateAd host fuel data w) = Ok tt ->
        exists errs, errors evs = None :: errs /\ Settles po (Ok tt) errs).
Proof.
  destruct (HandleRun_seen data _ _ (handleGenerateAd_run host fuel data w))
    as (l & s & po & H1 & H2 & H3).
  exists l, s, po. split; [exact H1 | split; [exact H2 |]]. intros E.
  rewrite E in H3. now apply H3.
Qed.

(** C1.  In every run of the pipeline the QC loop validates a frame at most
    3 times (and generates one at most 3 times), and a verdict with
    [isValid = true] is the last frame call of the run: no generation and
    no validation of a further attempt follows it. *)
Theorem qc_loop_bounded_and_stops_at_valid :
  length (validations evs) <= 3
  /\ length (framePrompts evs) <= 3
  /\ forall pre f v post,
       frameCalls evs = pre ++ Validated f (Resolved v) :: post ->
       isValid v = true -> post = [].
Proof.
  destruct run_seen as (l & s & po & (H1 & H2 & H3 & _ & _ & H) & _).
  rewrite H1, H2, H3.
  destruct H as [(-> & _)|(c & ol & _ & Hl & _)].
  - repeat split; simpl; try lia. intros [|x pre] f v post E; discriminate E.
  - repeat split.
    + exact (loop_validations_bounded _ _ _ _ Hl).
    + exact (loop_generations_bounded _ _ _ _ Hl).
    + exact (loop_stops_at_valid _ _ _ _ Hl).
Qed.

(** C3.  Across the QC loop the opening-frame prompt only grows: a
    generation call that follows another one comes after a failed
    validation, its prompt is the previous prompt with
    [". IMPORTANT FIX: "] and the suggestion of that validation appended
    (so the previous prompt is a prefix of it), and the prompt of a
    delivered output has every prompt of the loop as a prefix. *)
Theorem opening_frame_prompt_append_only (a : AppState) :
  (forall k p p',
      nth_error (framePrompts evs) k = Some p ->
      nth_error (framePrompts evs) (S k) = Some p' ->
      String.prefix p p' = true
      /\ exists f v,
           nth_error (validations evs) k = Some (f, Resolved v)
           /\ isValid v = false
           /\ p' = (p ++ IMPORTANT_FIX ++ suggestion v)%string)
  /\ (forall out p,
        result (appAfter a evs) = Some out ->
        In p (framePrompts evs) ->
        String.prefix p (FinalOutput.opening_frame_prompt out) = true).
Proof.
  destruct run_seen as (l & s & po & (H1 & H2 & H3 & _ & _ & H) & Hres & _).
  rewrite result_appAfter, Hres, H2, H3.
  destruct H as [(-> & -> & _)|(c & ol & _ & Hl & Hafter)].
  - split; [intros [|k] p p' E; discriminate E | intros out p E; discriminate E].
  - destruct (loop_prompts _ _ _ _ Hl) as (_ & Hchain & Hfinal). split.
    + intros k p p' E E'. destruct (Hchain k p p' E E') as (f & v & Ev & Hv & ->).
      split; [apply prefix_append | now exists f, v].
    + intros out p E Hin. destruct ol as [qc|e|]; simpl in Hafter;
        try (destruct Hafter as [_ ->]; discriminate E).
      apply FinishRun_seen in Hafter as (_ & _ & _ & _ & _ & _ & R).
      destruct R as [(R & _)|(frame & veo & video & voice & assets & _ & _ & _ & R)];
        rewrite R in E; [discriminate E|].
      injection E as <-. cbn [finalOutput FinalOutput.opening_frame_prompt].
      destruct (Hfinal qc eq_refl) as [_ Hall]. now apply Hall.
Qed.

(** C10.  If the first generated frame passes validation, the QC loop
    leaves the concept as the concept stage returned it:
    [opening_frame_prompt] of the output is the [openingFramePrompt] of the
    concept reply, and [qc_notes] is ["QC passed on first attempt."]. *)
Theorem first_attempt_pass_keeps_concept (a : AppState) f1 v1 rest c out :
  validations evs = (f1, Resolved v1) :: rest ->
  isValid v1 = true ->
  concepts evs = [Resolved c] ->
  result (appAfter a evs) = Some out ->
  FinalOutput.opening_frame_prompt out = openingFramePrompt c
  /\ FinalOutput.qc_notes out = "QC passed on first attempt."
  /\ rest = [].
Proof.
  intros E V1 Ec Eo.
  destruct run_seen as (l & s & po & (_ & _ & H3 & _ & _ & H) & Hres & _).
  rewrite H3 in E. rewrite result_appAfter, Hres in Eo.
  destruct H as [(-> & _)|(c' & ol & Ec' & Hl & Hafter)]; [discriminate E|].
  rewrite Ec in Ec'. injection Ec' as <-.
  destruct (loop_first_pass _ _ _ _ _ _ Hl E V1) as [-> ->].
  cbn [AfterLoop] in Hafter.
  apply FinishRun_seen in Hafter as (_ & _ & _ & _ & _ & _ & R).
  destruct R as [(R & _)|(frame & veo & video & voice & assets & Hf & _ & _ & R)];
    rewrite R in Eo; [discriminate Eo|].
  injection Eo as <-. repeat split.
Qed.

(** C6 (amended).  The [FinalOutput] of a run carries the two lists of the
    one reply of the ad-asset call of that run, a call made with the
    description, the call to action and the tone of the brief, as they
    came: [ad_copy_variations] and [hashtags] are the lists of the reply.
    So the output has 3 copy variations and 5 hashtags without a leading
    [#] exactly when the reply has: the code neither counts nor strips. *)
Theorem final_output_carries_assets (a : AppState) out :
  result (appAfter a evs) = Some out ->
  exists assets,
    assetReplies evs = [Resolved assets]
    /\ In (GenerateAdAssets (UserInput.productDescription data) (UserInput.cta data)
                            (UserInput.tone data) (Resolved assets)) evs
    /\ FinalOutput.ad_copy_variations out = adCopyVariations assets
    /\ FinalOutput.hashtags out = hashtags assets
    /\ (wellFormedAssets assets
        <-> length (FinalOutput.ad_copy_variations out) = 3
            /\ length (FinalOutput.hashtags out) = 5
            /\ Forall (fun h => startsWith "#" h = false) (FinalOutput.hashtags out)).
Proof.
  intros Eo.
  destruct run_seen as (l & s & po & (_ & _ & _ & H4 & Hin & H) & Hres & _).
  rewrite result_appAfter, Hres in Eo.
  destruct H as [(_ & -> & _)|(c & ol & _ & _ & Hafter)]; [discriminate Eo|].
  destruct ol as [qc|e|]; cbn [AfterLoop] in Hafter;
    try (destruct Hafter as [_ ->]; discriminate Eo).
  pose proof (FinishRun_assets _ _ _ _ Hafter) as Hcall.
  apply FinishRun_seen in Hafter as (_ & _ & _ & _ & _ & _ & R).
  destruct R as [(R & _)|(frame & veo & video & voice & assets & _ & _ & Ra & R)];
    rewrite R in Eo; [discriminate Eo|].
  injection Eo as <-. exists assets. rewrite H4, Ra.
  split; [reflexivity|]. split.
  - apply Hin, Hcall. rewrite Ra. now left.
  - cbn [finalOutput FinalOutput.ad_copy_variations FinalOutput.hashtags].
    split; [reflexivity|]. split; [reflexivity|]. reflexivity.
Qed.

End QcClaims.

(* ================================================================== *)
(** * Errors and the form guard *)
(* ================================================================== *)

Section ErrorClaims.
Context {W : Type} (host : Host W).
Local Open Scope list_scope.

(** A throwing [pipeline] is followed by the [catch] and [finally] blocks. *)
Lemma tryPipeline_caught fuel data w e :
  outcome (pipeline host fuel data w) = Throw e ->
  outcome (tryPipeline host fuel data w) = Ok tt
  /\ events (tryPipeline host fuel data w)
     = events (pipeline host fuel data w) ++ caught e ++ RESET.
Proof.
  unfold tryPipeline, tryFinally, tryCatch, outcome, events.
  destruct (pipeline host fuel data w) as [[[[]|e'|] w1] p]; cbn [fst snd];
    try discriminate.
  intros E. injection E as ->. unfold onError, caught, surfaced.
  cbv [bind emit setApiKeySelected setError].
  destruct (entityNotFound e); cbn [fst snd app]; rewrite onFinally_events;
    cbn [fst snd]; rewrite <- app_assoc; split; reflexivity.
Qed.

(** C9 (amended).  When a stage fails with an error whose message contains
    ["Requested entity was not found"], the surfaced message is the
    invalid-or-missing-key message and the key flag is set to [false].
    Every other stage error leaves the key flag as it was; its message is
    surfaced unchanged when it is not empty, and the text
    ["An unknown error occurred."] is surfaced when the error has no
    message or an empty one. *)
Theorem stage_error_is_surfaced fuel data w (a : AppState) e :
  outcome (pipeline host fuel data w) = Throw e ->
  let a' := appAfter a (events (tryPipeline host fuel data w)) in
  (entityNotFound e = true ->
     error a' = Some API_KEY_MESSAGE /\ apiKeySelected a' = Some false)
  /\ (entityNotFound e = false ->
        apiKeySelected a' = apiKeySelected a
        /\ (forall m, JS.message e = Some m -> m <> EmptyString -> error a' = Some m)
        /\ (JS.message e = None \/ JS.message e = Some EmptyString ->
            error a' = Some "An unknown error occurred.")).
Proof.
  intros E. destruct (tryPipeline_caught fuel data w e E) as [_ ->].
  pose proof (pipeline_run host fuel data w) as Hp. rewrite E in Hp.
  apply PipelineRun_seen in Hp as (_ & _ & _ & _ & _ & Hrep).
  assert (Hr : reports (events (pipeline host fuel data w)) = [])
    by (apply Hrep; discriminate).
  destruct (appAfter_unreported a _ Hr) as (_ & _ & Hk).
  cbv zeta. rewrite appAfter_app.
  set (a1 := appAfter a (events (pipeline host fuel data w))) in *.
  unfold caught, surfaced. split; intros Hn; rewrite Hn; cbn.
  - split; reflexivity.
  - split; [exact Hk|]. split.
    + intros m Em Hm. rewrite Em. destruct m; [contradiction | reflexivity].
    + intros [-> | ->]; reflexivity.
Qed.

(** C8.  A form without a product image never reaches the pipeline:
    [handleSubmit] alerts the user and returns; no host call is made, no
    progress is notified, and the world is as it was. *)
Theorem missing_product_image_is_rejected fuel data w :
  UserInput.productImage data = None ->
  let r := handleSubmit data (handleGenerateAd host fuel) w in
  outcome r = Ok tt
  /\ final r = w
  /\ events r = [PreventDefault; Alert "Please upload a product image."]
  /\ filter isHostCall (events r) = []
  /\ progressUpdates (events r) = [].
Proof.
  intros H. unfold handleSubmit. rewrite H. repeat split.
Qed.

(** The guard is the form's: [handleGenerateAd] itself, called without a
    product image, notifies step 1 before it fails in [fileToBase64]. *)
Lemma handleGenerateAd_unguarded fuel data w :
  UserInput.productImage data = None ->
  aistudio host w = false ->
  events (handleGenerateAd host fuel data w)
  = [SetIsLoading true; SetError None; SetResult None;
     SetProgress (mkProgress 1 "Analyzing images...")]
    ++ caught (notABlob host) ++ RESET.
Proof.
  intros H Hk. unfold handleGenerateAd.
  assert (Ek : apiKeyCheck host w = (Ok tt, w, [])).
  { unfold apiKeyCheck. now rewrite Hk. }
  repeat (rewrite events_bind;
          cbn [setIsLoading setError setResult emit outcome events final fst snd]).
  rewrite Ek. cbn [fst snd app].
  assert (Ep : pipeline host fuel data w
               = (Throw (notABlob host), w,
                  [SetProgress (mkProgress 1 "Analyzing images...")])).
  { unfold pipeline, analyzeImages. now rewrite H. }
  unfold outcome, final. cbn [events fst snd app].
  destruct (tryPipeline_caught fuel data w (notABlob host)) as [_ ->];
    now rewrite Ep.
Qed.

End ErrorClaims.

(* ================================================================== *)
(** * The order of the progress updates *)
(* ================================================================== *)

Section ProgressOrder.
Local Open Scope list_scope.

Lemma Climb_nil lo : Climb lo [].
Proof. split; constructor. Qed.

Lemma Climb_cons n lo l : Climb lo l -> n <= lo -> n <= 8 -> Climb n (n :: l).
Proof.
  intros [Hs Hf] Hn H8. split.
  - constructor; [exact Hs|]. destruct l as [|x l]; constructor.
    apply Forall_inv in Hf. left. lia.
  - constructor; [lia|]. revert Hf. apply Forall_impl. intros x. lia.
Qed.

Lemma Climb_weaken lo lo' l : Climb lo l -> lo' <= lo -> Climb lo' l.
Proof.
  intros [Hs Hf] Hn. split; [exact Hs|]. revert Hf. apply Forall_impl. intros x. lia.
Qed.

(** Steps 3 and 4 in any order, in front of a climb from 5. *)
Lemma Climb_retries (L S : list nat) :
  Forall (fun n => 3 <= n <= 4) L -> Climb 5 S -> Climb 3 (L ++ S).
Proof.
  intros HL HS. induction HL as [|x L Hx HL IH];
    [apply Climb_weaken with 5; [exact HS | lia]|].
  destruct IH as [Hs Hf]. split.
  - cbn [app]. constructor; [exact Hs|].
    destruct L as [|y L]; cbn [app].
    + destruct S as [|y S]; constructor. destruct HS as [_ HS].
      apply Forall_inv in HS. left. lia.
    + constructor. apply Forall_inv in HL. unfold stepOk. lia.
  - cbn [app]. constructor; [lia | exact Hf].
Qed.

Lemma Sorted_le_stepOk (l : list nat) : Sorted le l -> Sorted stepOk l.
Proof.
  induction 1 as [|x l Hs IH Hh]; constructor; [exact IH|].
  destruct Hh; constructor. now left.
Qed.

Lemma Sorted_le_snoc (l : list nat) (m : nat) :
  Sorted le l -> Forall (fun n => n <= m) l -> Sorted le (l ++ [m]).
Proof.
  induction 1 as [|x l Hs IH Hh]; intros Hf; cbn [app]; [repeat constructor|].
  constructor; [apply IH; now apply Forall_inv_tail in Hf|].
  destruct Hh; cbn [app]; constructor; [now apply Forall_inv in Hf | assumption].
Qed.

Lemma between_steps lo hi (l : list Event) :
  forallb (between lo hi) l = true ->
  Forall (fun n => lo <= n <= hi) (progressSteps l).
Proof.
  unfold progressSteps, progressUpdates.
  induction l as [|e l IH]; simpl; [constructor|].
  intros H. apply andb_prop in H as [He Hl]. specialize (IH Hl).
  destruct e; simpl; trivial. constructor; [|exact IH].
  unfold between in He. cbn [kind] in He. apply andb_prop in He as [H1 H2].
  apply Nat.leb_le in H1, H2. lia.
Qed.

Lemma inLoop_steps (l : list Event) :
  forallb inLoop l = true -> Forall (fun n => 3 <= n <= 4) (progressSteps l).
Proof.
  unfold progressSteps, progressUpdates.
  induction l as [|e l IH]; simpl; [constructor|].
  intros H. apply andb_prop in H as [He Hl]. specialize (IH Hl).
  destruct e; simpl; trivial. constructor; [|exact IH].
  unfold inLoop in He. cbn [kind] in He. apply andb_prop in He as [H1 H2].
  apply Nat.leb_le in H1, H2. lia.
Qed.

Lemma Tail_steps data qc frame o t :
  Tail data qc frame o t -> progressSteps t = [] \/ progressSteps t = [8].
Proof. intros []; auto. Qed.

Lemma FinishRun_steps data qc o s :
  FinishRun data qc o s -> Climb 5 (progressSteps s).
Proof.
  intros [Hf|frame e Hf|frame veoPrompt o' l Hf (b & t & -> & [Hb Hs] & Ht)].
  - apply Climb_nil.
  - apply (Climb_cons 5 5 []); [apply Climb_nil | lia | lia].
  - change (Climb 5 (5 :: progressSteps (b ++ t))).
    apply Climb_cons with 6; try lia.
    rewrite progressSteps_app. pose proof (between_steps 6 8 b Hb) as Hf6.
    apply Sorted_inv in Hs as [Hs _].
    destruct (Tail_steps _ _ _ _ _ Ht) as [-> | ->].
    + rewrite app_nil_r. split; [now apply Sorted_le_stepOk | exact Hf6].
    + split.
      * apply Sorted_le_stepOk, Sorted_le_snoc; [exact Hs|].
        revert Hf6. apply Forall_impl. intros x. lia.
      * apply Forall_app. split; [exact Hf6 | constructor; [lia | constructor]].
Qed.

Lemma PipelineRun_steps data o p :
  PipelineRun data o p -> Climb 1 (progressSteps p).
Proof.
  intros [o' a Ha Hs Ho|a analysis e Ha Hs|a analysis c ol l o' s Ha Hs Hl Hc Hafter];
    rewrite ?progressSteps_app, Hs.
  - apply (Climb_cons 1 1 []); [apply Climb_nil | lia | lia].
  - apply (Climb_cons 1 2 [2]); [|lia|lia].
    apply (Climb_cons 2 2 []); [apply Climb_nil | lia | lia].
  - change (Climb 1 (1 :: 2 :: progressSteps l ++ progressSteps s)).
    apply Climb_cons with 2; try lia. apply Climb_cons with 3; try lia.
    apply Climb_retries; [now apply inLoop_steps|].
    destruct ol as [qc|e|]; cbn [AfterLoop] in Hafter.
    + now apply FinishRun_steps in Hafter.
    + destruct Hafter as [_ ->]. apply Climb_nil.
    + destruct Hafter as [_ ->]. apply Climb_nil.
Qed.

(** The steps of a whole run: a climb, then the reset if the [try]
    statement got to its end. *)
Lemma HandleRun_steps data o evs :
  HandleRun data o evs ->
  exists steps tail,
    progressSteps evs = steps ++ tail
    /\ Climb 1 steps
    /\ (tail = [] \/ tail = [0])
    /\ (o = Ok tt -> tail = [0] /\ exists before, evs = before ++ RESET).
Proof.
  intros [o' k Hk Ho|o' k t Hk Ht].
  - exists [], []. destruct (inKeyCheck_unseen k Hk) as (_ & _ & _ & _ & _ & K & _).
    unfold progressSteps. rewrite progressUpdates_app, K.
    repeat split; try constructor; trivial; contradiction.
  - destruct (inKeyCheck_unseen k Hk) as (_ & _ & _ & _ & _ & K & _).
    assert (E : progressSteps ([SetIsLoading true; SetError None; SetResult None] ++ k ++ t)
                = progressSteps t).
    { unfold progressSteps. now rewrite !progressUpdates_app, K. }
    rewrite E. clear E.
    destruct Ht as [p H|e p H|p H]; apply PipelineRun_steps in H.
    + exists (progressSteps p), [0]. rewrite progressSteps_app.
      repeat split; trivial; try (now right); try apply H.
      exists ([SetIsLoading true; SetError None; SetResult None] ++ k ++ p).
      now rewrite <- !app_assoc.
    + exists (progressSteps p), [0]. rewrite !progressSteps_app.
      assert (Ec : progressSteps (caught e) = [])
        by (unfold caught; now destruct (entityNotFound e)).
      rewrite Ec. repeat split; trivial; try (now right); try apply H.
      exists ([SetIsLoading true; SetError None; SetResult None] ++ k ++ p ++ caught e).
      now rewrite <- !app_assoc.
    + exists (progressSteps p), []. rewrite app_nil_r.
      repeat split; trivial; try (now left); try apply H; discriminate.
Qed.

End ProgressOrder.

Section ProgressClaim.
Context {W : Type} (host : Host W).
Local Open Scope list_scope.

(** C7 (amended).  Within one run the step indices of the progress updates
    lie between 1 and 8 and never decrease, except that each QC retry steps
    back from 4 (validating) to 3 (generating); and when the run ends, with
    a result or with an error, its last event is the reset of the progress
    state to the idle state (step 0, empty message). *)
Theorem progress_order_and_reset fuel data w (a : AppState) :
  let r := handleGenerateAd host fuel data w in
  exists steps tail,
    progressSteps (events r) = steps ++ tail
    /\ Sorted stepOk steps
    /\ Forall (fun n => 1 <= n <= 8) steps
    /\ (tail = [] \/ tail = [0])
    /\ (outcome r = Ok tt ->
        tail = [0]
        /\ (exists before,
              events r = before ++ [SetIsLoading false; SetProgress idle])
        /\ progress (appAfter a (events r)) = idle
        /\ (result (appAfter a (events r)) <> None
            \/ error (appAfter a (events r)) <> None)).
Proof.
  cbv zeta.
  destruct (HandleRun_steps data _ _ (handleGenerateAd_run host fuel data w))
    as (steps & tail & E & [Hs Hf] & Ht & Hend).
  exists steps, tail. repeat split; trivial; try (now apply Hend).
  - destruct (Hend H) as [_ [before ->]]. rewrite appAfter_app. reflexivity.
  - destruct (run_seen host fuel data w) as (l & s & po & Hshow & Hres & Hset).
    destruct (Hset H) as (errs & Ee & Hsettle).
    rewrite result_appAfter, error_appAfter, Hres, Ee.
    destruct Hshow as (_ & _ & _ & _ & _ & Hcase).
    destruct po as [[]|e|]; cbn [Settles] in Hsettle.
    + left. destruct Hcase as [(_ & _ & Hpo & _)|(c & ol & _ & _ & Hafter)];
        [now contradiction Hpo|].
      destruct ol as [qc|e|]; cbn [AfterLoop] in Hafter;
        try (destruct Hafter as [Hafter _]; discriminate Hafter).
      apply FinishRun_seen in Hafter as (_ & _ & _ & _ & _ & _ & R).
      destruct R as [(_ & _ & Hpo & _)|(frame & veo & video & voice & assets & _ & _ & _ & ->)];
        [now contradiction Hpo | discriminate].
    + right. destruct Hsettle as [_ ->]. discriminate.
    + destruct Hsettle as [Hsettle _]. discriminate Hsettle.
Qed.

End ProgressClaim.

(* ================================================================== *)
(** * Polling the video job *)
(* ================================================================== *)

Section Polling.
Context {W : Type} (host : Host W).
Local Open Scope list_scope.

Lemma await_resolved {X} (op : W -> Settled X * W) (ev : Settled X -> Event) w x w' :
  op w = (Resolved x, w') -> await op ev w = (Ok x, w', [ev (Resolved x)]).
Proof. intros E. unfold await. now rewrite E. Qed.

Lemma await_rejected {X} (op : W -> Settled X * W) (ev : Settled X -> Event) w e w' :
  op w = (Rejected e, w') -> await op ev w = (Throw e, w', [ev (Rejected e)]).
Proof. intros E. unfold await. now rewrite E. Qed.

Lemma pollLoop_done fuel onProgress op k :
  done op = true -> pollLoop host fuel onProgress op k = ret op.
Proof. intros H. destruct fuel; simpl; now rewrite H. Qed.

Lemma pollLoop_turn fuel onProgress op k :
  done op = false ->
  pollLoop host (S fuel) onProgress op k
  = (emit (SetTimeout POLLING_INTERVAL) ;;
     onProgress (pollingMessage k) ;;
     operation' <- await (ai_getVideosOperation host op) (GetVideosOperation op) ;;
     pollLoop host fuel onProgress operation' (S k)).
Proof. intros H. simpl. now rewrite H. Qed.

Local Abbreviation onProgress := (@onVideoProgress W).

Lemma onProgress_run msg w :
  onProgress msg w = (Ok tt, w, [SetProgress (mkProgress 6 msg)]).
Proof. reflexivity. Qed.

Lemma pollLoop_run fuel op k :
  Spec (pollLoop host fuel onProgress op k) (PollRun k op).
Proof.
  revert op k. induction fuel as [|fuel IH]; intros op k w;
    destruct (done op) eqn:Hd.
  - rewrite pollLoop_done by assumption. now constructor.
  - simpl. rewrite Hd. now constructor.
  - rewrite pollLoop_done by assumption. now constructor.
  - rewrite pollLoop_turn by assumption. cbv [bind emit].
    rewrite onProgress_run. cbv beta iota.
    destruct (ai_getVideosOperation host op w) as [[op'|e] w1] eqn:E.
    + rewrite (await_resolved _ _ _ _ _ E). cbv beta iota.
      specialize (IH op' (S k) w1). unfold outcome, events in *.
      destruct (pollLoop host fuel onProgress op' (S k) w1) as [[o w2] l].
      cbn [fst snd] in *. now apply PollAgain.
    + rewrite (await_rejected _ _ _ _ _ E). cbv beta iota. cbn [fst snd app].
      now apply PollRejected.
Qed.

(** A run of the loop whose promise is still pending has used all its
    fuel: [fuel] turns were made. *)
Lemma pollLoop_fuel fuel op k w :
  outcome (pollLoop host fuel onProgress op k w) = Pending ->
  length (progressMessages (events (pollLoop host fuel onProgress op k w))) = fuel.
Proof.
  revert op k w. induction fuel as [|fuel IH]; intros op k w;
    destruct (done op) eqn:Hd.
  - rewrite pollLoop_done by assumption. discriminate.
  - simpl. now rewrite Hd.
  - rewrite pollLoop_done by assumption. discriminate.
  - rewrite pollLoop_turn by assumption. cbv [bind emit].
    rewrite onProgress_run. cbv beta iota.
    destruct (ai_getVideosOperation host op w) as [[op'|e] w1] eqn:E.
    + rewrite (await_resolved _ _ _ _ _ E). cbv beta iota.
      specialize (IH op' (S k) w1). unfold outcome, events in *.
      destruct (pollLoop host fuel onProgress op' (S k) w1) as [[o w2] l].
      cbn [fst snd app] in *. intros Ho. cbn. f_equal. now apply IH.
    + rewrite (await_rejected _ _ _ _ _ E). discriminate.
Qed.

(** What a run of the loop shows, by induction on its shape. *)
Lemma PollRun_seen k op o l :
  PollRun k op o l ->
  let n := length (polls l) in
  timers l = repeat 10000%Z n
  /\ progressMessages l = map pollingMessage (seq k n)
  /\ Forall (fun p => done (fst p) = false) (polls l)
  /\ (forall p, hd_error (polls l) = Some p -> fst p = op)
  /\ (forall i p q, nth_error (polls l) i = Some p ->
                    nth_error (polls l) (S i) = Some q -> snd p = Resolved (fst q))
  /\ (forall op', o = Ok op' ->
        done op' = true
        /\ last (map snd (polls l)) (Resolved op) = Resolved op')
  /\ (forall e, o = Throw e -> last (map snd (polls l)) (Resolved op) = Rejected e).
Proof.
  induction 1 as [k op Hd|k op Hd|k op e Hd|k op op' o l Hd H IH]; cbv zeta.
  - split; [reflexivity|]. split; [reflexivity|]. split; [constructor|].
    split; [discriminate|]. split; [intros [|i] p q E; discriminate E|].
    split; [|discriminate]. intros op' [= <-]. now split.
  - split; [reflexivity|]. split; [reflexivity|]. split; [constructor|].
    split; [discriminate|]. split; [intros [|i] p q E; discriminate E|].
    split; discriminate.
  - split; [reflexivity|]. split; [reflexivity|].
    split; [constructor; [exact Hd | constructor]|].
    split; [now intros p [= <-]|].
    split; [intros [|[|i]] p q E E'; discriminate E'|].
    split; [discriminate|]. now intros e' [= <-].
  - cbv zeta in IH. destruct IH as (I1 & I2 & I3 & I4 & I5 & I6 & I7).
    cbn [pollTick app polls timers flat_map progressMessages progressUpdates map
         length seq repeat message].
    fold (polls l). fold (timers l). fold (progressUpdates l).
    change (map message (progressUpdates l)) with (progressMessages l).
    rewrite I1, I2.
    split; [reflexivity|]. split; [reflexivity|].
    split; [constructor; [exact Hd | exact I3]|].
    split; [now intros p [= <-]|].
    split; [|split].
    + intros [|i] p q E E'.
      * injection E as <-. simpl. f_equal. symmetry. now apply I4.
      * now apply (I5 i).
    + intros op'' ->. destruct (I6 op'' eq_refl) as [Hdone E]. split; [exact Hdone|].
      cbn [map snd]. now rewrite last_cons.
    + intros e ->. cbn [map snd]. rewrite last_cons. now apply I7.
Qed.

(** What follows the polling loop neither polls nor waits. *)
Lemma download_no_poll (op : Operation) (w : W) :
  let r :=
    (match opError op with
     | Some msg =>
         emit ConsoleError ;;
         throw (Error ("Video generation failed: " ++ orElse msg "Unknown error")%string)
     | None =>
         match videoUri op with
         | None | Some EmptyString =>
             emit ConsoleError ;;
             throw (Error "Video generation completed, but no video URI was found.")
         | Some downloadLink =>
             onProgress "Video generated successfully! Fetching video data..." ;;
             let url := (downloadLink ++ "&key=" ++ API_KEY host)%string in
             videoResponse <- await (fetch host url) (Fetch url) ;;
             if negb (ok videoResponse)
             then throw (Error ("Failed to download video. Status: "
                                ++ statusText videoResponse)%string)
             else
               videoBlob <- settle (blob videoResponse) ;;
               perform (createObjectURL host videoBlob) (CreateObjectURL videoBlob)
         end
     end) w in
  polls (events r) = [] /\ timers (events r) = [] /\ outcome r <> Pending.
Proof.
  cbv zeta.
  destruct (opError op) as [msg|]; [now repeat split|].
  destruct (videoUri op) as [[|c uri]|]; [now repeat split | | now repeat split].
  set (url := (String c uri ++ "&key=" ++ API_KEY host)%string).
  cbv [bind]. rewrite onProgress_run. cbv beta iota. unfold await.
  destruct (fetch host url w) as [[resp|e] w1]; cbv beta iota; [|now repeat split].
  destruct (ok resp); cbn [negb]; [|now repeat split].
  destruct (blob resp) as [b|e]; cbn [settle ret throw]; cbv beta iota;
    [|now repeat split].
  unfold perform. destruct (createObjectURL host b w1) as [u w2]. now repeat split.
Qed.

(** C4.  The video stage polls the job every 10 seconds until it reports
    done, and every turn of the polling emits one progress message that
    carries the counter of the turn, counting up from 1.  Every run of the
    loop is a [PollRun]: with [n] polls it has set [n] timers of 10000 ms
    and notified the messages with the counters [k] to [k + n - 1]; it polls
    no job that has reported done and returns only a job that reports done;
    and its promise is pending only when it has made all the [fuel] turns
    that it was allowed, so that nothing but the job's report ends the
    polling.  The same holds of the stage as a whole.  In particular, when
    the job is not done after its submission, not done at the first poll
    and done with a result URI at the second, the progress messages of the
    stage are the two opening messages, the polling messages with the
    counters 1 and 2, and the success message. *)
Theorem video_polling (fuel : nat) (prompt : string) (frame : ImageData)
    (ar : AspectRatio) (w : W) :
  (forall op k,
      PollRun k op (outcome (pollLoop host fuel onProgress op k w))
                   (events (pollLoop host fuel onProgress op k w)))
  /\ (forall op k,
        let r := pollLoop host fuel onProgress op k w in
        let n := length (polls (events r)) in
        timers (events r) = repeat 10000%Z n
        /\ progressMessages (events r) = map pollingMessage (seq k n)
        /\ Forall (fun p => done (fst p) = false) (polls (events r))
        /\ (forall op', outcome r = Ok op' -> done op' = true)
        /\ (outcome r = Pending -> n = fuel)
        /\ (done op = true -> outcome r = Ok op /\ n = 0))
  /\ (let r := generateVideo host fuel prompt frame ar onProgress w in
      let n := length (polls (events r)) in
      timers (events r) = repeat 10000%Z n
      /\ Forall (fun p => done (fst p) = false) (polls (events r))
      /\ (outcome r = Pending -> n = fuel)
      /\ (forall op0 w1, ai_generateVideos host prompt frame ar w = (Resolved op0, w1) ->
            exists rest,
              progressMessages (events r)
              = [VIDEO_STARTING; VIDEO_INITIATED] ++ map pollingMessage (seq 1 n) ++ rest
              /\ (rest = [] \/ rest = [VIDEO_DONE])))
  /\ (forall op0 op1 op2 w1 w2 w3 uri,
        ai_generateVideos host prompt frame ar w = (Resolved op0, w1) ->
        ai_getVideosOperation host op0 w1 = (Resolved op1, w2) ->
        ai_getVideosOperation host op1 w2 = (Resolved op2, w3) ->
        done op0 = false -> done op1 = false -> done op2 = true ->
        opError op2 = None -> videoUri op2 = Some uri -> uri <> EmptyString ->
        2 <= fuel ->
        progressMessages (events (generateVideo host fuel prompt frame ar onProgress w))
        = [VIDEO_STARTING; VIDEO_INITIATED;
           pollingMessage 1; pollingMessage 2; VIDEO_DONE]).
Proof.
  assert (Hloop : forall op k w',
             let r := pollLoop host fuel onProgress op k w' in
             let n := length (polls (events r)) in
             timers (events r) = repeat 10000%Z n
             /\ progressMessages (events r) = map pollingMessage (seq k n)
             /\ Forall (fun p => done (fst p) = false) (polls (events r))
             /\ (forall op', outcome r = Ok op' -> done op' = true)
             /\ (outcome r = Pending -> n = fuel)
             /\ (done op = true -> outcome r = Ok op /\ n = 0)).
  { intros op k w'. cbv zeta.
    pose proof (PollRun_seen _ _ _ _ (pollLoop_run fuel op k w')) as H.
    cbv zeta in H. destruct H as (H1 & H2 & H3 & _ & _ & H6 & _).
    split; [exact H1|]. split; [exact H2|]. split; [exact H3|]. split; [|split].
    - intros op' Ho. now destruct (H6 op' Ho).
    - intros Hp. apply pollLoop_fuel in Hp. rewrite H2 in Hp.
      now rewrite length_map, length_seq in Hp.
    - intros Hd. rewrite pollLoop_done by assumption. now split. }
  split; [intros op k; apply pollLoop_run|].
  split; [intros op k; apply Hloop|]. split.
  { cbv zeta. unfold generateVideo.
    rewrite outcome_bind, events_bind, onProgress_run.
    cbn [outcome events final fst snd].
    rewrite outcome_bind, events_bind.
    destruct (ai_generateVideos host prompt frame ar w) as [[op0|e] w1] eqn:E0.
    2:{ rewrite (await_rejected _ _ _ _ _ E0). cbn.
        split; [reflexivity|]. split; [constructor|]. split; [discriminate|].
        intros op0 w1' E. discriminate E. }
    rewrite (await_resolved _ _ _ _ _ E0). cbn [outcome events final fst snd].
    rewrite outcome_bind, events_bind, onProgress_run.
    cbn [outcome events final fst snd].
    rewrite outcome_bind, events_bind.
    destruct (Hloop op0 1 w1) as (L1 & L2 & L3 & L4 & L5 & _). cbv zeta in L1, L2, L3, L4, L5.
    set (run := pollLoop host fuel onProgress op0 1 w1) in *.
    assert (Hshape : forall tl : list Event,
               polls tl = [] -> timers tl = [] ->
               polls ([SetProgress (mkProgress 6 VIDEO_STARTING)]
                      ++ [GenerateVideos prompt frame ar (Resolved op0)]
                      ++ [SetProgress (mkProgress 6 VIDEO_INITIATED)]
                      ++ events run ++ tl) = polls (events run)
               /\ timers ([SetProgress (mkProgress 6 VIDEO_STARTING)]
                          ++ [GenerateVideos prompt frame ar (Resolved op0)]
                          ++ [SetProgress (mkProgress 6 VIDEO_INITIATED)]
                          ++ events run ++ tl) = timers (events run)
               /\ progressMessages ([SetProgress (mkProgress 6 VIDEO_STARTING)]
                          ++ [GenerateVideos prompt frame ar (Resolved op0)]
                          ++ [SetProgress (mkProgress 6 VIDEO_INITIATED)]
                          ++ events run ++ tl)
                  = [VIDEO_STARTING; VIDEO_INITIATED]
                    ++ progressMessages (events run) ++ progressMessages tl).
    { intros tl P T. unfold polls, timers. cbn [app flat_map].
      rewrite !flat_map_app. fold (polls (events run)) (polls tl)
                                  (timers (events run)) (timers tl).
      rewrite P, T, !app_nil_r. split; [reflexivity|]. split; [reflexivity|].
      cbn [progressMessages progressUpdates flat_map app map message].
      fold (progressUpdates (events run ++ tl)).
      rewrite progressUpdates_app, map_app. reflexivity. }
    destruct (outcome run) as [op|e|] eqn:Ho.
    - pose proof (download_no_poll op (final run)) as D. cbv zeta in D.
      match type of D with
      | polls (events ?t) = [] /\ _ => set (tl := t) in *
      end.
      destruct D as (D1 & D2 & D3).
      destruct (Hshape (events tl) D1 D2) as (S1 & S2 & S3).
      change (VIDEO_STARTING) with "Starting video generation with Veo..." in *.
      unfold VIDEO_INITIATED in S1, S2, S3.
      rewrite S1, S2. split; [exact L1|]. split; [exact L3|].
      split; [intros Hp; now contradiction D3|].
      intros op0' w1' [= <- <-]. exists (progressMessages (events tl)).
      split; [rewrite S3, L2; reflexivity|].
      clear -D1. subst tl.
      destruct (opError op) as [msg|]; [now left|].
      destruct (videoUri op) as [[|c uri]|]; [now left | | now left].
      right. cbv [bind]. rewrite onProgress_run. cbv beta iota. unfold await.
      destruct (fetch host _ (final run)) as [[resp|e] w2]; cbv beta iota; [|reflexivity].
      destruct (ok resp); cbn [negb]; [|reflexivity].
      destruct (blob resp) as [b|e]; cbn [settle ret throw]; cbv beta iota; [|reflexivity].
      unfold perform. destruct (createObjectURL host b w2). reflexivity.
    - destruct (Hshape [] eq_refl eq_refl) as (S1 & S2 & S3).
      unfold VIDEO_STARTING, VIDEO_INITIATED in S1, S2, S3.
      rewrite S1, S2. split; [exact L1|]. split; [exact L3|]. split; [discriminate|].
      intros op0' w1' [= <- <-]. exists []. split; [|now left].
      rewrite S3, L2. reflexivity.
    - destruct (Hshape [] eq_refl eq_refl) as (S1 & S2 & S3).
      unfold VIDEO_STARTING, VIDEO_INITIATED in S1, S2, S3.
      rewrite S1, S2. split; [exact L1|]. split; [exact L3|].
      split; [intros _; now apply L5|].
      intros op0' w1' [= <- <-]. exists []. split; [|now left].
      rewrite S3, L2. reflexivity. }
  intros op0 op1 op2 w1 w2 w3 uri E0 E1 E2 D0 D1 D2 Herr Huri Hne Hfuel.
  destruct fuel as [|[|fuel']]; try lia.
  unfold generateVideo.
  cbv [bind]. rewrite onProgress_run. cbv beta iota.
  rewrite (await_resolved _ _ _ _ _ E0). cbv beta iota.
  rewrite onProgress_run. cbv beta iota.
  rewrite (pollLoop_turn _ _ _ _ D0).
  cbv [bind emit]. rewrite onProgress_run. cbv beta iota.
  rewrite (await_resolved _ _ _ _ _ E1). cbv beta iota.
  rewrite (pollLoop_turn _ _ _ _ D1).
  cbv [bind emit]. rewrite onProgress_run. cbv beta iota.
  rewrite (await_resolved _ _ _ _ _ E2). cbv beta iota.
  rewrite (pollLoop_done _ _ _ _ D2). cbv [ret]. cbv beta iota.
  rewrite Herr, Huri. destruct uri as [|c uri]; [contradiction|].
  rewrite onProgress_run. cbv beta iota.
  set (url := (String c uri ++ "&key=" ++ API_KEY host)%string).
  destruct (await (fetch host url) (Fetch url) w3) as [[[resp|e|] w4] lf] eqn:Ef;
    unfold await in Ef; destruct (fetch host url w3) as [[resp'|e'] w4'];
    try discriminate Ef; injection Ef as <- <- <-; try reflexivity.
  destruct (negb (ok resp')); [reflexivity|].
  destruct (blob resp') as [b|e]; cbv [settle ret throw perform]; cbv beta iota;
    [|reflexivity].
  destruct (createObjectURL host b w4'). reflexivity.
Qed.

End Polling.

(* ================================================================== *)
(** * Delivery *)
(* ================================================================== *)

Ltac find_in :=
  match goal with
  | |- In _ (_ ++ _) => apply in_or_app; ((left; find_in) || (right; find_in))
  | |- In _ (_ :: _) => (left; reflexivity) || (right; find_in)
  end.

Section Delivery.
Context {W : Type} (host : Host W).
Hypothesis willing : Stage2Succeeds host.
Local Open Scope list_scope.

Lemma pollLoop_succeeds fuel op k :
  (done op = true -> usable op) ->
  Spec (pollLoop host fuel onVideoProgress op k)
    (fun o _ => o = Pending \/ exists op', o = Ok op' /\ done op' = true /\ usable op').
Proof.
  revert op k. induction fuel as [|fuel IH]; intros op k Hu w;
    destruct (done op) eqn:Hd.
  - rewrite pollLoop_done by assumption. right. exists op. auto.
  - simpl. rewrite Hd. now left.
  - rewrite pollLoop_done by assumption. right. exists op. auto.
  - rewrite pollLoop_turn by assumption.
    destruct (poll_answered host willing op w) as (op' & w1 & E & Hu').
    rewrite !outcome_bind. cbn [emit outcome final fst snd].
    rewrite (await_resolved _ _ _ _ _ E). cbn [outcome final fst snd].
    now apply IH.
Qed.

Lemma generateVideo_succeeds fuel prompt frame ar :
  Spec (generateVideo host fuel prompt frame ar onVideoProgress)
    (fun o _ => o = Pending \/ exists url, o = Ok url).
Proof.
  intros w. unfold generateVideo.
  destruct (job_answered host willing prompt frame ar w) as (op & w1 & E & Hu).
  rewrite outcome_bind, onProgress_run. cbn [outcome final fst snd].
  rewrite outcome_bind, (await_resolved _ _ _ _ _ E). cbn [outcome final fst snd].
  rewrite outcome_bind, onProgress_run. cbn [outcome final fst snd].
  rewrite outcome_bind.
  destruct (pollLoop_succeeds fuel op 1 Hu w1) as [Hp|(op' & Ho & Hd & He & c & uri & Huri)].
  - rewrite Hp. now left.
  - rewrite Ho, He, Huri. right.
    set (w2 := final (pollLoop host fuel onVideoProgress op 1 w1)).
    destruct (download_answered host willing (String c uri ++ "&key=" ++ API_KEY host)%string w2)
      as (resp & w3 & b & Ef & Hok & Hb).
    rewrite outcome_bind, onProgress_run. cbn [outcome final fst snd].
    cbv zeta. rewrite outcome_bind, (await_resolved _ _ _ _ _ Ef).
    cbn [outcome final fst snd]. rewrite Hok. cbn [negb].
    rewrite outcome_bind, Hb. cbn [settle ret outcome final fst snd].
    unfold perform. destruct (createObjectURL host b w3) as [u w4]. now exists u.
Qed.

Lemma generateSpeech_succeeds text :
  Spec (generateSpeech host text) (fun o _ => exists url, o = Ok url).
Proof.
  intros w. unfold generateSpeech, decode, bind, await, settle, perform, ret, outcome.
  destruct (speech_answered host willing text w) as (b64 & w1 & bin & E & Hne & Ha).
  rewrite E. destruct b64 as [|c b64]; [now contradiction Hne|]. rewrite Ha.
  rewrite (wavBytes_concat _ _ (getWavHeader_layout _ _ _ _)).
  match goal with
  | |- context [createObjectURL host ?b w1] => destruct (createObjectURL host b w1) as [u w2]
  end.
  now exists u.
Qed.

Lemma voiceover_succeeds data :
  Spec (if UserInput.generateVoiceover data
        then updateProgress 7 "Generating voiceover..." ;;
             u <- generateSpeech host ("Say with a " ++ UserInput.tone data
                                       ++ " tone: " ++ UserInput.cta data)%string ;;
             ret (Some u)
        else ret None)
    (fun o _ => exists vo, o = Ok vo).
Proof.
  intros w. destruct (UserInput.generateVoiceover data); [|now exists None].
  rewrite !outcome_bind.
  cbn [updateProgress setProgress emit outcome final fst snd].
  destruct (generateSpeech_succeeds ("Say with a " ++ UserInput.tone data
                                     ++ " tone: " ++ UserInput.cta data)%string w)
    as (u & Hu).
  rewrite Hu. now exists (Some u).
Qed.

Lemma finishAd_delivers fuel data qc : Spec (finishAd host fuel data qc) Delivers.
Proof.
  intros w Hin. unfold finishAd in *.
  destruct (openingFrameData qc) as [frame|]; [clear Hin|destruct Hin].
  destruct (script_answered host willing (concept qc) data w) as (veo & w1 & E).
  rewrite outcome_bind, events_bind.
  cbn [updateProgress setProgress emit outcome events final fst snd].
  unfold generateVideoDirectorPrompt.
  rewrite outcome_bind, events_bind, (await_resolved _ _ _ _ _ E).
  cbn [outcome events final fst snd].
  rewrite outcome_bind, events_bind.
  cbn [updateProgress setProgress emit outcome events final fst snd].
  rewrite outcome_bind, events_bind.
  destruct (generateVideo_succeeds fuel veo frame (UserInput.aspectRatio data) w1)
    as [Hp|(url & Ho)].
  { rewrite Hp. now left. }
  rewrite Ho. right.
  set (w2 := final (generateVideo host fuel veo frame (UserInput.aspectRatio data)
                      onVideoProgress w1)).
  rewrite outcome_bind, events_bind.
  destruct (voiceover_succeeds data w2) as (vo & Hv). rewrite Hv.
  match goal with
  | |- context [final ?m] =>
      lazymatch m with
      | (if _ then _ else _) w2 => set (w3 := final m)
      end
  end.
  rewrite outcome_bind, events_bind.
  cbn [updateProgress setProgress emit outcome events final fst snd].
  destruct (assets_answered host willing (UserInput.productDescription data)
              (UserInput.cta data) (UserInput.tone data) w3) as (assets & w4 & Ea).
  unfold generateAdAssets.
  rewrite outcome_bind, events_bind, (await_resolved _ _ _ _ _ Ea).
  cbn [setResult emit outcome events final fst snd].
  split; [reflexivity|]. eexists. find_in.
Qed.

(** A part of a run that does not notify the script step hands on what
    follows it. *)
Lemma Delivers_after {A} (m : M W A) (k : A -> M W unit) :
  Spec m (fun _ l => ~ In (SetProgress SCRIPT_STEP) l) ->
  (forall a, Spec (k a) Delivers) -> Spec (bind m k) Delivers.
Proof.
  intros Hm Hk.
  eapply Spec_bind with (P := fun _ l => ~ In (SetProgress SCRIPT_STEP) l)
                        (Q := fun _ => Delivers); [exact Hm | exact Hk | | |].
  - intros e l H Hin. now contradiction H.
  - intros l H Hin. now contradiction H.
  - intros a l1 o l2 H1 H2 Hin. apply in_app_or in Hin. destruct Hin as [Hin|Hin];
      [now contradiction H1|].
    destruct (H2 Hin) as [Hp|(Ho & out & Hout)]; [now left|].
    right. split; [exact Ho|]. exists out. apply in_or_app. now right.
Qed.

Lemma Only_absent (q : Event -> bool) (e0 : Event) {A} (m : M W A) :
  Only q m -> q e0 = false -> Spec m (fun _ l => ~ In e0 l).
Proof.
  intros Hm Hq w Hin. specialize (Hm w). rewrite forallb_forall in Hm.
  apply Hm in Hin. rewrite Hq in Hin. discriminate Hin.
Qed.

Lemma pipeline_delivers fuel data : Spec (pipeline host fuel data) Delivers.
Proof.
  unfold pipeline.
  apply Delivers_after;
    [apply (Only_absent (atStep 1)); [apply analyzeImages_class | reflexivity]|].
  intros [ia actor].
  apply Delivers_after; [intros w [E|[]]; discriminate E|]. intros _.
  apply Delivers_after.
  { intros w. unfold generateAdConcept, await, events.
    destruct (ai_generateAdConcept host ia _ _ w) as [[c|e] w1]; intros [E|[]];
      discriminate E. }
  intros c.
  apply Delivers_after;
    [apply (Only_absent inLoop); [apply qcLoop_class | reflexivity]|].
  intros qc. apply finishAd_delivers.
Qed.

(** On such a host, a run that has reached the script step and is not
    waiting for the video job has returned and has set an output. *)
Lemma run_delivers fuel data : Spec (handleGenerateAd host fuel data) Delivers.
Proof.
  unfold handleGenerateAd.
  apply Delivers_after; [intros w [E|[]]; discriminate E|]. intros _.
  apply Delivers_after; [intros w [E|[]]; discriminate E|]. intros _.
  apply Delivers_after; [intros w [E|[]]; discriminate E|]. intros _.
  apply Delivers_after;
    [apply (Only_absent inKeyCheck); [apply apiKeyCheck_class | reflexivity]|].
  intros _ w. pose proof (pipeline_delivers fuel data w) as Hp.
  unfold tryPipeline, tryFinally, tryCatch, onFinally, onError, Delivers, outcome, events in *.
  destruct (pipeline host fuel data w) as [[[[]|e|] w1] l1]; cbn [fst snd] in *.
  - cbn. intros Hin. apply in_app_or in Hin.
    destruct Hin as [Hin|[E|[E|[]]]]; try discriminate E.
    destruct (Hp Hin) as [Hp'|(_ & out & Hout)]; [discriminate Hp'|].
    right. split; [reflexivity|]. exists out. apply in_or_app. now left.
  - assert (Hn : ~ In (SetProgress SCRIPT_STEP) l1).
    { intros Hin. destruct (Hp Hin) as [Hp'|(Hp' & _)]; discriminate Hp'. }
    destruct (entityNotFound e); cbn; intros Hin; rewrite ?in_app_iff in Hin; cbn in Hin;
      exfalso; intuition (try discriminate; auto).
  - exact Hp.
Qed.

End Delivery.

(* ================================================================== *)
(** * Three failed attempts *)
(* ================================================================== *)

Section Exhausted.
Context {W : Type} (host : Host W).
Variables (fuel : nat) (data : UserInput.t) (w : W).
Local Open Scope list_scope.

Local Abbreviation evs := (events (handleGenerateAd host fuel data w)).


End Exhausted.

Lemma steady_succeeds : Stage2Succeeds steady.
Proof.
  constructor.
  - intros c d w. now eexists _, _.
  - intros p f ar w. eexists _, _. split; [reflexivity|]. discriminate.
  - intros op w. eexists _, _. split; [reflexivity|]. intros _.
    split; [reflexivity|]. now eexists _, _.
  - intros url w. eexists _, _, _. now repeat split.
  - intros t w. eexists _, _, _. split; [reflexivity|]. split; [discriminate | reflexivity].
  - intros d c t w. now eexists _, _.
Qed.

(* ================================================================== *)
(** * The claims on scripted runs *)
(* ================================================================== *)

Section Scenarios.
Import Scripted.
Local Open Scope list_scope.

Lemma qc_loop_bounded_and_stops_at_valid_witness :
  (frameCalls retryEvents
   = [Generated prompt1; Validated (jpeg prompt1) (Resolved cutOff); Generated prompt2]
     ++ Validated (jpeg prompt2) (Resolved pass) :: []
   /\ isValid pass = true)
  /\ length (validations retryEvents) <= 3
  /\ @nil FrameCall = [].
Proof.
  destruct (qc_loop_bounded_and_stops_at_valid host 5 retryBrief retryScript)
    as (H1 & _ & H3).
  split; [split; reflexivity|]. split; [exact H1|].
  apply (H3 [Generated prompt1; Validated (jpeg prompt1) (Resolved cutOff);
             Generated prompt2] (jpeg prompt2) pass []); reflexivity.
Defined.

Lemma opening_frame_prompt_append_only_witness :
  String.prefix prompt1 prompt2 = true
  /\ exists f v,
       nth_error (validations retryEvents) 0 = Some (f, Resolved v)
       /\ isValid v = false
       /\ prompt2 = (prompt1 ++ IMPORTANT_FIX ++ suggestion v)%string.
Proof.
  destruct (opening_frame_prompt_append_only host 5 retryBrief retryScript initialApp)
    as (H & _).
  apply (H 0 prompt1 prompt2); reflexivity.
Defined.


Lemma first_attempt_pass_keeps_concept_witness :
  exists out,
    result (appAfter initialApp passEvents) = Some out
    /\ FinalOutput.opening_frame_prompt out = prompt1
    /\ FinalOutput.qc_notes out = "QC passed on first attempt.".
Proof.
  destruct (result (appAfter initialApp passEvents)) as [out|] eqn:E;
    [|vm_compute in E; discriminate E].
  exists out. split; [reflexivity|].
  destruct (first_attempt_pass_keeps_concept host 5 fullBrief passScript initialApp
              (png prompt1) pass [] (mkAdConcept "Red" "Idea" "Short" prompt1) out)
    as (H1 & H2 & _); try reflexivity; [exact E|]. now split.
Defined.

Lemma final_output_carries_assets_witness :
  exists out,
    result (appAfter initialApp passEvents) = Some out
    /\ FinalOutput.ad_copy_variations out = adCopyVariations goodAssets
    /\ FinalOutput.hashtags out = hashtags goodAssets
    /\ length (FinalOutput.ad_copy_variations out) = 3
    /\ length (FinalOutput.hashtags out) = 5
    /\ Forall (fun h => startsWith "#" h = false) (FinalOutput.hashtags out).
Proof.
  destruct (result (appAfter initialApp passEvents)) as [out|] eqn:E;
    [|vm_compute in E; discriminate E].
  exists out. split; [reflexivity|].
  destruct (final_output_carries_assets host 5 fullBrief passScript initialApp out E)
    as (assets & Ha & _ & H1 & H2 & H3).
  injection Ha as <-. split; [exact H1|]. split; [exact H2|].
  apply H3. repeat split. repeat constructor.
Defined.

(** C6, as stated, fails on a reply that the response schema admits (an
    object with two arrays of strings) but that does not follow the
    request: the pipeline neither counts nor cleans what the ad-asset call
    returns, and a reply with one copy line and hashtags that begin with
    [#] is delivered as it is. *)
Lemma sloppy_assets_are_delivered :
  assetReplies (events (handleGenerateAd host 5 fullBrief sloppyScript))
  = [Resolved sloppyAssets]
  /\ exists out,
       result (appAfter initialApp
                 (events (handleGenerateAd host 5 fullBrief sloppyScript))) = Some out
       /\ FinalOutput.ad_copy_variations out = ["Buy it."]
       /\ FinalOutput.hashtags out = ["#ad"; "#sale"]
       /\ length (FinalOutput.ad_copy_variations out) <> 3
       /\ length (FinalOutput.hashtags out) <> 5
       /\ Exists (fun h => startsWith "#" h = true) (FinalOutput.hashtags out).
Proof.
  split; [reflexivity|]. eexists. split; [vm_compute; reflexivity|].
  split; [reflexivity|]. split; [reflexivity|].
  split; [discriminate|]. split; [discriminate|]. now constructor.
Qed.

Lemma video_polling_witness :
  progressMessages
    (events (generateVideo host 2 "One continuous scene" (jpeg prompt1) Portrait
               onVideoProgress (script [] [running; running; finished])))
  = [VIDEO_STARTING; VIDEO_INITIATED; pollingMessage 1; pollingMessage 2; VIDEO_DONE].
Proof.
  destruct (video_polling host 2 "One continuous scene" (jpeg prompt1) Portrait
              (script [] [running; running; finished])) as (_ & _ & _ & H).
  apply (H running running finished
           (script [] [running; finished]) (script [] [finished]) (script [] [])
           "https://v/1?alt=media");
    try reflexivity; try discriminate; lia.
Defined.

Lemma missing_product_image_is_rejected_witness :
  events (handleSubmit (brief None None false) (handleGenerateAd host 5)
            (script [pass] [finished]))
  = [PreventDefault; Alert "Please upload a product image."].
Proof.
  destruct (missing_product_image_is_rejected host 5 (brief None None false)
              (script [pass] [finished])) as (_ & _ & H & _); [reflexivity | exact H].
Defined.

(** C9, as stated, fails on an error without a message (what
    [reader.onerror] rejects with) and on an error with an empty message:
    neither matches the key signature, and what is surfaced is not the
    message of the error. *)
Lemma unknown_error_is_reworded :
  (outcome (pipeline host 0 retryBrief (failing readerEvent)) = Throw readerEvent
   /\ entityNotFound readerEvent = false
   /\ error (appAfter initialApp
               (events (tryPipeline host 0 retryBrief (failing readerEvent))))
      <> JS.message readerEvent)
  /\ (outcome (pipeline host 0 retryBrief (failing emptyError)) = Throw emptyError
      /\ entityNotFound emptyError = false
      /\ error (appAfter initialApp
                  (events (tryPipeline host 0 retryBrief (failing emptyError))))
         <> JS.message emptyError).
Proof. repeat split; vm_compute; discriminate. Qed.

Lemma stage_error_is_surfaced_witness :
  (error (appAfter initialApp
            (events (tryPipeline host 0 retryBrief (failing keyError))))
   = Some API_KEY_MESSAGE
   /\ apiKeySelected (appAfter initialApp
                        (events (tryPipeline host 0 retryBrief (failing keyError))))
      = Some false)
  /\ error (appAfter initialApp
              (events (tryPipeline host 0 retryBrief (failing quotaError))))
     = Some "Quota exceeded".
Proof.
  split.
  - destruct (stage_error_is_surfaced host 0 retryBrief (failing keyError) initialApp
                keyError) as [H _]; [reflexivity|]. apply H. reflexivity.
  - destruct (stage_error_is_surfaced host 0 retryBrief (failing quotaError) initialApp
                quotaError) as [_ H]; [reflexivity|].
    destruct H as (_ & H & _); [reflexivity|].
    apply (H "Quota exceeded"); [reflexivity | discriminate].
Defined.

(** C7, as stated, fails on a run with one QC retry: the step of the second
    generation (3) is smaller than the step of the first validation (4),
    well before the final reset. *)
Lemma retry_steps_back :
  progressSteps retryEvents = [1; 2; 3; 4; 3; 4; 5; 6; 6; 6; 6; 6; 6; 8; 0]
  /\ ~ nonDecreasing (removelast (progressSteps retryEvents)).
Proof.
  split; [reflexivity|]. intros H.
  assert (4 <= 3) by (apply (H 3 4); [lia | reflexivity | reflexivity]). lia.
Qed.

Lemma progress_order_and_reset_witness :
  outcome (handleGenerateAd host 5 retryBrief retryScript) = Ok tt
  /\ (exists before, retryEvents = before ++ [SetIsLoading false; SetProgress idle])
  /\ progress (appAfter initialApp retryEvents) = idle.
Proof.
  destruct (progress_order_and_reset host 5 retryBrief retryScript initialApp)
    as (steps & tail & _ & _ & _ & _ & H).
  split; [reflexivity|]. destruct H as (_ & H1 & H2 & _); [reflexivity|]. now split.
Defined.

End Scenarios.

(* ================================================================== *)
(** * The container for every input *)
(* ================================================================== *)

Section WavTotal.
Import Buffer Wav.
Local Open Scope list_scope.
Local Open Scope Z_scope.

Lemma trunc_ofNat (n : nat) : trunc (ofNat n) = Z.of_nat n.
Proof. unfold trunc, ofNat. simpl. apply Z.quot_1_r. Qed.

Lemma getUint_leBytes (w off : nat) (buf pre post : bytes) (v : Z) :
  buf = pre ++ leBytes w v ++ post -> length pre = off ->
  getUint w off true buf = Some (v mod 256 ^ Z.of_nat w).
Proof.
  intros -> <-.
  assert (Hl : forall k x, length (leBytes k x) = k)
    by (induction k as [|k IH]; intros x; simpl; [|rewrite IH]; reflexivity).
  unfold getUint, slice. rewrite !length_app, Hl.
  replace (length pre + w <=? length pre + (w + length post))%nat with true
    by (symmetry; apply Nat.leb_le; lia).
  rewrite skipn_app, Nat.sub_diag, skipn_all. cbn [app skipn].
  rewrite firstn_app, Hl, Nat.sub_diag, firstn_O, app_nil_r.
  rewrite <- (Hl w v) at 1. rewrite firstn_all. now rewrite ofLeBytes_leBytes.
Qed.

Lemma ToUint_ofNat (w : Z) (n : nat) : ToUint w (ofNat n) = Z.of_nat n mod 2 ^ w.
Proof. unfold ToUint. now rewrite trunc_ofNat. Qed.

Lemma ToUint_36_plus (n : nat) :
  ToUint 32 (inject_Z 36 + ofNat n)%Q = (36 + Z.of_nat n) mod 2 ^ 32.
Proof.
  unfold ToUint, trunc, ofNat. simpl Qnum. simpl Qden.
  now rewrite Z.quot_1_r, !Z.mul_1_r.
Qed.

(** X1.  [generateSpeech] can always build its container: for every list of
    samples the header is 44 bytes, the two copies succeed, and the
    container is the header followed by the samples.  The two length fields
    hold [36 + N] and [N] reduced modulo [2^32]. *)
Theorem wav_container_always_built (audioBytes : bytes) :
  let n := Z.of_nat (length audioBytes) in
  exists header,
    getWavHeader (ofNat (length audioBytes)) sampleRate numChannels bitsPerSample
    = Some header
    /\ length header = 44%nat
    /\ wavBytes audioBytes = Some (header ++ audioBytes)
    /\ getUint32 4 true (header ++ audioBytes) = Some ((36 + n) mod 2 ^ 32)
    /\ getUint32 40 true (header ++ audioBytes) = Some (n mod 2 ^ 32).
Proof.
  intros n. eexists. split; [apply getWavHeader_layout|].
  split; [reflexivity|]. split; [apply wavBytes_concat, getWavHeader_layout|].
  change (256 ^ Z.of_nat 4) with (2 ^ 32).
  split.
  - erewrite (getUint_leBytes 4 4 _ (ascii_bytes "RIFF"));
      [| rewrite <- !app_assoc; reflexivity | reflexivity].
    rewrite ToUint_36_plus. change (256 ^ Z.of_nat 4) with (2 ^ 32).
    now rewrite Z.mod_mod.
  - rewrite !app_assoc, <- app_assoc.
    erewrite (getUint_leBytes 4 40 _ _ audioBytes
                (ToUint 32 (ofNat (length audioBytes))));
      [| reflexivity | reflexivity].
    rewrite ToUint_ofNat. change (256 ^ Z.of_nat 4) with (2 ^ 32).
    now rewrite Z.mod_mod.
Qed.

End WavTotal.

Section WavFields.
Import Buffer Wav.
Local Open Scope list_scope.
Local Open Scope Z_scope.

Lemma trunc_blockAlign (a b : Z) :
  0 <= a -> 0 <= b ->
  trunc (inject_Z a * inject_Z b / inject_Z 8)%Q = a * b / 8.
Proof.
  intros Ha Hb. unfold trunc. simpl Qnum. simpl Qden.
  rewrite Z.quot_div_nonneg by nia. f_equal. lia.
Qed.

Lemma trunc_byteRate (s a b : Z) :
  0 <= s -> 0 <= a -> 0 <= b ->
  trunc (inject_Z s * (inject_Z a * inject_Z b / inject_Z 8))%Q = s * (a * b) / 8.
Proof.
  intros Hs Ha Hb. unfold trunc. simpl Qnum. simpl Qden.
  rewrite Z.quot_div_nonneg by nia. f_equal. lia.
Qed.

Lemma le16 (v : Z) :
  0 <= v < 2 ^ 16 -> v mod 256 + 256 * (v / 256 mod 256 + 256 * 0) = v.
Proof.
  intros H. change (ofLeBytes (leBytes 2 v) = v).
  rewrite ofLeBytes_leBytes. now apply Z.mod_small.
Qed.

(** X2.  The header fields round trip: for parameters that fit their
    fields, what a reader finds at the standard offsets is what
    [getWavHeader] was given, with the block alignment
    [numChannels * bitsPerSample / 8] and the byte rate
    [sampleRate * blockAlign]. *)
Theorem wav_header_round_trip (dataLength sampleRate numChannels bitsPerSample : nat) :
  let n := Z.of_nat dataLength in
  let sr := Z.of_nat sampleRate in
  let nc := Z.of_nat numChannels in
  let bps := Z.of_nat bitsPerSample in
  36 + n < 2 ^ 32 -> sr < 2 ^ 32 -> nc < 2 ^ 16 -> bps < 2 ^ 16 ->
  (nc * bps) mod 8 = 0 -> nc * bps / 8 < 2 ^ 16 -> sr * (nc * bps / 8) < 2 ^ 32 ->
  exists header,
    getWavHeader (ofNat dataLength) (ofNat sampleRate) (ofNat numChannels)
                 (ofNat bitsPerSample) = Some header
    /\ length header = 44%nat
    /\ getUint32 4 true header = Some (36 + n)
    /\ getUint16 20 true header = Some 1
    /\ getUint16 22 true header = Some nc
    /\ getUint32 24 true header = Some sr
    /\ getUint32 28 true header = Some (sr * (nc * bps / 8))
    /\ getUint16 32 true header = Some (nc * bps / 8)
    /\ getUint16 34 true header = Some bps
    /\ getUint32 40 true header = Some n.
Proof.
  intros n sr nc bps Hn Hsr Hnc Hbps Hd Hba Hbr.
  assert (H0 : 0 <= n /\ 0 <= sr /\ 0 <= nc /\ 0 <= bps) by (unfold n, sr, nc, bps; lia).
  assert (Hq : nc * bps = 8 * (nc * bps / 8)) by (apply Z.div_exact; lia).
  assert (E : sr * (nc * bps) / 8 = sr * (nc * bps / 8)).
  { rewrite Hq at 1.
    replace (sr * (8 * (nc * bps / 8))) with (sr * (nc * bps / 8) * 8) by ring.
    apply Z.div_mul. lia. }
  assert (Hb0 : 0 <= nc * bps / 8) by (apply Z.div_pos; nia).
  exists ([82; 73; 70; 70] ++ leBytes 4 (36 + n)
          ++ [87; 65; 86; 69; 102; 109; 116; 32; 16; 0; 0; 0; 1; 0]
          ++ leBytes 2 nc ++ leBytes 4 sr ++ leBytes 4 (sr * (nc * bps / 8))
          ++ leBytes 2 (nc * bps / 8) ++ leBytes 2 bps
          ++ [100; 97; 116; 97] ++ leBytes 4 n).
  split.
  - rewrite getWavHeader_layout. unfold ofNat. fold n sr nc bps.
    rewrite (ToUint_plus 32 36 n), !ToUint_small by lia.
    unfold ToUint. rewrite trunc_blockAlign, trunc_byteRate, E by lia.
    rewrite !Z.mod_small by nia. reflexivity.
  - cbv [getUint32 getUint16 getUint slice Nat.leb Nat.add length firstn skipn
         app leBytes ofLeBytes].
    repeat split; try reflexivity; f_equal;
      first [apply le32 | apply le16]; nia.
Qed.

Lemma wav_header_round_trip_witness :
  exists header,
    Wav.getWavHeader (ofNat 16) (ofNat 4000) (ofNat 2) (ofNat 16) = Some header
    /\ getUint32 28 true header = Some 16000%Z
    /\ getUint16 32 true header = Some 4%Z.
Proof.
  destruct (wav_header_round_trip 16 4000 2 16)
    as (h & H1 & _ & _ & _ & _ & _ & H2 & H3 & _);
    try (vm_compute; reflexivity).
  exists h. split; [exact H1 | split; [exact H2 | exact H3]].
Defined.
End WavFields.

Section Speech.
Context {W : Type} (host : Host W).
Import Buffer.
Local Open Scope list_scope.

Lemma ascii_bytes_length (s : string) : length (ascii_bytes s) = String.length s.
Proof.
  unfold ascii_bytes. rewrite length_map.
  induction s as [|c s IH]; simpl; [|rewrite IH]; reflexivity.
Qed.

Lemma wavBytes_total (audioBytes : bytes) :
  exists header,
    length header = 44 /\ Wav.wavBytes audioBytes = Some (header ++ audioBytes).
Proof.
  eexists. split; [|apply wavBytes_concat, getWavHeader_layout]. reflexivity.
Qed.

(** X3.  [generateSpeech] returns a URL exactly when the reply carries a
    non-empty payload that [atob] decodes: it returns one whenever the reply
    does, and only then.  It then creates one blob of type [audio/wav], 44
    bytes longer than the decoded string, that ends with the character codes
    of that string.  A reply without payload fails with
    ["TTS generation failed."], a rejected call and a payload that [atob]
    refuses fail with the rejection; a run that fails creates no blob. *)
Theorem speech_container (text : string) (w : W) :
  let r := generateSpeech host text w in
  let reply := fst (ai_generateSpeech host text w) in
  events r <> [] /\ hd_error (events r) = Some (GenerateSpeech text reply)
  /\ (forall url, outcome r = Ok url ->
        exists b64 bin wav,
          reply = Resolved (Some b64) /\ b64 <> EmptyString
          /\ atob host b64 = Resolved bin
          /\ length wav = 44 + String.length bin
          /\ skipn 44 wav = ascii_bytes bin
          /\ events r = [GenerateSpeech text reply;
                         CreateObjectURL (mkBlob wav "audio/wav") url])
  /\ (forall e, outcome r = Throw e -> events r = [GenerateSpeech text reply])
  /\ (reply = Resolved None \/ reply = Resolved (Some EmptyString) ->
      outcome r = Throw (Error "TTS generation failed."))
  /\ (forall b64 e, reply = Resolved (Some b64) -> b64 <> EmptyString ->
        atob host b64 = Rejected e -> outcome r = Throw e)
  /\ (forall b64 bin, reply = Resolved (Some b64) -> b64 <> EmptyString ->
        atob host b64 = Resolved bin ->
        exists url, outcome r = Ok url)
  /\ (forall e, reply = Rejected e -> outcome r = Throw e)
  /\ outcome r <> Pending.
Proof.
  cbv zeta. unfold generateSpeech, bind, await, outcome, events.
  destruct (ai_generateSpeech host text w) as [[[[|c b64]|]|e] w1]; cbn [fst snd].
  - repeat split; try discriminate; try reflexivity.
    + intros b64 e E. injection E as <-. now intros [].
    + intros b64 bin E. injection E as <-. now intros [].
  - unfold decode, bind, settle.
    destruct (atob host (String c b64)) as [bin|e] eqn:Ea; cbn [ret throw fst snd].
    + destruct (wavBytes_total (ascii_bytes bin)) as (h & Hh & ->).
      unfold perform.
      destruct (createObjectURL host (mkBlob (h ++ ascii_bytes bin) "audio/wav") w1)
        as [url w2].
      cbn [fst snd app]. repeat split; try discriminate.
      * intros url' E. injection E as <-.
        exists (String c b64), bin, (h ++ ascii_bytes bin). repeat split.
        -- discriminate.
        -- exact Ea.
        -- now rewrite length_app, Hh, ascii_bytes_length.
        -- rewrite skipn_app, skipn_all2, <- Hh, Nat.sub_diag by lia. reflexivity.
      * intros [E|E]; discriminate E.
      * intros b64' e E _. injection E as <-. rewrite Ea. discriminate.
      * intros b64' bin' _ _ _. now exists url.
    + cbn [app]. repeat split; try discriminate; try reflexivity.
      * intros [E|E]; discriminate E.
      * intros b64' e' E _. injection E as <-. rewrite Ea. now intros [= ->].
      * intros b64' bin' E _. injection E as <-. rewrite Ea. discriminate.
  - repeat split; try discriminate; try reflexivity.
  - repeat split; try discriminate; try reflexivity.
    + intros [E|E]; discriminate E.
    + now intros e' [= ->].
Qed.

End Speech.

Section ActorFrame.
Context {W : Type} (host : Host W).
Local Open Scope list_scope.

Lemma firstInlineData_first (ps : list Part) (d : ImageData) :
  firstInlineData ps = Some d <->
  exists pre post,
    ps = pre ++ mkPart (Some d) :: post
    /\ Forall (fun p => inlineData p = None) pre.
Proof.
  split.
  - induction ps as [|[[d'|]] ps IH]; simpl; intros E; try discriminate E.
    + injection E as ->. exists [], ps. split; [reflexivity | constructor].
    + destruct (IH E) as (pre & post & -> & H).
      exists (mkPart None :: pre), post. split; [reflexivity|].
      constructor; [reflexivity | exact H].
  - intros (pre & post & -> & H). induction H as [|p pre Hp _ IH]; simpl.
    + reflexivity.
    + now rewrite Hp.
Qed.

Lemma firstInlineData_none (ps : list Part) :
  firstInlineData ps = None <-> Forall (fun p => inlineData p = None) ps.
Proof.
  induction ps as [|[[d|]] ps IH]; simpl.
  - split; [constructor | reflexivity].
  - split; [discriminate | intros H; inversion H; discriminate].
  - rewrite IH. split; [now constructor | intros H; now inversion H].
Qed.

(** X4.  [generateOpeningFrameWithActor] makes one remote call and returns
    the first part of the reply that carries inline data, skipping the parts
    without.  A reply without parts is logged and fails with a message that
    names the finish reason (or ["Not specified"]); a reply whose parts carry
    no inline data fails with the "No image data" message, without a log. *)
Theorem actor_frame_is_first_inline_part (prompt : string) (actor : ImageData) (w : W) :
  let r := generateOpeningFrameWithActor host prompt actor w in
  let reply := fst (ai_generateOpeningFrameWithActor host prompt actor w) in
  hd_error (events r) = Some (GenerateOpeningFrameWithActor prompt actor reply)
  /\ (forall img, outcome r = Ok img <->
        exists res pre post,
          reply = Resolved res
          /\ parts res = Some (pre ++ mkPart (Some img) :: post)
          /\ Forall (fun p => inlineData p = None) pre)
  /\ (forall res, reply = Resolved res -> parts res = None ->
        outcome r = Throw (Error ("Image generation with actor failed. The request may have been blocked due to safety settings (Finish Reason: "
                                  ++ orElse (finishReason res) "Not specified"
                                  ++ "). Please try using a different actor image."))
        /\ events r = [GenerateOpeningFrameWithActor prompt actor reply; ConsoleError])
  /\ (forall res ps, reply = Resolved res -> parts res = Some ps ->
        Forall (fun p => inlineData p = None) ps ->
        outcome r = Throw (Error "Image generation with actor failed: No image data found in the response.")
        /\ events r = [GenerateOpeningFrameWithActor prompt actor reply])
  /\ (forall e, reply = Rejected e -> outcome r = Throw e)
  /\ outcome r <> Pending.
Proof.
  cbv zeta. unfold generateOpeningFrameWithActor, bind, await, outcome, events.
  destruct (ai_generateOpeningFrameWithActor host prompt actor w)
    as [[[[ps|] fr]|e] w1]; cbn [fst snd parts finishReason].
  - destruct (firstInlineData ps) as [[b m]|] eqn:E;
      cbn [ret throw fst snd app base64 mimeType];
      (split; [reflexivity|]); (split; [|split; [|split; [|split]]]);
      try discriminate.
    + intros img. split.
      * intros [= <-]. apply firstInlineData_first in E as (pre & post & -> & H).
        eexists _, pre, post. split; [reflexivity|]. split; [reflexivity | exact H].
      * intros (res & pre & post & [= <-] & [= ->] & H).
        assert (E2 : firstInlineData (pre ++ mkPart (Some img) :: post) = Some img)
          by (apply firstInlineData_first; eauto).
        rewrite E2 in E. now injection E as <-.
    + intros res [= <-]. discriminate.
    + intros res ps' [= <-] [= <-] H. apply firstInlineData_none in H.
      rewrite H in E. discriminate E.
    + intros img. split; [discriminate|].
      intros (res & pre & post & [= <-] & [= ->] & H).
      assert (E2 : firstInlineData (pre ++ mkPart (Some img) :: post) = Some img)
        by (apply firstInlineData_first; eauto).
      rewrite E2 in E. discriminate E.
    + intros res [= <-]. discriminate.
    + intros res ps' [= <-] [= <-] H. split; reflexivity.
  - cbn [emit throw fst snd app].
    (split; [reflexivity|]); (split; [|split; [|split; [|split]]]);
      try discriminate.
    + intros img. split; [discriminate|].
      intros (res & pre & post & [= <-] & E & _). discriminate E.
    + intros res [= <-] _. split; reflexivity.
    + intros res ps' [= <-]. discriminate.
  - (split; [reflexivity|]); (split; [|split; [|split; [|split]]]);
      try discriminate.
    + intros img. split; [discriminate|].
      intros (res & pre & post & E & _). discriminate E.
    + intros e' [= ->]. reflexivity.
Qed.

End ActorFrame.

Section PollingDiscipline.
Context {W : Type} (host : Host W).
Local Open Scope list_scope.

Lemma pollLoop_polls_le fuel op k w :
  length (polls (events (pollLoop host fuel onVideoProgress op k w))) <= fuel.
Proof.
  revert op k w. induction fuel as [|fuel IH]; intros op k w;
    destruct (done op) eqn:Hd.
  - rewrite pollLoop_done by assumption. simpl. lia.
  - simpl. rewrite Hd. simpl. lia.
  - rewrite pollLoop_done by assumption. simpl. lia.
  - rewrite pollLoop_turn by assumption. cbv [bind emit].
    rewrite onProgress_run. cbv beta iota.
    destruct (ai_getVideosOperation host op w) as [[op'|e] w1] eqn:E.
    + rewrite (await_resolved _ _ _ _ _ E). cbv beta iota.
      specialize (IH op' (S k) w1). unfold events in *.
      destruct (pollLoop host fuel onVideoProgress op' (S k) w1) as [[o w2] l].
      cbn [fst snd app polls flat_map length] in *. fold (polls l) in *. lia.
    + rewrite (await_rejected _ _ _ _ _ E). cbv beta iota. simpl. lia.
Qed.

(** X5.  The polling loop of [generateVideo], for a job in state [op] and a
    counter at [k]: every turn sets one 10-second timer, notifies one
    message with the counter of the turn (counting up from [k]), and polls
    once; it polls the state it was given first and then the state that the
    previous poll returned, and it never polls a job that reported done.  It
    returns only a job that reports done, which is the reply of the last poll
    (or [op] itself, without a turn); it fails only with the rejection of
    the last poll. *)
Theorem polling_discipline (fuel : nat) (op : Operation) (k : nat) (w : W) :
  let r := pollLoop host fuel onVideoProgress op k w in
  let n := length (polls (events r)) in
  n <= fuel
  /\ timers (events r) = repeat 10000%Z n
  /\ progressMessages (events r) = map pollingMessage (seq k n)
  /\ Forall (fun p => done (fst p) = false) (polls (events r))
  /\ (forall p, hd_error (polls (events r)) = Some p -> fst p = op)
  /\ (forall i p q, nth_error (polls (events r)) i = Some p ->
                    nth_error (polls (events r)) (S i) = Some q ->
                    snd p = Resolved (fst q))
  /\ (forall op', outcome r = Ok op' ->
        done op' = true
        /\ last (map snd (polls (events r))) (Resolved op) = Resolved op')
  /\ (forall e, outcome r = Throw e ->
        last (map snd (polls (events r))) (Resolved op) = Rejected e)
  /\ (outcome r = Pending -> n = fuel)
  /\ (done op = true -> outcome r = Ok op /\ events r = []).
Proof.
  cbv zeta. split; [apply pollLoop_polls_le|].
  pose proof (PollRun_seen _ _ _ _ (pollLoop_run host fuel op k w)) as H.
  cbv zeta in H. destruct H as (H1 & H2 & H3 & H4 & H5 & H6 & H7).
  split; [exact H1|]. split; [exact H2|]. split; [exact H3|]. split; [exact H4|].
  split; [exact H5|]. split; [exact H6|]. split; [exact H7|]. split.
  - intros Hp. apply pollLoop_fuel in Hp. rewrite H2 in Hp.
    now rewrite length_map, length_seq in Hp.
  - intros Hd. rewrite pollLoop_done by assumption. now split.
Qed.

End PollingDiscipline.

Section VideoStage.
Context {W : Type} (host : Host W).
Local Open Scope list_scope.

Lemma PollRun_jobs k op o l :
  PollRun k op o l ->
  jobReplies l = map snd (polls l) /\ fetches l = [] /\ objectUrls l = []
  /\ (o = Pending ->
      exists op', last (map snd (polls l)) (Resolved op) = Resolved op'
                  /\ done op' = false).
Proof.
  induction 1 as [k op Hd|k op Hd|k op e Hd|k op op' o l Hd H IH].
  - repeat split. discriminate.
  - repeat split. intros _. now exists op.
  - repeat split. discriminate.
  - destruct IH as (I1 & I2 & I3 & I4).
    unfold jobReplies, polls, fetches, objectUrls in *.
    rewrite !flat_map_app. cbn [pollTick flat_map app map snd].
    rewrite I1, I2, I3. repeat split. intros Hp.
    rewrite last_cons. now apply I4.
Qed.

Lemma VideoVerdict_ext (fin : Settled Operation) (o : Outcome string)
    (l1 l2 : list Event) :
  fetches l1 = fetches l2 -> objectUrls l1 = objectUrls l2 ->
  VideoVerdict host fin o l1 -> VideoVerdict host fin o l2.
Proof. unfold VideoVerdict. now intros -> ->. Qed.

(** What follows the polling loop, for a job that reports done. *)
Lemma video_download (op : Operation) (w : W) :
  done op = true ->
  let r :=
    (match opError op with
     | Some msg =>
         emit ConsoleError ;;
         throw (Error ("Video generation failed: " ++ orElse msg "Unknown error")%string)
     | None =>
         match videoUri op with
         | None | Some EmptyString =>
             emit ConsoleError ;;
             throw (Error "Video generation completed, but no video URI was found.")
         | Some downloadLink =>
             onVideoProgress "Video generated successfully! Fetching video data..." ;;
             let url := (downloadLink ++ "&key=" ++ API_KEY host)%string in
             videoResponse <- await (fetch host url) (Fetch url) ;;
             if negb (ok videoResponse)
             then throw (Error ("Failed to download video. Status: "
                                ++ statusText videoResponse)%string)
             else
               videoBlob <- settle (blob videoResponse) ;;
               perform (createObjectURL host videoBlob) (CreateObjectURL videoBlob)
         end
     end) w in
  jobReplies (events r) = [] /\ filter isSubmission (events r) = []
  /\ VideoVerdict host (Resolved op) (outcome r) (events r).
Proof.
  intros Hd. cbv zeta. unfold VideoVerdict. rewrite Hd. cbn [negb].
  destruct (opError op) as [msg|]; [now repeat split|].
  destruct (videoUri op) as [[|c uri]|]; [now repeat split | | now repeat split].
  set (url := (String c uri ++ "&key=" ++ API_KEY host)%string).
  cbv [bind]. rewrite onProgress_run. cbv beta iota. unfold await.
  destruct (fetch host url w) as [[resp|e] w1]; cbv beta iota.
  2:{ cbn. split; [reflexivity|]. split; [reflexivity|]. eexists. split; [reflexivity|].
      now split. }
  destruct (ok resp) eqn:Hok; cbn [negb].
  2:{ cbn. split; [reflexivity|]. split; [reflexivity|]. eexists. split; [reflexivity|].
      cbv beta iota. rewrite Hok. now split. }
  destruct (blob resp) as [b|e] eqn:Hb; cbn [settle ret throw]; cbv beta iota.
  2:{ cbn. split; [reflexivity|]. split; [reflexivity|]. eexists. split; [reflexivity|].
      cbv beta iota. rewrite Hok, Hb. now split. }
  unfold perform. destruct (createObjectURL host b w1) as [u w2]. cbn.
  split; [reflexivity|]. split; [reflexivity|]. eexists. split; [reflexivity|].
  cbv beta iota. rewrite Hok, Hb. cbn. now exists u.
Qed.

(** X6.  How [generateVideo] ends is decided by the last reply about the
    job ([VideoVerdict]).  It submits the job once, and the replies about
    the job begin with the reply to the submission.  A rejected reply is the
    failure of the call, and a job that does not report done leaves the call
    pending.  A job that is done with an error fails with
    ["Video generation failed: "] and the message of the error (or
    ["Unknown error"]); one without a URI fails with the "no video URI"
    message; in all these cases nothing is fetched and no URL is created.
    Otherwise the URI is fetched once, with [&key=] and the API key
    appended: a rejected download, a response that is not [ok] (its status
    text is in the message) and a rejected blob fail without a URL, and a
    blob gives the one object URL, which is returned. *)
Theorem video_stage_verdict (fuel : nat) (prompt : string) (frame : ImageData)
    (ar : AspectRatio) (w : W) :
  let r := generateVideo host fuel prompt frame ar onVideoProgress w in
  let submitted := fst (ai_generateVideos host prompt frame ar w) in
  hd_error (jobReplies (events r)) = Some submitted
  /\ length (filter isSubmission (events r)) = 1
  /\ VideoVerdict host (last (jobReplies (events r)) submitted) (outcome r) (events r).
Proof.
  cbv zeta. unfold generateVideo.
  rewrite outcome_bind, events_bind, onProgress_run.
  cbn [outcome events final fst snd].
  rewrite outcome_bind, events_bind.
  destruct (ai_generateVideos host prompt frame ar w) as [[op0|e] w1] eqn:E0.
  2:{ rewrite (await_rejected _ _ _ _ _ E0). cbn. repeat split. }
  rewrite (await_resolved _ _ _ _ _ E0). cbn [outcome events final fst snd].
  rewrite outcome_bind, events_bind, onProgress_run.
  cbn [outcome events final fst snd].
  rewrite outcome_bind, events_bind.
  pose proof (pollLoop_run host fuel op0 1 w1) as Hrun.
  destruct (PollRun_jobs _ _ _ _ Hrun) as (J1 & J2 & J3 & J4).
  pose proof (PollRun_seen _ _ _ _ Hrun) as S. cbv zeta in S.
  destruct S as (_ & _ & _ & _ & _ & S6 & S7).
  assert (Hg : filter isSubmission (events (pollLoop host fuel onVideoProgress op0 1 w1)) = []).
  { clear -Hrun. induction Hrun; simpl; auto. }
  set (run := pollLoop host fuel onVideoProgress op0 1 w1) in *.
  destruct (outcome run) as [op|e|] eqn:Ho.
  - destruct (S6 op eq_refl) as [Hd Hl].
    destruct (video_download op (final run) Hd) as (T1 & T2 & T3).
    cbv zeta in T1, T2, T3.
    match goal with
    | H : jobReplies (events ?t) = [] |- _ => set (tl := t) in *
    end.
    split; [reflexivity|]. split.
    + cbn [app filter isSubmission]. rewrite filter_app, Hg, T2. reflexivity.
    + unfold jobReplies at 1. cbn [app flat_map]. rewrite !flat_map_app.
      fold (jobReplies (events run)). fold (jobReplies (events tl)).
      rewrite T1, app_nil_r, J1. rewrite last_cons, Hl.
      eapply VideoVerdict_ext; [| | exact T3].
      * unfold fetches. cbn [app flat_map]. rewrite flat_map_app.
        fold (fetches (events run)). now rewrite J2.
      * unfold objectUrls. cbn [app flat_map]. rewrite flat_map_app.
        fold (objectUrls (events run)). now rewrite J3.
  - split; [reflexivity|]. split.
    + rewrite app_nil_r. cbn [app filter isSubmission]. rewrite Hg. reflexivity.
    + rewrite app_nil_r. unfold jobReplies at 1. cbn [app flat_map].
      fold (jobReplies (events run)). rewrite J1, last_cons, (S7 e eq_refl).
      cbn [VideoVerdict]. split; [reflexivity|]. split.
      * unfold fetches. cbn [app flat_map]. exact J2.
      * unfold objectUrls. cbn [app flat_map]. exact J3.
  - split; [reflexivity|]. split.
    + rewrite app_nil_r. cbn [app filter isSubmission]. rewrite Hg. reflexivity.
    + rewrite app_nil_r. unfold jobReplies at 1. cbn [app flat_map].
      fold (jobReplies (events run)). rewrite J1, last_cons.
      destruct (J4 eq_refl) as (op' & -> & Hd).
      cbn [VideoVerdict]. rewrite Hd. cbn [negb]. split; [reflexivity|]. split.
      * unfold fetches. cbn [app flat_map]. exact J2.
      * unfold objectUrls. cbn [app flat_map]. exact J3.
Qed.

End VideoStage.

Section KeyCheck.
Context {W : Type} (host : Host W).
Local Open Scope list_scope.

Lemma keyCheck_keeps (a : AppState) (k : list Event) :
  forallb inKeyCheck k = true ->
  isLoading (appAfter a k) = isLoading a
  /\ error (appAfter a k) = error a
  /\ result (appAfter a k) = result a
  /\ progress (appAfter a k) = progress a.
Proof.
  revert a. induction k as [|e k IH]; intros a H; [now repeat split|].
  simpl in H. apply andb_prop in H as [He Hk].
  unfold appAfter in *. simpl. destruct (IH (applyEvent a e) Hk) as (I1 & I2 & I3 & I4).
  rewrite I1, I2, I3, I4.
  destruct e; try discriminate He; now repeat split.
Qed.

(** The run whose key question is rejected, and the run whose key dialog
    is. *)
Lemma keyQuestion_rejected fuel data w e w' :
  aistudio host w = true -> hasSelectedApiKey host w = (Rejected e, w') ->
  outcome (handleGenerateAd host fuel data w) = Throw e
  /\ events (handleGenerateAd host fuel data w)
     = [SetIsLoading true; SetError None; SetResult None; HasSelectedApiKey (Rejected e)].
Proof.
  intros Hs Hk. unfold handleGenerateAd.
  rewrite !outcome_bind, !events_bind.
  cbn [setIsLoading setError setResult emit outcome events final fst snd].
  unfold apiKeyCheck. rewrite Hs, outcome_bind, events_bind, (await_rejected _ _ _ _ _ Hk).
  now split.
Qed.

Lemma keyDialog_rejected fuel data w e w1 w2 :
  aistudio host w = true -> hasSelectedApiKey host w = (Resolved false, w1) ->
  openSelectKey host w1 = (Rejected e, w2) ->
  outcome (handleGenerateAd host fuel data w) = Throw e
  /\ events (handleGenerateAd host fuel data w)
     = [SetIsLoading true; SetError None; SetResult None;
        HasSelectedApiKey (Resolved false); OpenSelectKey (Rejected e)].
Proof.
  intros Hs Hk Hd. unfold handleGenerateAd.
  rewrite !outcome_bind, !events_bind.
  cbn [setIsLoading setError setResult emit outcome events final fst snd].
  unfold apiKeyCheck.
  rewrite Hs, outcome_bind, events_bind, (await_resolved _ _ _ _ _ Hk).
  cbn [outcome events final fst snd negb].
  rewrite outcome_bind, events_bind, (await_rejected _ _ _ _ _ Hd). now split.
Qed.

(** X7.  The API key check runs in front of the [try] statement: when
    [hasSelectedApiKey] or [openSelectKey] rejects, [handleGenerateAd]
    itself rejects, with that rejection.  Such a run has started no stage
    and made no other call: its events are the three setters and the key
    calls.  It sets no error and no result, leaves the progress state and
    the key flag as they were, and leaves the loading flag set, since the
    [finally] block does not run. *)
Theorem key_check_failure_is_not_handled (fuel : nat) (data : UserInput.t) (w : W)
    (a : AppState) :
  let r := handleGenerateAd host fuel data w in
  let a' := appAfter a (events r) in
  (forall e w', aistudio host w = true ->
     hasSelectedApiKey host w = (Rejected e, w') ->
     outcome r = Throw e
     /\ events r = [SetIsLoading true; SetError None; SetResult None;
                    HasSelectedApiKey (Rejected e)]
     /\ isLoading a' = true /\ error a' = None /\ result a' = None
     /\ progress a' = progress a /\ apiKeySelected a' = apiKeySelected a)
  /\ (forall e w1 w2, aistudio host w = true ->
        hasSelectedApiKey host w = (Resolved false, w1) ->
        openSelectKey host w1 = (Rejected e, w2) ->
        outcome r = Throw e
        /\ events r = [SetIsLoading true; SetError None; SetResult None;
                       HasSelectedApiKey (Resolved false); OpenSelectKey (Rejected e)]
        /\ isLoading a' = true /\ error a' = None /\ result a' = None
        /\ progress a' = progress a /\ apiKeySelected a' = apiKeySelected a).
Proof.
  cbv zeta. split.
  - intros e w' Hs Hk. destruct (keyQuestion_rejected fuel data w e w' Hs Hk) as [Ho ->].
    now repeat split.
  - intros e w1 w2 Hs Hk Hd.
    destruct (keyDialog_rejected fuel data w e w1 w2 Hs Hk Hd) as [Ho ->].
    now repeat split.
Qed.

End KeyCheck.

Section MoreQc.
Context {W : Type} (host : Host W).
Variables (fuel : nat) (data : UserInput.t) (w : W).
Local Open Scope list_scope.

Local Abbreviation evs := (events (handleGenerateAd host fuel data w)).

Lemma amend_prompt c s :
  openingFramePrompt (amend c s) = (openingFramePrompt c ++ IMPORTANT_FIX ++ s)%string.
Proof. reflexivity. Qed.

Lemma loop_pass_after (fails : list (ImageData * ImageValidationResult)) :
  forall i n st o l f v,
    LoopRun AttemptRun (seq i n) st o l ->
    validations l = verdicts fails ++ [(f, Resolved v)] ->
    Forall (fun p => isValid (snd p) = false) fails -> isValid v = true ->
    1 <= i ->
    length fails < n
    /\ exists c',
         o = Ok (mkQc c' (Some f)
                   (if (1 <? i + length fails)%nat
                    then ("QC passed on attempt " ++ numToString (i + length fails) ++ ".")%string
                    else qcNotes st))
         /\ openingFramePrompt c'
            = amended (openingFramePrompt (concept st)) (map (fun p => suggestion (snd p)) fails)
         /\ adTitle c' = adTitle (concept st) /\ adIdea c' = adIdea (concept st)
         /\ adDescription c' = adDescription (concept st).
Proof.
  induction fails as [|[f1 v1] fails IH]; intros i n st o l f v H E Hf Hv Hi.
  - destruct n as [|n]; [inversion H; subst; discriminate E|].
    cbn [seq] in H. cbn [verdicts map app] in E.
    destruct (loop_turn_valid _ _ _ _ _ _ _ _ H E Hv) as [_ ->].
    split; [simpl; lia|]. exists (concept st). rewrite Nat.add_0_r. now repeat split.
  - destruct n as [|n]; [inversion H; subst; discriminate E|].
    cbn [seq] in H. cbn [verdicts map app fst snd] in E.
    inversion Hf as [|? ? Hv1 Hf']; subst. cbn [snd] in Hv1.
    destruct (loop_turn_invalid _ _ _ _ _ _ _ _ H E Hv1) as (l1 & l2 & -> & E2 & H2).
    destruct (IH (S i) n _ _ _ f v H2 E2 Hf' Hv ltac:(lia)) as (Hn & c' & -> & Hp & Ht & Hi' & Hd).
    split; [simpl; lia|]. exists c'. cbn [length]. rewrite Nat.add_succ_r.
    replace (1 <? S (i + length fails))%nat with true
      by (symmetry; apply Nat.ltb_lt; lia).
    replace (1 <? S i + length fails)%nat with true
      by (symmetry; apply Nat.ltb_lt; lia).
    split; [reflexivity|]. split; [|now repeat split].
    rewrite Hp. reflexivity.
Qed.

(** X9.  When the frame passes QC only after [k] failed attempts (one or
    two), the delivered output carries the passing frame, as the URL
    [data:], its media type, [;base64,] and its payload; its note is
    ["QC passed on attempt k+1."], and its prompt is the prompt of the
    concept with the fixes of the failed attempts appended in order. *)
Theorem pass_after_retries_is_noted (a : AppState)
    (fails : list (ImageData * ImageValidationResult)) f v c out :
  validations evs = verdicts fails ++ [(f, Resolved v)] ->
  Forall (fun p => isValid (snd p) = false) fails -> isValid v = true ->
  fails <> [] ->
  concepts evs = [Resolved c] ->
  result (appAfter a evs) = Some out ->
  length fails <= 2
  /\ FinalOutput.qc_notes out
     = ("QC passed on attempt " ++ numToString (S (length fails)) ++ ".")%string
  /\ FinalOutput.opening_frame_image_url out
     = ("data:" ++ mimeType f ++ ";base64," ++ base64 f)%string
  /\ FinalOutput.opening_frame_prompt out
     = amended (openingFramePrompt c) (map (fun p => suggestion (snd p)) fails).
Proof.
  intros E Hf Hv Hne Ec Eo.
  destruct (run_seen host fuel data w) as (l & s & po & (_ & _ & H3 & _ & _ & H) & Hres & _).
  rewrite H3 in E. rewrite result_appAfter, Hres in Eo.
  destruct H as [(-> & _)|(c' & ol & Ec' & Hl & Hafter)];
    [destruct fails; discriminate E|].
  rewrite Ec in Ec'. injection Ec' as <-.
  destruct (loop_pass_after fails 1 3 _ _ _ f v Hl E Hf Hv (le_n 1))
    as (Hn & c' & -> & Hp & _).
  cbn [AfterLoop] in Hafter.
  apply FinishRun_seen in Hafter as (_ & _ & _ & _ & _ & _ & R).
  destruct R as [(R & _)|(frame & veo & video & voice & assets & Hfr & _ & _ & R)];
    rewrite R in Eo; [discriminate Eo|].
  cbn [openingFrameData concept qcNotes] in *. injection Hfr as <-.
  injection Eo as <-.
  cbn [finalOutput FinalOutput.qc_notes FinalOutput.opening_frame_image_url
       FinalOutput.opening_frame_prompt].
  split; [lia|]. split; [|split; [reflexivity | exact Hp]].
  destruct fails as [|p0 fails0]; [contradiction | reflexivity].
Qed.

End MoreQc.

Section Passthrough.
Context {W : Type} (host : Host W).
Variables (fuel : nat) (data : UserInput.t) (w : W).
Local Open Scope list_scope.

Local Abbreviation evs := (events (handleGenerateAd host fuel data w)).

Lemma loop_keeps_copy range st st' l :
  LoopRun AttemptRun range st (Ok st') l ->
  adTitle (concept st') = adTitle (concept st)
  /\ adIdea (concept st') = adIdea (concept st)
  /\ adDescription (concept st') = adDescription (concept st).
Proof.
  remember (Ok st') as o eqn:Eo. intros H. revert st' Eo.
  induction H as [st|i rest st st1 l HB|i rest st st1 l1 o l2 HB H IH|i rest st e l HB
                 |i rest st l HB]; intros st' Eo; try discriminate Eo.
  - injection Eo as <-. now repeat split.
  - injection Eo as <-. inversion HB; subst. now repeat split.
  - destruct (IH st' Eo) as (-> & -> & ->). inversion HB; subst. now repeat split.
Qed.

(** X10.  A delivered output carries the brief and the concept: its call to
    action, tone, platform and aspect ratio are those of the form, and its
    title, idea and description are those of the concept reply, whatever
    the QC loop appended to the prompt. *)
Theorem output_carries_brief_and_concept (a : AppState) (out : FinalOutput.t) :
  result (appAfter a evs) = Some out ->
  FinalOutput.cta_line out = UserInput.cta data
  /\ FinalOutput.tone out = UserInput.tone data
  /\ FinalOutput.platform out = platformText (UserInput.platform data)
  /\ FinalOutput.aspect_ratio out = aspectRatioText (UserInput.aspectRatio data)
  /\ exists c,
       concepts evs = [Resolved c]
       /\ FinalOutput.ad_title out = adTitle c
       /\ FinalOutput.ad_idea out = adIdea c
       /\ FinalOutput.ad_description out = adDescription c
       /\ String.prefix (openingFramePrompt c) (FinalOutput.opening_frame_prompt out) = true.
Proof.
  intros Eo.
  destruct (run_seen host fuel data w) as (l & s & po & (_ & _ & _ & _ & _ & H) & Hres & _).
  rewrite result_appAfter, Hres in Eo.
  destruct H as [(_ & -> & _)|(c & ol & Ec & Hl & Hafter)]; [discriminate Eo|].
  destruct ol as [qc|e|]; cbn [AfterLoop] in Hafter;
    try (destruct Hafter as [_ ->]; discriminate Eo).
  apply FinishRun_seen in Hafter as (_ & _ & _ & _ & _ & _ & R).
  destruct R as [(R & _)|(frame & veo & video & voice & assets & _ & _ & _ & R)];
    rewrite R in Eo; [discriminate Eo|].
  injection Eo as <-. cbn.
  destruct (loop_keeps_copy _ _ _ _ Hl) as (-> & -> & ->).
  destruct (loop_prompts _ _ _ _ Hl) as (_ & _ & Hp).
  destruct (Hp qc eq_refl) as [Hpre _].
  repeat split. exists c. now repeat split.
Qed.

End Passthrough.

Section KeyBanner.
Context {W : Type} (host : Host W).
Local Open Scope list_scope.

(** X11.  After [App] has mounted, the key banner shows exactly when the
    page runs inside AI Studio and the host answered that no key is
    selected: outside AI Studio a key is assumed, and a rejected question
    leaves the flag unset (and the effect's promise rejected). *)
Theorem key_banner_after_mount (w : W) :
  let r := checkApiKey host w in
  let a' := appAfter initialApp (events r) in
  (showsKeyBanner a' = true <->
     aistudio host w = true /\ fst (hasSelectedApiKey host w) = Resolved false)
  /\ (aistudio host w = false ->
      events r = [SetApiKeySelected true] /\ apiKeySelected a' = Some true)
  /\ (forall e, aistudio host w = true ->
        fst (hasSelectedApiKey host w) = Rejected e ->
        outcome r = Throw e /\ apiKeySelected a' = None).
Proof.
  cbv zeta. unfold checkApiKey.
  destruct (aistudio host w).
  - unfold bind, await, outcome, events.
    destruct (hasSelectedApiKey host w) as [[[]|e] w1]; cbn; (split; [|split]).
    + split; [discriminate|]. intros [_ E]. discriminate E.
    + discriminate.
    + intros e' _ E. discriminate E.
    + now split.
    + discriminate.
    + intros e' _ E. discriminate E.
    + split; [discriminate|]. intros [_ E]. discriminate E.
    + discriminate.
    + intros e' _ [= ->]. now split.
  - cbn. split; [|split].
    + split; [discriminate|]. intros [E _]. discriminate E.
    + now split.
    + discriminate.
Qed.

End KeyBanner.

(* ================================================================== *)
(** * Monitors of a run *)
(* ================================================================== *)

Section MonitorRules.
Context {W St : Type}.
Variable step : St -> Event -> option St.
Local Open Scope list_scope.

Local Abbreviation Tr := (Triple (W:=W) step).

Lemma feed_app (s : St) (l1 l2 : list Event) :
  feed step s (l1 ++ l2) =
  match feed step s l1 with Some s1 => feed step s1 l2 | None => None end.
Proof.
  revert s. induction l1 as [|e l1 IH]; intros s; simpl; [reflexivity|].
  destruct (step s e); [apply IH | reflexivity].
Qed.

Lemma Triple_conseq {A} (I I' : St -> Prop) (m : M W A)
    (J J' : Outcome A -> St -> Prop) :
  Tr I m J -> (forall s, I' s -> I s) -> (forall o s, J o s -> J' o s) -> Tr I' m J'.
Proof.
  intros H HI HJ w s Hs. destruct (H w s (HI s Hs)) as (s' & E & Hj). eauto.
Qed.

Lemma Triple_ret {A} (I : St -> Prop) (a : A) (J : Outcome A -> St -> Prop) :
  (forall s, I s -> J (Ok a) s) -> Tr I (ret a) J.
Proof. intros H w s Hs. exists s. split; [reflexivity | now apply H]. Qed.

Lemma Triple_throw {A} (I : St -> Prop) (e : Exn) (J : Outcome A -> St -> Prop) :
  (forall s, I s -> J (Throw e) s) -> Tr I (throw e) J.
Proof. intros H w s Hs. exists s. split; [reflexivity | now apply H]. Qed.

Lemma Triple_pending {A} (I : St -> Prop) (J : Outcome A -> St -> Prop) :
  (forall s, I s -> J Pending s) -> Tr I pending J.
Proof. intros H w s Hs. exists s. split; [reflexivity | now apply H]. Qed.

Lemma Triple_emit (I : St -> Prop) (e : Event) (J : Outcome unit -> St -> Prop) :
  (forall s, I s -> exists s', step s e = Some s' /\ J (Ok tt) s') ->
  Tr I (emit e) J.
Proof.
  intros H w s Hs. destruct (H s Hs) as (s' & E & Hj). exists s'.
  simpl. now rewrite E.
Qed.

Lemma Triple_await {X} (I : St -> Prop) (op : W -> Settled X * W)
    (ev : Settled X -> Event) (J : Outcome X -> St -> Prop) :
  (forall x s, I s -> exists s', step s (ev (Resolved x)) = Some s' /\ J (Ok x) s') ->
  (forall e s, I s -> exists s', step s (ev (Rejected e)) = Some s' /\ J (Throw e) s') ->
  Tr I (await op ev) J.
Proof.
  intros Hx He w s Hs. unfold await, events, outcome.
  destruct (op w) as [[x|e] w']; cbn [fst snd feed].
  - destruct (Hx x s Hs) as (s' & -> & Hj). eauto.
  - destruct (He e s Hs) as (s' & -> & Hj). eauto.
Qed.

Lemma Triple_perform {X} (I : St -> Prop) (op : W -> X * W) (ev : X -> Event)
    (J : Outcome X -> St -> Prop) :
  (forall x s, I s -> exists s', step s (ev x) = Some s' /\ J (Ok x) s') ->
  Tr I (perform op ev) J.
Proof.
  intros Hx w s Hs. unfold perform, events, outcome.
  destruct (op w) as [x w']; cbn [fst snd feed].
  destruct (Hx x s Hs) as (s' & -> & Hj). eauto.
Qed.

Lemma Triple_settle {X} (I : St -> Prop) (r : Settled X)
    (J : Outcome X -> St -> Prop) :
  (forall x s, I s -> J (Ok x) s) -> (forall e s, I s -> J (Throw e) s) ->
  Tr I (settle r) J.
Proof.
  intros Hx He w s Hs. exists s.
  destruct r as [x|e]; (split; [reflexivity|]); [now apply Hx | now apply He].
Qed.

Lemma Triple_bind {A B} (I : St -> Prop) (m : M W A) (k : A -> M W B)
    (J1 : Outcome A -> St -> Prop) (J : Outcome B -> St -> Prop) :
  Tr I m J1 ->
  (forall a, Tr (J1 (Ok a)) (k a) J) ->
  (forall e s, J1 (Throw e) s -> J (Throw e) s) ->
  (forall s, J1 Pending s -> J Pending s) ->
  Tr I (bind m k) J.
Proof.
  intros Hm Hk Ht Hp w s Hs. rewrite outcome_bind, events_bind.
  destruct (Hm w s Hs) as (s1 & E1 & H1). rewrite feed_app, E1.
  destruct (outcome (m w)) as [a|e|].
  - apply (Hk a _ _ H1).
  - exists s1. split; [reflexivity | now apply Ht].
  - exists s1. split; [reflexivity | now apply Hp].
Qed.

Lemma Triple_tryCatch {A} (I : St -> Prop) (m : M W A) (h : Exn -> M W A)
    (J1 J : Outcome A -> St -> Prop) :
  Tr I m J1 ->
  (forall e, Tr (J1 (Throw e)) (h e) J) ->
  (forall a s, J1 (Ok a) s -> J (Ok a) s) ->
  (forall s, J1 Pending s -> J Pending s) ->
  Tr I (tryCatch m h) J.
Proof.
  intros Hm Hh Ho Hp w s Hs. destruct (Hm w s Hs) as (s1 & E1 & H1).
  unfold tryCatch, events, outcome in *.
  destruct (m w) as [[[a|e|] w1] l1]; cbn [fst snd] in *.
  - exists s1. split; [exact E1 | now apply Ho].
  - destruct (Hh e w1 s1 H1) as (s2 & E2 & H2). unfold events, outcome in *.
    destruct (h e w1) as [[o w2] l2]. cbn [fst snd] in *.
    exists s2. rewrite feed_app, E1. now split.
  - exists s1. split; [exact E1 | now apply Hp].
Qed.

Lemma Triple_tryFinally {A} (I : St -> Prop) (m : M W A) (f : M W unit)
    (J1 J : Outcome A -> St -> Prop) :
  Tr I m J1 ->
  (forall o, o <> Pending ->
     Tr (J1 o) f (fun o' s => match o' with
                              | Ok _ => J o s
                              | Throw e => J (Throw e) s
                              | Pending => J Pending s
                              end)) ->
  (forall s, J1 Pending s -> J Pending s) ->
  Tr I (tryFinally m f) J.
Proof.
  intros Hm Hf Hp w s Hs. destruct (Hm w s Hs) as (s1 & E1 & H1).
  unfold tryFinally, events, outcome in *.
  destruct (m w) as [[o w1] l1]; cbn [fst snd] in *.
  destruct o as [a|e|].
  - destruct (Hf (Ok a) ltac:(discriminate) w1 s1 H1) as (s2 & E2 & H2).
    unfold events, outcome in *.
    destruct (f w1) as [[[[]|e'|] w2] l2]; cbn [fst snd] in *;
      exists s2; rewrite feed_app, E1; now split.
  - destruct (Hf (Throw e) ltac:(discriminate) w1 s1 H1) as (s2 & E2 & H2).
    unfold events, outcome in *.
    destruct (f w1) as [[[[]|e'|] w2] l2]; cbn [fst snd] in *;
      exists s2; rewrite feed_app, E1; now split.
  - exists s1. split; [exact E1 | now apply Hp].
Qed.

Lemma Triple_world {A} (I : St -> Prop) (c : W -> bool) (m1 m2 : M W A)
    (J : Outcome A -> St -> Prop) :
  Tr I m1 J -> Tr I m2 J -> Tr I (fun w => (if c w then m1 else m2) w) J.
Proof. intros H1 H2 w s Hs. destruct (c w); [now apply H1 | now apply H2]. Qed.

End MonitorRules.

(** ** The pipeline fails fast *)

Section FailFast.
Context {W : Type} (host : Host W).
Local Open Scope list_scope.

Lemma FF_ret {A} (a : A) : FailsFast (W:=W) (ret a).
Proof. now apply Triple_ret. Qed.

Lemma FF_throw {A} (e : Exn) : FailsFast (@throw W A e).
Proof. now apply Triple_throw. Qed.

Lemma FF_pending {A} : FailsFast (@pending W A).
Proof. now apply Triple_pending. Qed.

Lemma FF_emit (e : Event) : isRejected e = false -> FailsFast (W:=W) (emit e).
Proof.
  intros H. apply Triple_emit. intros s ->. exists false.
  unfold failFast. destruct (proceeds e); [now rewrite H | now split].
Qed.

Lemma FF_await {X} (op : W -> Settled X * W) (ev : Settled X -> Event) :
  (forall x, isRejected (ev (Resolved x)) = false) -> FailsFast (await op ev).
Proof.
  intros H. apply Triple_await; intros x s ->; unfold failFast.
  - exists false. destruct (proceeds (ev (Resolved x))); [now rewrite H | now split].
  - destruct (proceeds (ev (Rejected x))); eauto.
Qed.

Lemma FF_perform {X} (op : W -> X * W) (ev : X -> Event) :
  (forall x, isRejected (ev x) = false) -> FailsFast (perform op ev).
Proof.
  intros H. apply Triple_perform; intros x s ->; unfold failFast.
  exists false. destruct (proceeds (ev x)); [now rewrite H | now split].
Qed.

Lemma FF_settle {X} (r : Settled X) : FailsFast (W:=W) (settle r).
Proof. now apply Triple_settle. Qed.

Lemma FF_bind {A B} (m : M W A) (k : A -> M W B) :
  FailsFast m -> (forall a, FailsFast (k a)) -> FailsFast (bind m k).
Proof. intros Hm Hk. eapply Triple_bind; [exact Hm | exact Hk | trivial | trivial]. Qed.

Lemma FF_pollLoop (onProgress : string -> M W unit) :
  (forall msg, FailsFast (onProgress msg)) ->
  forall fuel op k, FailsFast (pollLoop host fuel onProgress op k).
Proof.
  intros Hp. induction fuel as [|fuel IH]; intros op k; simpl;
    destruct (done op); try apply FF_ret; try apply FF_pending.
  apply FF_bind; [now apply FF_emit|]. intros _.
  apply FF_bind; [apply Hp|]. intros _.
  apply FF_bind; [now apply FF_await|]. intros op'. apply IH.
Qed.

End FailFast.

Ltac failfast :=
  repeat first
    [ apply FF_ret | apply FF_throw | apply FF_pending | apply FF_settle
    | apply FF_emit; reflexivity
    | apply FF_await; intros; reflexivity
    | apply FF_perform; intros; reflexivity
    | apply FF_pollLoop; intros
    | apply FF_bind; [| intros ?]
    | match goal with
      | |- FailsFast (match ?x with _ => _ end) => destruct x
      end
    | progress autounfold with pipeline
    | progress cbn [forEach seq] ].

Section FailFastRun.
Context {W : Type} (host : Host W).
Local Open Scope list_scope.

Lemma FF_generateVideo fuel prompt frame ar :
  FailsFast (generateVideo host fuel prompt frame ar onVideoProgress).
Proof. unfold generateVideo, onVideoProgress. failfast. Qed.

Lemma FF_generateSpeech text : FailsFast (generateSpeech host text).
Proof. unfold generateSpeech. failfast. Qed.

Lemma FF_pipeline fuel data : FailsFast (pipeline host fuel data).
Proof.
  unfold pipeline, analyzeImages, qcLoop, qcAttempt, finishAd.
  failfast; first [apply FF_generateVideo | apply FF_generateSpeech].
Qed.

Lemma Silent_accepted {A} (m : M W A) :
  Silent m -> Triple failFast (fun _ => True) m (fun _ _ => True).
Proof.
  intros H w s _. specialize (H w). cbv beta in H.
  exists s. split; [|trivial]. revert H.
  induction (events (m w)) as [|e l IH]; simpl; [reflexivity|].
  intros H. apply andb_prop in H as [He Hl]. unfold failFast.
  apply negb_true_iff in He. rewrite He. now apply IH.
Qed.

Lemma tryPipeline_accepted fuel data :
  Triple failFast (fun failed => failed = false) (tryPipeline host fuel data)
         (fun _ _ => True).
Proof.
  unfold tryPipeline. eapply Triple_tryFinally with (J1 := fun _ _ => True).
  - eapply Triple_tryCatch; [apply FF_pipeline | | trivial | trivial].
    intros e. eapply Triple_conseq; [apply Silent_accepted | trivial | trivial].
    unfold Silent, onError. classify.
  - intros o _. eapply Triple_conseq; [apply Silent_accepted | trivial |].
    + unfold Silent, onFinally. classify.
    + intros o' s _. destruct o'; exact I.
  - trivial.
Qed.

Lemma FF_apiKeyCheck : FailsFast (apiKeyCheck host).
Proof. unfold apiKeyCheck. apply Triple_world; failfast. Qed.

Lemma handleGenerateAd_accepted fuel data :
  Triple failFast (fun failed => failed = false) (handleGenerateAd host fuel data)
         (fun _ _ => True).
Proof.
  unfold handleGenerateAd.
  eapply Triple_bind; [apply FF_emit; reflexivity | | trivial | trivial]. intros ?.
  eapply Triple_bind; [apply FF_emit; reflexivity | | trivial | trivial]. intros ?.
  eapply Triple_bind; [apply FF_emit; reflexivity | | trivial | trivial]. intros ?.
  eapply Triple_bind; [apply FF_apiKeyCheck | | trivial | trivial]. intros ?.
  apply tryPipeline_accepted.
Qed.

Lemma failed_accepts (l : list Event) :
  feed failFast true l <> None -> filter proceeds l = [].
Proof.
  induction l as [|e l IH]; simpl; [reflexivity|].
  unfold failFast at 1. destruct (proceeds e); [intros H; now contradiction H|].
  exact IH.
Qed.

Lemma failFast_accepts (l : list Event) :
  feed failFast false l <> None ->
  forall pre e post,
    l = pre ++ e :: post -> isRejected e = true -> filter proceeds post = [].
Proof.
  intros H pre e post -> He. revert H. rewrite feed_app.
  assert (Hp : proceeds e = true).
  { unfold proceeds. destruct e; try discriminate He; reflexivity. }
  destruct (feed failFast false pre) as [[|]|]; simpl;
    try (intros H; now contradiction H); unfold failFast at 1; rewrite Hp;
    try (intros H; now contradiction H).
  rewrite He. apply failed_accepts.
Qed.

(** X12.  The pipeline fails fast: once a host call has been rejected, a run
    makes no further host call and delivers no result. *)
Theorem no_call_after_rejection (fuel : nat) (data : UserInput.t) (w : W) :
  forall pre e post,
    events (handleGenerateAd host fuel data w) = pre ++ e :: post ->
    isRejected e = true ->
    filter proceeds post = [].
Proof.
  apply failFast_accepts.
  destruct (handleGenerateAd_accepted fuel data w false eq_refl) as (s & -> & _).
  discriminate.
Qed.

End FailFastRun.

(** ** Every call is announced *)

Section AnnouncedRules.
Context {W : Type} (host : Host W).
Local Open Scope list_scope.

Lemma An_ret {A} (n : nat) (a : A) : Announced (W:=W) n (ret a) n.
Proof. now apply Triple_ret. Qed.

Lemma An_throw {A} (n n' : nat) (e : Exn) : Announced n (@throw W A e) n'.
Proof. now apply Triple_throw. Qed.

Lemma An_pending {A} (n n' : nat) : Announced n (@pending W A) n'.
Proof. now apply Triple_pending. Qed.

Lemma An_emit (n n' : nat) (e : Event) :
  announce n e = Some n' -> Announced (W:=W) n (emit e) n'.
Proof. intros H. apply Triple_emit. intros s ->. now exists n'. Qed.

Lemma An_await {X} (n : nat) (op : W -> Settled X * W) (ev : Settled X -> Event) :
  (forall r, announce n (ev r) = Some n) -> Announced n (await op ev) n.
Proof. intros H. apply Triple_await; intros x s ->; exists n; now rewrite H. Qed.

Lemma An_perform {X} (n : nat) (op : W -> X * W) (ev : X -> Event) :
  (forall x, announce n (ev x) = Some n) -> Announced n (perform op ev) n.
Proof. intros H. apply Triple_perform; intros x s ->; exists n; now rewrite H. Qed.

Lemma An_settle {X} (n : nat) (r : Settled X) : Announced (W:=W) n (settle r) n.
Proof. now apply Triple_settle. Qed.

Lemma An_bind {A B} (n n1 n2 : nat) (m : M W A) (k : A -> M W B) :
  Announced n m n1 -> (forall a, Announced n1 (k a) n2) -> Announced n (bind m k) n2.
Proof. intros Hm Hk. eapply Triple_bind; [exact Hm | exact Hk | trivial | trivial]. Qed.

Lemma An_pollLoop fuel op k :
  Announced 6 (pollLoop host fuel onVideoProgress op k) 6.
Proof.
  revert op k. induction fuel as [|fuel IH]; intros op k; simpl;
    destruct (done op); try apply An_ret; try apply An_pending.
  eapply An_bind; [now apply An_emit|]. intros _.
  eapply An_bind; [now apply An_emit|]. intros _.
  eapply An_bind; [now apply An_await|]. intros op'. apply IH.
Qed.

End AnnouncedRules.

Ltac announced :=
  repeat first
    [ apply An_ret | apply An_settle | apply An_pollLoop
    | apply An_emit; reflexivity
    | apply An_await; intros; reflexivity
    | apply An_perform; intros; reflexivity
    | match goal with
      | |- Announced _ (bind (match ?x with _ => _ end) _) _ => destruct x
      | |- Announced _ (match ?x with _ => _ end) _ => destruct x
      end
    | eapply An_bind; [| intros ?]
    | apply An_throw | apply An_pending
    | progress autounfold with pipeline
    | progress cbn [forEach seq] ].

Section AnnouncedRun.
Context {W : Type} (host : Host W).
Local Open Scope list_scope.

Lemma An_generateVideo fuel prompt frame ar :
  Announced 6 (generateVideo host fuel prompt frame ar onVideoProgress) 6.
Proof. unfold generateVideo, onVideoProgress. announced. Qed.

Lemma An_generateSpeech text : Announced 7 (generateSpeech host text) 7.
Proof. unfold generateSpeech. announced. Qed.

Lemma An_pipeline fuel data n : Announced n (pipeline host fuel data) 8.
Proof.
  unfold pipeline, analyzeImages, qcLoop, qcAttempt, finishAd.
  announced; first [apply An_generateVideo | apply An_generateSpeech].
Qed.

Lemma An_apiKeyCheck n : Announced n (apiKeyCheck host) n.
Proof. unfold apiKeyCheck. apply Triple_world; announced. Qed.

Lemma Un_emit (e : Event) :
  (forall shown, announce shown e <> None) -> Unannounced (W:=W) (emit e).
Proof.
  intros H. apply Triple_emit. intros s _. specialize (H s).
  destruct (announce s e) as [s'|]; [now exists s' | now contradiction H].
Qed.

Lemma Un_bind {A B} (m : M W A) (k : A -> M W B) :
  Unannounced m -> (forall a, Unannounced (k a)) -> Unannounced (bind m k).
Proof. intros Hm Hk. eapply Triple_bind; [exact Hm | exact Hk | trivial | trivial]. Qed.

Lemma Un_onError e : Unannounced (W:=W) (onError e).
Proof.
  unfold onError. apply Un_bind; [now apply Un_emit|]. intros _.
  destruct (entityNotFound e).
  - apply Un_bind; [now apply Un_emit|]. intros _. now apply Un_emit.
  - now apply Un_emit.
Qed.

Lemma Un_onFinally : Unannounced (W:=W) onFinally.
Proof.
  unfold onFinally. apply Un_bind; [now apply Un_emit|]. intros _. now apply Un_emit.
Qed.

Lemma Un_tryPipeline fuel data : Unannounced (tryPipeline host fuel data).
Proof.
  unfold tryPipeline. eapply Triple_tryFinally with (J1 := fun _ _ => True).
  - eapply Triple_tryCatch with (J1 := fun _ _ => True); trivial.
    + intros w s _. destruct (An_pipeline fuel data s w s eq_refl) as (s' & E & _).
      now exists s'.
    + intros e. apply Un_onError.
  - intros o _. eapply Triple_conseq; [apply Un_onFinally | trivial |].
    intros o' s _. destruct o'; exact I.
  - trivial.
Qed.

Lemma Un_handleGenerateAd fuel data : Unannounced (handleGenerateAd host fuel data).
Proof.
  unfold handleGenerateAd.
  apply Un_bind; [now apply Un_emit|]. intros ?.
  apply Un_bind; [now apply Un_emit|]. intros ?.
  apply Un_bind; [now apply Un_emit|]. intros ?.
  apply Un_bind; [|intros ?; apply Un_tryPipeline].
  intros w s _. destruct (An_apiKeyCheck s w s eq_refl) as (s' & E & _). now exists s'.
Qed.

Lemma announce_shown (l : list Event) :
  forall s s', feed announce s l = Some s' -> s' = last (progressSteps l) s.
Proof.
  induction l as [|e l IH]; intros s s'; simpl; [now intros [= <-]|].
  destruct (announce s e) as [s1|] eqn:E; [|discriminate].
  intros H. apply IH in H. subst s'.
  destruct e; cbn [announce] in E;
    first [ injection E as <-; unfold progressSteps;
            cbn [progressUpdates flat_map app map]; fold (progressUpdates l);
            now rewrite last_cons
          | destruct (fits s _); [injection E as <-; reflexivity | discriminate E] ].
Qed.

Lemma announce_accepts (l : list Event) (s0 : nat) :
  feed announce s0 l <> None ->
  forall pre e post,
    l = pre ++ e :: post -> fits (last (progressSteps pre) s0) e = true.
Proof.
  intros H pre e post ->. revert H. rewrite feed_app.
  destruct (feed announce s0 pre) as [s|] eqn:E; [|intros H; now contradiction H].
  apply announce_shown in E. subst s. simpl.
  destruct e; cbn [announce]; try reflexivity;
    match goal with
    | |- context [fits ?s ?e] =>
        destruct (fits s e); [reflexivity | intros H; now contradiction H]
    end.
Qed.

(** X13.  Every call is announced: whatever the progress state was before
    the run, each event of a run happens while the progress state shows the
    step of its stage ([fits]). *)
Theorem calls_are_announced (fuel : nat) (data : UserInput.t) (w : W) (shown : nat) :
  forall pre e post,
    events (handleGenerateAd host fuel data w) = pre ++ e :: post ->
    fits (last (progressSteps pre) shown) e = true.
Proof.
  apply announce_accepts.
  destruct (Un_handleGenerateAd fuel data w shown I) as (s & -> & _). discriminate.
Qed.

End AnnouncedRun.

(** ** The call budget *)

Section CostRules.
Context {W : Type} (host : Host W).
Variable price : Call -> nat.
Local Open Scope list_scope.

Local Abbreviation Co := (Costs (W:=W) price).

Lemma Co_ret {A} (a b : nat) (x : A) : a <= b -> Co a (ret x) b.
Proof. intros H. apply Triple_ret. intros s Hs. lia. Qed.

Lemma Co_throw {A} (a b : nat) (e : Exn) : a <= b -> Costs price a (@throw W A e) b.
Proof. intros H. apply Triple_throw. intros s Hs. lia. Qed.

Lemma Co_pending {A} (a b : nat) : a <= b -> Costs price a (@pending W A) b.
Proof. intros H. apply Triple_pending. intros s Hs. lia. Qed.

Lemma Co_settle {X} (a b : nat) (r : Settled X) : a <= b -> Co a (settle r) b.
Proof. intros H. apply Triple_settle; intros; lia. Qed.

Lemma Co_emit (a b : nat) (e : Event) : a + cost price e <= b -> Co a (emit e) b.
Proof.
  intros H. apply Triple_emit. intros s Hs. eexists. split; [reflexivity|]. lia.
Qed.

Lemma Co_await {X} (a b : nat) (op : W -> Settled X * W) (ev : Settled X -> Event) :
  (forall r, a + cost price (ev r) <= b) -> Co a (await op ev) b.
Proof.
  intros H. apply Triple_await; intros x s Hs;
    (eexists; split; [reflexivity|]); [specialize (H (Resolved x)) | specialize (H (Rejected x))];
    lia.
Qed.

Lemma Co_perform {X} (a b : nat) (op : W -> X * W) (ev : X -> Event) :
  (forall x, a + cost price (ev x) <= b) -> Co a (perform op ev) b.
Proof.
  intros H. apply Triple_perform; intros x s Hs.
  eexists; split; [reflexivity|]. specialize (H x). lia.
Qed.

Lemma Co_bind {A B} (a b1 b2 : nat) (m : M W A) (k : A -> M W B) :
  Co a m b1 -> (forall x, Co b1 (k x) b2) -> b1 <= b2 -> Co a (bind m k) b2.
Proof.
  intros Hm Hk Hb. eapply Triple_bind; [exact Hm | exact Hk | |]; cbv beta; intros; lia.
Qed.

Lemma Co_weaken {A} (a a' b b' : nat) (m : M W A) :
  Co a m b -> a' <= a -> b <= b' -> Co a' m b'.
Proof.
  intros H Ha Hb. eapply Triple_conseq; [exact H | |]; cbv beta; intros; lia.
Qed.

Lemma Co_pollLoop (onProgress : string -> M W unit) :
  (forall a msg, Co a (onProgress msg) a) ->
  forall fuel a op k, Co a (pollLoop host fuel onProgress op k) a.
Proof.
  intros Hp. induction fuel as [|fuel IH]; intros a op k; simpl;
    destruct (done op); try (apply Co_ret; lia); try (apply Co_pending; lia).
  apply Co_bind with (b1 := a); [apply Co_emit; unfold cost; simpl; lia | intros _ | lia].
  apply Co_bind with (b1 := a); [apply Hp | intros _ | lia].
  apply Co_bind with (b1 := a); [apply Co_await; intros; unfold cost; simpl; lia | | lia].
  intros op'. apply IH.
Qed.

End CostRules.

Ltac costs_with leaf :=
  repeat first
    [ leaf | apply Co_ret | apply Co_settle | apply Co_throw | apply Co_pending
    | apply Co_emit; cbn [cost callOf]
    | apply Co_await; intros; cbn [cost callOf]
    | apply Co_perform; intros; cbn [cost callOf]
    | apply Co_pollLoop; intros
    | match goal with
      | |- Costs _ _ (bind (match ?x with _ => _ end) _) _ => destruct x
      | |- Costs _ _ (match ?x with _ => _ end) _ => destruct x
      end
    | eapply Co_bind; [| intros ? |]
    | progress autounfold with pipeline
    | progress cbn [forEach seq]
    | match goal with
      | |- ?a <= ?b => first [ is_evar b; apply Nat.le_refl | lia ]
      end ].

Ltac costs := costs_with fail.

Section CostRun.
Context {W : Type} (host : Host W).
Variable price : Call -> nat.
Local Open Scope list_scope.

Lemma Co_generateVideo fuel prompt frame ar a :
  Costs price a (generateVideo host fuel prompt frame ar onVideoProgress)
        (a + price VideoJob + price Download + price ObjectUrl).
Proof. unfold generateVideo, onVideoProgress. costs. Qed.

Lemma Co_generateSpeech text a :
  Costs price a (generateSpeech host text) (a + price Speech + price ObjectUrl).
Proof. unfold generateSpeech. costs. Qed.

Lemma Co_pipeline fuel data a :
  Costs price a (pipeline host fuel data) (a + pipelineBill price).
Proof.
  unfold pipeline, analyzeImages, qcLoop, qcAttempt, finishAd, pipelineBill.
  costs_with ltac:(first [apply Co_generateVideo | apply Co_generateSpeech]).
Qed.

Lemma Co_apiKeyCheck a :
  Costs price a (apiKeyCheck host) (a + price KeyQuestion + price KeyDialog).
Proof. unfold apiKeyCheck. apply Triple_world; costs. Qed.

Lemma Co_onError e a : Costs (W:=W) price a (onError e) a.
Proof. unfold onError. costs. Qed.

Lemma Co_onFinally a : Costs (W:=W) price a onFinally a.
Proof. unfold onFinally. costs. Qed.

Lemma Co_tryPipeline fuel data a :
  Costs price a (tryPipeline host fuel data) (a + pipelineBill price).
Proof.
  unfold tryPipeline, Costs.
  eapply Triple_tryFinally with (J1 := fun _ s => s <= a + pipelineBill price).
  - eapply Triple_tryCatch with (J1 := fun _ s => s <= a + pipelineBill price);
      [apply Co_pipeline | | trivial | trivial].
    intros e. apply Co_onError.
  - intros o _. eapply Triple_conseq; [apply (Co_onFinally (a + pipelineBill price)) | |].
    + trivial.
    + intros o' s Hs. destruct o'; exact Hs.
  - trivial.
Qed.

Lemma Co_handleGenerateAd fuel data :
  Costs price 0 (handleGenerateAd host fuel data) (bill price).
Proof.
  unfold handleGenerateAd, bill.
  costs_with ltac:(first [apply Co_apiKeyCheck | apply Co_tryPipeline]).
Qed.

Lemma feed_charge (l : list Event) (s : nat) :
  feed (charge price) s l = Some (s + spent price l).
Proof.
  revert s. induction l as [|e l IH]; intros s; simpl.
  - f_equal. unfold spent. simpl. lia.
  - unfold charge at 1. rewrite IH. f_equal. unfold spent. simpl. lia.
Qed.

Lemma run_bill fuel data w :
  spent price (events (handleGenerateAd host fuel data w)) <= bill price.
Proof.
  destruct (Co_handleGenerateAd fuel data w 0 (le_n 0)) as (s & E & H).
  rewrite feed_charge in E. injection E as <-. exact H.
Qed.

End CostRun.

Section CallBudget.
Context {W : Type} (host : Host W).
Local Open Scope list_scope.

Lemma spent_countOf (c : Call) (l : list Event) :
  spent (countOf c) l = length (filter (isCall c) l).
Proof.
  unfold spent. induction l as [|e l IH]; simpl; [reflexivity|].
  rewrite IH. unfold cost, isCall, countOf.
  destruct (callOf e) as [c'|]; [|reflexivity].
  destruct (sameCall c' c); reflexivity.
Qed.

(** X14.  The call budget of one run: the key question and the key dialog at
    most once, at most two file reads and two image analyses, one concept
    call, three frame generations and three validations, one script call, one
    video job, one download, one speech call, one ad-asset call and two
    object URLs; 20 calls in all, the polls of the video job apart. *)
Theorem call_budget (fuel : nat) (data : UserInput.t) (w : W) :
  let evs := events (handleGenerateAd host fuel data w) in
  (forall c, length (filter (isCall c) evs) <= quota c)
  /\ length (filter (fun e => match callOf e with Some _ => true | None => false end) evs)
     <= 20.
Proof.
  cbv zeta. split.
  - intros c. rewrite <- spent_countOf.
    etransitivity; [apply run_bill|]. destruct c; vm_compute; lia.
  - assert (E : forall l,
              length (filter (fun e => match callOf e with
                                       | Some _ => true
                                       | None => false
                                       end) l)
              = spent (fun _ => 1) l).
    { unfold spent. induction l as [|e l IH]; simpl; [reflexivity|].
      unfold cost at 1. destruct (callOf e); simpl; rewrite IH; reflexivity. }
    rewrite E. apply (run_bill host (fun _ => 1)).
Qed.

End CallBudget.




(* ================================================================== *)
(** * A run follows the brief *)
(* ================================================================== *)

Lemma bind_assoc {W A B C} (m : M W A) (f : A -> M W B) (k : B -> M W C) (w : W) :
  bind (bind m f) k w = bind m (fun a => bind (f a) k) w.
Proof.
  unfold bind. destruct (m w) as [[[a|e|] w1] l1]; trivial.
  destruct (f a w1) as [[[b|e|] w2] l2]; trivial.
  destruct (k b w2) as [[o w3] l3]. now rewrite app_assoc.
Qed.

Lemma Only_bind_assoc {W A B C} (q : Event -> bool) (m : M W A) (f : A -> M W B)
    (k : B -> M W C) :
  Only q (bind m (fun a => bind (f a) k)) -> Only q (bind (bind m f) k).
Proof. intros H w. rewrite bind_assoc. apply H. Qed.

Lemma Only_bind_ret {W A B} (q : Event -> bool) (a : A) (k : A -> M W B) :
  Only q (k a) -> Only q (bind (ret a) k).
Proof. intros H w. specialize (H w). cbv beta in *. now rewrite events_bind. Qed.

Lemma Only_world {W A} (q : Event -> bool) (c : W -> bool) (m1 m2 : M W A) :
  Only q m1 -> Only q m2 -> Only q (fun w => (if c w then m1 else m2) w).
Proof. intros H1 H2 w. destruct (c w); [apply H1 | apply H2]. Qed.

Ltac classify_with leaf :=
  repeat first
    [ leaf
    | apply Only_bind_assoc | apply Only_bind_ret
    | progress cbn beta iota
    | apply Only_ret | apply Only_throw | apply Only_pending | apply Only_settle
    | apply Only_emit; reflexivity
    | apply Only_await; intros; reflexivity
    | apply Only_perform; intros; reflexivity
    | apply Only_tryFinally | apply Only_tryCatch; [| intros ?]
    | match goal with
      | |- Only _ (bind (match ?x with _ => _ end) _) => destruct x
      | |- Only _ (match ?x with _ => _ end) => destruct x
      end
    | apply Only_bind; [| intros ?]
    | progress autounfold with pipeline
    | progress cbn [forEach seq] ].

Section Brief.
Context {W : Type} (host : Host W).
Local Open Scope list_scope.

Lemma Only_pollLoop_fine (q : Event -> bool) (onProgress : string -> M W unit) :
  q (SetTimeout POLLING_INTERVAL) = true ->
  (forall msg, Only q (onProgress msg)) ->
  (forall op r, q (GetVideosOperation op r) = true) ->
  forall fuel op k, Only q (pollLoop host fuel onProgress op k).
Proof.
  intros Ht Hp Hg. induction fuel as [|fuel IH]; intros op k; simpl;
    destruct (done op); try apply Only_ret; try apply Only_pending.
  apply Only_bind; [now apply Only_emit|]. intros _.
  apply Only_bind; [apply Hp|]. intros _.
  apply Only_bind; [now apply Only_await|]. intros op'. apply IH.
Qed.

Lemma generateVideo_allowed data fuel prompt frame ar :
  Only (allowedBy data) (generateVideo host fuel prompt frame ar onVideoProgress).
Proof.
  unfold generateVideo, onVideoProgress.
  classify_with ltac:(apply Only_pollLoop_fine; [reflexivity | intros | intros; reflexivity]).
Qed.

Lemma generateSpeech_allowed data text :
  UserInput.generateVoiceover data = true ->
  Only (allowedBy data) (generateSpeech host text).
Proof.
  intros Hv. unfold generateSpeech.
  classify_with ltac:(apply Only_await; intros; cbn [allowedBy]; exact Hv).
Qed.

Lemma analyzeImages_actor data w an actor :
  outcome (analyzeImages host data w) = Ok (an, actor) ->
  (actor = None <-> UserInput.actorImage data = None).
Proof.
  unfold analyzeImages, fileToBase64, analyzeImage, updateProgress, setProgress.
  unfold bind, emit, await, ret, throw, outcome.
  destruct (UserInput.productImage data) as [p|]; [|discriminate].
  destruct (readAsDataURL host p w) as [[s|e] w1]; [|discriminate].
  destruct (ai_analyzeImage host _ w1) as [[a|e] w2]; [|discriminate].
  destruct (UserInput.actorImage data) as [f|].
  - destruct (readAsDataURL host f w2) as [[s'|e] w3]; [|discriminate].
    destruct (ai_analyzeImage host _ w3) as [[a'|e] w4]; [|discriminate].
    cbn. intros [= _ <-]. split; discriminate.
  - cbn. intros [= _ <-]. now split.
Qed.

Lemma qcAttempt_allowed data actor i st :
  (actor = None <-> UserInput.actorImage data = None) ->
  Only (allowedBy data) (qcAttempt host data actor i st).
Proof.
  destruct data as [product actorFile description cta platform ar len tone voiceover].
  cbn [UserInput.actorImage]. intros H. unfold qcAttempt.
  destruct actor as [actor|], actorFile as [f|];
    try (now destruct H as [H1 H2]; first [discriminate (H1 eq_refl) | discriminate (H2 eq_refl)]);
    classify_with fail.
Qed.

Lemma finishAd_allowed data fuel qc : Only (allowedBy data) (finishAd host fuel data qc).
Proof.
  destruct data as [product actorFile description cta platform ar len tone voiceover].
  unfold finishAd.
  cbn [UserInput.generateVoiceover UserInput.aspectRatio UserInput.productDescription
       UserInput.cta UserInput.tone].
  destruct (openingFrameData qc); [|apply Only_throw].
  apply Only_bind; [now apply Only_emit|]. intros _.
  apply Only_bind; [now apply Only_await|]. intros veo.
  apply Only_bind; [now apply Only_emit|]. intros _.
  apply Only_bind; [apply generateVideo_allowed|]. intros video.
  destruct voiceover.
  - classify_with ltac:(apply generateSpeech_allowed; reflexivity).
  - classify_with fail.
Qed.

Lemma analyzeImages_allowed data : Only (allowedBy data) (analyzeImages host data).
Proof. unfold analyzeImages. classify. Qed.

Lemma pipeline_allowed fuel data : Only (allowedBy data) (pipeline host fuel data).
Proof.
  unfold pipeline, Only.
  eapply Spec_bind with
    (P := fun o l => forallb (allowedBy data) l = true
                     /\ forall an actor, o = Ok (an, actor) ->
                          (actor = None <-> UserInput.actorImage data = None))
    (Q := fun x _ l => (snd x = None <-> UserInput.actorImage data = None) ->
                       forallb (allowedBy data) l = true).
  - intros w. split; [apply (analyzeImages_allowed data w)|].
    intros an actor. apply analyzeImages_actor.
  - intros [an actor] w Ha. cbn [snd] in Ha. revert w.
    change (Only (allowedBy data)
              (updateProgress 2 "Generating ad concept..." ;;
               c <- generateAdConcept host an (UserInput.productDescription data)
                                      (UserInput.tone data) ;;
               qc <- qcLoop host data actor c ;;
               finishAd host fuel data qc)).
    apply Only_bind; [now apply Only_emit|]. intros _.
    apply Only_bind; [now apply Only_await|]. intros c.
    apply Only_bind; [|intros qc; apply finishAd_allowed].
    unfold qcLoop. apply Only_forEach. intros i st. now apply qcAttempt_allowed.
  - now intros e l [H _].
  - now intros l [H _].
  - intros [an actor] l1 o l2 [H1 H2] H3. rewrite forallb_app, H1. cbn [andb].
    apply H3. cbn [snd]. now apply (H2 an).
Qed.

Lemma run_allowed fuel data : Only (allowedBy data) (handleGenerateAd host fuel data).
Proof.
  unfold handleGenerateAd, tryPipeline.
  apply Only_bind; [now apply Only_emit|]. intros _.
  apply Only_bind; [now apply Only_emit|]. intros _.
  apply Only_bind; [now apply Only_emit|]. intros _.
  apply Only_bind.
  - unfold apiKeyCheck. apply Only_world; classify.
  - intros _. apply Only_tryFinally; [apply Only_tryCatch|].
    + apply pipeline_allowed.
    + intros e. unfold onError. classify.
    + unfold onFinally. classify.
Qed.

(** X15.  A run follows the brief ([allowedBy]): it raises no alert, every
    timer it sets is the polling interval, and it notifies no step above 8.
    For a brief without voiceover it never calls the speech service and never
    notifies step 7.  It generates frames with the plain image service only
    for a brief without actor image, and with the actor service only for a
    brief with one. *)
Theorem run_follows_the_brief (fuel : nat) (data : UserInput.t) (w : W) :
  let evs := events (handleGenerateAd host fuel data w) in
  Forall (fun e => allowedBy data e = true) evs
  /\ (UserInput.generateVoiceover data = false ->
      (forall text r, ~ In (GenerateSpeech text r) evs)
      /\ ~ In 7 (progressSteps evs))
  /\ (forall prompt ar r, In (GenerateImages prompt ar r) evs ->
        UserInput.actorImage data = None)
  /\ (forall prompt actor r, In (GenerateOpeningFrameWithActor prompt actor r) evs ->
        UserInput.actorImage data <> None)
  /\ (forall ms, In (SetTimeout ms) evs -> ms = POLLING_INTERVAL).
Proof.
  cbv zeta. pose proof (run_allowed fuel data w) as H. cbv beta in H.
  rewrite forallb_forall in H.
  split; [now apply Forall_forall|]. split; [|split; [|split]].
  - intros Hv. split.
    + intros text r Hin. apply H in Hin. cbn in Hin. congruence.
    + intros Hin. unfold progressSteps in Hin. apply in_map_iff in Hin as (p & Ep & Hin).
      unfold progressUpdates in Hin. apply in_flat_map in Hin as (e & He & Hp).
      destruct e; try contradiction Hp. destruct Hp as [<-|[]].
      apply H in He. cbn [allowedBy] in He. rewrite Ep in He. cbn in He. congruence.
  - intros prompt ar r Hin. apply H in Hin. cbn in Hin.
    now destruct (UserInput.actorImage data).
  - intros prompt actor r Hin. apply H in Hin. cbn in Hin.
    now destruct (UserInput.actorImage data).
  - intros ms Hin. apply H in Hin. cbn [allowedBy] in Hin. now apply Z.eqb_eq.
Qed.

End Brief.

(** ** The key banner *)

Ltac classify_fine leaf :=
  repeat first
    [ leaf
    | apply Only_ret | apply Only_throw | apply Only_pending | apply Only_settle
    | apply Only_emit; reflexivity
    | apply Only_await; intros; reflexivity
    | apply Only_perform; intros; reflexivity
    | apply Only_tryFinally | apply Only_tryCatch; [| intros ?]
    | apply Only_forEach; intros ? ?
    | apply Only_pollLoop_fine; [reflexivity | intros | intros; reflexivity]
    | match goal with
      | |- Only _ (match ?x with _ => _ end) => destruct x
      end
    | apply Only_bind; [| intros ?]
    | progress autounfold with pipeline ].

Section StickyBanner.
Context {W : Type} (host : Host W).
Local Open Scope list_scope.

Lemma tryPipeline_grantsNoKey fuel data :
  Only grantsNoKey (tryPipeline host fuel data).
Proof.
  unfold tryPipeline, pipeline, analyzeImages, qcLoop, qcAttempt, finishAd,
    generateVideo, generateSpeech, onVideoProgress, onError, onFinally.
  classify_fine fail.
Qed.

Lemma grantsNoKey_keeps (l : list Event) (a : AppState) :
  forallb grantsNoKey l = true -> showsKeyBanner a = true ->
  showsKeyBanner (appAfter a l) = true.
Proof.
  revert a. induction l as [|e l IH]; intros a H Ha; [exact Ha|].
  simpl in H. apply andb_prop in H as [He Hl]. unfold appAfter in *. simpl.
  apply IH; [exact Hl|].
  unfold showsKeyBanner in *. destruct e; simpl; try exact Ha.
  destruct b; [discriminate He | reflexivity].
Qed.

(** X16.  Inside AI Studio the button of the key banner hides the banner as
    soon as the key dialog closes, whatever was chosen there.  Outside AI Studio the
    button does nothing, and a run never grants the key either: a banner
    that shows stays. *)
Theorem key_banner_outside_studio_stays (fuel : nat) (data : UserInput.t) (w : W)
    (a : AppState) :
  (forall w', aistudio host w = true -> openSelectKey host w = (Resolved tt, w') ->
     showsKeyBanner (appAfter a (events (handleSelectKey host w))) = false)
  /\ (aistudio host w = false -> showsKeyBanner a = true ->
      events (handleSelectKey host w) = []
      /\ showsKeyBanner (appAfter a (events (handleGenerateAd host fuel data w))) = true).
Proof.
  split.
  - intros w' Hs Hd. unfold handleSelectKey. rewrite Hs. unfold bind.
    rewrite (await_resolved _ _ _ _ _ Hd). reflexivity.
  - intros Hs Ha. split; [unfold handleSelectKey; now rewrite Hs|].
    apply grantsNoKey_keeps; [|exact Ha].
    unfold handleGenerateAd. rewrite !events_bind.
    cbn [setIsLoading setError setResult emit outcome events final fst snd].
    unfold apiKeyCheck. rewrite Hs. cbn [ret outcome events final fst snd app].
    apply (tryPipeline_grantsNoKey fuel data w).
Qed.

End StickyBanner.

(** ** The width of the progress bar *)

Section ProgressBarWidth.
Context {W : Type} (host : Host W).
Local Open Scope list_scope.

Lemma percentage_of_eight (p : ProgressUpdate) :
  (percentage p TOTAL_STEPS == inject_Z (Z.of_nat (step p) * 25) / inject_Z 2)%Q.
Proof.
  unfold percentage, TOTAL_STEPS, ofNat, Qeq, Qdiv, Qmult, Qinv. simpl. lia.
Qed.

(** X17.  The progress bar never overflows: for every progress state that a
    run sets, the width that [ProgressBar] computes from it and from
    [TOTAL_STEPS] lies between 0 and 100 percent; it is 12.5 percent per
    step, and 100 percent exactly for step 8. *)
Theorem progress_bar_stays_in_track (fuel : nat) (data : UserInput.t) (w : W)
    (p : ProgressUpdate) :
  In p (progressUpdates (events (handleGenerateAd host fuel data w))) ->
  (0 <= percentage p TOTAL_STEPS)%Q
  /\ (percentage p TOTAL_STEPS <= 100)%Q
  /\ (percentage p TOTAL_STEPS == inject_Z (Z.of_nat (step p) * 25) / inject_Z 2)%Q
  /\ ((percentage p TOTAL_STEPS == 100)%Q <-> step p = 8).
Proof.
  intros Hin.
  assert (Hs : step p <= 8).
  { pose proof (run_allowed host fuel data w) as H. cbv beta in H.
    rewrite forallb_forall in H.
    unfold progressUpdates in Hin. apply in_flat_map in Hin as (e & He & Hp).
    destruct e; try contradiction Hp. destruct Hp as [<-|[]].
    apply H in He. cbn [allowedBy] in He.
    destruct (step p0 =? 7)%nat eqn:E7; [apply Nat.eqb_eq in E7; lia|].
    now apply Nat.leb_le. }
  pose proof (percentage_of_eight p) as E.
  split; [|split; [|split; [exact E|]]].
  - rewrite E. unfold Qle, Qdiv, Qmult, Qinv. simpl. lia.
  - rewrite E. unfold Qle, Qdiv, Qmult, Qinv. simpl. lia.
  - rewrite E. unfold Qeq, Qdiv, Qmult, Qinv. simpl. lia.
Qed.

End ProgressBarWidth.

Section Rendering.
Context {W : Type} (host : Host W).
Local Open Scope list_scope.

Lemma surfaced_truthy (e : Exn) : truthy (surfaced e) = true.
Proof.
  unfold surfaced. destruct (entityNotFound e); [reflexivity|].
  destruct (JS.message e) as [[|c m]|]; reflexivity.
Qed.

Lemma loading_kept (a : AppState) (l : list Event) :
  forallb (fun e => match e with SetIsLoading _ => false | _ => true end) l = true ->
  isLoading (appAfter a l) = isLoading a.
Proof.
  revert a. induction l as [|e l IH]; intros a H; [reflexivity|].
  simpl in H. apply andb_prop in H as [He Hl].
  unfold appAfter in *. simpl. rewrite (IH _ Hl).
  destruct e; try discriminate He; reflexivity.
Qed.

Lemma tryPipeline_pending fuel data w :
  outcome (tryPipeline host fuel data w) = Pending ->
  outcome (pipeline host fuel data w) = Pending
  /\ events (tryPipeline host fuel data w) = events (pipeline host fuel data w).
Proof.
  unfold tryPipeline, tryFinally, tryCatch, onFinally, onError, outcome, events.
  destruct (pipeline host fuel data w) as [[[[]|e|] w1] l1]; cbn [fst snd].
  - cbn. discriminate.
  - destruct (entityNotFound e); cbn; discriminate.
  - now split.
Qed.

Lemma pipeline_keeps_loading fuel data :
  Only (fun e => match e with SetIsLoading _ => false | _ => true end)
       (pipeline host fuel data).
Proof.
  unfold pipeline, analyzeImages, qcLoop, qcAttempt, finishAd, generateVideo,
    generateSpeech, onVideoProgress.
  classify_fine fail.
Qed.

(** A run that is waiting for the video job has the loading flag set and
    has reported nothing. *)
Lemma pending_run_state fuel data w (a : AppState) :
  outcome (handleGenerateAd host fuel data w) = Pending ->
  isLoading (appAfter a (events (handleGenerateAd host fuel data w))) = true
  /\ error (appAfter a (events (handleGenerateAd host fuel data w))) = None
  /\ result (appAfter a (events (handleGenerateAd host fuel data w))) = None.
Proof.
  unfold handleGenerateAd. rewrite !outcome_bind, !events_bind.
  cbn [setIsLoading setError setResult emit outcome events final fst snd].
  pose proof (apiKeyCheck_class host w) as Hk.
  destruct (outcome (apiKeyCheck host w)) as [[]|e|] eqn:Ek.
  - set (w1 := final (apiKeyCheck host w)).
    intros Hp. apply tryPipeline_pending in Hp as [Hp ->].
    rewrite !appAfter_app.
    set (a1 := appAfter (appAfter (appAfter (appAfter a [SetIsLoading true]) [SetError None])
                           [SetResult None]) (events (apiKeyCheck host w))).
    assert (H1 : isLoading a1 = true /\ error a1 = None /\ result a1 = None).
    { subst a1. destruct (keyCheck_keeps
          (appAfter (appAfter (appAfter a [SetIsLoading true]) [SetError None]) [SetResult None])
          _ Hk) as (-> & -> & -> & _). now repeat split. }
    destruct H1 as (L & E & R).
    pose proof (pipeline_run host fuel data w1) as Hr. rewrite Hp in Hr.
    apply PipelineRun_seen in Hr as (l & s & _ & _ & _ & Hrep).
    assert (Hnp : @Pending unit <> Ok tt) by discriminate.
    destruct (appAfter_unreported a1 _ (Hrep Hnp)) as (-> & -> & _).
    split; [|now split]. rewrite <- L. apply loading_kept.
    apply pipeline_keeps_loading.
  - discriminate.
  - intros _. rewrite app_nil_r, !appAfter_app.
    destruct (keyCheck_keeps
          (appAfter (appAfter (appAfter a [SetIsLoading true]) [SetError None]) [SetResult None])
          _ Hk) as (-> & -> & -> & _). now repeat split.
Qed.

(** X8.  What the page shows after a run, by how the run ended.  When the
    handler returns, the page shows either the results or the error box,
    never both and never neither, and no progress bar: the loading flag is
    cleared, a result is set exactly when no error is, and an error that is
    set is not the empty string.  When the handler is rejected at the key
    check, and while it waits for the video job, the page shows the
    progress bar and neither results nor error box. *)
Theorem ended_run_shows_result_or_error (fuel : nat) (data : UserInput.t) (w : W)
    (a : AppState) :
  let r := handleGenerateAd host fuel data w in
  let a' := appAfter a (events r) in
  (outcome r = Ok tt ->
   showsProgressBar a' = false
   /\ xorb (showsResults a') (showsError a') = true
   /\ (result a' = None <-> error a' <> None)
   /\ error a' <> Some EmptyString)
  /\ (forall e w', aistudio host w = true ->
        hasSelectedApiKey host w = (Rejected e, w') ->
        showsProgressBar a' = true /\ showsResults a' = false /\ showsError a' = false)
  /\ (forall e w1 w2, aistudio host w = true ->
        hasSelectedApiKey host w = (Resolved false, w1) ->
        openSelectKey host w1 = (Rejected e, w2) ->
        showsProgressBar a' = true /\ showsResults a' = false /\ showsError a' = false)
  /\ (outcome r = Pending ->
      showsProgressBar a' = true /\ showsResults a' = false /\ showsError a' = false).
Proof.
  cbv zeta. split; [|split; [|split]].
  - intros Ho.
    pose proof (handleGenerateAd_run host fuel data w) as H. rewrite Ho in H.
    destruct (HandleRun_steps _ _ _ H) as (steps & tail & _ & _ & _ & Hend).
    destruct (Hend eq_refl) as [_ [before Eb]].
    destruct (run_seen host fuel data w) as (l & s & po & Hshow & Hres & Hset).
    destruct (Hset Ho) as (errs & Ee & Hsettle).
    assert (Hl : isLoading (appAfter a (events (handleGenerateAd host fuel data w))) = false).
    { rewrite Eb, appAfter_app. reflexivity. }
    unfold showsProgressBar, showsResults, showsError.
    rewrite Hl, result_appAfter, error_appAfter, Hres, Ee.
    destruct Hshow as (_ & _ & _ & _ & _ & Hcase).
    destruct po as [[]|e|]; cbn [Settles] in Hsettle.
    + destruct Hsettle as [_ ->].
      destruct Hcase as [(_ & _ & Hpo & _)|(c & ol & _ & _ & Hafter)];
        [now contradiction Hpo|].
      destruct ol as [qc|e|]; cbn [AfterLoop] in Hafter;
        try (destruct Hafter as [Hafter _]; discriminate Hafter).
      apply FinishRun_seen in Hafter as (_ & _ & _ & _ & _ & _ & R).
      destruct R as [(_ & _ & Hpo & _)|(frame & veo & video & voice & assets & _ & _ & _ & ->)];
        [now contradiction Hpo|].
      cbn. repeat split; try discriminate. intros E. now contradiction E.
    + destruct Hsettle as [_ ->].
      assert (Hr : results s = []).
      { destruct Hcase as [(_ & -> & _)|(c & ol & _ & _ & Hafter)]; [reflexivity|].
        apply AfterLoop_reports in Hafter as [_ Hr]; [exact Hr | discriminate]. }
      rewrite Hr. cbn. rewrite surfaced_truthy. repeat split; try discriminate.
      intros E. injection E as E. pose proof (surfaced_truthy e) as Ht.
      rewrite E in Ht. discriminate Ht.
    + destruct Hsettle as [Hsettle _]. discriminate Hsettle.
  - intros e w' Hs Hk. destruct (keyQuestion_rejected host fuel data w e w' Hs Hk) as [_ ->].
    now repeat split.
  - intros e w1 w2 Hs Hk Hd.
    destruct (keyDialog_rejected host fuel data w e w1 w2 Hs Hk Hd) as [_ ->].
    now repeat split.
  - intros Hp. destruct (pending_run_state fuel data w a Hp) as (L & E & R).
    unfold showsProgressBar, showsResults, showsError. rewrite L, E, R. now repeat split.
Qed.

End Rendering.

(* ================================================================== *)
(** * The model creator *)
(* ================================================================== *)

Section DataUrls.
Import Text Studio.
Local Open Scope string_scope.

Lemma split_nonempty sep s : split sep s <> [].
Proof.
  induction s as [|c s IH]; simpl; [discriminate|].
  destruct (Ascii.eqb c sep); [discriminate|].
  destruct (split sep s); discriminate.
Qed.

Lemma split_prefix (a b : string) :
  noComma a = true ->
  split COMMA (a ++ String COMMA b) = a :: split COMMA b.
Proof.
  unfold noComma. induction a as [|c a IH]; simpl.
  - reflexivity.
  - intros H. apply andb_prop in H as [Hc Ha]. apply negb_true_iff in Hc.
    rewrite Hc, (IH Ha). reflexivity.
Qed.

Lemma split_noComma (a : string) : noComma a = true -> split COMMA a = [a].
Proof.
  unfold noComma. induction a as [|c a IH]; simpl; [reflexivity|].
  intros H. apply andb_prop in H as [Hc Ha]. apply negb_true_iff in Hc.
  now rewrite Hc, (IH Ha).
Qed.

Lemma lazyUntilSemicolon_plain (m rest : string) :
  plainType m = true ->
  lazyUntilSemicolon (m ++ String SEMICOLON rest) = Some m.
Proof.
  unfold plainType. induction m as [|c m IH]; simpl; [reflexivity|].
  intros H. apply andb_prop in H as [Hc Hm].
  apply andb_prop in Hc as [Hc Hl]. apply andb_prop in Hc as [_ Hs].
  apply negb_true_iff in Hs, Hl. rewrite Hs, Hl, (IH Hm). reflexivity.
Qed.

Lemma plainType_noComma (m : string) : plainType m = true -> noComma m = true.
Proof.
  unfold plainType, noComma. induction (list_ascii_of_string m) as [|c l IH]; simpl;
    [reflexivity|].
  intros H. apply andb_prop in H as [Hc Hm].
  apply andb_prop in Hc as [Hc _]. apply andb_prop in Hc as [Hc _].
  now rewrite Hc, (IH Hm).
Qed.

Lemma noComma_app (a b : string) :
  noComma (a ++ b) = noComma a && noComma b.
Proof.
  unfold noComma. induction a as [|c a IH]; simpl; [reflexivity|].
  now rewrite IH, andb_assoc.
Qed.

Lemma append_assoc (a b c : string) : (a ++ b) ++ c = a ++ b ++ c.
Proof. induction a as [|x a IH]; simpl; [reflexivity | now rewrite IH]. Qed.

Lemma split_second (s : string) :
  nth_error (split COMMA s) 1 = None <-> noComma s = true.
Proof.
  unfold noComma. induction s as [|c s IH]; simpl; [now split|].
  destruct (Ascii.eqb c COMMA) eqn:Ec; simpl.
  - destruct (split COMMA s) eqn:Es; [now apply split_nonempty in Es|].
    split; discriminate.
  - destruct (split COMMA s) as [|h t] eqn:Es; [now apply split_nonempty in Es|].
    exact IH.
Qed.

Lemma dataUrl_read (mediaType payload : string) :
  plainType mediaType = true -> mediaType <> EmptyString ->
  dataUrlToImageData (dataUrlOf mediaType payload)
  = mkBaseImage (Some (hd EmptyString (split COMMA payload))) mediaType.
Proof.
  intros Hm Hne. unfold dataUrlToImageData, dataUrlOf.
  replace ("data:" ++ mediaType ++ ";base64," ++ payload)
    with (("data:" ++ mediaType ++ ";base64") ++ String COMMA payload).
  2:{ cbn [append]. do 5 f_equal. now rewrite append_assoc. }
  rewrite split_prefix.
  - cbn [hd nth_error]. f_equal.
    + destruct (split COMMA payload) eqn:Es; [now apply split_nonempty in Es|].
      reflexivity.
    + change (matchMediaType ("data:" ++ mediaType ++ ";base64"))
        with (match lazyUntilSemicolon (mediaType ++ String SEMICOLON "base64") with
              | Some group => Some group
              | None => matchMediaType (mediaType ++ String SEMICOLON "base64")
              end).
      rewrite (lazyUntilSemicolon_plain mediaType "base64" Hm).
      destruct mediaType; [contradiction | reflexivity].
  - cbn [append noComma list_ascii_of_string forallb]. cbn.
    change (noComma (mediaType ++ ";base64") = true).
    rewrite noComma_app, (plainType_noComma _ Hm). reflexivity.
Qed.

(** X18.  [dataUrlToImageData] reads back the data URLs that the service
    functions build: for a media type that is not empty and holds no comma,
    semicolon or line terminator, it finds the media type and the payload up
    to its first comma, which is the whole payload when it has none.  For
    every string it finds a media type that is not empty (["image/png"] when
    the URL names none), and it finds no payload exactly when the string has
    no comma. *)
Theorem data_url_round_trip (mediaType payload : string) :
  (plainType mediaType = true -> mediaType <> EmptyString ->
     dataUrlToImageData (dataUrlOf mediaType payload)
     = mkBaseImage (Some (hd EmptyString (split COMMA payload))) mediaType
     /\ (noComma payload = true ->
         dataUrlToImageData (dataUrlOf mediaType payload)
         = mkBaseImage (Some payload) mediaType))
  /\ (forall url, baseMimeType (dataUrlToImageData url) <> EmptyString)
  /\ (forall url, baseData (dataUrlToImageData url) = None <-> noComma url = true)
  /\ dataUrlToImageData (dataUrlOf EmptyString payload)
     = mkBaseImage (Some (hd EmptyString (split COMMA payload))) "image/png".
Proof.
  split; [|split; [|split]].
  - intros Hm Hne. pose proof (dataUrl_read mediaType payload Hm Hne) as E.
    split; [exact E|]. intros Hp. rewrite E, (split_noComma _ Hp). reflexivity.
  - intros url. unfold dataUrlToImageData. cbn [baseMimeType].
    destruct (matchMediaType _) as [[|c g]|]; discriminate.
  - intros url. unfold dataUrlToImageData. cbn [baseData]. apply split_second.
  - unfold dataUrlToImageData, dataUrlOf. cbn [append].
    cbn [split Ascii.eqb Bool.eqb COMMA].
    destruct (split COMMA payload) as [|h t] eqn:Es; [now apply split_nonempty in Es|].
    reflexivity.
Qed.

End DataUrls.

Section ModelCreator.
Import Text Studio.
Context {W : Type} (server : Server W).
Local Open Scope list_scope.

(** X19.  [generateModelImage] describes the outfit first and generates
    from the description: the prompt it returns is [generationPrompt] of the
    reply of the first call, which the second call was made with, and the
    image is the first inline part of the second reply, shown as
    [image/png] whatever its media type.  When the first call is rejected
    the second is not made. *)
Theorem model_image_is_generated_from_description (photo face : ImageData) (w : W) :
  let '(r, _, calls) := generateModelImage server photo face w in
  let first := fst (ai_describeOutfit server photo w) in
  hd_error calls = Some (DescribeOutfit photo first)
  /\ (forall e, first = Rejected e -> r = Rejected e /\ calls = [DescribeOutfit photo first])
  /\ (forall g, r = Resolved g ->
        exists description reply ps pre d post,
          first = Resolved description
          /\ prompt g = generationPrompt description
          /\ includes description (prompt g) = true
          /\ calls = [DescribeOutfit photo first;
                      GenerateModel (generationPrompt description) face (Resolved reply)]
          /\ parts reply = Some ps /\ ps = pre ++ mkPart (Some d) :: post
          /\ Forall (fun p => inlineData p = None) pre
          /\ imageUrl g = dataUrlOf "image/png" (base64 d)).
Proof.
  unfold generateModelImage, andThen, call, log, resolve, reject.
  destruct (ai_describeOutfit server photo w) as [[description|e] w1]; cbn [fst].
  2:{ split; [reflexivity|]. split; [now intros e' [= ->] | discriminate]. }
  destruct (ai_generateModel server (generationPrompt description) face w1)
    as [[[[ps|] fr]|e] w2]; cbn [parts finishReason].
  - destruct (firstInlineData ps) as [d|] eqn:Ed; cbn [app].
    + split; [reflexivity|]. split; [discriminate|]. intros g [= <-].
      apply firstInlineData_first in Ed as (pre & post & -> & Hpre).
      exists description, (mkContent (Some (pre ++ mkPart (Some d) :: post)) fr),
        (pre ++ mkPart (Some d) :: post), pre, d, post.
      cbn [prompt imageUrl parts]. repeat split; trivial.
      unfold generationPrompt. apply includes_append_l, includes_append_l.
      apply includes_append_r, includes_refl.
    + split; [reflexivity|]. split; discriminate.
  - cbn [app]. split; [reflexivity|]. split; discriminate.
  - cbn [app]. split; [reflexivity|]. split; discriminate.
Qed.

Lemma submit_task (photo face : File) (w : W) :
  let t := (fashionPhotoData <~ fileToBase64 server photo ;;
            headshotData <~ fileToBase64 server face ;;
            generateModelImage server fashionPhotoData headshotData) w in
  (exists e w1, t = (Rejected e, w1, [ReadAsDataURL photo (Rejected e)]))
  \/ (exists p1 e w2,
        t = (Rejected e, w2, [ReadAsDataURL photo (Resolved p1);
                              ReadAsDataURL face (Rejected e)]))
  \/ (exists p1 p2 w2,
        let g := generateModelImage server (mkImageData p1 (fileType photo))
                   (mkImageData p2 (fileType face)) w2 in
        t = (fst (fst g), snd (fst g),
             ReadAsDataURL photo (Resolved p1)
             :: ReadAsDataURL face (Resolved p2) :: snd g)).
Proof.
  cbv zeta. cbv [andThen fileToBase64 call resolve].
  destruct (readAsDataURL server photo w) as [[p1|e] w1]; cbv beta iota.
  2:{ left. now exists e, w1. }
  destruct (readAsDataURL server face w1) as [[p2|e] w2]; cbv beta iota.
  2:{ right. left. now exists p1, e, w2. }
  right. right. exists p1, p2, w2.
  destruct (generateModelImage server _ _ w2) as [[r w3] l]. reflexivity.
Qed.

Lemma generateModelImage_stops (d1 d2 : ImageData) (w : W) pre c post :
  snd (generateModelImage server d1 d2 w) = pre ++ c :: post ->
  failed c = true -> post = [].
Proof.
  cbv [generateModelImage andThen call log resolve reject].
  destruct (ai_describeOutfit server d1 w) as [[description|e] w3]; cbv beta iota.
  - destruct (ai_generateModel server _ d2 w3) as [[res|e] w4]; cbv beta iota.
    + destruct (parts res) as [ps|]; [destruct (firstInlineData ps)|]; cbn [snd app];
        intros E Hc;
        (destruct pre as [|x pre]; [injection E as <- _; discriminate Hc|]);
        injection E as _ E;
        (destruct pre as [|y pre]; [injection E as <- _; discriminate Hc|]);
        injection E as _ E;
        try (destruct pre; discriminate E).
      destruct pre as [|z pre]; [injection E as <- _; discriminate Hc|].
      injection E as _ E. destruct pre; discriminate E.
    + cbn [snd app]. intros E Hc.
      destruct pre as [|x pre]; [injection E as <- _; discriminate Hc|].
      injection E as _ E.
      destruct pre as [|y pre]; [now injection E|].
      injection E as _ E. destruct pre; discriminate E.
  - cbn [snd]. intros E Hc. destruct pre as [|x pre]; [now injection E|].
    injection E as _ E. destruct pre; discriminate E.
Qed.

(** X20.  [handleSubmit] needs both files: when one is missing it alerts,
    calls nothing and asks for no update.  With both it first clears what
    the page shows (loading on; error, result and history emptied), reads
    the fashion photo and then the headshot, and generates from the two
    payloads; no call follows a call that was rejected.  When all of it has
    settled it asks either for the result that [generateModelImage]
    returned, with a history of its prompt alone, or for an error message
    that is not empty and for nothing about the result or the history; the
    last update clears the loading flag in both cases. *)
Theorem model_submit_settles (st : State) (w : W) :
  let ups := fst (fst (handleSubmit server st w)) in
  let calls := snd (handleSubmit server st w) in
  hd_error calls = Some PreventDefault
  /\ (fashionPhoto st = None \/ headshot st = None ->
      ups = mkUpdates [] []
      /\ calls = [PreventDefault;
                  Alert "Please upload both a fashion photo and a headshot."])
  /\ (forall photo face, fashionPhoto st = Some photo -> headshot st = Some face ->
      atOnce ups = [SetIsLoading true; SetError None; SetResult None; SetPromptHistory []]
      /\ (exists r rest, calls = PreventDefault :: ReadAsDataURL photo r :: rest)
      /\ (forall pre c post, calls = pre ++ c :: post -> failed c = true -> post = [])
      /\ ((exists g p1 p2 w2,
             onSettle ups = [SetResult (Some g); SetPromptHistory [prompt g];
                             SetIsLoading false]
             /\ fst (fst (generateModelImage server (mkImageData p1 (fileType photo))
                             (mkImageData p2 (fileType face)) w2)) = Resolved g
             /\ calls = PreventDefault
                        :: ReadAsDataURL photo (Resolved p1)
                        :: ReadAsDataURL face (Resolved p2)
                        :: snd (generateModelImage server (mkImageData p1 (fileType photo))
                                  (mkImageData p2 (fileType face)) w2))
          \/ (exists msg,
                msg <> EmptyString
                /\ onSettle ups = [SetError (Some msg); SetIsLoading false]))).
Proof.
  cbv zeta. unfold handleSubmit.
  destruct (fashionPhoto st) as [photo|] eqn:Ep, (headshot st) as [face|] eqn:Eh;
    try (split; [reflexivity|]; split;
         [intros _; now split
         |intros ph fc H1 H2; first [discriminate H1 | discriminate H2]]).
  assert (Hmsg : forall e : Exn, orElse (JS.message e) "Failed to generate model image."
                                 <> EmptyString).
  { intros e. destruct (JS.message e) as [[|c m]|]; discriminate. }
  destruct (submit_task photo face w) as [(e & w1 & E)|[(p1 & e & w2 & E)|(p1 & p2 & w2 & E)]];
    cbv zeta in E; rewrite E; clear E; cbn [fst snd atOnce onSettle app hd_error];
    (split; [reflexivity|]); (split; [intros [H|H]; discriminate H|]);
    intros ph fc [= <-] [= <-]; (split; [reflexivity|]);
    (split; [now eexists _, _|]).
  - split.
    + intros pre c post E Hc.
      destruct pre as [|x pre]; [injection E as <- _; discriminate Hc|].
      injection E as _ E.
      destruct pre as [|y pre]; [now injection E|].
      injection E as _ E. destruct pre; discriminate E.
    + right. eexists. split; [apply Hmsg | reflexivity].
  - split.
    + intros pre c post E Hc.
      destruct pre as [|x pre]; [injection E as <- _; discriminate Hc|].
      injection E as _ E.
      destruct pre as [|y pre]; [injection E as <- _; discriminate Hc|].
      injection E as _ E.
      destruct pre as [|z pre]; [now injection E|].
      injection E as _ E. destruct pre; discriminate E.
    + right. eexists. split; [apply Hmsg | reflexivity].
  - split.
    + intros pre c post E Hc.
      destruct pre as [|x pre]; [injection E as <- _; discriminate Hc|].
      injection E as _ E.
      destruct pre as [|y pre]; [injection E as <- _; discriminate Hc|].
      injection E as _ E.
      destruct pre as [|z pre]; [injection E as <- _; discriminate Hc|].
      injection E as _ E. now apply (generateModelImage_stops _ _ _ pre c post E).
    + destruct (fst (fst (generateModelImage server _ _ w2))) as [g|e] eqn:Eg.
      * left. exists g, p1, p2, w2. rewrite Eg. now repeat split.
      * right. eexists. split; [apply Hmsg | reflexivity].
Qed.

(** X21.  [handleEditSubmit] does nothing for a blank prompt or without a
    result: no call and no update.  Otherwise it sets the editing flag and
    clears the error, and makes one edit call, with the prompt as typed and
    the image of the rendered result.  When the call has settled it asks
    either for the image URL to be replaced by the data URL of the first
    inline part of the reply, for the typed prompt to be appended to the
    history and for the field to be emptied, or for an error message that
    is not empty and for nothing about the result, the history or the
    field; the last update clears the editing flag in both cases. *)
Theorem model_edit_settles (st : State) (w : W) :
  let ups := fst (fst (handleEditSubmit server st w)) in
  let calls := snd (handleEditSubmit server st w) in
  (isBlank (editPrompt st) = true \/ result st = None ->
     ups = mkUpdates [] [] /\ calls = [PreventDefault])
  /\ (forall shown, isBlank (editPrompt st) = false -> result st = Some shown ->
        atOnce ups = [SetIsEditing true; SetError None]
        /\ exists reply rest,
             calls = PreventDefault
                     :: EditModel (dataUrlToImageData (imageUrl shown)) (editPrompt st) reply
                     :: rest
             /\ (rest = [] \/ rest = [ConsoleError])
             /\ ((exists res ps d,
                    reply = Resolved res /\ parts res = Some ps
                    /\ firstInlineData ps = Some d
                    /\ onSettle ups = [PatchImageUrl (dataUrlOf (mimeType d) (base64 d));
                                       AppendToHistory (editPrompt st);
                                       SetEditPrompt EmptyString;
                                       SetIsEditing false])
                 \/ (exists msg,
                       msg <> EmptyString
                       /\ onSettle ups = [SetError (Some msg); SetIsEditing false]))).
Proof.
  cbv zeta. unfold handleEditSubmit.
  destruct (isBlank (editPrompt st)) eqn:Eb; [|destruct (result st) as [shown|] eqn:Er].
  - destruct (result st); (split; [now intros _ | intros shown H; discriminate H]).
  - cbv [editModelImage andThen call log resolve reject].
    destruct (ai_editModel server _ (editPrompt st) w) as [[res|e] w1]; cbv beta iota.
    + destruct (parts res) as [ps|] eqn:Hp;
        [destruct (firstInlineData ps) as [d|] eqn:Hd|];
        cbn [fst snd atOnce onSettle app];
        (split; [intros [H|H]; discriminate H|]);
        intros shown' _ [= <-]; (split; [reflexivity|]);
        eexists _, _; (split; [reflexivity|]).
      * split; [now left|]. left. exists res, ps, d. now repeat split.
      * split; [now left|]. right. eexists. split; [|reflexivity]. discriminate.
      * split; [now right|]. right. eexists. split; [|reflexivity]. discriminate.
    + cbn [fst snd atOnce onSettle app].
      split; [intros [H|H]; discriminate H|].
      intros shown' _ [= <-]. split; [reflexivity|].
      eexists _, _. split; [reflexivity|]. split; [now left|].
      right. eexists. split; [|reflexivity].
      destruct (JS.message e) as [[|c m]|]; discriminate.
  - split; [now intros _ | intros shown _ H; discriminate H].
Qed.

(** X23.  An edit sends the image that is shown.  After a generation the
    result shows [dataUrlOf "image/png" payload], and the edit call carries
    that payload as [image/png]; after an edit whose reply carried a payload
    of a plain media type, the next edit carries that payload under that
    media type.  (A payload is sent up to its first comma; base64 has none.) *)
Theorem model_edit_sends_what_is_shown (st : State) (w : W)
    (mediaType payload description : string) :
  isBlank (editPrompt st) = false ->
  result st = Some (mkGenerated (dataUrlOf mediaType payload) description) ->
  plainType mediaType = true -> mediaType <> EmptyString -> noComma payload = true ->
  exists reply rest,
    snd (handleEditSubmit server st w)
    = PreventDefault
      :: EditModel (mkBaseImage (Some payload) mediaType) (editPrompt st) reply :: rest.
Proof.
  intros Hb Hr Hm Hne Hp. unfold handleEditSubmit. rewrite Hb, Hr. cbn [imageUrl].
  rewrite (dataUrl_read mediaType payload Hm Hne), (split_noComma _ Hp). cbn [hd].
  unfold editModelImage, andThen, call.
  destruct (ai_editModel server _ (editPrompt st) w) as [[res|e] w1].
  - destruct (parts res) as [ps|]; [destruct (firstInlineData ps)|]; cbn; eauto.
  - cbn. eauto.
Qed.

End ModelCreator.

(* ================================================================== *)
(** * Where the parts of a run come from *)
(* ================================================================== *)

Section ProvenanceRules.
Context {W : Type}.
Local Open Scope list_scope.

Lemma Yields_any {A} (m : M W A) : Yields m (fun _ _ => True).
Proof. intros w a _. exact I. Qed.

Lemma Yields_conseq {A} (m : M W A) (P Q : A -> list Event -> Prop) :
  Yields m P -> (forall a l, P a l -> Q a l) -> Yields m Q.
Proof. intros H HPQ w a E. apply HPQ. now apply H. Qed.

Lemma Yields_ret {A} (a : A) : Yields (W:=W) (ret a) (fun b l => b = a /\ l = []).
Proof. intros w b [= <-]. now split. Qed.

Lemma Yields_throw {A} (e : Exn) (P : A -> list Event -> Prop) :
  Yields (@throw W A e) P.
Proof. intros w a E. discriminate E. Qed.

Lemma Yields_then_throw {A B} (m : M W A) (e : Exn) (P : B -> list Event -> Prop) :
  Yields (bind m (fun _ => throw e)) P.
Proof.
  intros w b. rewrite outcome_bind. destruct (outcome (m w)); discriminate.
Qed.

Lemma Yields_emit (e : Event) : Yields (W:=W) (emit e) (fun _ l => l = [e]).
Proof. intros w a _. reflexivity. Qed.

Lemma Yields_await {X} (op : W -> Settled X * W) (ev : Settled X -> Event) :
  Yields (await op ev) (fun x l => l = [ev (Resolved x)]).
Proof.
  intros w x. unfold await, outcome, events.
  destruct (op w) as [[y|e] w']; simpl; [|discriminate]. now intros [= ->].
Qed.

Lemma Yields_perform {X} (op : W -> X * W) (ev : X -> Event) :
  Yields (perform op ev) (fun x l => l = [ev x]).
Proof.
  intros w x. unfold perform, outcome, events.
  destruct (op w) as [y w']; simpl. now intros [= ->].
Qed.

Lemma Yields_settle {X} (r : Settled X) :
  Yields (W:=W) (settle r) (fun x l => r = Resolved x /\ l = []).
Proof. intros w x. destruct r; simpl; [|discriminate]. intros [= ->]. now split. Qed.

Lemma Yields_bind {A B} (m : M W A) (k : A -> M W B)
    (P : A -> list Event -> Prop) (Q : A -> B -> list Event -> Prop) :
  Yields m P -> (forall a, Yields (k a) (Q a)) ->
  Yields (bind m k)
    (fun b l => exists a l1 l2, l = l1 ++ l2 /\ P a l1 /\ Q a b l2).
Proof.
  intros Hm Hk w b. rewrite outcome_bind, events_bind.
  specialize (Hm w). destruct (outcome (m w)) as [a| |]; [|discriminate..].
  intros E. exists a, (events (m w)), (events (k a (final (m w)))).
  split; [reflexivity|]. split; [now apply Hm | now apply Hk].
Qed.

Section Traced.
Variable trig : Event -> bool.

Lemma Traces_conseq {A} (m : M W A) (F G : Event -> list Event -> Prop) :
  Traces trig m F -> (forall e l, F e l -> G e l) -> Traces trig m G.
Proof. intros H HFG w e Hin Ht. apply HFG. now apply H. Qed.

(** A run without an event of the kind has nothing to trace. *)
Lemma Traces_quiet {A} (m : M W A) (F : Event -> list Event -> Prop) :
  Only (fun e => negb (trig e)) m -> Traces trig m F.
Proof.
  intros H w e Hin Ht. specialize (H w). rewrite forallb_forall in H.
  apply H in Hin. rewrite Ht in Hin. discriminate Hin.
Qed.

Lemma Traces_emit (e0 : Event) :
  Traces (W:=W) trig (emit e0) (fun e l => e = e0).
Proof. intros w e [<-|[]] _. reflexivity. Qed.

Lemma Traces_await {X} (op : W -> Settled X * W) (ev : Settled X -> Event) :
  Traces trig (await op ev) (fun e l => exists r, e = ev r).
Proof.
  intros w e. unfold await, events. destruct (op w) as [[x|e'] w']; simpl;
    intros [<-|[]] _; eexists; reflexivity.
Qed.

(** What comes first is quiet and yields [P]; what follows is traced. *)
Lemma Traces_bind {A B} (m : M W A) (k : A -> M W B)
    (P : A -> list Event -> Prop) (G : A -> Event -> list Event -> Prop) :
  Only (fun e => negb (trig e)) m -> Yields m P ->
  (forall a, Traces trig (k a) (G a)) ->
  Traces trig (bind m k)
    (fun e l => exists a l1 l2, l = l1 ++ l2 /\ P a l1 /\ G a e l2).
Proof.
  intros Hq Hm Hk w e. rewrite events_bind. specialize (Hq w). specialize (Hm w).
  intros Hin Ht. apply in_app_or in Hin. destruct Hin as [Hin|Hin].
  - rewrite forallb_forall in Hq. apply Hq in Hin. rewrite Ht in Hin. discriminate Hin.
  - destruct (outcome (m w)) as [a| |]; [|destruct Hin..].
    exists a, (events (m w)), (events (k a (final (m w)))).
    split; [reflexivity|]. split; [now apply Hm | now apply Hk].
Qed.

(** Both parts are traced with a lasting fact. *)
Lemma Traces_seq {A B} (m : M W A) (k : A -> M W B)
    (F : Event -> list Event -> Prop) :
  Lasting F -> Traces trig m F -> (forall a, Traces trig (k a) F) ->
  Traces trig (bind m k) F.
Proof.
  intros HF Hm Hk w e. rewrite events_bind. specialize (Hm w).
  intros Hin Ht. apply in_app_or in Hin. destruct Hin as [Hin|Hin].
  - specialize (HF e [] (events (m w))). cbn [app] in HF. apply HF. now apply Hm.
  - destruct (outcome (m w)) as [a| |]; [|destruct Hin..].
    specialize (HF e (events (m w)) (events (k a (final (m w)))) []).
    rewrite app_nil_r in HF. apply HF. now apply Hk.
Qed.

Lemma Traces_tryCatch {A} (m : M W A) (h : Exn -> M W A)
    (F : Event -> list Event -> Prop) :
  Lasting F -> Traces trig m F -> (forall e, Traces trig (h e) F) ->
  Traces trig (tryCatch m h) F.
Proof.
  intros HF Hm Hh w e. specialize (Hm w). unfold tryCatch, events in *.
  destruct (m w) as [[[a|e'|] w1] l1]; cbn [fst snd] in *; try exact (Hm e).
  specialize (Hh e' w1). unfold events in Hh.
  destruct (h e' w1) as [[o w2] l2]. cbn [fst snd] in *.
  intros Hin Ht. apply in_app_or in Hin. destruct Hin as [Hin|Hin].
  - specialize (HF e [] l1 l2). cbn [app] in HF. apply HF. now apply Hm.
  - specialize (HF e l1 l2 []). rewrite app_nil_r in HF. apply HF. now apply Hh.
Qed.

Lemma Traces_tryFinally {A} (m : M W A) (f : M W unit)
    (F : Event -> list Event -> Prop) :
  Lasting F -> Traces trig m F -> Traces trig f F ->
  Traces trig (tryFinally m f) F.
Proof.
  intros HF Hm Hf w e. specialize (Hm w). unfold tryFinally, events in *.
  destruct (m w) as [[[a|e'|] w1] l1]; cbn [fst snd] in *; try exact (Hm e);
    specialize (Hf w1); unfold events in Hf;
    destruct (f w1) as [[[[]|e''|] w2] l2]; cbn [fst snd] in *;
    intros Hin Ht; apply in_app_or in Hin; destruct Hin as [Hin|Hin];
    first [ specialize (HF e [] l1 l2); cbn [app] in HF; apply HF; now apply Hm
          | specialize (HF e l1 l2 []); rewrite app_nil_r in HF; apply HF;
            now apply Hf ].
Qed.

Lemma Traces_forEach {S} (range : list nat) (body : nat -> S -> M W (LoopStep S))
    (F : Event -> list Event -> Prop) :
  Lasting F -> (forall i st, Traces trig (body i st) F) ->
  forall st, Traces trig (forEach range body st) F.
Proof.
  intros HF Hb. induction range as [|i rest IH]; intros st; simpl.
  - intros w e [].
  - apply Traces_seq; [exact HF | apply Hb |].
    intros [st'|st']; [apply IH | intros w e []].
Qed.

End Traced.

End ProvenanceRules.

Ltac silent :=
  unfold analyzeImages, qcLoop, qcAttempt, generateVideo, generateSpeech,
    onVideoProgress, onError, onFinally;
  classify_fine fail.

Section Stages.
Context {W : Type} (host : Host W).
Local Open Scope list_scope.

Lemma inOrder_after (es l1 l2 : list Event) : inOrder es l2 -> inOrder es (l1 ++ l2).
Proof.
  destruct es as [|e es]; [trivial|]. intros (p & q & -> & H).
  exists (l1 ++ p), q. now rewrite <- app_assoc.
Qed.

Lemma inOrder_before (es l1 l2 : list Event) : inOrder es l1 -> inOrder es (l1 ++ l2).
Proof.
  revert l1. induction es as [|e es IH]; intros l1; [trivial|].
  intros (p & q & -> & H). exists p, (q ++ l2).
  split; [now rewrite <- app_assoc | now apply IH].
Qed.

Lemma inOrder_app (es1 es2 l1 l2 : list Event) :
  inOrder es1 l1 -> inOrder es2 l2 -> inOrder (es1 ++ es2) (l1 ++ l2).
Proof.
  revert l1. induction es1 as [|e es1 IH]; intros l1 H1 H2.
  - now apply inOrder_after.
  - destruct H1 as (p & q & -> & H). exists p, (q ++ l2).
    split; [now rewrite <- app_assoc | now apply IH].
Qed.

Lemma inOrder_refl (es : list Event) : inOrder es es.
Proof. induction es as [|e es IH]; [exact I|]. now exists [], es. Qed.

Lemma jobReplies_app (l1 l2 : list Event) :
  jobReplies (l1 ++ l2) = jobReplies l1 ++ jobReplies l2.
Proof. apply flat_map_app. Qed.

Lemma Filmed_lasting data c frame out l1 l2 l3 :
  Filmed host data c frame out l2 -> Filmed host data c frame out (l1 ++ l2 ++ l3).
Proof.
  intros (job & fin & link & resp & video & voice & H1 & H2 & H3 & H4 & H5 & H6 & H7 & H8).
  exists job, fin, link, resp, video, voice.
  rewrite !jobReplies_app, !in_app_iff.
  repeat (split; [now auto|]). now apply inOrder_after, inOrder_before.
Qed.

Lemma MadeFrom_lasting data out l1 l2 l3 :
  MadeFrom host data out l2 -> MadeFrom host data out (l1 ++ l2 ++ l3).
Proof.
  intros (c & frame & v & p & q & -> & H1 & H2). exists c, frame, v, (l1 ++ p), (q ++ l3).
  split; [now rewrite <- !app_assoc|]. split; [apply in_or_app; now right|].
  apply (Filmed_lasting data c frame out [] q l3) in H2. exact H2.
Qed.

Lemma ActorOf_lasting data actor l1 l2 l3 :
  ActorOf data actor l2 -> ActorOf data actor (l1 ++ l2 ++ l3).
Proof.
  unfold ActorOf. destruct (UserInput.actorImage data); [|trivial].
  intros (payload & H1 & H2). exists payload. rewrite !in_app_iff. auto.
Qed.

Lemma FrameOf_lasting ar actor frame l1 l2 l3 :
  FrameOf ar actor frame l2 -> FrameOf ar actor frame (l1 ++ l2 ++ l3).
Proof.
  unfold FrameOf. destruct actor.
  - intros (prompt & res & ps & H1 & H2 & H3). exists prompt, res, ps.
    rewrite !in_app_iff. auto.
  - intros (prompt & rest & H1 & H2). exists prompt, rest. rewrite !in_app_iff. auto.
Qed.

Lemma save_yields (resp : FetchResponse) (e : Exn) :
  Yields
    (if negb (ok resp)
     then throw e
     else
       videoBlob <- settle (blob resp) ;;
       perform (createObjectURL host videoBlob) (CreateObjectURL videoBlob))
    (fun url l =>
       exists video, blob resp = Resolved video /\ l = [CreateObjectURL video url]).
Proof.
  destruct (ok resp); cbn [negb]; [|apply Yields_throw].
  eapply Yields_conseq;
    [eapply Yields_bind; [apply Yields_settle | intros ?; apply Yields_perform]|].
  intros url l (video & l1 & l2 & -> & (Hb & ->) & ->). now exists video.
Qed.

(** What follows the polling loop yields a URL only after a download of
    the URI of the job. *)
Lemma download_yields (op : Operation) :
  Yields
    (match opError op with
     | Some msg =>
         emit ConsoleError ;;
         throw (Error ("Video generation failed: " ++ orElse msg "Unknown error")%string)
     | None =>
         match videoUri op with
         | None | Some EmptyString =>
             emit ConsoleError ;;
             throw (Error "Video generation completed, but no video URI was found.")
         | Some downloadLink =>
             onVideoProgress "Video generated successfully! Fetching video data..." ;;
             let url := (downloadLink ++ "&key=" ++ API_KEY host)%string in
             videoResponse <- await (fetch host url) (Fetch url) ;;
             if negb (ok videoResponse)
             then throw (Error ("Failed to download video. Status: "
                                ++ statusText videoResponse)%string)
             else
               videoBlob <- settle (blob videoResponse) ;;
               perform (createObjectURL host videoBlob) (CreateObjectURL videoBlob)
         end
     end)
    (fun url l =>
       exists link resp video,
         videoUri op = Some link
         /\ blob resp = Resolved video
         /\ jobReplies l = []
         /\ inOrder [Fetch (link ++ "&key=" ++ API_KEY host)%string (Resolved resp);
                     CreateObjectURL video url] l).
Proof.
  destruct (opError op) as [msg|].
  { apply Yields_then_throw. }
  destruct (videoUri op) as [[|ch uri]|]; [apply Yields_then_throw | | apply Yields_then_throw].
  set (link := String ch uri). cbv zeta. eapply Yields_conseq.
  - eapply Yields_bind; [apply Yields_emit | intros ?].
    eapply Yields_bind; [apply Yields_await | intros resp]. apply save_yields.
  - intros url l (? & l1 & l2 & -> & -> & resp & l3 & l4 & -> & -> & video & Hb & ->).
    exists link, resp, video. split; [reflexivity|]. split; [exact Hb|].
    split; [reflexivity|]. apply (inOrder_after _ [_]). apply inOrder_refl.
Qed.

(** The loop returns the job state that it was given, or the reply of one
    of its polls; that state reports done. *)
Lemma pollLoop_yields fuel op k :
  Yields (pollLoop host fuel onVideoProgress op k)
    (fun op' l => done op' = true
                  /\ In (Resolved op') (Resolved op :: jobReplies l)).
Proof.
  intros w op' Ho. pose proof (pollLoop_run host fuel op k w) as Hrun.
  destruct (PollRun_seen _ _ _ _ Hrun) as (_ & _ & _ & _ & _ & H6 & _).
  destruct (H6 op' Ho) as [Hd Hl]. split; [exact Hd|].
  destruct (PollRun_jobs _ _ _ _ Hrun) as (-> & _).
  rewrite <- Hl. clear.
  generalize (map snd (polls (events (pollLoop host fuel onVideoProgress op k w)))).
  generalize (@Resolved Operation op). intros d l. revert d.
  induction l as [|x l IH]; intros d; [now left|].
  rewrite last_cons. right. destruct (IH x) as [<-|H]; [now left | now right].
Qed.

Lemma generateVideo_yields fuel prompt frame ar :
  Yields (generateVideo host fuel prompt frame ar onVideoProgress)
    (fun url l =>
       exists job fin link resp video,
         In (Resolved fin) (jobReplies l)
         /\ done fin = true
         /\ videoUri fin = Some link
         /\ blob resp = Resolved video
         /\ inOrder [GenerateVideos prompt frame ar (Resolved job);
                     Fetch (link ++ "&key=" ++ API_KEY host)%string (Resolved resp);
                     CreateObjectURL video url] l).
Proof.
  unfold generateVideo. eapply Yields_conseq.
  - eapply Yields_bind; [apply Yields_emit | intros ?].
    eapply Yields_bind; [apply Yields_await | intros ?].
    eapply Yields_bind; [apply Yields_emit | intros ?].
    eapply Yields_bind; [apply pollLoop_yields | intros op].
    apply download_yields.
  - intros url l (? & l1 & l2 & -> & -> & job & l3 & l4 & -> & -> & ? & l5 & l6 & -> & ->
                  & fin & l7 & l8 & -> & (Hd & Hin) & link & resp & video
                  & H1 & H2 & H3 & H4).
    exists job, fin, link, resp, video.
    split; [|split; [exact Hd|split; [exact H1|split; [exact H2|]]]].
    + rewrite !jobReplies_app, H3, app_nil_r. cbn [jobReplies flat_map app].
      destruct Hin as [Hin|Hin]; [left; exact Hin | right; exact Hin].
    + apply (inOrder_after _ [_]). apply (inOrder_app [_] _ [_]); [apply inOrder_refl|].
      apply (inOrder_after _ [_]). now apply inOrder_after.
Qed.

Lemma generateSpeech_yields text :
  Yields (generateSpeech host text)
    (fun url l =>
       exists b64 bin wav,
         atob host b64 = Resolved bin
         /\ Wav.wavBytes (Buffer.ascii_bytes bin) = Some wav
         /\ l = [GenerateSpeech text (Resolved (Some b64));
                 CreateObjectURL (mkBlob wav "audio/wav") url]).
Proof.
  intros w url. unfold generateSpeech, decode, bind, await, settle, perform, ret, throw,
    outcome, events.
  destruct (ai_generateSpeech host text w) as [[[[|ch b64]|]|e] w1]; simpl;
    try discriminate.
  destruct (atob host (String ch b64)) as [bin|e] eqn:Ea; simpl; [|discriminate].
  destruct (Wav.wavBytes (Buffer.ascii_bytes bin)) as [wav|] eqn:Ew; simpl; [|discriminate].
  destruct (createObjectURL host (mkBlob wav "audio/wav") w1) as [u w2]. simpl.
  intros [= <-]. now exists (String ch b64), bin, wav.
Qed.

Lemma voiceover_yields data :
  Yields
    (if UserInput.generateVoiceover data
     then
       updateProgress 7 "Generating voiceover..." ;;
       u <- generateSpeech host ("Say with a " ++ UserInput.tone data
                                 ++ " tone: " ++ UserInput.cta data)%string ;;
       ret (Some u)
     else ret None)
    (fun voiceoverUrl l =>
       exists voice,
         inOrder voice l
         /\ if UserInput.generateVoiceover data
            then exists b64 bin wav url,
                   voiceoverUrl = Some url
                   /\ atob host b64 = Resolved bin
                   /\ Wav.wavBytes (Buffer.ascii_bytes bin) = Some wav
                   /\ voice = [GenerateSpeech (speechText data) (Resolved (Some b64));
                               CreateObjectURL (mkBlob wav "audio/wav") url]
            else voiceoverUrl = None /\ voice = []).
Proof.
  destruct (UserInput.generateVoiceover data).
  - eapply Yields_conseq.
    + eapply Yields_bind; [apply Yields_any | intros ?].
      eapply Yields_bind; [apply generateSpeech_yields | intros u]. apply Yields_ret.
    + intros vo l (? & l1 & l2 & -> & _ & u & l3 & l4 & -> & (b64 & bin & wav & Ha & Hw & ->)
                   & -> & ->).
      eexists. split; [|exists b64, bin, wav, u; repeat split; eassumption].
      rewrite app_nil_r. apply inOrder_after, inOrder_refl.
  - eapply Yields_conseq; [apply Yields_ret|]. intros vo l [-> ->]. now exists [].
Qed.

(** STAGE 2 delivers what it made. *)
Lemma finishAd_filmed fuel data qc :
  Traces delivers (finishAd host fuel data qc)
    (fun e l =>
       forall out, e = SetResult (Some out) ->
         exists frame,
           openingFrameData qc = Some frame
           /\ Filmed host data (concept qc) frame out l).
Proof.
  unfold finishAd. destruct (openingFrameData qc) as [frame|];
    [|apply Traces_quiet, Only_throw].
  eapply Traces_conseq.
  - eapply Traces_bind; [silent | apply Yields_any | intros ?].
    eapply Traces_bind; [silent | apply Yields_await | intros veoPrompt].
    eapply Traces_bind; [silent | apply Yields_any | intros ?].
    eapply Traces_bind; [silent | apply generateVideo_yields | intros videoUrl].
    eapply Traces_bind; [silent | apply voiceover_yields | intros voiceoverUrl].
    eapply Traces_bind; [silent | apply Yields_any | intros ?].
    eapply Traces_bind; [silent | apply Yields_await | intros adAssets].
    apply Traces_emit.
  - intros e l (? & l1 & l2 & -> & _ & veoPrompt & l3 & l4 & -> & -> & ? & l5 & l6 & -> & _
                & videoUrl & l7 & l8 & ->
                & (job & fin & link & resp & video & V1 & V2 & V3 & V4 & V5)
                & voiceoverUrl & l9 & l10 & -> & (voice & Hvo & Hv) & ? & l11 & l12 & -> & _
                & adAssets & l13 & l14 & -> & _ & ->) out [= <-].
    exists frame. split; [reflexivity|]. exists job, fin, link, resp, video, voice.
    cbn [finalOutput FinalOutput.opening_frame_image_url FinalOutput.veo_prompt
         FinalOutput.opening_frame_prompt FinalOutput.veo_video_url].
    split; [reflexivity|]. split; [reflexivity|]. split.
    { rewrite !jobReplies_app, !in_app_iff. tauto. }
    split; [exact V2|]. split; [exact V3|]. split; [exact V4|]. split.
    { unfold Voiced. cbn [finalOutput FinalOutput.voiceover_audio_url].
      destruct (UserInput.generateVoiceover data); [|exact Hv].
      destruct Hv as (b64 & bin & wav & url & -> & S1 & S2 & S3).
      now exists b64, bin, wav, url. }
    apply inOrder_after. apply (inOrder_app [_] _ [_]); [apply inOrder_refl|].
    apply inOrder_after.
    apply (inOrder_app [_; _; _] voice); [exact V5|]. now apply inOrder_before.
Qed.

(** The frame that the loop leaves has been validated. *)
Lemma loop_frame_validated range st qc l :
  LoopRun AttemptRun range st (Ok qc) l ->
  forall frame, openingFrameData qc = Some frame ->
    openingFrameData st = Some frame
    \/ exists v, In (ValidateImage frame (Resolved v)) l.
Proof.
  intros H. remember (Ok qc) as o eqn:Eo. revert qc Eo.
  induction H as [st|i rest st st' l Hb|i rest st st' l1 o l2 Hb Hl IH
                 |i rest st e l Hb|i rest st l Hb]; intros qc Eo frame Hf;
    try discriminate Eo.
  - injection Eo as <-. now left.
  - injection Eo as <-. right. inversion Hb; subst. cbn in Hf. injection Hf as <-.
    exists v. cbn [In]. rewrite in_app_iff. cbn [In]. tauto.
  - destruct (IH qc Eo frame Hf) as [Hs|(v & Hin)].
    + right. inversion Hb; subst. cbn in Hs. injection Hs as <-.
      exists v. rewrite in_app_iff. cbn [In]. rewrite in_app_iff. cbn [In]. tauto.
    + right. exists v. rewrite in_app_iff. now right.
Qed.

Lemma qcLoop_yields data actor c :
  Yields (qcLoop host data actor c)
    (fun qc l =>
       forall frame, openingFrameData qc = Some frame ->
         exists v, In (ValidateImage frame (Resolved v)) l).
Proof.
  intros w qc E frame Hf. pose proof (qcLoop_run host data actor c w) as H.
  rewrite E in H. destruct (loop_frame_validated _ _ _ _ H frame Hf) as [Hs|Hv];
    [discriminate Hs | exact Hv].
Qed.

Lemma analyzeImages_yields data :
  Yields (analyzeImages host data)
    (fun p l => FromAnalyses data (fst p) l /\ ActorOf data (snd p) l).
Proof.
  intros w [an actor].
  unfold analyzeImages, fileToBase64, analyzeImage, updateProgress, setProgress.
  unfold bind, emit, await, ret, throw, outcome, events, FromAnalyses, ActorOf.
  destruct (UserInput.productImage data) as [p|]; [|discriminate].
  destruct (readAsDataURL host p w) as [[s|e] w1]; [|discriminate].
  destruct (ai_analyzeImage host _ w1) as [[seen|e] w2]; [|discriminate].
  destruct (UserInput.actorImage data) as [f|].
  - destruct (readAsDataURL host f w2) as [[s'|e] w3]; [|discriminate].
    destruct (ai_analyzeImage host _ w3) as [[seen'|e] w4]; [|discriminate].
    cbn. intros [= <- <-]. split.
    + exists p, s, seen. split; [reflexivity|]. split; [tauto|]. split; [tauto|].
      exists s', seen'. split; [tauto|]. split; [tauto | reflexivity].
    + exists s'. split; [reflexivity | tauto].
  - cbn. intros [= <- <-]. split; [|reflexivity].
    exists p, s, seen. split; [reflexivity|]. split; [tauto|]. split; [tauto | reflexivity].
Qed.

(** Either service yields a frame of its reply. *)
Lemma frame_yields (ar : AspectRatio) (actor : option ImageData) (p : string) :
  Yields
    (match actor with
     | Some a => generateOpeningFrameWithActor host p a
     | None =>
         openingFrameB64 <- generateImage host p ar ;;
         ret (mkImageData openingFrameB64 "image/jpeg")
     end)
    (fun frame l => FrameOf ar actor frame l).
Proof.
  intros w frame. destruct actor as [a|]; unfold FrameOf.
  - unfold generateOpeningFrameWithActor, bind, await, emit, throw, ret, outcome, events.
    destruct (ai_generateOpeningFrameWithActor host p a w) as [[res|e] w1];
      simpl; [|discriminate].
    destruct (parts res) as [ps|] eqn:Hp; simpl; [|discriminate].
    destruct (firstInlineData ps) as [d|] eqn:Hd; simpl; [|discriminate].
    intros [= <-]. exists p, res, ps. destruct d. simpl. tauto.
  - unfold generateImage, bind, await, throw, ret, outcome, events.
    destruct (ai_generateImages host p ar w) as [[res|e] w1]; simpl; [|discriminate].
    destruct res as [[|b bs]|]; simpl; try discriminate.
    intros [= <-]. exists p, bs. simpl. tauto.
Qed.

Lemma FrameOf_is_lasting ar actor :
  Lasting (fun e l => forall frame r, e = ValidateImage frame r ->
                                      FrameOf ar actor frame l).
Proof. intros e l1 l2 l3 H frame r E. apply FrameOf_lasting. now apply (H frame r). Qed.

(** An attempt validates the frame that it has generated. *)
Lemma qcAttempt_traces data actor i st :
  Traces isValidation (qcAttempt host data actor i st)
    (fun e l => forall frame r, e = ValidateImage frame r ->
                                FrameOf (UserInput.aspectRatio data) actor frame l).
Proof.
  unfold qcAttempt. eapply Traces_conseq.
  - eapply Traces_bind; [silent | apply Yields_any | intros ?].
    eapply Traces_bind; [| apply frame_yields | intros frame].
    { destruct actor; unfold generateOpeningFrameWithActor, generateImage; classify_fine fail. }
    eapply Traces_bind; [silent | apply Yields_any | intros ?].
    apply Traces_seq with (F := fun e l => exists r, e = ValidateImage frame r).
    + intros e l1 l2 l3 H. exact H.
    + apply Traces_await.
    + intros v. apply Traces_quiet. destruct (isValid v); classify_fine fail.
  - intros e l (? & l1 & l2 & -> & _ & frame & l3 & l4 & -> & Hf & ? & l5 & l6 & -> & _
                & r & ->) frame' r' [= <- <-].
    apply (FrameOf_lasting _ _ _ l1 l3 (l5 ++ l6)) in Hf. exact Hf.
Qed.

End Stages.

Section WholeRun.
Context {W : Type} (host : Host W).
Variables (fuel : nat) (data : UserInput.t).
Local Open Scope list_scope.

(** What is traced in [pipeline] is traced in the run, when the events
    around [pipeline] are not of the kind. *)
Lemma run_traces (trig : Event -> bool) (F : Event -> list Event -> Prop) :
  (forall e, aroundPipeline e = true -> trig e = false) ->
  Lasting F ->
  Traces trig (pipeline host fuel data) F ->
  Traces trig (handleGenerateAd host fuel data) F.
Proof.
  intros Hq HF Hp.
  assert (Hw : forall A (m : M W A), Only aroundPipeline m -> Traces trig m F).
  { intros A m Hm. apply Traces_quiet. eapply Only_weaken; [|exact Hm].
    intros e He. now rewrite (Hq e He). }
  unfold handleGenerateAd, tryPipeline.
  apply Traces_seq; [exact HF | apply Hw; silent | intros ?].
  apply Traces_seq; [exact HF | apply Hw; silent | intros ?].
  apply Traces_seq; [exact HF | apply Hw; silent | intros ?].
  apply Traces_seq; [exact HF | apply Hw | intros ?].
  { eapply Only_weaken; [|apply apiKeyCheck_class]. now intros []. }
  apply Traces_tryFinally; [exact HF | | apply Hw; silent].
  apply Traces_tryCatch; [exact HF | exact Hp | intros e; apply Hw; silent].
Qed.

Lemma last_set {X} (l : list (option X)) (d : option X) (x : X) :
  last l d = Some x -> l <> [] -> In (Some x) l.
Proof.
  induction l as [|y l IH]; intros H Hn; [now destruct Hn|].
  destruct l as [|z l]; [left; exact H|]. right. apply IH; [exact H | discriminate].
Qed.

Lemma delivers_outside (e : Event) : aroundPipeline e = true -> delivers e = false.
Proof.
  intros H. destruct e; try reflexivity; try discriminate H.
  destruct r; [discriminate H | reflexivity].
Qed.

Lemma made_lasting :
  Lasting (fun e l => forall out, e = SetResult (Some out) -> MadeFrom host data out l).
Proof. intros e l1 l2 l3 H out E. apply MadeFrom_lasting. now apply H. Qed.

Lemma pipeline_made :
  Traces delivers (pipeline host fuel data)
    (fun e l => forall out, e = SetResult (Some out) -> MadeFrom host data out l).
Proof.
  unfold pipeline.
  apply Traces_seq; [apply made_lasting | apply Traces_quiet; silent | intros [ia actor]].
  apply Traces_seq; [apply made_lasting | apply Traces_quiet; silent | intros ?].
  apply Traces_seq; [apply made_lasting | apply Traces_quiet; silent | intros c].
  eapply Traces_conseq;
    [eapply Traces_bind; [silent | apply qcLoop_yields | intros qc; apply finishAd_filmed]|].
  intros e l (qc & l1 & l2 & -> & Hq & Hf) out ->.
  destruct (Hf out eq_refl) as (frame & Hfr & Hfilm).
  destruct (Hq frame Hfr) as (v & Hv).
  now exists (concept qc), frame, v, l1, l2.
Qed.

(** X24.  What is delivered is what was made.  When a run leaves an output
    on the page, the output shows, as the data URL of its media type and
    payload, a frame that a validation of this run has answered for.  After
    that validation the run has, in this order: called the director for
    the concept whose frame prompt the output shows, and got the script of
    the output; submitted the video job with that script and that frame, in
    the aspect ratio of the brief; downloaded, with the key appended, the
    URI of a job reply that reported done; and created the video URL of
    the output for the blob of that download.  For a brief with voiceover
    the run has then called the speech service for the tone and the call to
    action of the brief and created the voiceover URL of the output for an
    [audio/wav] blob that holds the container of the decoded answer; for a
    brief without, the output has no voiceover. *)
Theorem delivered_output_is_what_was_made (w : W) (a : AppState) (out : FinalOutput.t) :
  result (appAfter a (events (handleGenerateAd host fuel data w))) = Some out ->
  MadeFrom host data out (events (handleGenerateAd host fuel data w)).
Proof.
  intros Hres.
  assert (Hin : In (SetResult (Some out)) (events (handleGenerateAd host fuel data w))).
  { rewrite result_appAfter in Hres. apply last_set in Hres.
    unfold results in Hres. apply in_flat_map in Hres. destruct Hres as (e & He & Hx).
    - destruct e; try (now destruct Hx). destruct Hx as [<-|[]]. exact He.
    - destruct (run_seen host fuel data w) as (l & s & po & _ & Hr & _).
      rewrite Hr. discriminate. }
  pose proof (run_traces delivers _ delivers_outside made_lasting pipeline_made w) as H.
  apply (H (SetResult (Some out)) Hin eq_refl out eq_refl).
Qed.

Lemma concept_outside (e : Event) : aroundPipeline e = true -> isConceptCall e = false.
Proof. intros H. destruct e; try reflexivity; discriminate H. Qed.

Lemma validation_outside (e : Event) : aroundPipeline e = true -> isValidation e = false.
Proof. intros H. destruct e; try reflexivity; discriminate H. Qed.

Lemma pipeline_concept :
  Traces isConceptCall (pipeline host fuel data)
    (fun e l =>
       forall analysis description tone r,
         e = GenerateAdConcept analysis description tone r ->
         description = UserInput.productDescription data
         /\ tone = UserInput.tone data
         /\ FromAnalyses data analysis l).
Proof.
  unfold pipeline. eapply Traces_conseq.
  - eapply Traces_bind
      with (G := fun p e l =>
                   forall analysis description tone r,
                     e = GenerateAdConcept analysis description tone r ->
                     analysis = fst p
                     /\ description = UserInput.productDescription data
                     /\ tone = UserInput.tone data);
      [silent | apply analyzeImages_yields | intros [ia actor]].
    apply Traces_seq; [now intros e l1 l2 l3 H | apply Traces_quiet; silent | intros ?].
    apply Traces_seq; [now intros e l1 l2 l3 H | |].
    + eapply Traces_conseq; [apply Traces_await|].
      intros e l (r & ->) analysis description tone r' [= <- <- <- _]. now repeat split.
    + intros c. apply Traces_quiet. unfold finishAd. silent.
  - intros e l (p & l1 & l2 & -> & (Ha & _) & H) analysis description tone r ->.
    destruct (H _ _ _ _ eq_refl) as (-> & -> & ->). split; [reflexivity|].
    split; [reflexivity|]. clear H. destruct Ha as (product & payload & seen & A1 & A2 & A3 & A4).
    exists product, payload, seen. rewrite !in_app_iff. split; [exact A1|].
    split; [tauto|]. split; [tauto|].
    destruct (UserInput.actorImage data); [|exact A4].
    destruct A4 as (payload' & seen' & B1 & B2 & B3). exists payload', seen'.
    rewrite !in_app_iff. tauto.
Qed.

(** X25.  The concept comes from the analyses.  A concept call of a run is
    made with the product description and the tone of the brief, and with
    the answer of the analysis of the product image as the file reader
    returned it; for a brief with an actor image the answer of the analysis
    of that image is appended to it under the heading [Actor Analysis: ]. *)
Theorem concept_is_made_from_the_analyses (w : W)
    (analysis description tone : string) (r : Settled AdConcept) :
  In (GenerateAdConcept analysis description tone r)
     (events (handleGenerateAd host fuel data w)) ->
  description = UserInput.productDescription data
  /\ tone = UserInput.tone data
  /\ FromAnalyses data analysis (events (handleGenerateAd host fuel data w)).
Proof.
  intros Hin.
  assert (HF : Lasting (fun e l =>
                 forall analysis description tone r,
                   e = GenerateAdConcept analysis description tone r ->
                   description = UserInput.productDescription data
                   /\ tone = UserInput.tone data
                   /\ FromAnalyses data analysis l)).
  { intros e l1 l2 l3 H an d t r' E. destruct (H an d t r' E) as (H1 & H2 & H3).
    split; [exact H1|]. split; [exact H2|].
    destruct H3 as (product & payload & seen & A1 & A2 & A3 & A4).
    exists product, payload, seen. rewrite !in_app_iff. split; [exact A1|].
    split; [tauto|]. split; [tauto|].
    destruct (UserInput.actorImage data); [|exact A4].
    destruct A4 as (payload' & seen' & B1 & B2 & B3). exists payload', seen'.
    rewrite !in_app_iff. tauto. }
  exact (run_traces isConceptCall _ concept_outside HF pipeline_concept w _ Hin eq_refl
           _ _ _ _ eq_refl).
Qed.

Lemma pipeline_frames :
  Traces isValidation (pipeline host fuel data)
    (fun e l => forall frame r, e = ValidateImage frame r -> FrameFrom data frame l).
Proof.
  unfold pipeline. eapply Traces_conseq.
  - eapply Traces_bind
      with (G := fun p e l =>
                   forall frame r, e = ValidateImage frame r ->
                     FrameOf (UserInput.aspectRatio data) (snd p) frame l);
      [silent | apply analyzeImages_yields | intros [ia actor]].
    cbn [snd].
    apply Traces_seq; [apply FrameOf_is_lasting | apply Traces_quiet; silent | intros ?].
    apply Traces_seq; [apply FrameOf_is_lasting | apply Traces_quiet; silent | intros c].
    apply Traces_seq; [apply FrameOf_is_lasting | |].
    + unfold qcLoop. apply Traces_forEach; [apply FrameOf_is_lasting|].
      intros i st. apply qcAttempt_traces.
    + intros qc. apply Traces_quiet. unfold finishAd. silent.
  - intros e l (p & l1 & l2 & -> & (_ & Ha) & H) frame r ->.
    exists (snd p). split.
    + apply (ActorOf_lasting data (snd p) [] l1 l2) in Ha. exact Ha.
    + specialize (H frame r eq_refl).
      apply (FrameOf_lasting _ _ _ l1 l2 []) in H. now rewrite app_nil_r in H.
Qed.

(** X26.  QC looks at the frame that was generated.  A frame that a run
    validates is, for a brief without actor image, the first image of a
    reply of the image service in the aspect ratio of the brief, as
    [image/jpeg]; for a brief with an actor image it is the first inline
    part of a reply of the actor service, which was called with that image
    as the file reader returned it. *)
Theorem validated_frame_is_a_generated_frame (w : W) (frame : ImageData)
    (r : Settled ImageValidationResult) :
  In (ValidateImage frame r) (events (handleGenerateAd host fuel data w)) ->
  FrameFrom data frame (events (handleGenerateAd host fuel data w)).
Proof.
  intros Hin.
  assert (HF : Lasting (fun e l => forall frame r, e = ValidateImage frame r ->
                                                   FrameFrom data frame l)).
  { intros e l1 l2 l3 H fr r' E. destruct (H fr r' E) as (actor & H1 & H2).
    exists actor. split; [now apply ActorOf_lasting | now apply FrameOf_lasting]. }
  exact (run_traces isValidation _ validation_outside HF pipeline_frames w _ Hin eq_refl
           _ _ eq_refl).
Qed.

End WholeRun.

(* ================================================================== *)
(** * More scenarios *)
(* ================================================================== *)

Section MoreScenarios.
Import Scripted.
Local Open Scope string_scope.
Local Open Scope list_scope.

(** The four sample bytes of the scripted voice reply, in their container. *)
Lemma speech_container_witness :
  (exists url, outcome (generateSpeech host "Shop now" passScript) = Ok url)
  /\ exists wav,
       length wav = 48
       /\ skipn 44 wav = Buffer.ascii_bytes "RIFF"
       /\ events (generateSpeech host "Shop now" passScript)
          = [GenerateSpeech "Shop now" (Resolved (Some "RIFF"));
             CreateObjectURL (mkBlob wav "audio/wav") "blob:audio/wav"].
Proof.
  destruct (speech_container host "Shop now" passScript)
    as (_ & _ & H & _ & _ & _ & Hif & _).
  split; [apply (Hif "RIFF" "RIFF"); [reflexivity | discriminate | reflexivity]|].
  destruct (H "blob:audio/wav" eq_refl) as (b64 & bin & wav & Hr & _ & Hb & Hl & Hs & He).
  injection Hr as <-. injection Hb as <-.
  exists wav. split; [exact Hl|]. split; [exact Hs | exact He].
Defined.

(** The scripted reply of the actor call: a text part, then the image. *)
Lemma actor_frame_is_first_inline_part_witness :
  outcome (generateOpeningFrameWithActor host prompt1 (png "face") passScript)
  = Ok (png prompt1).
Proof.
  destruct (actor_frame_is_first_inline_part host prompt1 (png "face") passScript)
    as (_ & H & _).
  apply (proj2 (H (png prompt1))).
  exists (mkContent (Some [mkPart None; mkPart (Some (png prompt1))]) None),
         [mkPart None], [].
  split; [reflexivity|]. split; [reflexivity|]. repeat constructor.
Defined.

(** A job that is done at the second poll. *)
Lemma polling_discipline_witness :
  done finished = true
  /\ last (map snd (polls (events (pollLoop host 5 onVideoProgress running 1
                                     (script [] [running; finished])))))
          (Resolved running)
     = Resolved finished.
Proof.
  destruct (polling_discipline host 5 running 1 (script [] [running; finished]))
    as (_ & _ & _ & _ & _ & _ & H & _).
  apply H. reflexivity.
Defined.

(** Inside AI Studio with a key question that fails: the run stops loading
    nothing, and the page keeps saying that it is loading. *)
(** A key question that is rejected, and a key dialog that is. *)
Lemma key_check_failure_is_not_handled_witness :
  (outcome (handleGenerateAd (inStudio (Rejected quotaError) (Resolved tt)) 5
              retryBrief passScript) = Throw quotaError
   /\ isLoading (appAfter initialApp
                   (events (handleGenerateAd (inStudio (Rejected quotaError) (Resolved tt))
                              5 retryBrief passScript))) = true)
  /\ outcome (handleGenerateAd (inStudio (Resolved false) (Rejected quotaError)) 5
                retryBrief passScript) = Throw quotaError
  /\ events (handleGenerateAd (inStudio (Resolved false) (Rejected quotaError)) 5
               retryBrief passScript)
     = [SetIsLoading true; SetError None; SetResult None;
        HasSelectedApiKey (Resolved false); OpenSelectKey (Rejected quotaError)].
Proof.
  split.
  - destruct (key_check_failure_is_not_handled
                (inStudio (Rejected quotaError) (Resolved tt)) 5 retryBrief passScript
                initialApp) as (H & _).
    destruct (H quotaError passScript eq_refl eq_refl) as (Ho & _ & Hl & _).
    split; [exact Ho | exact Hl].
  - destruct (key_check_failure_is_not_handled
                (inStudio (Resolved false) (Rejected quotaError)) 5 retryBrief passScript
                initialApp) as (_ & H).
    destruct (H quotaError passScript passScript eq_refl eq_refl eq_refl) as (Ho & He & _).
    split; [exact Ho | exact He].
Defined.

(** A run that returns, and a run rejected at the key check. *)
Lemma ended_run_shows_result_or_error_witness :
  (showsProgressBar (appAfter initialApp passEvents) = false
   /\ xorb (showsResults (appAfter initialApp passEvents))
           (showsError (appAfter initialApp passEvents)) = true)
  /\ showsProgressBar
       (appAfter initialApp
          (events (handleGenerateAd (inStudio (Rejected quotaError) (Resolved tt)) 5
                     retryBrief passScript))) = true.
Proof.
  split.
  - destruct (ended_run_shows_result_or_error host 5 fullBrief passScript initialApp)
      as (H & _).
    destruct (H eq_refl) as (H1 & H2 & _). split; [exact H1 | exact H2].
  - destruct (ended_run_shows_result_or_error
                (inStudio (Rejected quotaError) (Resolved tt)) 5 retryBrief passScript
                initialApp) as (_ & H & _).
    destruct (H quotaError passScript eq_refl eq_refl) as (H1 & _). exact H1.
Defined.

Lemma pass_after_retries_is_noted_witness :
  exists out,
    result (appAfter initialApp retryEvents) = Some out
    /\ FinalOutput.qc_notes out = "QC passed on attempt 2."
    /\ FinalOutput.opening_frame_image_url out
       = ("data:image/jpeg;base64," ++ prompt2)%string
    /\ FinalOutput.opening_frame_prompt out = prompt2.
Proof.
  destruct (result (appAfter initialApp retryEvents)) as [out|] eqn:E;
    [|vm_compute in E; discriminate E].
  exists out. split; [reflexivity|].
  destruct (pass_after_retries_is_noted host 5 retryBrief retryScript initialApp
              [(jpeg prompt1, cutOff)] (jpeg prompt2) pass
              (mkAdConcept "Red" "Idea" "Short" prompt1) out)
    as (_ & H1 & H2 & H3); try reflexivity.
  - repeat constructor.
  - discriminate.
  - exact E.
  - split; [exact H1|]. split; [exact H2 | exact H3].
Defined.

Lemma output_carries_brief_and_concept_witness :
  exists out,
    result (appAfter initialApp passEvents) = Some out
    /\ FinalOutput.cta_line out = "Shop now"
    /\ FinalOutput.platform out = platformText TikTok.
Proof.
  destruct (result (appAfter initialApp passEvents)) as [out|] eqn:E;
    [|vm_compute in E; discriminate E].
  exists out. split; [reflexivity|].
  destruct (output_carries_brief_and_concept host 5 fullBrief passScript initialApp out E)
    as (H1 & _ & H2 & _).
  split; [exact H1 | exact H2].
Defined.

(** Inside AI Studio without a selected key, the banner shows after mount. *)
Lemma key_banner_after_mount_witness :
  showsKeyBanner
    (appAfter initialApp
       (events (checkApiKey (inStudio (Resolved false) (Resolved tt)) passScript)))
  = true.
Proof.
  destruct (key_banner_after_mount (inStudio (Resolved false) (Resolved tt)) passScript)
    as (H & _).
  apply (proj2 H). split; reflexivity.
Defined.

(** A run whose video job cannot be submitted: after the rejected call the
    run only logs, reports and resets. *)
Lemma no_call_after_rejection_witness :
  exists pre,
    events (handleGenerateAd host 5 retryBrief (script [pass] []))
    = pre ++ GenerateVideos "One continuous scene" (jpeg prompt1) Portrait
               (Rejected (Error "no job state left"))
          :: [ConsoleError; SetError (Some "no job state left");
              SetIsLoading false; SetProgress idle]
    /\ filter proceeds [ConsoleError; SetError (Some "no job state left");
                        SetIsLoading false; SetProgress idle] = [].
Proof.
  exists (firstn 16 (events (handleGenerateAd host 5 retryBrief (script [pass] [])))).
  split; [reflexivity|].
  apply (no_call_after_rejection host 5 retryBrief (script [pass] [])
           (firstn 16 (events (handleGenerateAd host 5 retryBrief (script [pass] []))))
           (GenerateVideos "One continuous scene" (jpeg prompt1) Portrait
              (Rejected (Error "no job state left"))));
    reflexivity.
Defined.

(** The first validation of the retry run happens under step 4. *)
Lemma calls_are_announced_witness :
  last (progressSteps (firstn 11 retryEvents)) 0 = 4
  /\ fits (last (progressSteps (firstn 11 retryEvents)) 0)
          (ValidateImage (jpeg prompt1) (Resolved cutOff)) = true.
Proof.
  split; [reflexivity|].
  apply (calls_are_announced host 5 retryBrief retryScript 0
           (firstn 11 retryEvents) (ValidateImage (jpeg prompt1) (Resolved cutOff))
           (skipn 12 retryEvents)).
  reflexivity.
Defined.

(** A brief without voiceover: no speech call and no step 7. *)
Lemma run_follows_the_brief_witness :
  (forall text r, ~ In (GenerateSpeech text r) retryEvents)
  /\ ~ In 7 (progressSteps retryEvents).
Proof.
  destruct (run_follows_the_brief host 5 retryBrief retryScript) as (_ & H & _).
  apply H. reflexivity.
Defined.

(** The button of the banner: inside AI Studio it hides the banner, outside
    it does nothing and a run leaves the banner where it is. *)
Lemma key_banner_outside_studio_stays_witness :
  showsKeyBanner
    (appAfter keyMissing
       (events (handleSelectKey (inStudio (Resolved false) (Resolved tt)) passScript)))
  = false
  /\ events (handleSelectKey host passScript) = []
  /\ showsKeyBanner (appAfter keyMissing passEvents) = true.
Proof.
  split.
  - destruct (key_banner_outside_studio_stays (inStudio (Resolved false) (Resolved tt))
                5 fullBrief passScript keyMissing) as (H & _).
    apply (H passScript); reflexivity.
  - destruct (key_banner_outside_studio_stays host 5 fullBrief passScript keyMissing)
      as (_ & H).
    apply H; reflexivity.
Defined.

Lemma progress_bar_stays_in_track_witness :
  (0 <= percentage (mkProgress 4 "Validating frame (Attempt 2/3)...") TOTAL_STEPS)%Q
  /\ (percentage (mkProgress 4 "Validating frame (Attempt 2/3)...") TOTAL_STEPS <= 100)%Q.
Proof.
  destruct (progress_bar_stays_in_track host 5 retryBrief retryScript
              (mkProgress 4 "Validating frame (Attempt 2/3)..."))
    as (H1 & H2 & _).
  - vm_compute. tauto.
  - split; [exact H1 | exact H2].
Defined.

Lemma data_url_round_trip_witness :
  Studio.dataUrlToImageData "data:image/jpeg;base64,AAAA"
  = Studio.mkBaseImage (Some "AAAA") "image/jpeg".
Proof.
  destruct (data_url_round_trip "image/jpeg" "AAAA") as (H & _).
  destruct H as (_ & H); [reflexivity | discriminate |].
  apply H. reflexivity.
Defined.

Lemma delivered_output_is_what_was_made_witness :
  exists out,
    result (appAfter initialApp passEvents) = Some out
    /\ MadeFrom host fullBrief out passEvents.
Proof.
  destruct (result (appAfter initialApp passEvents)) as [out|] eqn:E;
    [|vm_compute in E; discriminate E].
  exists out. split; [reflexivity|].
  exact (delivered_output_is_what_was_made host 5 fullBrief passScript initialApp out E).
Defined.

Lemma concept_is_made_from_the_analyses_witness :
  FromAnalyses fullBrief
    ("a red silk dress" ++ LF ++ "Actor Analysis: " ++ "a red silk dress")%string
    passEvents.
Proof.
  destruct (concept_is_made_from_the_analyses host 5 fullBrief passScript
              ("a red silk dress" ++ LF ++ "Actor Analysis: " ++ "a red silk dress")%string
              "A vibrant red summer dress made of silk." "cinematic, luxury"
              (Resolved (mkAdConcept "Red" "Idea" "Short" prompt1)))
    as (_ & _ & H); [|exact H].
  apply (nth_error_In _ 9). reflexivity.
Defined.

Lemma validated_frame_is_a_generated_frame_witness :
  FrameFrom fullBrief (png prompt1) passEvents.
Proof.
  apply (validated_frame_is_a_generated_frame host 5 fullBrief passScript
           (png prompt1) (Resolved pass)).
  apply (nth_error_In _ 13). reflexivity.
Defined.

End MoreScenarios.

Section StudioScenarios.
Import Studio StudioScript.
Local Open Scope string_scope.
Local Open Scope list_scope.

Lemma model_image_is_generated_from_description_witness :
  exists g,
    fst (fst (generateModelImage server (mkImageData "iVBORw0KGgo=" "image/png")
                (mkImageData "iVBORw0KGgo=" "image/jpeg") (Resolved retouched)))
    = Resolved g
    /\ includes "a red silk dress" (prompt g) = true.
Proof.
  pose proof (model_image_is_generated_from_description server
                (mkImageData "iVBORw0KGgo=" "image/png")
                (mkImageData "iVBORw0KGgo=" "image/jpeg") (Resolved retouched)) as H.
  remember (generateModelImage server (mkImageData "iVBORw0KGgo=" "image/png")
              (mkImageData "iVBORw0KGgo=" "image/jpeg") (Resolved retouched))
    as run eqn:E.
  vm_compute in E. subst run. cbv beta iota in H.
  destruct H as (_ & _ & H).
  eexists. split; [reflexivity|].
  destruct (H _ eq_refl) as (description & reply & ps & pre & d & post
                             & Hd & _ & Hi & _).
  injection Hd as <-. exact Hi.
Defined.

(** A generation with both files chosen. *)
Lemma model_submit_settles_witness :
  atOnce (fst (fst (handleSubmit server ready (Resolved retouched))))
  = [SetIsLoading true; SetError None; SetResult None; SetPromptHistory []]
  /\ exists g,
       onSettle (fst (fst (handleSubmit server ready (Resolved retouched))))
       = [SetResult (Some g); SetPromptHistory [prompt g]; SetIsLoading false]
       /\ g = generated.
Proof.
  pose proof (model_submit_settles server ready (Resolved retouched)) as H.
  cbv zeta in H. destruct H as (_ & _ & H).
  destruct (H look face eq_refl eq_refl)
    as (H1 & _ & _ & [(g & p1 & p2 & w2 & Hs & _)|(msg & _ & Hs)]).
  - split; [exact H1|]. exists g. split; [exact Hs|].
    vm_compute in Hs. injection Hs as Hg _. rewrite <- Hg. reflexivity.
  - vm_compute in Hs. discriminate Hs.
Defined.

(** An edit of the generated image that the server answers with a new
    image, and one that it rejects. *)
Lemma model_edit_settles_witness :
  onSettle (fst (fst (handleEditSubmit server editing (Resolved retouched))))
  = [PatchImageUrl "data:image/jpeg;base64,BBBB"; AppendToHistory "make the dress blue";
     SetEditPrompt EmptyString; SetIsEditing false]
  /\ exists msg,
       msg <> EmptyString
       /\ onSettle (fst (fst (handleEditSubmit server editing
                                (Rejected (Error "Quota exceeded")))))
          = [SetError (Some msg); SetIsEditing false].
Proof.
  split.
  - pose proof (model_edit_settles server editing (Resolved retouched)) as H.
    cbv zeta in H. destruct H as (_ & H).
    destruct (H generated eq_refl eq_refl)
      as (_ & reply & rest & Hc & _ & [(res & ps & d & Hr & Hp & Hd & Hs)|(msg & _ & Hs)]).
    + rewrite Hs. vm_compute in Hc. injection Hc as Hc _. subst reply.
      injection Hr as <-. vm_compute in Hp. injection Hp as <-.
      vm_compute in Hd. injection Hd as <-. reflexivity.
    + vm_compute in Hs. discriminate Hs.
  - pose proof (model_edit_settles server editing (Rejected (Error "Quota exceeded"))) as H.
    cbv zeta in H. destruct H as (_ & H).
    destruct (H generated eq_refl eq_refl)
      as (_ & reply & rest & _ & _ & [(res & ps & d & _ & _ & _ & Hs)|(msg & Hm & Hs)]).
    + vm_compute in Hs. discriminate Hs.
    + now exists msg.
Defined.

Lemma model_edit_sends_what_is_shown_witness :
  exists reply rest,
    snd (handleEditSubmit server editing (Resolved retouched))
    = PreventDefault
      :: EditModel (mkBaseImage (Some "AAAA") "image/png") "make the dress blue" reply
      :: rest.
Proof.
  apply (model_edit_sends_what_is_shown server editing (Resolved retouched)
           "image/png" "AAAA" (generationPrompt "a red silk dress"));
    try reflexivity; discriminate.
Defined.

End StudioScenarios.
